(** * RuiQi inspection agent: request correlation, client-IP derivation,
      the IP ban registry with its expiry heap, and the write-behind
      persisters.

    The development is a shallow embedding of
    [coraza-spoa/internal/application.go] and
    [coraza-spoa/internal/flow-controller/ip_record.go] (which also holds the
    security-log store).  Go library functions the code calls ([strings],
    [bytes], [bufio.Scanner], [container/heap], buffered channels,
    [sync.Mutex.TryLock]) are modelled next to the code that uses them. *)

From Stdlib Require Import ZArith NArith Ascii String List Lia Bool.
From stdpp Require Import base option list gmap strings fin_maps.

Local Open Scope Z_scope.

(* ===================================================================== *)
(** * Go library functions on byte strings *)
(* ===================================================================== *)

(** Byte slices and Go strings are both modelled as [string] (a sequence of
    8-bit characters).  Runes are numbers ([N]); [utf8.DecodeRune],
    [utf8.DecodeLastRune] and [unicode.IsSpace] are modelled in full, so
    [TrimSpace] trims Unicode white space as the library does and treats
    bytes that are not UTF-8 as the library does (each is the rune U+FFFD,
    one byte wide).  [EqualFold] compares rune by rune; the orbits of
    [unicode.SimpleFold] are written out for the runes below 0x80 (whose
    only partners above are U+017F for s and U+212A for k), which settles
    every comparison in which one of the two runes is below 0x80; two
    different runes that are both above 0x7F are taken as different.  The
    program compares header names against ASCII literals only. *)
Module GoStrings.

Definition LF : ascii := "010"%char.
Definition CR : ascii := "013"%char.
Definition dquote : ascii := "034"%char.

Definition is_empty (s : string) : bool :=
  match s with EmptyString => true | String _ _ => false end.

(** ** unicode/utf8 *)

Definition RuneSelf : N := 128.
Definition RuneError : N := 65533.

(** The table [first] with its accept ranges: for a leading byte, the
    length of the sequence and the bounds of its second byte; [None] for
    the bytes that lead no sequence (0x80-0xC1, 0xF5-0xFF). *)
Definition first (p0 : N) : option (nat * N * N) :=
  (if p0 <? 194 then None
   else if p0 <? 224 then Some (2%nat, 128, 191)
   else if p0 =? 224 then Some (3%nat, 160, 191)
   else if p0 =? 237 then Some (3%nat, 128, 159)
   else if p0 <? 240 then Some (3%nat, 128, 191)
   else if p0 =? 240 then Some (4%nat, 144, 191)
   else if p0 <? 244 then Some (4%nat, 128, 191)
   else if p0 =? 244 then Some (4%nat, 128, 143)
   else None)%N.

(** A continuation byte, 0x80-0xBF. *)
Definition continuation (b : N) : bool := ((128 <=? b) && (b <=? 191))%N.

(** [utf8.DecodeRune]: the rune at the front of [p] and its width in
    bytes; ([RuneError], 1) for what is not a well-formed sequence. *)
Definition DecodeRune (p : string) : N * nat :=
  match p with
  | EmptyString => (RuneError, 0%nat)
  | String c0 p1 =>
      let p0 := N_of_ascii c0 in
      if (p0 <? RuneSelf)%N then (p0, 1%nat)
      else
        match first p0 with
        | None => (RuneError, 1%nat)
        | Some (sz, lo, hi) =>
            if (String.length p <? sz)%nat then (RuneError, 1%nat)
            else
              match p1 with
              | EmptyString => (RuneError, 1%nat)
              | String c1 p2 =>
                  let b1 := N_of_ascii c1 in
                  if ((b1 <? lo) || (hi <? b1))%N then (RuneError, 1%nat)
                  else if (sz <=? 2)%nat then
                    (N.lor (N.shiftl (N.land p0 31) 6) (N.land b1 63), 2%nat)
                  else
                    match p2 with
                    | EmptyString => (RuneError, 1%nat)
                    | String c2 p3 =>
                        let b2 := N_of_ascii c2 in
                        if negb (continuation b2) then (RuneError, 1%nat)
                        else if (sz <=? 3)%nat then
                          (N.lor (N.shiftl (N.land p0 15) 12)
                             (N.lor (N.shiftl (N.land b1 63) 6)
                                    (N.land b2 63)), 3%nat)
                        else
                          match p3 with
                          | EmptyString => (RuneError, 1%nat)
                          | String c3 _ =>
                              let b3 := N_of_ascii c3 in
                              if negb (continuation b3)
                              then (RuneError, 1%nat)
                              else
                                (N.lor (N.shiftl (N.land p0 7) 18)
                                   (N.lor (N.shiftl (N.land b1 63) 12)
                                      (N.lor (N.shiftl (N.land b2 63) 6)
                                             (N.land b3 63))), 4%nat)
                          end
                    end
              end
        end
  end.

(** [utf8.RuneStart]: not a continuation byte. *)
Definition RuneStart (c : ascii) : bool :=
  negb (N.land (N_of_ascii c) 192 =? 128)%N.

(** The search for the start of the last rune in [DecodeLastRune], on the
    bytes of [p] from the last to the first: the number of bytes from the
    start it settles on to the end of [p].  It looks at most three bytes
    back from the last one and stops at the first that can start a rune;
    finding none it stops one byte further back, or at the front of
    [p]. *)
Definition lastRuneSpan (rs : list ascii) : nat :=
  match rs with
  | _ :: b2 :: rest2 =>
      if RuneStart b2 then 2%nat
      else match rest2 with
           | [] => 2%nat
           | b3 :: rest3 =>
               if RuneStart b3 then 3%nat
               else match rest3 with
                    | [] => 3%nat
                    | b4 :: rest4 =>
                        if RuneStart b4 then 4%nat
                        else match rest4 with
                             | [] => 4%nat
                             | _ :: _ => 5%nat
                             end
                    end
           end
  | _ => length rs
  end.

(** [utf8.DecodeLastRune] on the bytes of [p] from the last to the first:
    the last rune of [p] and its width. *)
Definition DecodeLastRune_rev (rs : list ascii) : N * nat :=
  match rs with
  | [] => (RuneError, 0%nat)
  | c :: _ =>
      let r := N_of_ascii c in
      if (r <? RuneSelf)%N then (r, 1%nat)
      else
        let k := lastRuneSpan rs in
        let '(r, size) :=
          DecodeRune (string_of_list_ascii (rev (take k rs))) in
        if (size =? k)%nat then (r, size) else (RuneError, 1%nat)
  end.

Definition DecodeLastRune (p : string) : N * nat :=
  DecodeLastRune_rev (rev (list_ascii_of_string p)).

(** [unicode.IsSpace]: the Latin-1 cases, then the White_Space table. *)
Definition IsSpace (r : N) : bool :=
  (if r <=? 255 then
     (r =? 9) || (r =? 10) || (r =? 11) || (r =? 12) || (r =? 13)
     || (r =? 32) || (r =? 133) || (r =? 160)
   else
     (r =? 5760) || ((8192 <=? r) && (r <=? 8202)) || (r =? 8232)
     || (r =? 8233) || (r =? 8239) || (r =? 8287) || (r =? 12288))%N.

(** ** strings and bytes *)

(** [s[n:]] *)
Fixpoint dropBytes (n : nat) (s : string) : string :=
  match n, s with
  | S n', String _ s' => dropBytes n' s'
  | _, _ => s
  end.

(** [TrimLeftFunc]: the runes are decoded from the front and dropped as
    long as [f] holds; every turn drops at least one byte. *)
Fixpoint TrimLeftFunc_loop (fuel : nat) (f : N -> bool) (s : string)
  : string :=
  match fuel, s with
  | S fuel', String _ _ =>
      let '(r, wid) := DecodeRune s in
      if f r then TrimLeftFunc_loop fuel' f (dropBytes wid s) else s
  | _, _ => s
  end.

Definition TrimLeftFunc (f : N -> bool) (s : string) : string :=
  TrimLeftFunc_loop (String.length s) f s.

(** [TrimRightFunc] on the bytes from the last to the first: the runes are
    decoded from the end with [DecodeLastRune] and dropped as long as [f]
    holds.  (The library then measures the rune it stopped at from the
    front again; that rune is the one [DecodeLastRune] found, or a single
    byte.) *)
Fixpoint TrimRightFunc_loop (fuel : nat) (f : N -> bool) (rs : list ascii)
  : list ascii :=
  match fuel, rs with
  | S fuel', _ :: _ =>
      let '(r, size) := DecodeLastRune_rev rs in
      if f r then TrimRightFunc_loop fuel' f (drop size rs) else rs
  | _, _ => rs
  end.

Definition TrimRightFunc (f : N -> bool) (s : string) : string :=
  string_of_list_ascii
    (rev (TrimRightFunc_loop (String.length s) f
            (rev (list_ascii_of_string s)))).

(** [bytes.TrimSpace] and [strings.TrimSpace].  Their fast path walks over
    ASCII white space byte by byte and hands what is left to
    [TrimFunc(s, unicode.IsSpace)] at the first byte above 0x7F; on ASCII
    bytes the two walks are the same, so the result is that of
    [TrimFunc] on all of [s]. *)
Definition TrimSpace (s : string) : string :=
  TrimRightFunc IsSpace (TrimLeftFunc IsSpace s).

Fixpoint trimLeftByte (s : string) (c : ascii) : string :=
  match s with
  | EmptyString => EmptyString
  | String a s' => if Ascii.eqb a c then trimLeftByte s' c else s
  end.

Fixpoint trimRightByte (s : string) (c : ascii) : string :=
  match s with
  | EmptyString => EmptyString
  | String a s' =>
      match trimRightByte s' c with
      | EmptyString => if Ascii.eqb a c then EmptyString
                       else String a EmptyString
      | r => String a r
      end
  end.

(** [strings.Trim(s, cutset)] for a cutset of one ASCII byte. *)
Definition Trim (s : string) (cut : ascii) : string :=
  trimLeftByte (trimRightByte s cut) cut.

(** [strings.Split(s, sep)] for a one-byte separator: n separators give
    n+1 pieces, the empty string gives one empty piece. *)
Fixpoint Split (s : string) (sep : ascii) : list string :=
  match s with
  | EmptyString => [EmptyString]
  | String c s' =>
      if Ascii.eqb c sep then EmptyString :: Split s' sep
      else match Split s' sep with
           | x :: xs => String c x :: xs
           | [] => [String c EmptyString]
           end
  end.

(** The text before and after the first [sep], when there is one. *)
Fixpoint Cut (s : string) (sep : ascii) : option (string * string) :=
  match s with
  | EmptyString => None
  | String c s' =>
      if Ascii.eqb c sep then Some (EmptyString, s')
      else match Cut s' sep with
           | Some (a, b) => Some (String c a, b)
           | None => None
           end
  end.

(** [SplitN(s, sep, 2)]: at most two pieces. *)
Definition SplitN_2 (s : string) (sep : ascii) : list string :=
  match Cut s sep with
  | Some (a, b) => [a; b]
  | None => [s]
  end.

(** The runes of a string, as [for _, r := range s] yields them. *)
Fixpoint runes_loop (fuel : nat) (s : string) : list N :=
  match fuel, s with
  | S fuel', String _ _ =>
      let '(r, wid) := DecodeRune s in
      r :: runes_loop fuel' (dropBytes wid s)
  | _, _ => []
  end.

Definition runes (s : string) : list N := runes_loop (String.length s) s.

(** Walking [unicode.SimpleFold] from [lo] reaches [hi], for [lo < hi] and
    [hi] above 0x7F.  From K and k the walk comes to U+212A, from S and s
    to U+017F, and from no other rune below 0x80 does it leave the runes
    below 0x80. *)
Definition SimpleFold_reaches (lo hi : N) : bool :=
  (if lo <? RuneSelf then
     (((lo =? 75) || (lo =? 107)) && (hi =? 8490))
     || (((lo =? 83) || (lo =? 115)) && (hi =? 383))
   else false)%N.

(** One turn of the loop of [strings.EqualFold] on the runes [sr] and
    [tr]. *)
Definition rune_EqualFold (sr tr : N) : bool :=
  (if tr =? sr then true
   else
     let lo := N.min sr tr in
     let hi := N.max sr tr in
     if hi <? RuneSelf then (65 <=? lo) && (lo <=? 90) && (hi =? lo + 32)
     else SimpleFold_reaches lo hi)%N.

Fixpoint EqualFold_runes (s t : list N) : bool :=
  match s, t with
  | [], [] => true
  | sr :: s', tr :: t' => rune_EqualFold sr tr && EqualFold_runes s' t'
  | _, _ => false
  end.

(** [strings.EqualFold]: the byte loop over the common ASCII prefix does
    what the rune loop does on one-byte runes, so the whole comparison is
    the rune loop. *)
Definition EqualFold (s t : string) : bool :=
  EqualFold_runes (runes s) (runes t).

Definition HasPrefix (s p : string) : bool := String.prefix p s.

Definition HasSuffix (s suf : string) : bool :=
  (String.length suf <=? String.length s)%nat &&
  String.eqb
    (String.substring (String.length s - String.length suf)
                      (String.length suf) s) suf.

(** ** bufio.Scanner with the default split function ScanLines *)

Definition MaxScanTokenSize : N := 65536.

Fixpoint dropCR (s : string) : string :=
  match s with
  | EmptyString => EmptyString
  | String c EmptyString => if Ascii.eqb c CR then EmptyString else s
  | String c s' => String c (dropCR s')
  end.

(** The newline-delimited pieces of the input; what follows the last newline
    is a line only when it is not empty. *)
Definition rawLines (data : string) : list string :=
  let parts := Split data LF in
  if is_empty (List.last parts EmptyString) then List.removelast parts
  else parts.

(** [Scan] stops with [ErrTooLong] at the first line that does not fit the
    token buffer; the callers below never look at [s.Err()]. *)
Fixpoint scanTokens (ls : list string) : list string :=
  match ls with
  | [] => []
  | l :: rest =>
      if (N.of_nat (String.length l) <? MaxScanTokenSize)%N
      then dropCR l :: scanTokens rest
      else []
  end.

Definition ScanLines (data : string) : list string :=
  scanTokens (rawLines data).

End GoStrings.
Import GoStrings.

(* ===================================================================== *)
(** * application.go: the request descriptor and client-IP derivation *)
(* ===================================================================== *)

(** [netip.Addr]: the zero value is invalid and prints as "invalid IP". *)
Inductive Addr : Type :=
| AddrZero
| AddrOf (text : string).

Definition Addr_IsValid (a : Addr) : bool :=
  match a with AddrZero => false | AddrOf _ => true end.

Definition Addr_String (a : Addr) : string :=
  match a with AddrZero => "invalid IP" | AddrOf s => s end.

(** [error]: [None] is Go's nil. *)
Definition error : Type := option string.

(** The byte-slice fields [Path], [Headers] and [Body] are only measured,
    copied and converted, so nil and empty coincide and they are strings;
    [Query] is compared against nil and keeps the distinction. *)
Record applicationRequest : Type := mkRequest {
  SrcIp : Addr;
  SrcPort : Z;
  DstIp : Addr;
  DstPort : Z;
  Method : string;
  ID : string;
  Path : string;
  Query : option string;
  Version : string;
  Headers : string;
  Body : string
}.

(** One iteration of the scan loop of [getHeaderValue]: [Some v] is
    [return v, nil], [None] is [continue]. *)
Definition headerLine (l targetHeader : string) : option string :=
  let line := TrimSpace l in
  if (String.length line =? 0)%nat then None
  else match SplitN_2 line ":" with
       | [k; v] =>
           let key := TrimSpace k in
           let value := TrimSpace v in
           if EqualFold key targetHeader then Some value else None
       | _ => None
       end.

Fixpoint getHeaderValue_scan (lines : list string) (targetHeader : string)
  : string :=
  match lines with
  | [] => EmptyString
  | l :: rest =>
      match headerLine l targetHeader with
      | Some v => v
      | None => getHeaderValue_scan rest targetHeader
      end
  end.

Definition getHeaderValue (headers targetHeader : string) : string * error :=
  (getHeaderValue_scan (ScanLines headers) targetHeader, None).

Definition realIPHeaders : list string :=
  [ "x-forwarded-for"; "x-real-ip"; "true-client-ip"; "cf-connecting-ip";
    "fastly-client-ip"; "x-client-ip"; "x-original-forwarded-for";
    "forwarded"; "x-cluster-client-ip" ].

(** The loop over the [;]-separated parts of a Forwarded header. *)
Fixpoint forwardedFor (parts : list string) : option string :=
  match parts with
  | [] => None
  | part :: rest =>
      match SplitN_2 part "=" with
      | [k; v] =>
          if String.eqb (TrimSpace k) "for" then
            let ip := TrimSpace v in
            let ip := Trim ip dquote in
            let ip :=
              if HasPrefix ip "[" && HasSuffix ip "]"
              then String.substring 1 (String.length ip - 2) ip
              else ip in
            if negb (is_empty ip) then Some ip else forwardedFor rest
          else forwardedFor rest
      | _ => forwardedFor rest
      end
  end.

(** The body of the loop over [headers] once a non-empty value was found:
    [Some ip] is [return ip], [None] falls through to the next header. *)
Definition clientIPFromHeader (header value : string) : option string :=
  if String.eqb header "x-forwarded-for"
     || String.eqb header "x-original-forwarded-for" then
    match Split value "," with
    | first :: _ =>
        let ip := TrimSpace first in
        if negb (is_empty ip) then Some ip else None
    | [] => None
    end
  else if String.eqb header "forwarded" then
    forwardedFor (Split value ";")
  else
    let ip := TrimSpace value in
    if negb (is_empty ip) then Some ip else None.

Fixpoint getRealClientIP_headers (hs : list string) (headers : string)
  : option string :=
  match hs with
  | [] => None
  | header :: rest =>
      let '(value, err) := getHeaderValue headers header in
      let found :=
        match err with
        | None =>
            if negb (is_empty value) then clientIPFromHeader header value
            else None
        | Some _ => None
        end in
      match found with
      | Some ip => Some ip
      | None => getRealClientIP_headers rest headers
      end
  end.

(** [req] is a pointer in the source: [None] is nil. *)
Definition getRealClientIP (req : option applicationRequest) : string :=
  match req with
  | None => EmptyString
  | Some req =>
      match getRealClientIP_headers realIPHeaders (Headers req) with
      | Some ip => ip
      | None =>
          if Addr_IsValid (SrcIp req) then Addr_String (SrcIp req)
          else EmptyString
      end
  end.

Definition lines_of (ls : list string) : string :=
  fold_right (fun l acc => l +:+ String CR (String LF acc)) EmptyString ls.

Definition sample_request (headers : string) : applicationRequest :=
  mkRequest (AddrOf "198.51.100.9") 51000 (AddrOf "192.0.2.1") 443
            "GET" "ABCDEFGHIJKLMNOP" "/index.html" None "1.1" headers
            EmptyString.

(** A scanned line is a forwarding header when its key matches one of the
    names [getRealClientIP] looks up. *)
Definition is_forwarding_line (l : string) : bool :=
  existsb (fun h => match headerLine l h with Some _ => true | None => false end)
          realIPHeaders.

Definition no_forwarding_headers (headers : string) : Prop :=
  Forall (fun l => is_forwarding_line l = false) (ScanLines headers).

Definition xff_line : string := "X-Forwarded-For: 203.0.113.7, 10.0.0.1".

Definition forwarded_line : string :=
  "Forwarded: for=" +:+ String dquote "[2001:db8::1]"
                    +:+ String dquote ";proto=https".

(* ===================================================================== *)
(** * Run-time outcomes, time, logging *)
(* ===================================================================== *)

(** A Go call either returns, or panics at run time (index out of range,
    nil dereference); loops of the model carry a budget and [OutOfFuel]
    reports that it ran out. *)
Inductive outcome (A : Type) : Type :=
| Ret (a : A)
| Panic
| OutOfFuel.
Arguments Ret {A} a.
Arguments Panic {A}.
Arguments OutOfFuel {A}.

Definition bind {A B : Type} (m : outcome A) (f : A -> outcome B)
  : outcome B :=
  match m with
  | Ret a => f a
  | Panic => Panic
  | OutOfFuel => OutOfFuel
  end.

Notation "x <- m ;; k" := (bind m (fun x => k))
  (at level 100, m at next level, right associativity).
Notation "'let*' p := m 'in' k" := (bind m (fun x => let 'p := x in k))
  (at level 100, p pattern, m at next level, right associativity).

(** [time.Time] as the number of nanoseconds since Go's zero time
    (January 1, year 1, 00:00 UTC); [time.Duration] in nanoseconds.
    Saturation of [Add] at the ends of the representable range is not
    modelled. *)
Definition Time : Type := Z.
Definition Duration : Type := Z.

Definition Time_IsZero (t : Time) : bool := t =? 0.
Definition Time_Before (t u : Time) : bool := t <? u.
Definition Time_After (t u : Time) : bool := u <? t.
Definition Time_Add (t : Time) (d : Duration) : Time := t + d.

Inductive Level : Type := LDebug | LInfo | LWarn | LError.

(** What the ban registry and its persister write to the logger, with the
    fields attached to the entry. *)
Inductive RecorderMsg : Type :=
| MsgCleanupRemoved (removed : Z)
| MsgCapacityEvict (ip : string) (expires_at : Time)
| MsgBanUpdated (ip reason : string) (until : Time)
| MsgBanned (ip reason : string) (until : Time)
| MsgWriteQueueFull (ip : string).

Definition RecorderLog : Type := list (Level * RecorderMsg).

(* ===================================================================== *)
(** * ip_record.go: the expiry heap *)
(* ===================================================================== *)

(** [model.BlockedIPRecord] (package pkg/model), with the fields the
    recorder fills in. *)
Record BlockedIPRecord : Type := mkBlocked {
  IP : string;
  Reason : string;
  BlockedAt : Time;
  BlockedUntil : Time
}.

Record IPExpiryItem : Type := mkItem {
  ip : string;
  expiresAt : Time;
  index : Z
}.

(** Items live behind pointers that the heap slice and the [expiryItems]
    map share; [loc] is such a pointer and [objs] the objects it reaches. *)
Definition loc : Type := nat.

Record IPExpiryHeap : Type := mkHeap {
  slice : list loc;
  objs : gmap loc IPExpiryItem
}.

Definition slice_get {A : Type} (s : list A) (i : Z) : outcome A :=
  if i <? 0 then Panic
  else match s !! Z.to_nat i with
       | Some x => Ret x
       | None => Panic
       end.

Definition slice_set {A : Type} (s : list A) (i : Z) (x : A) : list A :=
  <[Z.to_nat i := x]> s.

Definition deref (o : gmap loc IPExpiryItem) (p : loc)
  : outcome IPExpiryItem :=
  match o !! p with
  | Some it => Ret it
  | None => Panic
  end.

Definition set_index (o : gmap loc IPExpiryItem) (p : loc) (i : Z)
  : outcome (gmap loc IPExpiryItem) :=
  it <- deref o p ;;
  Ret (<[p := mkItem (ip it) (expiresAt it) i]> o).

Definition set_expiresAt (o : gmap loc IPExpiryItem) (p : loc) (t : Time)
  : outcome (gmap loc IPExpiryItem) :=
  it <- deref o p ;;
  Ret (<[p := mkItem (ip it) t (index it)]> o).

Module IPExpiryHeapM.

Definition Len (h : IPExpiryHeap) : Z := Z.of_nat (length (slice h)).

Definition Less (h : IPExpiryHeap) (i j : Z) : outcome bool :=
  pi <- slice_get (slice h) i ;;
  a <- deref (objs h) pi ;;
  pj <- slice_get (slice h) j ;;
  b <- deref (objs h) pj ;;
  Ret (Time_Before (expiresAt a) (expiresAt b)).

Definition Swap (h : IPExpiryHeap) (i j : Z) : outcome IPExpiryHeap :=
  y <- slice_get (slice h) j ;;
  x <- slice_get (slice h) i ;;
  let s := slice_set (slice_set (slice h) i y) j x in
  pi <- slice_get s i ;;
  o1 <- set_index (objs h) pi i ;;
  pj <- slice_get s j ;;
  o2 <- set_index o1 pj j ;;
  Ret (mkHeap s o2).

Definition Push (h : IPExpiryHeap) (x : loc) : outcome IPExpiryHeap :=
  let n := Len h in
  o <- set_index (objs h) x n ;;
  Ret (mkHeap (slice h ++ [x]) o).

Definition Pop (h : IPExpiryHeap) : outcome (loc * IPExpiryHeap) :=
  let n := Len h in
  item <- slice_get (slice h) (n - 1) ;;
  o <- set_index (objs h) item (-1) ;;
  Ret (item, mkHeap (take (Z.to_nat (n - 1)) (slice h)) o).

(** [Peek]: [None] is the nil pointer. *)
Definition Peek (h : IPExpiryHeap) : option loc :=
  if Len h =? 0 then None else slice h !! 0%nat.

End IPExpiryHeapM.

(** ** container/heap over the methods of [IPExpiryHeap] *)
Module heap.
Import IPExpiryHeapM.

Fixpoint up (fuel : nat) (h : IPExpiryHeap) (j : Z) : outcome IPExpiryHeap :=
  match fuel with
  | O => OutOfFuel
  | S fuel =>
      let i := Z.quot (j - 1) 2 in
      if i =? j then Ret h
      else
        less <- Less h j i ;;
        if negb less then Ret h
        else h' <- Swap h i j ;; up fuel h' i
  end.

Fixpoint down_loop (fuel : nat) (h : IPExpiryHeap) (i n : Z)
  : outcome (IPExpiryHeap * Z) :=
  match fuel with
  | O => OutOfFuel
  | S fuel =>
      let j1 := 2 * i + 1 in
      if (n <=? j1) || (j1 <? 0) then Ret (h, i)
      else
        j <- (let j2 := j1 + 1 in
              if j2 <? n then
                less <- Less h j2 j1 ;; Ret (if less then j2 else j1)
              else Ret j1) ;;
        less <- Less h j i ;;
        if negb less then Ret (h, i)
        else h' <- Swap h i j ;; down_loop fuel h' j n
  end.

(** Every iteration of [up] and [down] moves the index strictly towards a
    bound inside the slice, so a budget of one more than its length is
    enough (see [heap_Pop_spec], [heap_Push_spec], [heap_Fix_spec]). *)
Definition budget (h : IPExpiryHeap) : nat := S (length (slice h)).

Definition down (h : IPExpiryHeap) (i0 n : Z) : outcome (IPExpiryHeap * bool) :=
  let* (h', i) := down_loop (budget h) h i0 n in
  Ret (h', i0 <? i).

Fixpoint Init_loop (k : nat) (h : IPExpiryHeap) (n : Z)
  : outcome IPExpiryHeap :=
  match k with
  | O => Ret h
  | S k' =>
      let* (h', _) := down h (Z.of_nat k') n in
      Init_loop k' h' n
  end.

Definition Init (h : IPExpiryHeap) : outcome IPExpiryHeap :=
  let n := Len h in
  Init_loop (Z.to_nat (Z.quot n 2)) h n.

Definition Push (h : IPExpiryHeap) (x : loc) : outcome IPExpiryHeap :=
  h' <- IPExpiryHeapM.Push h x ;;
  up (budget h') h' (Len h' - 1).

Definition Pop (h : IPExpiryHeap) : outcome (loc * IPExpiryHeap) :=
  let n := Len h - 1 in
  h1 <- Swap h 0 n ;;
  let* (h2, _) := down h1 0 n in
  IPExpiryHeapM.Pop h2.

Definition Remove (h : IPExpiryHeap) (i : Z) : outcome (loc * IPExpiryHeap) :=
  let n := Len h - 1 in
  h' <- (if n =? i then Ret h
         else
           h1 <- Swap h i n ;;
           let* (h2, moved) := down h1 i n in
           if negb moved then up (budget h2) h2 i else Ret h2) ;;
  IPExpiryHeapM.Pop h'.

Definition Fix (h : IPExpiryHeap) (i : Z) : outcome IPExpiryHeap :=
  let* (h', moved) := down h i (Len h) in
  if negb moved then up (budget h') h' i else Ret h'.

End heap.

(** [IPExpiryHeap.Update]: write the new expiry through the pointer, then
    [heap.Fix] at the position the item records for itself. *)
Definition IPExpiryHeap_Update (h : IPExpiryHeap) (item : loc)
           (expiresAt' : Time) : outcome IPExpiryHeap :=
  o <- set_expiresAt (objs h) item expiresAt' ;;
  it <- deref o item ;;
  heap.Fix (mkHeap (slice h) o) (index it).

(* ===================================================================== *)
(** * ip_record.go: the in-memory ban registry *)
(* ===================================================================== *)

Record MemoryIPRecorder : Type := mkRecorder {
  blockedIPs : gmap string BlockedIPRecord;
  expiryItems : gmap string loc;
  expiryHeap : IPExpiryHeap;
  capacity : Z;
  toDelete : list string;
  logger : RecorderLog
}.

Definition set_heap (h : IPExpiryHeap) (r : MemoryIPRecorder)
  : MemoryIPRecorder :=
  mkRecorder (blockedIPs r) (expiryItems r) h (capacity r) (toDelete r)
             (logger r).

Definition set_toDelete (d : list string) (r : MemoryIPRecorder)
  : MemoryIPRecorder :=
  mkRecorder (blockedIPs r) (expiryItems r) (expiryHeap r) (capacity r) d
             (logger r).

Definition add_log (e : Level * RecorderMsg) (r : MemoryIPRecorder)
  : MemoryIPRecorder :=
  mkRecorder (blockedIPs r) (expiryItems r) (expiryHeap r) (capacity r)
             (toDelete r) (logger r ++ [e]).

(** [delete(r.blockedIPs, ip); delete(r.expiryItems, ip)] *)
Definition delete_ip (r : MemoryIPRecorder) (i : string) : MemoryIPRecorder :=
  mkRecorder (delete i (blockedIPs r)) (delete i (expiryItems r))
             (expiryHeap r) (capacity r) (toDelete r) (logger r).

Definition len_blocked (r : MemoryIPRecorder) : Z :=
  Z.of_nat (size (blockedIPs r)).

Inductive ConstructorMsg : Type :=
| MsgReuseInstance
| MsgNewInstance.

(** [instance] is the package variable [memoryIPRecorderInstance] ([None]
    is nil) with the registry it points to.  A call that finds it set
    returns that registry as it is and ignores [capacity]; a call that
    finds it nil builds the registry, and the caller's package state then
    points to what is returned.  [heap.Init] runs on the empty heap.  The
    entry written to the [logger] argument is returned with the registry.
    The cleaner goroutine the first call starts is the [cleanupExpired]
    steps of a history (see [process_step]). *)
Definition NewMemoryIPRecorder (instance : option MemoryIPRecorder)
           (capacity0 : Z)
  : outcome (MemoryIPRecorder * (Level * ConstructorMsg)) :=
  match instance with
  | Some r => Ret (r, (LDebug, MsgReuseInstance))
  | None =>
      let capacity := if capacity0 <=? 0 then 10000 else capacity0 in
      h <- heap.Init (mkHeap [] ∅) ;;
      Ret (mkRecorder ∅ ∅ h capacity [] [], (LInfo, MsgNewInstance))
  end.

(** The pop loop shared in shape by [cleanupExpired] and the first loop of
    [ensureCapacity]; [guard] is the extra loop condition of the latter. *)
Fixpoint popExpired (fuel : nat) (guard : MemoryIPRecorder -> bool)
         (now : Time) (r : MemoryIPRecorder) : outcome MemoryIPRecorder :=
  match fuel with
  | O => OutOfFuel
  | S fuel =>
      if (0 <? IPExpiryHeapM.Len (expiryHeap r)) && guard r then
        match IPExpiryHeapM.Peek (expiryHeap r) with
        | None => Panic
        | Some item =>
            it <- deref (objs (expiryHeap r)) item ;;
            if Time_After (expiresAt it) now then Ret r
            else
              let* (_, h') := heap.Pop (expiryHeap r) in
              it' <- deref (objs h') item ;;
              popExpired fuel guard now
                (set_toDelete (toDelete r ++ [ip it']) (set_heap h' r))
        end
      else Ret r
  end.

Definition delete_all (r : MemoryIPRecorder) (ips : list string)
  : MemoryIPRecorder :=
  fold_left delete_ip ips r.

(** One pop per iteration: the heap length bounds the number of
    iterations. *)
Definition pop_budget (r : MemoryIPRecorder) : nat :=
  S (length (slice (expiryHeap r))).

Definition cleanupExpired (now : Time) (r : MemoryIPRecorder)
  : outcome MemoryIPRecorder :=
  let r := set_toDelete [] r in
  r <- popExpired (pop_budget r) (fun _ => true) now r ;;
  let removed := Z.of_nat (length (toDelete r)) in
  let r := delete_all r (toDelete r) in
  Ret (if 0 <? removed
       then add_log (LDebug, MsgCleanupRemoved removed) r
       else r).

Definition at_capacity (r : MemoryIPRecorder) : bool :=
  capacity r <=? len_blocked r.

Fixpoint evictEarliest (fuel : nat) (r : MemoryIPRecorder)
  : outcome MemoryIPRecorder :=
  match fuel with
  | O => OutOfFuel
  | S fuel =>
      if at_capacity r && (0 <? IPExpiryHeapM.Len (expiryHeap r)) then
        let* (item, h') := heap.Pop (expiryHeap r) in
        it <- deref (objs h') item ;;
        let r := delete_ip (set_heap h' r) (ip it) in
        evictEarliest fuel
          (add_log (LDebug, MsgCapacityEvict (ip it) (expiresAt it)) r)
      else Ret r
  end.

Definition ensureCapacity (now : Time) (r : MemoryIPRecorder)
  : outcome MemoryIPRecorder :=
  if len_blocked r <? capacity r then Ret r
  else
    let r := set_toDelete [] r in
    r <- popExpired (pop_budget r) at_capacity now r ;;
    let r := delete_all r (toDelete r) in
    evictEarliest (pop_budget r) r.

Definition removeExpiredRecord (r : MemoryIPRecorder) (i : string)
  : outcome MemoryIPRecorder :=
  r <- match expiryItems r !! i with
       | Some item =>
           it <- deref (objs (expiryHeap r)) item ;;
           h <- (if (0 <=? index it)
                    && (index it <? IPExpiryHeapM.Len (expiryHeap r))
                 then let* (_, h') := heap.Remove (expiryHeap r) (index it) in
                      Ret h'
                 else Ret (expiryHeap r)) ;;
           Ret (mkRecorder (blockedIPs r) (delete i (expiryItems r)) h
                           (capacity r) (toDelete r) (logger r))
       | None => Ret r
       end ;;
  Ret (mkRecorder (delete i (blockedIPs r)) (expiryItems r) (expiryHeap r)
                  (capacity r) (toDelete r) (logger r)).

(** [&IPExpiryItem{...}]: a pointer no live object has. *)
Definition new_loc (o : gmap loc IPExpiryItem) : loc := fresh (dom o).

(** The clock is read twice: [now] is the reading of [RecordBlockedIP]
    itself, which stamps the record, and [now'] the later one that
    [ensureCapacity] takes when it is called.  The mutex held for the
    duration of the call is not modelled, the call being one atomic
    step. *)
Definition RecordBlockedIP (now now' : Time) (r : MemoryIPRecorder)
           (i reason : string) (duration : Duration)
  : outcome (MemoryIPRecorder * error) :=
  let expiresAt := Time_Add now duration in
  let record := mkBlocked i reason now expiresAt in
  match expiryItems r !! i with
  | Some item =>
      let r1 := mkRecorder (<[i := record]> (blockedIPs r)) (expiryItems r)
                           (expiryHeap r) (capacity r) (toDelete r)
                           (logger r) in
      h <- IPExpiryHeap_Update (expiryHeap r1) item expiresAt ;;
      Ret (add_log (LInfo, MsgBanUpdated i reason expiresAt) (set_heap h r1),
           None)
  | None =>
      r1 <- ensureCapacity now' r ;;
      let item := new_loc (objs (expiryHeap r1)) in
      let o := <[item := mkItem i expiresAt 0]> (objs (expiryHeap r1)) in
      h <- heap.Push (mkHeap (slice (expiryHeap r1)) o) item ;;
      Ret (add_log (LInfo, MsgBanned i reason expiresAt)
             (mkRecorder (<[i := record]> (blockedIPs r1))
                         (<[i := item]> (expiryItems r1))
                         h (capacity r1) (toDelete r1) (logger r1)),
           None)
  end.

(** [IsIPBlocked] reads the map without the lock and changes nothing; the
    result pairs the flag with the record pointer ([None] is nil). *)
Definition IsIPBlocked (now : Time) (r : MemoryIPRecorder) (i : string)
  : bool * option BlockedIPRecord :=
  match blockedIPs r !! i with
  | None => (false, None)
  | Some record =>
      if Time_IsZero (BlockedUntil record)
         || Time_After now (BlockedUntil record)
      then (false, None)
      else (true, Some record)
  end.

Definition GetBlockedIPs (now : Time) (r : MemoryIPRecorder)
  : list BlockedIPRecord * error :=
  (List.filter (fun record => Time_Before now (BlockedUntil record))
               (snd <$> map_to_list (blockedIPs r)),
   None).

(* ===================================================================== *)
(** * Invariants of the expiry heap and of the registry *)
(* ===================================================================== *)

(** The parent position as [up] computes it (Go's division truncates
    towards zero, so the parent of the root is the root). *)
Definition parent (c : Z) : Z := Z.quot (c - 1) 2.

Definition pos_get (s : list loc) (i : Z) : option loc :=
  if i <? 0 then None else s !! Z.to_nat i.

Definition expiry_of (h : IPExpiryHeap) (l : loc) : Time :=
  match objs h !! l with
  | Some it => expiresAt it
  | None => 0
  end.

(** The expiry stored at a position of the heap slice. *)
Definition key (h : IPExpiryHeap) (i : Z) : Time :=
  match pos_get (slice h) i with
  | Some l => expiry_of h l
  | None => 0
  end.

(** Min-heap order on the first [n] positions. *)
Definition ordered (kf : Z -> Time) (n : Z) : Prop :=
  forall c, 0 < c < n -> kf (parent c) <= kf c.

(** The loop invariant of [down] at position [i]: every parent/child pair
    is in order except those below [i] and the pair above [e]; the children
    of [i] are not smaller than the parent of [i]. *)
Definition down_inv (kf : Z -> Time) (n i e : Z) : Prop :=
  (forall c, 0 < c < n -> parent c <> i -> c <> e -> kf (parent c) <= kf c) /\
  (forall c, 0 < c < n -> parent c = i -> 0 < i -> kf (parent i) <= kf c).

(** The loop invariant of [up] at position [j]. *)
Definition up_inv (kf : Z -> Time) (n j : Z) : Prop :=
  (forall c, 0 < c < n -> c <> j -> kf (parent c) <= kf c) /\
  (forall c, 0 < c < n -> parent c = j -> 0 < j -> kf (parent j) <= kf c).

(** The key function after exchanging positions [i] and [j]. *)
Definition swapped (kf kf' : Z -> Time) (i j : Z) : Prop :=
  forall k, kf' k = if k =? j then kf i else if k =? i then kf j else kf k.

(** Every pointer of the slice reaches an item that records its own
    position, and no pointer occurs twice. *)
Definition idx_ok (h : IPExpiryHeap) : Prop :=
  NoDup (slice h) /\
  forall (k : Z) (l : loc), pos_get (slice h) k = Some l ->
    exists it, objs h !! l = Some it /\ index it = k.

Definition heap_wf (h : IPExpiryHeap) : Prop :=
  idx_ok h /\ ordered (key h) (IPExpiryHeapM.Len h).

Definition item_data (it : IPExpiryItem) : string * Time :=
  (ip it, expiresAt it).

(** The heap operations move pointers and rewrite [index] fields only. *)
Definition same_data (h h' : IPExpiryHeap) : Prop :=
  forall l, item_data <$> objs h' !! l = item_data <$> objs h !! l.

(** The registry between two calls: the heap is well formed, the
    [expiryItems] map and the heap slice hold the same pointers, one per
    banned IP, the item of an IP carries the expiry of its record, and the
    registry is within its capacity. *)
Record recorder_wf (r : MemoryIPRecorder) : Prop := mk_recorder_wf {
  wf_heap : heap_wf (expiryHeap r);
  wf_items : forall i l, expiryItems r !! i = Some l ->
      l ∈ slice (expiryHeap r) /\
      exists it, objs (expiryHeap r) !! l = Some it /\ ip it = i;
  wf_slice : forall l, l ∈ slice (expiryHeap r) ->
      exists it, objs (expiryHeap r) !! l = Some it /\
                 expiryItems r !! ip it = Some l;
  wf_blocked : forall i record, blockedIPs r !! i = Some record ->
      exists l it, expiryItems r !! i = Some l /\
                   objs (expiryHeap r) !! l = Some it /\
                   expiresAt it = BlockedUntil record;
  wf_banned : forall i l, expiryItems r !! i = Some l ->
      is_Some (blockedIPs r !! i);
  wf_len : len_blocked r = IPExpiryHeapM.Len (expiryHeap r);
  wf_capacity : 0 < capacity r /\ len_blocked r <= capacity r
}.

(** The stored expiry of an IP. *)
Definition until_of (r : MemoryIPRecorder) (i : string) : Time :=
  match blockedIPs r !! i with
  | Some record => BlockedUntil record
  | None => 0
  end.

Definition evicted_ips (lg : RecorderLog) : list string :=
  omap (fun e => match snd e with
                 | MsgCapacityEvict i _ => Some i
                 | _ => None
                 end) lg.

(** The IPs a call of [ensureCapacity] took out, in the order it popped
    them: the expired ones it collected in [toDelete], then the ones whose
    forced eviction it logged. *)
Definition removed_ips (r r' : MemoryIPRecorder) : list string :=
  toDelete r' ++ evicted_ips (drop (length (logger r)) (logger r')).

(** [x] is banned and expires no later than any banned IP outside
    [gone]. *)
Definition earliest_outside (m : gmap string BlockedIPRecord)
           (gone : list string) (x : string) : Prop :=
  exists record, m !! x = Some record /\
    forall y record', m !! y = Some record' -> y ∉ gone ->
                      BlockedUntil record <= BlockedUntil record'.

(** Every IP of the sequence had, when its turn came, the earliest expiry
    among the entries that were still there. *)
Definition earliest_first (m : gmap string BlockedIPRecord)
           (removed : list string) : Prop :=
  forall pre x post, removed = pre ++ x :: post ->
    (x ∉ pre) /\ earliest_outside m pre x.

Definition del_keys {V : Type} (ks : list string) (m : gmap string V)
  : gmap string V :=
  fold_left (fun m k => delete k m) ks m.

(** The loop guards of the model read the ban map and the capacity only. *)
Definition guard_ok (guard : MemoryIPRecorder -> bool) : Prop :=
  forall r1 r2, blockedIPs r1 = blockedIPs r2 -> capacity r1 = capacity r2 ->
                guard r1 = guard r2.

Definition expired_at (now : Time) (r : MemoryIPRecorder) (x : string)
  : Prop :=
  Time_After (until_of r x) now = false.


(** ** Histories of the registry *)

(** The calls that change the registry, with the clock readings each one
    takes. *)
Inductive RegistryOp : Type :=
| OpBan (now now' : Time) (i reason : string) (d : Duration)
| OpCleanup (now : Time).

Definition apply_op (r : MemoryIPRecorder) (op : RegistryOp)
  : outcome MemoryIPRecorder :=
  match op with
  | OpBan now now' i reason d =>
      let* (r', _) := RecordBlockedIP now now' r i reason d in Ret r'
  | OpCleanup now => cleanupExpired now r
  end.

Fixpoint run_ops (r : MemoryIPRecorder) (ops : list RegistryOp)
  : outcome MemoryIPRecorder :=
  match ops with
  | [] => Ret r
  | op :: rest => r' <- apply_op r op ;; run_ops r' rest
  end.

(** The registry the first constructor call of a process builds, after the
    calls of [ops]. *)
Definition registry_of (capacity0 : Z) (ops : list RegistryOp)
  : outcome MemoryIPRecorder :=
  let* (r, _) := NewMemoryIPRecorder None capacity0 in run_ops r ops.

(** The history of a process: constructor calls, which may come at any
    time and from any caller, and calls on the registry.  The state is the
    package variable with the registry it points to; before the first
    constructor call no caller holds a registry, and a method called on
    the nil pointer panics. *)
Inductive ProcessOp : Type :=
| PNew (capacity0 : Z)
| POp (op : RegistryOp).

Definition process_step (instance : option MemoryIPRecorder)
           (op : ProcessOp) : outcome (option MemoryIPRecorder) :=
  match op with
  | PNew capacity0 =>
      let* (r, _) := NewMemoryIPRecorder instance capacity0 in Ret (Some r)
  | POp op =>
      match instance with
      | Some r => r' <- apply_op r op ;; Ret (Some r')
      | None => Panic
      end
  end.

Fixpoint process_run (instance : option MemoryIPRecorder)
         (ops : list ProcessOp) : outcome (option MemoryIPRecorder) :=
  match ops with
  | [] => Ret instance
  | op :: rest => st <- process_step instance op ;; process_run st rest
  end.

Definition empty_registry : MemoryIPRecorder :=
  mkRecorder ∅ ∅ (mkHeap [] ∅) 3 [] [].

(** A registry of capacity 3 after three bans. *)
Definition sample_bans : list RegistryOp :=
  [ OpBan 100 100 "203.0.113.7" "bruteforce" 50;
    OpBan 101 101 "198.51.100.4" "scanner" 10;
    OpBan 102 102 "192.0.2.33" "flood" 30 ].

Definition full_registry : MemoryIPRecorder :=
  match registry_of 3 sample_bans with
  | Ret r => r
  | _ => empty_registry
  end.


(* ===================================================================== *)
(** * Buffered channels and the write-behind persisters *)
(* ===================================================================== *)

(** A buffered Go channel: the queued values, the capacity given to
    [make], and whether [close] was called. *)
Record chan (A : Type) : Type := mkChan {
  chan_buf : list A;
  chan_cap : nat;
  chan_closed : bool
}.
Arguments mkChan {A} _ _ _.
Arguments chan_buf {A} _.
Arguments chan_cap {A} _.
Arguments chan_closed {A} _.

Definition chan_full {A : Type} (c : chan A) : bool :=
  (chan_cap c <=? length (chan_buf c))%nat.

(** [select { case c <- v: ...; default: ... }]: the send is taken when
    the buffer has room ([true]; a receiver parked on the channel would
    take the value at once, which the queue covers), the default branch
    when the buffer is full ([false]); a send on a closed channel
    panics. *)
Definition select_send {A : Type} (c : chan A) (v : A)
  : outcome (chan A * bool) :=
  if chan_closed c then Panic
  else if chan_full c then Ret (c, false)
  else Ret (mkChan (chan_buf c ++ [v]) (chan_cap c) (chan_closed c), true).

(** [model.Log] and [model.WAFLog] (package pkg/model) with the fields the
    agent fills in; the calendar fields derived from [CreatedAt] and the
    geolocation of the source address are left out. *)
Record Log : Type := mkLog {
  Log_Message : string;
  Log_Payload : string;
  Log_RuleID : Z;
  Log_Severity : Z;
  Log_Phase : Z;
  Log_SecMark : string;
  Log_Accuracy : Z;
  Log_SecLangRaw : string;
  Log_LogRaw : string
}.

Record WAFLog : Type := mkWAFLog {
  CreatedAt : Time;
  Request : string;
  Response : string;
  Domain : string;
  SrcIP : string;
  DstIP : string;
  WSrcPort : Z;
  WDstPort : Z;
  RequestID : string;
  RuleID : Z;
  SecLangRaw : string;
  Severity : Z;
  Phase : Z;
  SecMark : string;
  Accuracy : Z;
  Payload : string;
  Message : string;
  URI : string;
  ClientIP : string;
  ServerIP : string;
  Logs : list Log
}.

Definition defaultChannelSize : nat := 1000.

Inductive StoreMsg : Type :=
| MsgLogChannelFull.

Record MongoLogStore : Type := mkLogStore {
  logChan : chan WAFLog;
  store_logger : list (Level * StoreMsg);
  processStarted : bool
}.

(** The singleton and the database handle are not modelled. *)
Definition NewMongoLogStore : MongoLogStore :=
  mkLogStore (mkChan [] defaultChannelSize false) [] false.

Definition MongoLogStore_Store (s : MongoLogStore) (log : WAFLog)
  : outcome (MongoLogStore * error) :=
  let* (c, sent) := select_send (logChan s) log in
  if sent then Ret (mkLogStore c (store_logger s) (processStarted s), None)
  else Ret (mkLogStore c (store_logger s ++ [(LWarn, MsgLogChannelFull)])
                       (processStarted s), None).

Record MongoIPRecorder : Type := mkMongoRecorder {
  memory : MemoryIPRecorder;
  writeQueue : chan BlockedIPRecord;
  mongo_logger : RecorderLog
}.

(** [instance] is the package variable [mongoIPRecorderInstance] and
    [memoryInstance] the one of the in-memory registry; a call that finds
    [instance] set returns it as it is.  The database handle is not
    modelled. *)
Definition NewMongoIPRecorder (instance : option MongoIPRecorder)
           (memoryInstance : option MemoryIPRecorder) (capacity0 : Z)
  : outcome MongoIPRecorder :=
  match instance with
  | Some r => Ret r
  | None =>
      let* (m, _) := NewMemoryIPRecorder memoryInstance capacity0 in
      Ret (mkMongoRecorder m (mkChan [] 1000 false) [])
  end.

(** [now] and [now1] are the clock readings taken inside the in-memory
    recorder (see [RecordBlockedIP]), [now'] the later one taken for the
    queued copy. *)
Definition MongoIPRecorder_RecordBlockedIP (now now1 now' : Time)
           (r : MongoIPRecorder) (i reason : string) (duration : Duration)
  : outcome (MongoIPRecorder * error) :=
  let* (m, err) := RecordBlockedIP now now1 (memory r) i reason duration in
  match err with
  | Some e => Ret (mkMongoRecorder m (writeQueue r) (mongo_logger r), Some e)
  | None =>
      let record := mkBlocked i reason now' (Time_Add now' duration) in
      let* (c, sent) := select_send (writeQueue r) record in
      if sent then Ret (mkMongoRecorder m c (mongo_logger r), None)
      else Ret (mkMongoRecorder m c
                  (mongo_logger r ++ [(LWarn, MsgWriteQueueFull i)]), None)
  end.

Definition MongoIPRecorder_IsIPBlocked (now : Time) (r : MongoIPRecorder)
           (i : string) : bool * option BlockedIPRecord :=
  IsIPBlocked now (memory r) i.

Definition MongoIPRecorder_GetBlockedIPs (now : Time) (r : MongoIPRecorder)
  : list BlockedIPRecord * error :=
  GetBlockedIPs now (memory r).

Definition sample_log (id : string) : WAFLog :=
  mkWAFLog 0 "GET / HTTP/1.1" EmptyString "example.com" "203.0.113.7"
           "192.0.2.1" 51000 443 id 942100 EmptyString 2 2 EmptyString 0
           "1 OR 1=1" "SQL injection" "/" "203.0.113.7" "192.0.2.1" [].

(** A log store whose inbox of capacity two is full. *)
Definition full_log_store : MongoLogStore :=
  mkLogStore (mkChan [sample_log "AAAA"; sample_log "BBBB"] 2 false) [] true.

(** A ban persister over [full_registry] whose inbox of capacity one is
    full. *)
Definition full_ban_persister : MongoIPRecorder :=
  mkMongoRecorder full_registry
    (mkChan [mkBlocked "192.0.2.33" "flood" 102 132] 1 false) [].


(* ===================================================================== *)
(** * application.go: the transaction correlation engine *)
(* ===================================================================== *)

(** ** What the collaborators exchange with the agent *)

(** [types.Interruption] of the matching engine. *)
Record Interruption : Type := mkInterruption {
  it_RuleID : Z;
  it_Action : string;
  it_Status : Z;
  it_Data : string
}.

(** The accessors of a [types.MatchedRule] and of its rule metadata. *)
Record MatchedRule : Type := mkMatchedRule {
  mr_Message : string;
  mr_Data : string;
  mr_URI : string;
  mr_ClientIPAddress : string;
  mr_ServerIPAddress : string;
  mr_ErrorLog : string;
  mr_ID : Z;
  mr_Severity : Z;
  mr_Phase : Z;
  mr_SecMark : string;
  mr_Accuracy : Z;
  mr_Raw : string
}.

(** A rule of the lightweight rule engine: its name and printed id. *)
Record Rule : Type := mkRule {
  rule_Name : string;
  rule_ID : string
}.

(** What the matching engine answers on one transaction.  The engine is
    outside the repository; its answers are a parameter of the model. *)
Record EngineScript : Type := mkScript {
  es_RuleEngineOff : bool;
  es_ProcessRequestHeaders : option Interruption;
  es_WriteRequestBody : option Interruption * error;
  es_ProcessRequestBody : option Interruption * error;
  es_ProcessResponseHeaders : option Interruption;
  es_WriteResponseBody : option Interruption * error;
  es_ProcessResponseBody : option Interruption * error;
  es_MatchedRules : list MatchedRule;
  es_Close : error
}.

(** The calls the agent makes on a transaction of the matching engine. *)
Inductive TxCall : Type :=
| ProcessConnection (src : string) (sport : Z) (dst : string) (dport : Z)
| ProcessURI (uri method proto : string)
| AddRequestHeader (k v : string)
| ProcessRequestHeaders
| WriteRequestBody (body : string)
| ProcessRequestBody
| AddResponseHeader (k v : string)
| ProcessResponseHeaders (status : Z) (proto : string)
| WriteResponseBody (body : string)
| ProcessResponseBody
| ProcessLogging
| Close.

(** The calls that leave the modelled code, in the order they are made;
    calls on a transaction carry the handle of the transaction. *)
Inductive Call : Type :=
| CallCheckVisit (clientIP : string)
| CallRecordAttack (clientIP : string)
| CallRecordError (clientIP : string)
| CallMatchRequest (clientIP url path : string)
| CallNewTransaction (handle : nat) (id : string)
| CallTx (handle : nat) (c : TxCall)
| CallCacheSet (id : string) (handle : nat) (ttl : Duration).

(** The answers of the collaborators and of the run-time library during
    one handler call. *)
Record Env : Type := mkEnv {
  env_now : Time;
  env_RFC3339 : Time -> string;
  env_rand : nat -> nat;
  env_CheckVisit : string -> bool * error;
  env_MatchRequest : string -> string -> string -> bool * option Rule * error;
  env_SetString : error;
  env_engine : string -> EngineScript
}.

(** [x == nil] on a pointer, interface or error value. *)
Definition isNil {A : Type} (o : option A) : bool :=
  match o with
  | None => true
  | Some _ => false
  end.

(** The errors a handler returns. *)
Inductive HandlerError : Type :=
| ErrInterrupted (it : Interruption)
| ErrReadingHeaders (line : string)
| ErrCollaborator (e : string)
| ErrResponseCheckDisabled
| ErrResponseIDEmpty
| ErrAlreadyBeingDeleted (id : string).

(** What the agent writes to its own logger. *)
Inductive AppMsg : Type :=
| MsgRequestFromBlockedIP (clientIP reason : string) (blocked_until : Time)
| MsgFlowCheckFailed (clientIP e : string)
| MsgMatchFailed (url clientIP e : string)
| MsgBlockedByMicroEngine (ruleName ruleId url clientIP : string)
| MsgSaveMicroEngineLogFailed (ruleName ruleId url clientIP e : string)
| MsgSaveFirewallLogFailed (e : string)
| MsgCloseFailed (id e : string)
| MsgRuleEngineOff
| MsgTransactionNotFound (id : string)
| MsgEvictionOnUsedTransaction (id : string)
| MsgEvictionCloseFailed (id e : string).

(** ** The state of the agent *)

(** The engine's transaction as the agent sees it: its handle, its id, the
    answers it will give, and the interruption raised so far. *)
Record Tx : Type := mkTx {
  tx_handle : nat;
  tx_ID : string;
  tx_script : EngineScript;
  tx_interruption : option Interruption
}.

(** [m] is the finalization guard: [true] once [TryLock] succeeded (the
    code never unlocks it). *)
Record transaction : Type := mkTransaction {
  tx : Tx;
  m : bool;
  request : option applicationRequest
}.

Record applicationResponse : Type := mkResponse {
  res_ID : string;
  res_Version : string;
  res_Status : Z;
  res_Headers : string;
  res_Body : string
}.

(** [cache] maps a transaction id to the pointer of its [transaction];
    [txs] holds the objects behind the pointers.  [flowController] and
    [ruleEngine] tell whether the collaborator is configured. *)
Record Application : Type := mkApp {
  ResponseCheck : bool;
  TransactionTTL : Duration;
  cache : gmap string nat;
  txs : gmap nat transaction;
  next_handle : nat;
  logStore : option MongoLogStore;
  ruleEngine : bool;
  flowController : bool;
  ipRecorder : option MongoIPRecorder;
  Logger : list (Level * AppMsg);
  calls : list Call
}.

Definition app_log (e : Level * AppMsg) (a : Application) : Application :=
  mkApp (ResponseCheck a) (TransactionTTL a) (cache a) (txs a)
        (next_handle a) (logStore a) (ruleEngine a) (flowController a)
        (ipRecorder a) (Logger a ++ [e]) (calls a).

Definition app_call (c : Call) (a : Application) : Application :=
  mkApp (ResponseCheck a) (TransactionTTL a) (cache a) (txs a)
        (next_handle a) (logStore a) (ruleEngine a) (flowController a)
        (ipRecorder a) (Logger a) (calls a ++ [c]).

Definition app_calls (cs : list Call) (a : Application) : Application :=
  fold_left (fun a c => app_call c a) cs a.

Definition set_logStore (s : option MongoLogStore) (a : Application)
  : Application :=
  mkApp (ResponseCheck a) (TransactionTTL a) (cache a) (txs a)
        (next_handle a) s (ruleEngine a) (flowController a)
        (ipRecorder a) (Logger a) (calls a).

Definition set_cache (c : gmap string nat) (a : Application) : Application :=
  mkApp (ResponseCheck a) (TransactionTTL a) c (txs a)
        (next_handle a) (logStore a) (ruleEngine a) (flowController a)
        (ipRecorder a) (Logger a) (calls a).

Definition set_txs (t : gmap nat transaction) (a : Application)
  : Application :=
  mkApp (ResponseCheck a) (TransactionTTL a) (cache a) t
        (next_handle a) (logStore a) (ruleEngine a) (flowController a)
        (ipRecorder a) (Logger a) (calls a).

(** [a.flowController.RecordAttack] and [RecordError] behind their nil
    checks; the results are discarded by the code. *)
Definition recordAttack (a : Application) (clientIP : string) : Application :=
  if flowController a then app_call (CallRecordAttack clientIP) a else a.

Definition recordError (a : Application) (clientIP : string) : Application :=
  if flowController a then app_call (CallRecordError clientIP) a else a.

(** ** Building a security log entry *)

Definition buildRequestString (req : applicationRequest) (headers : string)
  : string :=
  Method req +:+ " " +:+ Path req
    +:+ match Query req with
        | Some q => "?" +:+ q
        | None => EmptyString
        end
    +:+ " HTTP/" +:+ Version req +:+ String LF EmptyString +:+ headers
    +:+ (if negb (is_empty (Body req))
         then String LF EmptyString +:+ Body req
         else EmptyString).

(** [s[:strings.Index(s, ":")]] when there is a colon, [s] otherwise. *)
Definition before_colon (s : string) : string :=
  match Cut s ":" with
  | Some (a, _) => a
  | None => s
  end.

Definition getHostFromRequest (req : applicationRequest) : string :=
  match getHeaderValue (Headers req) "host" with
  | (host, None) =>
      if negb (is_empty host) then before_colon host
      else before_colon (Addr_String (DstIp req))
  | (_, Some _) => before_colon (Addr_String (DstIp req))
  end.

(** [a.logStore.Store]: the store is an interface value that the code calls
    without a nil check. *)
Definition logStore_Store (a : Application) (lg : WAFLog)
  : outcome (Application * error) :=
  match logStore a with
  | None => Panic
  | Some s =>
      let* (s', err) := MongoLogStore_Store s lg in
      Ret (set_logStore (Some s') a, err)
  end.

Definition saveMicroEngineLog (env : Env) (a : Application)
           (rule : option Rule) (req : applicationRequest) (headers : string)
  : outcome (Application * error) :=
  let realIP := getRealClientIP (Some req) in
  let ruleName := match rule with
                  | Some r => rule_Name r
                  | None => "whitelist block"
                  end in
  let ruleID := match rule with
                | Some r => rule_ID r
                | None => "none"
                end in
  let logMessage := "request blocked by micro engine" +:+ ", ruleId: "
                      +:+ ruleID +:+ ", ruleName: " +:+ ruleName in
  let logs := [mkLog logMessage EmptyString 0 0 0 EmptyString 0 EmptyString
                     logMessage] in
  logStore_Store a
    (mkWAFLog (env_now env) (buildRequestString req headers) EmptyString
              (getHostFromRequest req) realIP (Addr_String (DstIp req))
              (SrcPort req) (DstPort req) (ID req)
              0 EmptyString 0 0 EmptyString 0 logMessage EmptyString
              EmptyString EmptyString EmptyString logs).

Definition keep_Z (new old : Z) : Z := if new =? 0 then old else new.
Definition keep_string (new old : string) : string :=
  if is_empty new then old else new.

(** One iteration of the loop over the matched rules. *)
Definition addMatchedRule (interruption : Interruption) (w : WAFLog)
           (mr : MatchedRule) : WAFLog :=
  if (mr_ID mr =? it_RuleID interruption) || negb (is_empty (mr_Data mr))
  then
    mkWAFLog (CreatedAt w) (Request w) (Response w) (Domain w) (SrcIP w)
             (DstIP w) (WSrcPort w) (WDstPort w) (RequestID w)
             (keep_Z (mr_ID mr) (RuleID w))
             (keep_string (mr_Raw mr) (SecLangRaw w))
             (keep_Z (mr_Severity mr) (Severity w))
             (keep_Z (mr_Phase mr) (Phase w))
             (keep_string (mr_SecMark mr) (SecMark w))
             (keep_Z (mr_Accuracy mr) (Accuracy w))
             (keep_string (mr_Data mr) (Payload w))
             (keep_string (mr_Message mr) (Message w))
             (keep_string (mr_URI mr) (URI w))
             (keep_string (mr_ClientIPAddress mr) (ClientIP w))
             (keep_string (mr_ServerIPAddress mr) (ServerIP w))
             (Logs w ++ [mkLog (mr_Message mr) (mr_Data mr) (mr_ID mr)
                               (mr_Severity mr) (mr_Phase mr) (mr_SecMark mr)
                               (mr_Accuracy mr) (mr_Raw mr) (mr_ErrorLog mr)])
  else w.

Definition saveFirewallLog (env : Env) (a : Application)
           (matchedRules : list MatchedRule) (interruption : Interruption)
           (req : applicationRequest) (headers : string)
  : outcome (Application * error) :=
  let realIP := getRealClientIP (Some req) in
  let w0 := mkWAFLog (env_now env) (buildRequestString req headers)
                     EmptyString (getHostFromRequest req) realIP
                     (Addr_String (DstIp req)) (SrcPort req) (DstPort req)
                     (ID req) 0 EmptyString 0 0 EmptyString 0 EmptyString
                     EmptyString EmptyString EmptyString EmptyString [] in
  logStore_Store a (fold_left (addMatchedRule interruption) matchedRules w0).

(** ** Calls on the engine's transaction *)

(** A processing call: it is recorded, and an interruption it raises stays
    on the transaction. *)
Definition tx_process (a : Application) (t : Tx) (c : TxCall)
           (answer : option Interruption) : Application * Tx :=
  (app_call (CallTx (tx_handle t) c) a,
   match answer with
   | Some it => mkTx (tx_handle t) (tx_ID t) (tx_script t) (Some it)
   | None => t
   end).

Definition tx_IsInterrupted (t : Tx) : bool :=
  match tx_interruption t with Some _ => true | None => false end.

(** [readHeaders]: the callbacks made, in order, and the line that stopped
    the scan when one is malformed. *)
Fixpoint readHeaders_scan (lines : list string)
  : list (string * string) * option string :=
  match lines with
  | [] => ([], None)
  | l :: rest =>
      let line := TrimSpace l in
      if (String.length line =? 0)%nat then readHeaders_scan rest
      else match SplitN_2 line ":" with
           | [k; v] =>
               let '(kvs, err) := readHeaders_scan rest in
               ((TrimSpace k, TrimSpace v) :: kvs, err)
           | _ => ([], Some l)
           end
  end.

Definition readHeaders (headers : string)
  : list (string * string) * option string :=
  readHeaders_scan (ScanLines headers).

(** The finalization shared by the deferred functions of the two handlers:
    attack recording and log synthesis for an interrupted transaction, then
    the engine's logging hook and the release of the transaction.  [req] is
    the captured request ([HandleRequest] always has it; [HandleResponse]
    skips the log entry when the cached pointer is nil). *)
Definition finalize (env : Env) (a : Application) (t : Tx) (realIP : string)
           (req : option applicationRequest)
  : outcome Application :=
  a <- (if tx_IsInterrupted t && negb (isNil (logStore a)) then
          let a := recordAttack a realIP in
          match tx_interruption t, es_MatchedRules (tx_script t) with
          | Some interruption, _ :: _ =>
              match req with
              | Some rq =>
                  let* (a, err) :=
                    saveFirewallLog env a (es_MatchedRules (tx_script t))
                                    interruption rq (Headers rq) in
                  Ret match err with
                      | Some e =>
                          app_log (LError, MsgSaveFirewallLogFailed e) a
                      | None => a
                      end
              | None => Ret a
              end
          | _, _ => Ret a
          end
        else Ret a) ;;
  let a := app_call (CallTx (tx_handle t) ProcessLogging) a in
  let a := app_call (CallTx (tx_handle t) Close) a in
  Ret match es_Close (tx_script t) with
      | Some e => app_log (LError, MsgCloseFailed (tx_ID t) e) a
      | None => a
      end.

(** ** HandleRequest *)

Definition idLength : nat := 16.

Definition randomID (rnd : nat -> nat) : string :=
  string_of_list_ascii
    (List.map (fun k => ascii_of_nat (65 + rnd k mod 26)) (seq 0 idLength)).

Definition with_ID (req : applicationRequest) (id : string)
  : applicationRequest :=
  mkRequest (SrcIp req) (SrcPort req) (DstIp req) (DstPort req) (Method req)
            id (Path req) (Query req) (Version req) (Headers req) (Body req).

Definition ensure_ID (env : Env) (req : applicationRequest)
  : applicationRequest :=
  if (String.length (ID req) =? 0)%nat then with_ID req (randomID (env_rand env))
  else req.

Definition deny (status : Z) (data : string) : HandlerError :=
  ErrInterrupted (mkInterruption 0 "deny" status data).

Definition blockedMessage (env : Env) (record : BlockedIPRecord) : string :=
  "IP has been blocked until " +:+ env_RFC3339 env (BlockedUntil record)
    +:+ " due to " +:+ Reason record.

(** The checks that come before the matching engine: the ban registry, the
    flow-control gate and the lightweight rule engine.  [Some e] is the
    early [return e]. *)
Definition requestGates (env : Env) (a : Application)
           (req : applicationRequest)
  : outcome (Application * option HandlerError) :=
  let realIP := getRealClientIP (Some req) in
  let banned :=
    match ipRecorder a with
    | Some rec =>
        match MongoIPRecorder_IsIPBlocked (env_now env) rec realIP with
        | (true, r) => Some r
        | (false, _) => None
        end
    | None => None
    end in
  match banned with
  | Some None => Panic
  | Some (Some record) =>
      Ret (app_log (LInfo, MsgRequestFromBlockedIP realIP (Reason record)
                             (BlockedUntil record)) a,
           Some (deny 403 (blockedMessage env record)))
  | None =>
      let '(a, limited) :=
        if flowController a then
          let a := app_call (CallCheckVisit realIP) a in
          match env_CheckVisit env realIP with
          | (_, Some e) =>
              (app_log (LError, MsgFlowCheckFailed realIP e) a, false)
          | (allowed, None) => (a, negb allowed)
          end
        else (a, false) in
      if limited then Ret (a, Some (deny 429 "Too many requests"))
      else if ruleEngine a then
        let path := Path req in
        let url := match Query req with
                   | Some q => if (0 <? String.length q)%nat
                               then path +:+ "?" +:+ q else path
                   | None => path
                   end in
        let a := app_call (CallMatchRequest realIP url path) a in
        let '(shouldBlock, rule, err) := env_MatchRequest env realIP url path in
        let a := match err with
                 | Some e => app_log (LError, MsgMatchFailed url realIP e) a
                 | None => a
                 end in
        let ruleName := match rule with
                        | Some r => rule_Name r
                        | None => "whitelist block"
                        end in
        let ruleId := match rule with
                      | Some r => rule_ID r
                      | None => "none"
                      end in
        if shouldBlock && isNil err then
          let a := recordAttack a realIP in
          let a := app_log (LInfo, MsgBlockedByMicroEngine ruleName ruleId url
                                     realIP) a in
          let* (a, serr) := saveMicroEngineLog env a rule req (Headers req) in
          let a := match serr with
                   | Some e =>
                       app_log (LError, MsgSaveMicroEngineLogFailed ruleName
                                          ruleId url realIP e) a
                   | None => a
                   end in
          Ret (a, Some (deny 403 EmptyString))
        else Ret (a, None)
      else Ret (a, None)
  end.

(** What [writer.SetString] has put into the response metadata. *)
Definition Writer : Type := list (string * string).

(** The body of [HandleRequest] between the opening of the transaction and
    its [return]: the writer, the transaction as processing left it, and
    the error returned. *)
Definition requestProcessing (env : Env) (a : Application) (t : Tx)
           (req : applicationRequest)
  : Application * Tx * Writer * option HandlerError :=
  match env_SetString env with
  | Some e => (a, t, [], Some (ErrCollaborator e))
  | None =>
      let w := [("id", tx_ID t)] in
      if es_RuleEngineOff (tx_script t) then
        (app_log (LWarn, MsgRuleEngineOff) a, t, w, None)
      else
        let h := tx_handle t in
        let a := app_call (CallTx h (ProcessConnection
                   (Addr_String (SrcIp req)) (SrcPort req)
                   (Addr_String (DstIp req)) (DstPort req))) a in
        let url := Path req +:+ match Query req with
                                | Some q => "?" +:+ q
                                | None => EmptyString
                                end in
        let a := app_call (CallTx h (ProcessURI url (Method req)
                                       ("HTTP/" +:+ Version req))) a in
        let '(kvs, bad) := readHeaders (Headers req) in
        let a := app_calls
                   (List.map (fun kv => CallTx h (AddRequestHeader (fst kv)
                                                                  (snd kv)))
                             kvs) a in
        match bad with
        | Some line => (a, t, w, Some (ErrReadingHeaders line))
        | None =>
            let '(a, t) := tx_process a t ProcessRequestHeaders
                             (es_ProcessRequestHeaders (tx_script t)) in
            match es_ProcessRequestHeaders (tx_script t) with
            | Some it => (a, t, w, Some (ErrInterrupted it))
            | None =>
                let '(it, err) := es_WriteRequestBody (tx_script t) in
                let '(a, t) := tx_process a t (WriteRequestBody (Body req))
                                 it in
                match err, it with
                | Some e, _ => (a, t, w, Some (ErrCollaborator e))
                | None, Some i => (a, t, w, Some (ErrInterrupted i))
                | None, None =>
                    let '(it, err) := es_ProcessRequestBody (tx_script t) in
                    let '(a, t) := tx_process a t ProcessRequestBody it in
                    match err, it with
                    | Some e, _ => (a, t, w, Some (ErrCollaborator e))
                    | None, Some i => (a, t, w, Some (ErrInterrupted i))
                    | None, None => (a, t, w, None)
                    end
                end
            end
        end
  end.

(** [a.waf.NewTransactionWithID]: a fresh handle, the id asked for. *)
Definition NewTransactionWithID (env : Env) (a : Application) (id : string)
  : Application * Tx :=
  let h := next_handle a in
  let a := mkApp (ResponseCheck a) (TransactionTTL a) (cache a) (txs a)
                 (S h) (logStore a) (ruleEngine a) (flowController a)
                 (ipRecorder a) (Logger a) (calls a) in
  (app_call (CallNewTransaction h id) a, mkTx h id (env_engine env id) None).

(** [a.cache.SetWithExpiration(tx.ID(), &transaction{tx, request}, ttl)] *)
Definition cacheTransaction (a : Application) (t : Tx)
           (req : applicationRequest) : Application :=
  let a := app_call (CallCacheSet (tx_ID t) (tx_handle t) (TransactionTTL a))
                    a in
  set_cache (<[tx_ID t := tx_handle t]> (cache a))
    (set_txs (<[tx_handle t := mkTransaction t false (Some req)]> (txs a)) a).

(** [HandleRequest] on the decoded message (the key/value decoding of the
    wire codec is outside the model): the state after the call, what was
    written to the response metadata, and the error returned. *)
Definition HandleRequest (env : Env) (a : Application)
           (message : applicationRequest)
  : outcome (Application * Writer * option HandlerError) :=
  let req := ensure_ID env message in
  let realIP := getRealClientIP (Some req) in
  let* (a, early) := requestGates env a req in
  match early with
  | Some e => Ret (a, [], Some e)
  | None =>
      let '(a, t) := NewTransactionWithID env a (ID req) in
      let '(a, t, w, err) := requestProcessing env a t req in
      (* the deferred function *)
      if isNil err && ResponseCheck a then
        Ret (cacheTransaction a t req, w, err)
      else
        a <- finalize env a t realIP (Some req) ;;
        Ret (a, w, err)
  end.

(** ** HandleResponse and the eviction callback *)

(** [t.m.TryLock()] through the pointer [p]. *)
Definition TryLock (a : Application) (p : nat)
  : outcome (Application * bool) :=
  match txs a !! p with
  | None => Panic
  | Some t =>
      if m t then Ret (a, false)
      else Ret (set_txs (<[p := mkTransaction (tx t) true (request t)]>
                           (txs a)) a, true)
  end.

(** [a.cache.Get(res.ID)] with the logging of a miss. *)
Definition responseLookup (a : Application) (res : applicationResponse)
  : Application * option nat :=
  match cache a !! res_ID res with
  | None => (app_log (LError, MsgTransactionNotFound (res_ID res)) a, None)
  | Some p => (a, Some p)
  end.

(** [a.cache.Remove(res.ID)] *)
Definition responseRemove (a : Application) (res : applicationResponse)
  : Application :=
  set_cache (delete (res_ID res) (cache a)) a.

Definition responseProcessing (a : Application) (t : Tx)
           (res : applicationResponse)
  : Application * Tx * option HandlerError :=
  if es_RuleEngineOff (tx_script t) then (a, t, None)
  else
    let h := tx_handle t in
    let '(kvs, bad) := readHeaders (res_Headers res) in
    let a := app_calls
               (List.map (fun kv => CallTx h (AddResponseHeader (fst kv)
                                                               (snd kv)))
                         kvs) a in
    match bad with
    | Some line => (a, t, Some (ErrReadingHeaders line))
    | None =>
        let '(a, t) := tx_process a t
                         (ProcessResponseHeaders (res_Status res)
                            ("HTTP/" +:+ res_Version res))
                         (es_ProcessResponseHeaders (tx_script t)) in
        match es_ProcessResponseHeaders (tx_script t) with
        | Some it => (a, t, Some (ErrInterrupted it))
        | None =>
            let '(it, err) := es_WriteResponseBody (tx_script t) in
            let '(a, t) := tx_process a t (WriteResponseBody (res_Body res))
                             it in
            match err, it with
            | Some e, _ => (a, t, Some (ErrCollaborator e))
            | None, Some i => (a, t, Some (ErrInterrupted i))
            | None, None =>
                let '(it, err) := es_ProcessResponseBody (tx_script t) in
                let '(a, t) := tx_process a t ProcessResponseBody it in
                match err, it with
                | Some e, _ => (a, t, Some (ErrCollaborator e))
                | None, Some i => (a, t, Some (ErrInterrupted i))
                | None, None => (a, t, None)
                end
            end
        end
    end.

(** What [HandleResponse] does once it holds the finalization guard of the
    transaction behind [p]. *)
Definition responseLocked (env : Env) (a : Application) (p : nat)
           (res : applicationResponse)
  : outcome (Application * option HandlerError) :=
  match txs a !! p with
  | None => Panic
  | Some t =>
      let realIP := getRealClientIP (request t) in
      let a := if 400 <=? res_Status res then recordError a realIP else a in
      let '(a, t', err) := responseProcessing a (tx t) res in
      let a := set_txs (<[p := mkTransaction t' (m t) (request t)]> (txs a))
                       a in
      (* the deferred function *)
      a <- finalize env a t' realIP (request t) ;;
      Ret (a, err)
  end.

(** [HandleResponse] from [a.cache.Remove] on, for an entry that
    [a.cache.Get] found behind [p]. *)
Definition responseFound (env : Env) (a : Application) (p : nat)
           (res : applicationResponse)
  : outcome (Application * option HandlerError) :=
  let a := responseRemove a res in
  let* (a, locked) := TryLock a p in
  if negb locked then Ret (a, Some (ErrAlreadyBeingDeleted (res_ID res)))
  else responseLocked env a p res.

(** [HandleResponse] on the decoded message. *)
Definition HandleResponse (env : Env) (a : Application)
           (res : applicationResponse)
  : outcome (Application * option HandlerError) :=
  if negb (ResponseCheck a) then Ret (a, Some ErrResponseCheckDisabled)
  else if is_empty (res_ID res) then Ret (a, Some ErrResponseIDEmpty)
  else
    match responseLookup a res with
    | (a, None) => Ret (a, None)
    | (a, Some p) => responseFound env a p res
    end.

(** The eviction callback once it holds the guard: the logging hook and the
    release, nothing else. *)
Definition evictionLocked (a : Application) (p : nat) : outcome Application :=
  match txs a !! p with
  | None => Panic
  | Some t =>
      let a := app_call (CallTx (tx_handle (tx t)) ProcessLogging) a in
      let a := app_call (CallTx (tx_handle (tx t)) Close) a in
      Ret match es_Close (tx_script (tx t)) with
          | Some e =>
              app_log (LError, MsgEvictionCloseFailed (tx_ID (tx t)) e) a
          | None => a
          end
  end.

(** The callback given to the cache, on the value of an expired entry. *)
Definition evictionCallback (a : Application) (p : nat)
  : outcome Application :=
  match txs a !! p with
  | None => Panic
  | Some t =>
      let* (a, locked) := TryLock a p in
      if negb locked then
        Ret (app_log (LInfo, MsgEvictionOnUsedTransaction (tx_ID (tx t))) a)
      else evictionLocked a p
  end.

(** The cache's sweep taking the entry of [id] out; the pointer is handed
    to the callback. *)
Definition evictTake (a : Application) (id : string)
  : Application * option nat :=
  match cache a !! id with
  | None => (a, None)
  | Some p => (set_cache (delete id (cache a)) a, Some p)
  end.

Definition evictEntry (a : Application) (id : string)
  : outcome Application :=
  match evictTake a id with
  | (a, None) => Ret a
  | (a, Some p) => evictionCallback a p
  end.

(** ** Sample environment and states *)

(** [Time.Format(time.RFC3339)] for a time in UTC. *)
Definition digit (n : Z) : ascii := ascii_of_N (Z.to_N (48 + n mod 10)).

Definition pad2 (n : Z) : string :=
  String (digit (n / 10)) (String (digit n) EmptyString).

Definition pad4 (n : Z) : string :=
  String (digit (n / 1000)) (String (digit (n / 100)) (pad2 n)).

(** Year, month and day of the day number counted from January 1 of
    year 1 (proleptic Gregorian calendar). *)
Definition civil_from_days (days : Z) : Z * Z * Z :=
  let z := days + 306 in
  let era := z / 146097 in
  let doe := z - era * 146097 in
  let yoe := (doe - doe / 1460 + doe / 36524 - doe / 146096) / 365 in
  let doy := doe - (365 * yoe + yoe / 4 - yoe / 100) in
  let mp := (5 * doy + 2) / 153 in
  let d := doy - (153 * mp + 2) / 5 + 1 in
  let mo := if mp <? 10 then mp + 3 else mp - 9 in
  (yoe + era * 400 + (if mo <=? 2 then 1 else 0), mo, d).

Definition RFC3339_UTC (t : Time) : string :=
  let secs := t / 1000000000 in
  let '(y, mo, d) := civil_from_days (secs / 86400) in
  let s := secs mod 86400 in
  pad4 y +:+ "-" +:+ pad2 mo +:+ "-" +:+ pad2 d +:+ "T"
    +:+ pad2 (s / 3600) +:+ ":" +:+ pad2 (s mod 3600 / 60) +:+ ":"
    +:+ pad2 (s mod 60) +:+ "Z".

(** The instant of a Unix time in seconds. *)
Definition unix (s : Z) : Time := (s + 62135596800) * 1000000000.

Definition seconds (s : Z) : Duration := s * 1000000000.

Definition pass_script : EngineScript :=
  mkScript false None (None, None) (None, None) None (None, None)
           (None, None) [] None.

Definition sample_env : Env :=
  mkEnv (unix 1750000000) RFC3339_UTC (fun k => k)
        (fun _ => (true, None)) (fun _ _ _ => (false, None, None))
        None (fun _ => pass_script).

(** A registry holding one ban, on 203.0.113.7 for one hour. *)
Definition sample_recorder : MongoIPRecorder :=
  match registry_of 10000
          [OpBan (unix 1749999000) (unix 1749999000) "203.0.113.7"
                 "bruteforce" (seconds 3600)]
  with
  | Ret r => mkMongoRecorder r (mkChan [] 1000 false) []
  | _ => mkMongoRecorder empty_registry (mkChan [] 1000 false) []
  end.

Definition sample_app : Application :=
  mkApp true (seconds 10) ∅ ∅ 0 (Some NewMongoLogStore) true true
        (Some sample_recorder) [] [].

(** A request from the banned address, and one from another address. *)
Definition banned_request : applicationRequest :=
  mkRequest (AddrOf "10.0.0.5") 51000 (AddrOf "192.0.2.1") 443 "GET"
            "TXBANNED00000001" "/login" None "1.1"
            (lines_of ["Host: example.com";
                       "X-Forwarded-For: 203.0.113.7, 10.0.0.1"])
            EmptyString.

Definition plain_request : applicationRequest :=
  mkRequest (AddrOf "198.51.100.9") 51000 (AddrOf "192.0.2.1") 443 "GET"
            "TXPLAIN000000001" "/index.html" None "1.1"
            (lines_of ["Host: example.com"]) EmptyString.

Definition sample_response (id : string) : applicationResponse :=
  mkResponse id "1.1" 200 (lines_of ["Content-Type: text/html"]) EmptyString.

(** The state a response handler meets when the finalization guard of the
    entry it found is already held: the entry is still in the cache (the
    other party took it between the lookup and the try-lock). *)
Definition contended_app : Application :=
  mkApp true (seconds 10) {["TXPLAIN000000001" := 0%nat]}
        {[0%nat := mkTransaction (mkTx 0 "TXPLAIN000000001" pass_script None)
                                 true (Some plain_request)]}
        1 (Some NewMongoLogStore) true true (Some sample_recorder) [] [].

Definition contains (s sub : string) : Prop :=
  exists pre post, s = pre +:+ sub +:+ post.

Definition id_written (w : Writer) (id : string) : Prop := In ("id", id) w.

(** ** Counting finalizations *)

Definition is_call (c : TxCall) (h : nat) (x : Call) : bool :=
  match x, c with
  | CallTx h' Close, Close => (h' =? h)%nat
  | CallTx h' ProcessLogging, ProcessLogging => (h' =? h)%nat
  | _, _ => false
  end.

(** How often the release, resp. the logging hook, of the transaction with
    handle [h] was called. *)
Definition closes (h : nat) (cs : list Call) : nat :=
  length (List.filter (is_call Close h) cs).

Definition loggings (h : nat) (cs : list Call) : nat :=
  length (List.filter (is_call ProcessLogging h) cs).

(** The log store, when there is one, has not been closed. *)
Definition store_running (a : Application) : Prop :=
  forall s, logStore a = Some s -> chan_closed (logChan s) = false.

(** [a'] is [a] after the calls [cs] left the modelled code: the
    configuration, the cache and the transaction objects are as before;
    the log and the inbox of the log store may have grown. *)
Definition steps_to (a a' : Application) (cs : list Call) : Prop :=
  ResponseCheck a' = ResponseCheck a /\
  TransactionTTL a' = TransactionTTL a /\
  cache a' = cache a /\ txs a' = txs a /\
  next_handle a' = next_handle a /\
  ruleEngine a' = ruleEngine a /\ flowController a' = flowController a /\
  ipRecorder a' = ipRecorder a /\
  isNil (logStore a') = isNil (logStore a) /\
  (store_running a -> store_running a') /\
  calls a' = calls a ++ cs.

(** No call of the list finalizes a transaction. *)
Definition quiet (cs : list Call) : Prop :=
  Forall (fun x => forall h, is_call Close h x = false /\
                             is_call ProcessLogging h x = false) cs.

(** The request gets past the ban registry, the flow-control gate and the
    lightweight rule engine. *)
Definition passes_gates (env : Env) (a : Application)
           (req : applicationRequest) : Prop :=
  exists a1, requestGates env a req = Ret (a1, None).

(** An engine that interrupts the request at its headers. *)
Definition deny_script : EngineScript :=
  mkScript false (Some (mkInterruption 942100 "deny" 403 EmptyString))
           (None, None) (None, None) None (None, None) (None, None)
           [mkMatchedRule "SQL injection" "1 OR 1=1" "/index.html"
                          "198.51.100.9" "192.0.2.1" "[id 942100]" 942100 2 2
                          EmptyString 0 "SecRule ARGS"]
           None.

Definition deny_env : Env :=
  mkEnv (unix 1750000000) RFC3339_UTC (fun k => k)
        (fun _ => (true, None)) (fun _ _ _ => (false, None, None))
        None (fun _ => deny_script).

(** * Goroutines racing for a cached transaction *)

(** The handlers run concurrently, one goroutine per message, next to the
    sweep of the cache.  A goroutine is cut at the points where it touches
    what the others can reach: the cache ([Get], [Remove], the sweep taking
    an expired entry out) and the finalization guard ([TryLock]).  The
    request handler publishes its transaction in its last step only
    ([SetWithExpiration] in the deferred function), so nothing it does to
    the transaction before can be seen by another goroutine and it is taken
    as one step; so is what a goroutine does while it holds the guard. *)
Inductive Goroutine : Type :=
| GoRequest (message : applicationRequest)
| GoResponse (res : applicationResponse)
    (* HandleResponse, before a.cache.Get *)
| GoResponseFound (res : applicationResponse) (p : nat)
    (* after a.cache.Get, before a.cache.Remove *)
| GoResponseRemoved (res : applicationResponse) (p : nat)
    (* after a.cache.Remove, before t.m.TryLock *)
| GoResponseLocked (res : applicationResponse) (p : nat)
    (* TryLock succeeded *)
| GoEvict (id : string)
    (* the sweep, at the expired entry of id *)
| GoEvictCallback (p : nat)
    (* the entry is out, the callback starts *)
| GoEvictLocked (p : nat)
    (* TryLock succeeded in the callback *)
| GoDone (err : option HandlerError).

Definition go_step (env : Env) (a : Application) (g : Goroutine)
  : outcome (Application * Goroutine) :=
  match g with
  | GoRequest message =>
      let* (a, _, err) := HandleRequest env a message in
      Ret (a, GoDone err)
  | GoResponse res =>
      if negb (ResponseCheck a) then
        Ret (a, GoDone (Some ErrResponseCheckDisabled))
      else if is_empty (res_ID res) then
        Ret (a, GoDone (Some ErrResponseIDEmpty))
      else
        match responseLookup a res with
        | (a, None) => Ret (a, GoDone None)
        | (a, Some p) => Ret (a, GoResponseFound res p)
        end
  | GoResponseFound res p =>
      Ret (responseRemove a res, GoResponseRemoved res p)
  | GoResponseRemoved res p =>
      let* (a, locked) := TryLock a p in
      if negb locked then
        Ret (a, GoDone (Some (ErrAlreadyBeingDeleted (res_ID res))))
      else Ret (a, GoResponseLocked res p)
  | GoResponseLocked res p =>
      let* (a, err) := responseLocked env a p res in
      Ret (a, GoDone err)
  | GoEvict id =>
      match evictTake a id with
      | (a, None) => Ret (a, GoDone None)
      | (a, Some p) => Ret (a, GoEvictCallback p)
      end
  | GoEvictCallback p =>
      match txs a !! p with
      | None => Panic
      | Some t =>
          let* (a, locked) := TryLock a p in
          if negb locked then
            Ret (app_log (LInfo, MsgEvictionOnUsedTransaction (tx_ID (tx t)))
                         a, GoDone None)
          else Ret (a, GoEvictLocked p)
      end
  | GoEvictLocked p =>
      a <- evictionLocked a p ;;
      Ret (a, GoDone None)
  | GoDone err => Ret (a, GoDone err)
  end.

(** A goroutine running to its end with nobody in between. *)
Fixpoint run_alone (env : Env) (n : nat) (a : Application) (g : Goroutine)
  : outcome (Application * option HandlerError) :=
  match g with
  | GoDone err => Ret (a, err)
  | _ =>
      match n with
      | O => OutOfFuel
      | S n => let* (a, g) := go_step env a g in run_alone env n a g
      end
  end.

(** What a goroutine starts as. *)
Definition starting (g : Goroutine) : bool :=
  match g with
  | GoRequest _ | GoResponse _ | GoEvict _ => true
  | _ => false
  end.

(** The transaction object a goroutine has a pointer to. *)
Definition pointer_of (g : Goroutine) : option nat :=
  match g with
  | GoResponseFound _ p | GoResponseRemoved _ p | GoResponseLocked _ p
  | GoEvictCallback p | GoEvictLocked p => Some p
  | _ => None
  end.

(** Whether the goroutine holds the finalization guard of the transaction
    with handle [h] and has not finalized it yet. *)
Definition holds (h : nat) (g : Goroutine) : nat :=
  match g with
  | GoResponseLocked _ p | GoEvictLocked p => if (p =? h)%nat then 1 else 0
  | _ => 0
  end.

Definition holders (h : nat) (gs : list Goroutine) : nat :=
  sum_list_with (holds h) gs.

(** The agent: the shared state and its goroutines. *)
Definition System : Type := Application * list Goroutine.

(** A message or a tick of the sweep starts a goroutine; any goroutine takes
    its next step, with the clock and the collaborators answering as they
    do at that moment. *)
Inductive sys_step : System -> System -> Prop :=
| step_go (a : Application) (gs : list Goroutine) (g : Goroutine) :
    starting g = true -> sys_step (a, gs) (a, gs ++ [g])
| step_run (env : Env) (a a' : Application) (gs : list Goroutine) (i : nat)
           (g g' : Goroutine) :
    gs !! i = Some g -> go_step env a g = Ret (a', g') ->
    sys_step (a, gs) (a', <[i := g']> gs).

(** The application as [NewApplicationWithContext] returns it: nothing
    cached, no transaction opened. *)
Definition initial (a : Application) : Prop :=
  cache a = ∅ /\ txs a = ∅ /\ calls a = [].

Inductive reachable (a0 : Application) : System -> Prop :=
| reach_initial : reachable a0 (a0, [])
| reach_step (s s' : System) :
    reachable a0 s -> sys_step s s' -> reachable a0 s'.

(** A schedule, to run the agent on. *)
Inductive Action : Type :=
| Go (g : Goroutine)
| Run (i : nat).

Definition sched_step (env : Env) (s : System) (x : Action) : option System :=
  let '(a, gs) := s in
  match x with
  | Go g => if starting g then Some (a, gs ++ [g]) else None
  | Run i =>
      match gs !! i with
      | None => None
      | Some g =>
          match go_step env a g with
          | Ret (a', g') => Some (a', <[i := g']> gs)
          | _ => None
          end
      end
  end.

Fixpoint schedule (env : Env) (s : System) (xs : list Action)
  : option System :=
  match xs with
  | [] => Some s
  | x :: xs =>
      match sched_step env s x with
      | Some s' => schedule env s' xs
      | None => None
      end
  end.

(** What holds of the agent at every moment. *)
Record race_inv (a : Application) (gs : list Goroutine) : Prop := {
  inv_handle : forall p t, txs a !! p = Some t ->
      tx_handle (tx t) = p /\ (p < next_handle a)%nat;
  inv_cache : forall id p, cache a !! id = Some p -> is_Some (txs a !! p);
  inv_held : forall i g p, gs !! i = Some g -> pointer_of g = Some p ->
      is_Some (txs a !! p);
  inv_once : forall h,
      (closes h (calls a) + holders h gs <= 1)%nat /\
      (loggings h (calls a) + holders h gs <= 1)%nat;
  inv_fresh : forall h, (next_handle a <= h)%nat ->
      closes h (calls a) = 0%nat /\ loggings h (calls a) = 0%nat /\
      holders h gs = 0%nat;
  inv_unlocked : forall h t, txs a !! h = Some t -> m t = false ->
      closes h (calls a) = 0%nat /\ loggings h (calls a) = 0%nat /\
      holders h gs = 0%nat
}.

(** A request is cached; the response handler finds the entry, the sweep
    takes it out and wins the guard, the response handler loses. *)
Definition race_schedule : list Action :=
  [Go (GoRequest plain_request); Run 0%nat;
   Go (GoResponse (sample_response "TXPLAIN000000001"));
   Go (GoEvict "TXPLAIN000000001");
   Run 1%nat; Run 2%nat; Run 2%nat; Run 1%nat; Run 1%nat; Run 2%nat].

Definition race_end : System :=
  match schedule sample_env (sample_app, []) race_schedule with
  | Some s => s
  | None => (sample_app, [])
  end.

(* ===================================================================== *)
(** * The gates of the request handler: conditions and samples *)
(* ===================================================================== *)

(** The ban registry, when there is one, does not report the address as
    blocked. *)
Definition not_banned (env : Env) (a : Application) (clientIP : string)
  : Prop :=
  match ipRecorder a with
  | Some rec =>
      fst (MongoIPRecorder_IsIPBlocked (env_now env) rec clientIP) = false
  | None => True
  end.

(** The URL the request handler hands to the lightweight rule engine. *)
Definition gate_url (req : applicationRequest) : string :=
  match Query req with
  | Some q => if (0 <? String.length q)%nat then Path req +:+ "?" +:+ q
              else Path req
  | None => Path req
  end.

(** The state after the flow-control gate let the request through. *)
Definition after_flow_gate (a : Application) (clientIP : string)
  : Application :=
  if flowController a then app_call (CallCheckVisit clientIP) a else a.

(** The log entry [saveMicroEngineLog] builds for a request blocked by
    [rule]. *)
Definition microEngineLog (env : Env) (rule : option Rule)
           (req : applicationRequest) : WAFLog :=
  let ruleName := match rule with
                  | Some r => rule_Name r
                  | None => "whitelist block"
                  end in
  let ruleID := match rule with
                | Some r => rule_ID r
                | None => "none"
                end in
  let logMessage := "request blocked by micro engine" +:+ ", ruleId: "
                      +:+ ruleID +:+ ", ruleName: " +:+ ruleName in
  mkWAFLog (env_now env) (buildRequestString req (Headers req)) EmptyString
           (getHostFromRequest req) (getRealClientIP (Some req))
           (Addr_String (DstIp req)) (SrcPort req) (DstPort req) (ID req)
           0 EmptyString 0 0 EmptyString 0 logMessage EmptyString
           EmptyString EmptyString EmptyString
           [mkLog logMessage EmptyString 0 0 0 EmptyString 0 EmptyString
                  logMessage].

(** Collaborators for the samples: a flow controller that refuses, one
    that fails, a rule engine that blocks, one that fails. *)
Definition limit_env : Env :=
  mkEnv (unix 1750000000) RFC3339_UTC (fun k => k)
        (fun _ => (false, None)) (fun _ _ _ => (false, None, None))
        None (fun _ => pass_script).

Definition failing_env : Env :=
  mkEnv (unix 1750000000) RFC3339_UTC (fun k => k)
        (fun _ => (false, Some "flow store unreachable"))
        (fun _ _ _ => (true, None, Some "rule store unreachable"))
        None (fun _ => pass_script).

Definition block_env : Env :=
  mkEnv (unix 1750000000) RFC3339_UTC (fun k => k)
        (fun _ => (true, None))
        (fun _ _ _ => (true, Some (mkRule "admin paths" "6650a1f2"), None))
        None (fun _ => pass_script).

(** The sample application without a log store. *)
Definition storeless_app : Application :=
  mkApp true (seconds 10) ∅ ∅ 0 None true true (Some sample_recorder) [] [].

(** The agent with a log store and without a ban registry. *)
Definition unregistered_app : Application :=
  mkApp true (seconds 10) ∅ ∅ 0 (Some NewMongoLogStore) true true None [] [].

(* ===================================================================== *)
(** * The security log entry of an interrupted transaction *)
(* ===================================================================== *)

(** The condition under which [saveFirewallLog] takes a matched rule into
    the entry: it is the rule that interrupted, or it carries data. *)
Definition contributes (interruption : Interruption) (mr : MatchedRule)
  : bool :=
  (mr_ID mr =? it_RuleID interruption) || negb (is_empty (mr_Data mr)).

(** The [model.Log] built from a matched rule. *)
Definition log_of (mr : MatchedRule) : Log :=
  mkLog (mr_Message mr) (mr_Data mr) (mr_ID mr) (mr_Severity mr)
        (mr_Phase mr) (mr_SecMark mr) (mr_Accuracy mr) (mr_Raw mr)
        (mr_ErrorLog mr).

(** The entry [saveFirewallLog] hands to the log store. *)
Definition firewallLog (env : Env) (matchedRules : list MatchedRule)
           (interruption : Interruption) (req : applicationRequest)
           (headers : string) : WAFLog :=
  fold_left (addMatchedRule interruption) matchedRules
    (mkWAFLog (env_now env) (buildRequestString req headers)
              EmptyString (getHostFromRequest req)
              (getRealClientIP (Some req))
              (Addr_String (DstIp req)) (SrcPort req) (DstPort req)
              (ID req) 0 EmptyString 0 0 EmptyString 0 EmptyString
              EmptyString EmptyString EmptyString EmptyString []).

Definition sample_rules : list MatchedRule :=
  [mkMatchedRule "Inbound anomaly" EmptyString "/index.html"
                 "198.51.100.9" "192.0.2.1" "[id 949110]" 949110 2 2
                 EmptyString 0 "SecRule TX:ANOMALY_SCORE";
   mkMatchedRule "SQL injection" "1 OR 1=1" "/index.html"
                 "198.51.100.9" "192.0.2.1" "[id 942100]" 942100 2 2
                 EmptyString 0 "SecRule ARGS";
   mkMatchedRule "Correlation" EmptyString "/index.html"
                 "198.51.100.9" "192.0.2.1" "[id 980130]" 980130 0 5
                 EmptyString 0 "SecRule TX:BLOCKING"].

(* ===================================================================== *)
(** * The consumers of the write-behind queues and their life cycle *)
(* ===================================================================== *)

(** [v, ok := <-c]: the head of the queue; on an empty channel the receive
    yields no value (the zero value, [ok] false) when the channel is
    closed, and has to wait when it is open ([None]: the case is not
    ready). *)
Definition chan_recv {A : Type} (c : chan A) : option (option A * chan A) :=
  match chan_buf c with
  | v :: rest => Some (Some v, mkChan rest (chan_cap c) (chan_closed c))
  | [] => if chan_closed c then Some (None, c) else None
  end.

(** [close(c)]: closing a closed channel panics. *)
Definition chan_close {A : Type} (c : chan A) : outcome (chan A) :=
  if chan_closed c then Panic
  else Ret (mkChan (chan_buf c) (chan_cap c) true).

(** ** MongoLogStore: Start, Close and processLogs *)

(** What [Start], [Close] and [processLogs] write to the logger of the
    store. *)
Inductive LifeMsg : Type :=
| MsgAlreadyStarted
| MsgStarting
| MsgClosing
| MsgLoopExited
| MsgInsertFailed (e : string) (batch_size : nat).

(** [Start]: the store, what was logged, and whether [go s.processLogs]
    was executed. *)
Definition MongoLogStore_Start (s : MongoLogStore)
  : MongoLogStore * list (Level * LifeMsg) * bool :=
  if processStarted s then (s, [(LDebug, MsgAlreadyStarted)], false)
  else (mkLogStore (logChan s) (store_logger s) true,
        [(LInfo, MsgStarting)], true).

Definition MongoLogStore_Close (s : MongoLogStore)
  : outcome (MongoLogStore * list (Level * LifeMsg)) :=
  if processStarted s then
    c <- chan_close (logChan s) ;;
    Ret (mkLogStore c (store_logger s) false, [(LInfo, MsgClosing)])
  else Ret (s, []).

Definition batchSize : nat := 100.

(** The goroutine running [processLogs]: its local [batch], the batches it
    handed to [InsertMany], what it logged, and whether it returned. *)
Record LogConsumer : Type := mkLogConsumer {
  lc_batch : list WAFLog;
  lc_inserted : list (list WAFLog);
  lc_log : list (Level * LifeMsg);
  lc_exited : bool
}.

Definition NewLogConsumer : LogConsumer := mkLogConsumer [] [] [] false.

(** The closure [flushBatch] of [processLogs]; [insertMany] is the answer
    of the database to a batch. *)
Definition flushBatch (insertMany : list WAFLog -> error) (c : LogConsumer)
  : LogConsumer :=
  match lc_batch c with
  | [] => c
  | _ :: _ =>
      mkLogConsumer []
        (lc_inserted c ++ [lc_batch c])
        (match insertMany (lc_batch c) with
         | Some e =>
             lc_log c ++ [(LError, MsgInsertFailed e (length (lc_batch c)))]
         | None => lc_log c
         end)
        (lc_exited c)
  end.

(** The case a [select] of the loop takes. *)
Inductive LogSelect : Type :=
| SelLog
| SelTick
| SelCtxDone.

(** The deferred function of [processLogs]. *)
Definition processLogs_exit (s : MongoLogStore) (c : LogConsumer)
  : MongoLogStore * LogConsumer :=
  (mkLogStore (logChan s) (store_logger s) false,
   mkLogConsumer (lc_batch c) (lc_inserted c)
                 (lc_log c ++ [(LInfo, MsgLoopExited)]) true).

(** One iteration of the loop of [processLogs]; [None] when the case is
    not ready or the goroutine has returned.  [ctx_done] tells whether the
    context was cancelled ([Start] passes [context.Background()], which
    never is). *)
Definition processLogs_step (insertMany : list WAFLog -> error)
           (ctx_done : bool) (s : MongoLogStore) (c : LogConsumer)
           (sel : LogSelect) : option (MongoLogStore * LogConsumer) :=
  if lc_exited c then None
  else
    match sel with
    | SelLog =>
        match chan_recv (logChan s) with
        | None => None
        | Some (None, _) =>
            Some (processLogs_exit s (flushBatch insertMany c))
        | Some (Some log, ch) =>
            let c := mkLogConsumer (lc_batch c ++ [log]) (lc_inserted c)
                                   (lc_log c) (lc_exited c) in
            let c := if (batchSize <=? length (lc_batch c))%nat
                     then flushBatch insertMany c else c in
            Some (mkLogStore ch (store_logger s) (processStarted s), c)
        end
    | SelTick => Some (s, flushBatch insertMany c)
    | SelCtxDone =>
        if ctx_done then Some (processLogs_exit s (flushBatch insertMany c))
        else None
    end.

(** The store and its consumer under the calls of [Store] by the handlers
    and the iterations of the consumer, in the order they happen. *)
Inductive StoreAction : Type :=
| DoStore (log : WAFLog)
| DoSelect (sel : LogSelect).

Definition store_step (insertMany : list WAFLog -> error) (ctx_done : bool)
           (st : MongoLogStore * LogConsumer) (x : StoreAction)
  : option (MongoLogStore * LogConsumer) :=
  let '(s, c) := st in
  match x with
  | DoStore log =>
      match MongoLogStore_Store s log with
      | Ret (s', _) => Some (s', c)
      | _ => None
      end
  | DoSelect sel => processLogs_step insertMany ctx_done s c sel
  end.

Fixpoint store_run (insertMany : list WAFLog -> error) (ctx_done : bool)
         (st : MongoLogStore * LogConsumer) (xs : list StoreAction)
  : option (MongoLogStore * LogConsumer) :=
  match xs with
  | [] => Some st
  | x :: xs =>
      match store_step insertMany ctx_done st x with
      | Some st' => store_run insertMany ctx_done st' xs
      | None => None
      end
  end.

(** The logs on their way to the database, oldest first: those handed to
    [InsertMany], those in the batch of the consumer, those queued. *)
Definition in_flight (st : MongoLogStore * LogConsumer) : list WAFLog :=
  concat (lc_inserted (snd st)) ++ lc_batch (snd st)
    ++ chan_buf (logChan (fst st)).

Definition stored_logs (xs : list StoreAction) : list WAFLog :=
  omap (fun x => match x with DoStore log => Some log | _ => None end) xs.

(** The batch is below its limit and every batch handed over has between
    one and [batchSize] entries. *)
Definition batches_ok (c : LogConsumer) : Prop :=
  (length (lc_batch c) < batchSize)%nat /\
  Forall (fun b => (1 <= length b <= batchSize)%nat) (lc_inserted c).

(** When the consumer has returned, nothing is left in its batch or in the
    queue, and the queue is closed. *)
Definition drained (st : MongoLogStore * LogConsumer) : Prop :=
  lc_exited (snd st) = true ->
  lc_batch (snd st) = [] /\ chan_buf (logChan (fst st)) = [] /\
  chan_closed (logChan (fst st)) = true.

(** ** MongoIPRecorder: batchWriteLoop, flushBatch and Close *)

Inductive WriterMsg : Type :=
| MsgBulkWriteFailed (e : string) (batch_size : nat).

Record BanWriter : Type := mkBanWriter {
  bw_batch : list BlockedIPRecord;
  bw_written : list (list BlockedIPRecord);
  bw_log : list (Level * WriterMsg);
  bw_exited : bool
}.

Definition NewBanWriter : BanWriter := mkBanWriter [] [] [] false.

(** [r.flushBatch(batch)]: one unordered bulk upsert keyed by IP;
    [bulkWrite] is the answer of the database. *)
Definition MongoIPRecorder_flushBatch
           (bulkWrite : list BlockedIPRecord -> error) (w : BanWriter)
           (batch : list BlockedIPRecord) : BanWriter :=
  match batch with
  | [] => w
  | _ :: _ =>
      mkBanWriter (bw_batch w) (bw_written w ++ [batch])
        (match bulkWrite batch with
         | Some e => bw_log w ++ [(LError, MsgBulkWriteFailed e (length batch))]
         | None => bw_log w
         end)
        (bw_exited w)
  end.

Inductive BanSelect : Type :=
| SelRecord
| SelFlushTick
| SelStop.

(** The zero value of [model.BlockedIPRecord], which a receive from the
    closed, drained queue yields (the loop does not look at [ok]). *)
Definition zeroRecord : BlockedIPRecord := mkBlocked EmptyString EmptyString 0 0.

Definition set_bw_batch (b : list BlockedIPRecord) (w : BanWriter)
  : BanWriter :=
  mkBanWriter b (bw_written w) (bw_log w) (bw_exited w).

(** One iteration of [batchWriteLoop]; [stopped] tells whether
    [stopWriter] has been closed. *)
Definition batchWriteLoop_step (bulkWrite : list BlockedIPRecord -> error)
           (stopped : bool) (q : chan BlockedIPRecord) (w : BanWriter)
           (sel : BanSelect) : option (chan BlockedIPRecord * BanWriter) :=
  if bw_exited w then None
  else
    match sel with
    | SelRecord =>
        match chan_recv q with
        | None => None
        | Some (v, q') =>
            let record := match v with Some r => r | None => zeroRecord end in
            let batch := bw_batch w ++ [record] in
            if (100 <=? length batch)%nat then
              Some (q', set_bw_batch []
                          (MongoIPRecorder_flushBatch bulkWrite w batch))
            else Some (q', set_bw_batch batch w)
        end
    | SelFlushTick =>
        if (0 <? length (bw_batch w))%nat then
          Some (q, set_bw_batch []
                     (MongoIPRecorder_flushBatch bulkWrite w (bw_batch w)))
        else Some (q, w)
    | SelStop =>
        if stopped then
          let w := if (0 <? length (bw_batch w))%nat
                   then MongoIPRecorder_flushBatch bulkWrite w (bw_batch w)
                   else w in
          Some (q, mkBanWriter (bw_batch w) (bw_written w) (bw_log w) true)
        else None
    end.

Fixpoint batchWriteLoop_run (bulkWrite : list BlockedIPRecord -> error)
         (stopped : bool) (q : chan BlockedIPRecord) (w : BanWriter)
         (sels : list BanSelect) : option (chan BlockedIPRecord * BanWriter) :=
  match sels with
  | [] => Some (q, w)
  | sel :: sels =>
      match batchWriteLoop_step bulkWrite stopped q w sel with
      | Some (q', w') => batchWriteLoop_run bulkWrite stopped q' w' sels
      | None => None
      end
  end.

Definition ban_batches_ok (w : BanWriter) : Prop :=
  (length (bw_batch w) < 100)%nat /\
  Forall (fun b => (1 <= length b <= 100)%nat) (bw_written w).

(** The records on their way to the database, oldest first; once the
    loop has returned its batch has been written. *)
Definition ban_in_flight (q : chan BlockedIPRecord) (w : BanWriter)
  : list BlockedIPRecord :=
  concat (bw_written w) ++ (if bw_exited w then [] else bw_batch w)
    ++ chan_buf q.

(** A store with three logs queued, and the actions of a short run. *)
Definition queued_store : MongoLogStore :=
  mkLogStore (mkChan [sample_log "AAAA"; sample_log "BBBB"; sample_log "CCCC"]
                     defaultChannelSize false) [] true.

Definition sample_store_run : list StoreAction :=
  [DoSelect SelLog; DoStore (sample_log "DDDD"); DoSelect SelLog;
   DoSelect SelTick; DoSelect SelLog].

(* ===================================================================== *)
(** * Header blocks as text *)
(* ===================================================================== *)

(** A header as it is written on its line. *)
Definition header_line (kv : string * string) : string :=
  fst kv +:+ ": " +:+ snd kv.

Fixpoint ascii_only (s : string) : bool :=
  match s with
  | EmptyString => true
  | String c s' => (N_of_ascii c <? 128)%N && ascii_only s'
  end.

(** A name and a value that come back unchanged from the scanners: bytes
    below 0x80 only, not empty, no white space around them, no colon in the
    name, no line feed in the line, and the line with its line end within
    the token limit of the scanner. *)
Definition clean_header (kv : string * string) : bool :=
  ascii_only (header_line kv)
  && negb (is_empty (fst kv)) && negb (is_empty (snd kv))
  && String.eqb (TrimSpace (fst kv)) (fst kv)
  && String.eqb (TrimSpace (snd kv)) (snd kv)
  && isNil (Cut (fst kv) ":")
  && isNil (Cut (header_line kv) LF)
  && (N.of_nat (String.length (header_line kv)) + 1 <? MaxScanTokenSize)%N.

Definition sample_headers : list (string * string) :=
  [("Host", "example.com"); ("Accept", "text/html, */*");
   ("X-Forwarded-For", "203.0.113.7, 10.0.0.1")].

(** A line of 65536 letters. *)
Definition long_line : string :=
  string_of_list_ascii (repeat "a"%char (N.to_nat MaxScanTokenSize)).

(** A representative of the runes [rune_EqualFold] takes as equal: the
    lower-case letter for the letters A-Z, k for U+212A, s for U+017F, and
    the rune itself otherwise. *)
Definition fold_class (r : N) : N :=
  (if (65 <=? r) && (r <=? 90) then r + 32
   else if r =? 8490 then 107
   else if r =? 383 then 115
   else r)%N.

(** U+00A0 (no-break space), U+017F (long s) and U+212A (Kelvin sign) in
    UTF-8. *)
Definition nbsp : string :=
  String (ascii_of_N 194) (String (ascii_of_N 160) EmptyString).

Definition long_s : string :=
  String (ascii_of_N 197) (String (ascii_of_N 191) EmptyString).

Definition kelvin : string :=
  String (ascii_of_N 226)
    (String (ascii_of_N 132) (String (ascii_of_N 170) EmptyString)).

Definition long_s_host : string := "Ho" +:+ long_s +:+ "t".

Definition long_s_host_line : string := long_s_host +:+ ": evil.example".

(** Requests whose forwarding headers hold Unicode white space: the name
    of the first header ends in U+00A0, so the address of that line is the
    one derived; the address of the second request ends in U+00A0. *)
Definition evade_request : applicationRequest :=
  mkRequest (AddrOf "10.0.0.5") 51000 (AddrOf "192.0.2.1") 443 "GET"
            "TXEVADE000000001" "/login" None "1.1"
            (lines_of ["Host: example.com";
                       "X-Forwarded-For" +:+ nbsp +:+ ": 192.0.2.250";
                       "X-Forwarded-For: 203.0.113.7, 10.0.0.1"])
            EmptyString.

Definition padded_request : applicationRequest :=
  mkRequest (AddrOf "10.0.0.5") 51000 (AddrOf "192.0.2.1") 443 "GET"
            "TXPADDED00000001" "/login" None "1.1"
            (lines_of ["Host: example.com";
                       "X-Forwarded-For: 203.0.113.7" +:+ nbsp])
            EmptyString.

(* ===================================================================== *)
(** * Client-IP derivation: properties *)
(* ===================================================================== *)

Example getRealClientIP_xff :
  getRealClientIP
    (Some (sample_request
       (lines_of ["Host: example.com";
                  "X-Forwarded-For: 203.0.113.7, 10.0.0.1";
                  "X-Real-IP: 10.9.9.9"])))
  = "203.0.113.7".
Proof. vm_compute. reflexivity. Qed.

Example getRealClientIP_forwarded :
  getRealClientIP
    (Some (sample_request
       (lines_of ["Host: example.com";
                  "Forwarded: for=" +:+ String dquote "[2001:db8::1]"
                    +:+ String dquote ";proto=https"])))
  = "2001:db8::1".
Proof. vm_compute. reflexivity. Qed.

Example getRealClientIP_plain :
  getRealClientIP
    (Some (sample_request (lines_of ["Host: example.com"; "Accept: */*"])))
  = "198.51.100.9".
Proof. vm_compute. reflexivity. Qed.

(** ** Properties of the header scan *)

Lemma is_forwarding_line_false (l h : string) :
  is_forwarding_line l = false -> In h realIPHeaders -> headerLine l h = None.
Proof.
  unfold is_forwarding_line. intros Hex Hin.
  destruct (headerLine l h) as [v|] eqn:E; [|reflexivity].
  assert (Ht : existsb
     (fun h0 => match headerLine l h0 with Some _ => true | None => false end)
     realIPHeaders = true).
  { apply existsb_exists. exists h. rewrite E. auto. }
  congruence.
Qed.

Lemma getHeaderValue_scan_skip (pre : list string) (l : string)
      (post : list string) (h : string) :
  Forall (fun x => headerLine x h = None) pre ->
  getHeaderValue_scan (pre ++ l :: post) h =
  match headerLine l h with
  | Some v => v
  | None => getHeaderValue_scan post h
  end.
Proof.
  induction 1 as [|x pre Hx _ IH]; simpl; [reflexivity|].
  rewrite Hx. exact IH.
Qed.

Lemma getHeaderValue_scan_none (ls : list string) (h : string) :
  Forall (fun x => headerLine x h = None) ls ->
  getHeaderValue_scan ls h = EmptyString.
Proof.
  induction 1 as [|x ls Hx _ IH]; simpl; [reflexivity|].
  rewrite Hx. exact IH.
Qed.

Lemma Forall_no_forwarding (ls : list string) (h : string) :
  In h realIPHeaders ->
  Forall (fun l => is_forwarding_line l = false) ls ->
  Forall (fun x => headerLine x h = None) ls.
Proof.
  intros Hin HF. eapply List.Forall_impl; [|exact HF].
  intros l Hl. apply is_forwarding_line_false; assumption.
Qed.

Lemma getRealClientIP_headers_empty (hs : list string) (headers : string) :
  (forall h, In h hs -> getHeaderValue headers h = (EmptyString, None)) ->
  getRealClientIP_headers hs headers = None.
Proof.
  induction hs as [|h hs IH]; cbn [getRealClientIP_headers]; intros Hall;
    [reflexivity|].
  rewrite (Hall h) by (left; reflexivity). cbn [is_empty negb].
  apply IH. intros h' Hin. apply Hall. right. exact Hin.
Qed.

Lemma getRealClientIP_headers_none (headers : string) :
  no_forwarding_headers headers ->
  getRealClientIP_headers realIPHeaders headers = None.
Proof.
  intros Hno. apply getRealClientIP_headers_empty.
  intros h Hin. unfold getHeaderValue.
  rewrite getHeaderValue_scan_none; [reflexivity|].
  apply Forall_no_forwarding; assumption.
Qed.

Lemma getHeaderValue_at (headers : string) (pre : list string) (l : string)
      (post : list string) (h : string) :
  ScanLines headers = pre ++ l :: post ->
  Forall (fun x => headerLine x h = None) pre ->
  getHeaderValue headers h =
  (match headerLine l h with
   | Some v => v
   | None => getHeaderValue_scan post h
   end, None).
Proof.
  intros Hs Hpre. unfold getHeaderValue. rewrite Hs.
  rewrite getHeaderValue_scan_skip by exact Hpre. reflexivity.
Qed.

Lemma getRealClientIP_xff_first (req : applicationRequest)
      (pre post : list string) :
  ScanLines (Headers req) = pre ++ xff_line :: post ->
  Forall (fun x => headerLine x "x-forwarded-for" = None) pre ->
  getRealClientIP (Some req) = "203.0.113.7".
Proof.
  intros Hs Hpre. unfold getRealClientIP, realIPHeaders.
  cbn [getRealClientIP_headers].
  rewrite (getHeaderValue_at _ _ _ _ _ Hs Hpre).
  reflexivity.
Qed.

Lemma getRealClientIP_forwarded_only (req : applicationRequest)
      (pre post : list string) :
  ScanLines (Headers req) = pre ++ forwarded_line :: post ->
  Forall (fun l => is_forwarding_line l = false) pre ->
  Forall (fun l => is_forwarding_line l = false) post ->
  getRealClientIP (Some req) = "2001:db8::1".
Proof.
  intros Hs Hpre Hpost.
  assert (Hget : forall h, In h realIPHeaders ->
            getHeaderValue (Headers req) h =
            (match headerLine forwarded_line h with
             | Some v => v
             | None => EmptyString
             end, None)).
  { intros h Hin.
    rewrite (getHeaderValue_at _ _ _ _ h Hs)
      by (apply Forall_no_forwarding; assumption).
    rewrite (getHeaderValue_scan_none post)
      by (apply Forall_no_forwarding; assumption).
    reflexivity. }
  unfold getRealClientIP.
  assert (Hres : getRealClientIP_headers realIPHeaders (Headers req)
                 = Some "2001:db8::1").
  { unfold realIPHeaders in *. cbn [getRealClientIP_headers].
    repeat (rewrite Hget by (simpl; tauto)).
    reflexivity. }
  rewrite Hres. reflexivity.
Qed.

Lemma getRealClientIP_no_headers (req : applicationRequest) :
  no_forwarding_headers (Headers req) ->
  getRealClientIP (Some req) =
  if Addr_IsValid (SrcIp req) then Addr_String (SrcIp req) else EmptyString.
Proof.
  intros Hno. unfold getRealClientIP.
  rewrite getRealClientIP_headers_none by exact Hno. reflexivity.
Qed.

(** C5. Client-IP derivation.  (1) When the scanned header block holds the
    line [X-Forwarded-For: 203.0.113.7, 10.0.0.1] and no earlier line is an
    X-Forwarded-For header, the derived client IP is [203.0.113.7].
    (2) When the only forwarding header of the block is
    [Forwarded: for="[2001:db8::1]";proto=https], the derived client IP is
    [2001:db8::1].  (3) When the block holds no forwarding header at all, the
    derived client IP is the printed transport-level source address (and the
    empty string when the message carried no source address). *)
Theorem C5_client_ip_derivation :
  (forall req pre post,
      ScanLines (Headers req) = pre ++ xff_line :: post ->
      Forall (fun x => headerLine x "x-forwarded-for" = None) pre ->
      getRealClientIP (Some req) = "203.0.113.7") /\
  (forall req pre post,
      ScanLines (Headers req) = pre ++ forwarded_line :: post ->
      Forall (fun l => is_forwarding_line l = false) pre ->
      Forall (fun l => is_forwarding_line l = false) post ->
      getRealClientIP (Some req) = "2001:db8::1") /\
  (forall req,
      no_forwarding_headers (Headers req) ->
      getRealClientIP (Some req) =
      if Addr_IsValid (SrcIp req) then Addr_String (SrcIp req)
      else EmptyString).
Proof.
  split; [|split].
  - exact getRealClientIP_xff_first.
  - exact getRealClientIP_forwarded_only.
  - exact getRealClientIP_no_headers.
Qed.

Lemma C5_client_ip_derivation_witness :
  getRealClientIP
    (Some (sample_request
       (lines_of ["Host: example.com"; xff_line; "X-Real-IP: 10.9.9.9"])))
  = "203.0.113.7" /\
  getRealClientIP
    (Some (sample_request
       (lines_of ["Host: example.com"; forwarded_line; "Accept: */*"])))
  = "2001:db8::1" /\
  getRealClientIP
    (Some (sample_request (lines_of ["Host: example.com"; "Accept: */*"])))
  = "198.51.100.9".
Proof.
  destruct C5_client_ip_derivation as [H1 [H2 H3]].
  split; [|split].
  - apply (H1 _ ["Host: example.com"] ["X-Real-IP: 10.9.9.9"]).
    + vm_compute. reflexivity.
    + repeat constructor.
  - apply (H2 _ ["Host: example.com"] ["Accept: */*"]).
    + vm_compute. reflexivity.
    + repeat constructor.
    + repeat constructor.
  - rewrite (H3 (sample_request
                   (lines_of ["Host: example.com"; "Accept: */*"]))).
    + reflexivity.
    + unfold no_forwarding_headers.
      replace (ScanLines _) with ["Host: example.com"; "Accept: */*"]
        by (vm_compute; reflexivity).
      repeat constructor.
Defined.

(* ===================================================================== *)
(** * The expiry heap: order and position bookkeeping *)
(* ===================================================================== *)

Section HeapOrder.

Lemma parent_children (c i : Z) :
  0 <= i -> 0 < c -> parent c = i <-> c = 2 * i + 1 \/ c = 2 * i + 2.
Proof.
  unfold parent. intros Hi Hc.
  split; intros H; Z.to_euclidean_division_equations; lia.
Qed.

Lemma parent_bounds (c : Z) : 0 < c -> 0 <= parent c < c.
Proof. unfold parent. intros Hc. Z.to_euclidean_division_equations; lia. Qed.

Lemma parent_fixpoint (j : Z) : 0 <= j -> parent j = j -> j = 0.
Proof.
  unfold parent. intros Hj H. Z.to_euclidean_division_equations; lia.
Qed.

Lemma parent_root : parent 0 = 0.
Proof. reflexivity. Qed.

(** The root of an ordered heap is a minimum. *)
Lemma ordered_root_min (kf : Z -> Time) (n : Z) :
  ordered kf n -> forall c, 0 <= c < n -> kf 0 <= kf c.
Proof.
  intros Hord c Hc.
  assert (H : forall m : nat, forall c, 0 <= c < n -> Z.to_nat c = m ->
                               kf 0 <= kf c).
  { intros m. induction (lt_wf m) as [m _ IH]. intros c0 Hc0 Hm.
    destruct (Z.eq_dec c0 0) as [->|Hne]; [lia|].
    pose proof (parent_bounds c0 ltac:(lia)) as Hp.
    specialize (IH (Z.to_nat (parent c0)) ltac:(lia) (parent c0) ltac:(lia)
                   eq_refl).
    specialize (Hord c0 ltac:(lia)). lia. }
  exact (H _ c Hc eq_refl).
Qed.

(** One sift-down step re-establishes the invariant one level below. *)
Lemma down_inv_step (kf kf' : Z -> Time) (n i j e : Z) :
  0 <= i -> j < n -> parent j = i -> 0 < j ->
  e = i \/ e < 0 ->
  swapped kf kf' i j ->
  kf j < kf i ->
  (forall c, 0 < c < n -> parent c = i -> kf j <= kf c) ->
  down_inv kf n i e ->
  down_inv kf' n j (-1).
Proof.
  intros Hi Hjn Hpj Hj He Hsw Hlt Hmin [Ha Hb].
  assert (Hij : i < j) by (pose proof (parent_bounds j Hj); lia).
  split.
  - intros c Hc Hpc _.
    pose proof (parent_bounds c ltac:(lia)) as Hpb.
    rewrite (Hsw (parent c)), (Hsw c).
    destruct (Z.eqb_spec (parent c) j) as [E1|E1]; [contradiction|].
    destruct (Z.eqb_spec c j) as [E2|E2].
    + subst c. rewrite Hpj, Z.eqb_refl. lia.
    + destruct (Z.eqb_spec (parent c) i) as [E3|E3].
      * destruct (Z.eqb_spec c i) as [E4|E4]; [lia|].
        apply Hmin; assumption.
      * destruct (Z.eqb_spec c i) as [E4|E4].
        -- subst c. specialize (Hb j ltac:(lia) Hpj ltac:(lia)). lia.
        -- apply Ha; [lia|assumption|lia].
  - intros c Hc Hpc _.
    pose proof (parent_bounds c ltac:(lia)) as Hpb.
    rewrite (Hsw (parent j)), (Hsw c), Hpj.
    destruct (Z.eqb_spec i j) as [E1|E1]; [lia|].
    rewrite Z.eqb_refl.
    destruct (Z.eqb_spec c j) as [E2|E2]; [lia|].
    destruct (Z.eqb_spec c i) as [E3|E3]; [lia|].
    specialize (Ha c Hc ltac:(lia) ltac:(lia)). rewrite Hpc in Ha. exact Ha.
Qed.

(** When [down] stops at [i], only the pair above [e] can be out of
    order. *)
Lemma down_inv_stop (kf : Z -> Time) (n i e : Z) :
  down_inv kf n i e ->
  (forall c, 0 < c < n -> parent c = i -> kf i <= kf c) ->
  forall c, 0 < c < n -> c <> e -> kf (parent c) <= kf c.
Proof.
  intros [Ha _] Hch c Hc Hce.
  destruct (Z.eq_dec (parent c) i) as [E|E].
  - rewrite E. apply Hch; assumption.
  - apply Ha; assumption.
Qed.

(** One sift-up step re-establishes the invariant one level above. *)
Lemma up_inv_step (kf kf' : Z -> Time) (n i j : Z) :
  0 < j < n -> parent j = i ->
  swapped kf kf' i j ->
  kf j < kf i ->
  up_inv kf n j ->
  up_inv kf' n i.
Proof.
  intros Hj Hpj Hsw Hlt [Ha Hb].
  pose proof (parent_bounds j ltac:(lia)) as Hpb.
  assert (Hij : i < j) by lia.
  split.
  - intros c Hc Hci.
    pose proof (parent_bounds c ltac:(lia)) as Hpc.
    rewrite (Hsw (parent c)), (Hsw c).
    destruct (Z.eqb_spec c j) as [E1|E1].
    + subst c. rewrite Hpj.
      destruct (Z.eqb_spec i j); [lia|]. rewrite Z.eqb_refl. lia.
    + destruct (Z.eqb_spec c i) as [E2|E2]; [contradiction|].
      destruct (Z.eqb_spec (parent c) j) as [E3|E3].
      * specialize (Hb c Hc E3 ltac:(lia)). rewrite Hpj in Hb. exact Hb.
      * destruct (Z.eqb_spec (parent c) i) as [E4|E4].
        -- specialize (Ha c Hc E1). rewrite E4 in Ha. lia.
        -- apply Ha; assumption.
  - intros c Hc Hpc Hi.
    pose proof (parent_bounds i Hi) as Hpi.
    rewrite (Hsw (parent i)), (Hsw c).
    destruct (Z.eqb_spec (parent i) j) as [E1|E1]; [lia|].
    destruct (Z.eqb_spec (parent i) i) as [E2|E2]; [lia|].
    pose proof (Ha i ltac:(lia) ltac:(lia)) as Hpi_le.
    destruct (Z.eqb_spec c j) as [E3|E3]; [exact Hpi_le|].
    destruct (Z.eqb_spec c i) as [E4|E4]; [subst c; lia|].
    specialize (Ha c Hc E3). rewrite Hpc in Ha. lia.
Qed.

Lemma up_inv_stop (kf : Z -> Time) (n j : Z) :
  up_inv kf n j ->
  (0 < j -> kf (parent j) <= kf j) ->
  ordered kf n.
Proof.
  intros [Ha _] Hj c Hc.
  destruct (Z.eq_dec c j) as [->|E]; [apply Hj; lia|].
  apply Ha; assumption.
Qed.

End HeapOrder.

(** ** Positions of the slice *)

Lemma pos_get_range (s : list loc) (i : Z) (l : loc) :
  pos_get s i = Some l -> 0 <= i < Z.of_nat (length s).
Proof.
  unfold pos_get. destruct (Z.ltb_spec i 0); [discriminate|].
  intros H0. apply lookup_lt_Some in H0. lia.
Qed.

Lemma pos_get_in_range (s : list loc) (i : Z) :
  0 <= i < Z.of_nat (length s) -> exists l, pos_get s i = Some l.
Proof.
  intros Hi. unfold pos_get. destruct (Z.ltb_spec i 0); [lia|].
  destruct (lookup_lt_is_Some_2 s (Z.to_nat i)) as [l Hl]; [lia|].
  exists l. exact Hl.
Qed.

Lemma pos_get_out (s : list loc) (i : Z) :
  ~ (0 <= i < Z.of_nat (length s)) -> pos_get s i = None.
Proof.
  intros Hi. destruct (pos_get s i) as [l|] eqn:E; [|reflexivity].
  apply pos_get_range in E. contradiction.
Qed.

Lemma slice_get_pos (s : list loc) (i : Z) :
  slice_get s i = match pos_get s i with Some l => Ret l | None => Panic end.
Proof.
  unfold slice_get, pos_get. destruct (i <? 0); [reflexivity|].
  destruct (s !! Z.to_nat i); reflexivity.
Qed.

Lemma elem_of_pos_get (s : list loc) (l : loc) :
  l ∈ s <-> exists i, pos_get s i = Some l.
Proof.
  rewrite list_elem_of_lookup. split.
  - intros [k Hk]. exists (Z.of_nat k). unfold pos_get.
    destruct (Z.ltb_spec (Z.of_nat k) 0); [lia|].
    rewrite Nat2Z.id. exact Hk.
  - intros [i Hi]. unfold pos_get in Hi.
    destruct (i <? 0); [discriminate|]. eauto.
Qed.

Lemma pos_get_inj (s : list loc) (i j : Z) (l : loc) :
  NoDup s -> pos_get s i = Some l -> pos_get s j = Some l -> i = j.
Proof.
  intros Hnd Hi Hj.
  pose proof (pos_get_range _ _ _ Hi). pose proof (pos_get_range _ _ _ Hj).
  unfold pos_get in Hi, Hj.
  destruct (Z.ltb_spec i 0); [lia|]. destruct (Z.ltb_spec j 0); [lia|].
  pose proof (proj1 (NoDup_alt s) Hnd _ _ _ Hi Hj). lia.
Qed.

Lemma pos_get_swap (s : list loc) (i j : Z) (x y : loc) :
  pos_get s i = Some x -> pos_get s j = Some y ->
  forall k, pos_get (slice_set (slice_set s i y) j x) k =
            if k =? j then Some x else if k =? i then Some y
            else pos_get s k.
Proof.
  intros Hi Hj k.
  pose proof (pos_get_range _ _ _ Hi) as Ri.
  pose proof (pos_get_range _ _ _ Hj) as Rj.
  unfold pos_get, slice_set.
  destruct (Z.ltb_spec k 0) as [Hk|Hk].
  - destruct (Z.eqb_spec k j); [lia|]. destruct (Z.eqb_spec k i); [lia|].
    reflexivity.
  - destruct (Z.eqb_spec k j) as [->|Hkj].
    + apply list_lookup_insert_eq. rewrite length_insert. lia.
    + rewrite list_lookup_insert_ne by lia.
      destruct (Z.eqb_spec k i) as [->|Hki].
      * apply list_lookup_insert_eq. lia.
      * rewrite list_lookup_insert_ne by lia. reflexivity.
Qed.

Lemma idx_ok_item (h : IPExpiryHeap) (i : Z) :
  idx_ok h -> 0 <= i < IPExpiryHeapM.Len h ->
  exists l it, pos_get (slice h) i = Some l /\ objs h !! l = Some it /\
               index it = i /\ key h i = expiresAt it.
Proof.
  intros [_ Hidx] Hi.
  destruct (pos_get_in_range (slice h) i Hi) as [l Hl].
  destruct (Hidx _ _ Hl) as [it [Hit Hx]].
  exists l, it. repeat split; try assumption.
  unfold key, expiry_of. rewrite Hl, Hit. reflexivity.
Qed.

Lemma same_data_refl (h : IPExpiryHeap) : same_data h h.
Proof. intros l. reflexivity. Qed.

Lemma same_data_trans (h1 h2 h3 : IPExpiryHeap) :
  same_data h1 h2 -> same_data h2 h3 -> same_data h1 h3.
Proof. intros H12 H23 l. rewrite H23. apply H12. Qed.

Lemma same_data_expiry (h h' : IPExpiryHeap) (l : loc) :
  same_data h h' -> expiry_of h' l = expiry_of h l.
Proof.
  intros Hsd. specialize (Hsd l). unfold expiry_of.
  destruct (objs h' !! l) as [a|], (objs h !! l) as [b|];
    simpl in Hsd; try discriminate; [|reflexivity].
  inversion Hsd. reflexivity.
Qed.

Lemma same_data_item (h h' : IPExpiryHeap) (l : loc) (it : IPExpiryItem) :
  same_data h h' -> objs h !! l = Some it ->
  exists it', objs h' !! l = Some it' /\ ip it' = ip it /\
              expiresAt it' = expiresAt it.
Proof.
  intros Hsd Hit. specialize (Hsd l). rewrite Hit in Hsd.
  destruct (objs h' !! l) as [a|]; simpl in Hsd; [|discriminate].
  inversion Hsd. eauto.
Qed.

(** ** The methods of [IPExpiryHeap] inside the slice *)

Lemma Less_spec (h : IPExpiryHeap) (i j : Z) :
  idx_ok h -> 0 <= i < IPExpiryHeapM.Len h -> 0 <= j < IPExpiryHeapM.Len h ->
  IPExpiryHeapM.Less h i j = Ret (key h i <? key h j).
Proof.
  intros Hok Hi Hj.
  destruct (idx_ok_item h i Hok Hi) as (li & iti & Hli & Hiti & _ & Hki).
  destruct (idx_ok_item h j Hok Hj) as (lj & itj & Hlj & Hitj & _ & Hkj).
  unfold IPExpiryHeapM.Less. rewrite !slice_get_pos, Hli, Hlj. simpl.
  unfold deref. rewrite Hiti, Hitj. simpl. rewrite Hki, Hkj. reflexivity.
Qed.

Lemma Swap_eq (h : IPExpiryHeap) (i j : Z) (x y : loc)
      (itx ity : IPExpiryItem) :
  NoDup (slice h) ->
  pos_get (slice h) i = Some x -> pos_get (slice h) j = Some y ->
  objs h !! x = Some itx -> objs h !! y = Some ity ->
  IPExpiryHeapM.Swap h i j =
  Ret (mkHeap (slice_set (slice_set (slice h) i y) j x)
              (<[x := mkItem (ip itx) (expiresAt itx) j]>
                 (<[y := mkItem (ip ity) (expiresAt ity) i]> (objs h)))).
Proof.
  intros Hnd Hx Hy Hitx Hity.
  pose proof (pos_get_swap _ _ _ _ _ Hx Hy) as Hpos.
  unfold IPExpiryHeapM.Swap.
  rewrite (slice_get_pos (slice h) j), Hy. cbn [bind].
  rewrite (slice_get_pos (slice h) i), Hx. cbn [bind].
  rewrite slice_get_pos, Hpos.
  destruct (Z.eqb_spec i j) as [Eij|Nij].
  - subst j. assert (y = x) by congruence. subst y.
    assert (ity = itx) by congruence. subst ity.
    cbn [bind]. unfold set_index at 1. unfold deref. rewrite Hitx.
    cbn [bind]. rewrite slice_get_pos, Hpos, Z.eqb_refl. cbn [bind].
    unfold set_index, deref. rewrite lookup_insert_eq. cbn [bind].
    reflexivity.
  - rewrite Z.eqb_refl. cbn [bind].
    unfold set_index at 1. unfold deref. rewrite Hity. cbn [bind].
    rewrite slice_get_pos, Hpos, Z.eqb_refl. cbn [bind].
    assert (x <> y).
    { intros E. subst y. apply Nij. eapply pos_get_inj; eassumption. }
    unfold set_index, deref. rewrite lookup_insert_ne by congruence.
    rewrite Hitx. cbn [bind]. reflexivity.
Qed.

Lemma Swap_spec (h : IPExpiryHeap) (i j : Z) :
  idx_ok h -> 0 <= i < IPExpiryHeapM.Len h -> 0 <= j < IPExpiryHeapM.Len h ->
  exists h', IPExpiryHeapM.Swap h i j = Ret h' /\
    idx_ok h' /\ same_data h h' /\
    IPExpiryHeapM.Len h' = IPExpiryHeapM.Len h /\
    (forall k, pos_get (slice h') k =
               if k =? j then pos_get (slice h) i
               else if k =? i then pos_get (slice h) j
               else pos_get (slice h) k).
Proof.
  intros Hok Hi Hj.
  destruct (idx_ok_item h i Hok Hi) as (x & itx & Hx & Hitx & Hxi & _).
  destruct (idx_ok_item h j Hok Hj) as (y & ity & Hy & Hity & Hyj & _).
  destruct Hok as [Hnd Hidx].
  pose proof (pos_get_swap _ _ _ _ _ Hx Hy) as Hpos.
  rewrite (Swap_eq h i j x y itx ity) by assumption.
  set (s := slice_set (slice_set (slice h) i y) j x) in *.
  eexists. split; [reflexivity|].
  assert (Hxy : i <> j -> x <> y).
  { intros Hne E. subst y. apply Hne. eapply pos_get_inj; eassumption. }
  split; [|split; [|split]].
  - split; simpl.
    + apply NoDup_alt. intros a b l Ha Hb.
      assert (Ha' : pos_get s (Z.of_nat a) = Some l).
      { unfold pos_get. destruct (Z.ltb_spec (Z.of_nat a) 0); [lia|].
        rewrite Nat2Z.id. exact Ha. }
      assert (Hb' : pos_get s (Z.of_nat b) = Some l).
      { unfold pos_get. destruct (Z.ltb_spec (Z.of_nat b) 0); [lia|].
        rewrite Nat2Z.id. exact Hb. }
      rewrite Hpos in Ha', Hb'.
      assert (Hgen : forall k l0,
                (if k =? j then Some x else if k =? i then Some y
                 else pos_get (slice h) k) = Some l0 ->
                pos_get (slice h)
                  (if k =? j then i else if k =? i then j else k) = Some l0).
      { intros k l0 Hk. destruct (k =? j); [congruence|].
        destruct (k =? i); [congruence|assumption]. }
      pose proof (pos_get_inj _ _ _ _ Hnd (Hgen _ _ Ha') (Hgen _ _ Hb'))
        as Ekk.
      destruct (Z.eqb_spec (Z.of_nat a) j), (Z.eqb_spec (Z.of_nat a) i),
               (Z.eqb_spec (Z.of_nat b) j), (Z.eqb_spec (Z.of_nat b) i);
        lia.
    + intros k l Hk. rewrite Hpos in Hk.
      destruct (Z.eqb_spec k j) as [->|Hkj].
      * inversion Hk; subst l. rewrite lookup_insert_eq.
        eexists; split; reflexivity.
      * destruct (Z.eqb_spec k i) as [->|Hki].
        -- inversion Hk; subst l.
           rewrite lookup_insert_ne by (apply Hxy; lia).
           rewrite lookup_insert_eq. eexists; split; reflexivity.
        -- assert (l <> x).
           { intros ->. apply Hki. eapply pos_get_inj; eassumption. }
           assert (l <> y).
           { intros ->. apply Hkj. eapply pos_get_inj; eassumption. }
           rewrite !lookup_insert_ne by congruence.
           apply Hidx. exact Hk.
  - intros l. simpl. destruct (decide (l = x)) as [->|Hlx].
    + rewrite lookup_insert_eq, Hitx. reflexivity.
    + rewrite lookup_insert_ne by congruence.
      destruct (decide (l = y)) as [->|Hly].
      * rewrite lookup_insert_eq, Hity. reflexivity.
      * rewrite lookup_insert_ne by congruence. reflexivity.
  - unfold IPExpiryHeapM.Len. simpl. unfold s, slice_set.
    rewrite !length_insert. reflexivity.
  - intros k. simpl. fold s. rewrite Hpos, Hx, Hy. reflexivity.
Qed.

Lemma pos_swap_keys (h h' : IPExpiryHeap) (i j : Z) :
  same_data h h' ->
  (forall k, pos_get (slice h') k =
             if k =? j then pos_get (slice h) i
             else if k =? i then pos_get (slice h) j
             else pos_get (slice h) k) ->
  swapped (key h) (key h') i j.
Proof.
  intros Hsd Hpos k. unfold key. rewrite Hpos.
  destruct (k =? j); [|destruct (k =? i)];
    match goal with
    | |- context [pos_get (slice h) ?x] =>
        destruct (pos_get (slice h) x); [apply same_data_expiry; exact Hsd|
                                         reflexivity]
    end.
Qed.

Lemma pos_swap_elems (s s' : list loc) (i j : Z) :
  is_Some (pos_get s i) -> is_Some (pos_get s j) ->
  (forall k, pos_get s' k =
             if k =? j then pos_get s i
             else if k =? i then pos_get s j
             else pos_get s k) ->
  forall l, l ∈ s' <-> l ∈ s.
Proof.
  intros [x Hx] [y Hy] Hpos l. rewrite !elem_of_pos_get. split.
  - intros [k Hk]. rewrite Hpos in Hk.
    destruct (k =? j); [eauto|]. destruct (k =? i); eauto.
  - intros [k Hk].
    destruct (Z.eq_dec k i) as [->|Hki].
    + exists j. rewrite Hpos, Z.eqb_refl. exact Hk.
    + destruct (Z.eq_dec k j) as [->|Hkj].
      * exists i. rewrite Hpos.
        destruct (Z.eqb_spec i j); [congruence|].
        rewrite Z.eqb_refl. exact Hk.
      * exists k. rewrite Hpos.
        destruct (Z.eqb_spec k j); [contradiction|].
        destruct (Z.eqb_spec k i); [contradiction|]. exact Hk.
Qed.

(** ** container/heap: sifting *)

Lemma down_loop_spec (fuel : nat) :
  forall (h : IPExpiryHeap) (i n e : Z),
  idx_ok h -> 0 <= i -> n <= IPExpiryHeapM.Len h ->
  (Z.to_nat (n - i) < fuel)%nat ->
  e = i \/ e < 0 ->
  down_inv (key h) n i e ->
  exists h' i', heap.down_loop fuel h i n = Ret (h', i') /\
    idx_ok h' /\ same_data h h' /\
    IPExpiryHeapM.Len h' = IPExpiryHeapM.Len h /\
    (forall l, l ∈ slice h' <-> l ∈ slice h) /\
    (forall k, n <= k -> pos_get (slice h') k = pos_get (slice h) k) /\
    i <= i' /\ (i' = i -> h' = h) /\
    (forall c, 0 < c < n -> (i' = i -> c <> e) ->
               key h' (parent c) <= key h' c).
Proof.
  induction fuel as [|fuel IH]; intros h i n e Hok Hi Hn Hfuel He Hinv;
    [lia|].
  cbn [heap.down_loop]. cbv zeta.
  assert (Hstop : (forall c, 0 < c < n -> parent c = i ->
                             key h i <= key h c) ->
    exists h' i', Ret (h, i) = Ret (h', i') /\
    idx_ok h' /\ same_data h h' /\
    IPExpiryHeapM.Len h' = IPExpiryHeapM.Len h /\
    (forall l, l ∈ slice h' <-> l ∈ slice h) /\
    (forall k, n <= k -> pos_get (slice h') k = pos_get (slice h) k) /\
    i <= i' /\ (i' = i -> h' = h) /\
    (forall c, 0 < c < n -> (i' = i -> c <> e) ->
               key h' (parent c) <= key h' c)).
  { intros Hch. exists h, i. split; [reflexivity|].
    split; [exact Hok|]. split; [apply same_data_refl|].
    split; [reflexivity|]. split; [tauto|]. split; [reflexivity|].
    split; [lia|]. split; [reflexivity|].
    intros c Hc Hce. eapply down_inv_stop; eauto. }
  destruct (Z.leb_spec n (2 * i + 1)) as [Hn1|Hn1].
  { cbn [orb]. apply Hstop. intros c Hc Hpc.
    apply parent_children in Hpc; lia. }
  destruct (Z.ltb_spec (2 * i + 1) 0) as [Hneg|_]; [lia|]. cbn [orb].
  (* the smaller child *)
  assert (Hj : exists j,
     (if 2 * i + 1 + 1 <? n
      then less <- IPExpiryHeapM.Less h (2 * i + 1 + 1) (2 * i + 1);;
           Ret (if less then 2 * i + 1 + 1 else 2 * i + 1)
      else Ret (2 * i + 1)) = Ret j /\
     (j = 2 * i + 1 \/ j = 2 * i + 2) /\ j < n /\
     forall c, 0 < c < n -> parent c = i -> key h j <= key h c).
  { destruct (Z.ltb_spec (2 * i + 1 + 1) n) as [Hj2|Hj2].
    - rewrite Less_spec by (try assumption; lia). cbn [bind].
      destruct (Z.ltb_spec (key h (2 * i + 1 + 1)) (key h (2 * i + 1))).
      + exists (2 * i + 1 + 1). split; [reflexivity|].
        split; [lia|]. split; [lia|].
        intros c Hc Hpc. apply parent_children in Hpc; [|lia|lia].
        destruct Hpc as [->| ->]; [lia|].
        replace (2 * i + 2) with (2 * i + 1 + 1) by lia. lia.
      + exists (2 * i + 1). split; [reflexivity|].
        split; [lia|]. split; [lia|].
        intros c Hc Hpc. apply parent_children in Hpc; [|lia|lia].
        destruct Hpc as [->| ->]; [lia|].
        replace (2 * i + 2) with (2 * i + 1 + 1) by lia. lia.
    - exists (2 * i + 1). split; [reflexivity|].
      split; [lia|]. split; [lia|].
      intros c Hc Hpc. apply parent_children in Hpc; [|lia|lia].
      destruct Hpc as [->| ->]; lia. }
  destruct Hj as (j & Ej & Hjc & Hjn & Hjmin).
  rewrite Ej. cbn [bind].
  assert (Hpj : parent j = i) by (apply parent_children; lia).
  rewrite Less_spec by (try assumption; lia). cbn [bind].
  destruct (Z.ltb_spec (key h j) (key h i)) as [Hlt|Hge]; cbn [negb].
  2:{ apply Hstop. intros c Hc Hpc. specialize (Hjmin c Hc Hpc). lia. }
  destruct (Swap_spec h i j Hok ltac:(lia) ltac:(lia))
    as (h1 & Esw & Hok1 & Hsd1 & Hlen1 & Hpos1).
  rewrite Esw. cbn [bind].
  pose proof (pos_swap_keys _ _ _ _ Hsd1 Hpos1) as Hkeys.
  destruct (IH h1 j n (-1) Hok1 ltac:(lia) ltac:(lia) ltac:(lia)
               ltac:(right; lia)) as (h' & i' & Edl & Hok' & Hsd' & Hlen' &
                                       Hel' & Hpos' & Hle' & _ & Hord').
  { eapply (down_inv_step (key h) (key h1) n i j e); eauto; lia. }
  exists h', i'. split; [exact Edl|]. split; [exact Hok'|].
  split; [eapply same_data_trans; eassumption|].
  split; [lia|].
  split.
  { intros l. rewrite Hel'. apply (pos_swap_elems _ _ i j).
    - destruct (pos_get_in_range (slice h) i) as [x Hx]; [unfold IPExpiryHeapM.Len in *; lia|]. rewrite Hx. eauto.
    - destruct (pos_get_in_range (slice h) j) as [x Hx]; [unfold IPExpiryHeapM.Len in *; lia|]. rewrite Hx. eauto.
    - exact Hpos1. }
  split.
  { intros k Hk. rewrite Hpos' by exact Hk. rewrite Hpos1.
    destruct (Z.eqb_spec k j); [lia|]. destruct (Z.eqb_spec k i); [lia|].
    reflexivity. }
  split; [lia|]. split; [lia|].
  intros c Hc _. apply Hord'; [exact Hc|lia].
Qed.
Lemma up_spec (fuel : nat) :
  forall (h : IPExpiryHeap) (j : Z),
  idx_ok h -> 0 <= j < IPExpiryHeapM.Len h ->
  (Z.to_nat j < fuel)%nat ->
  up_inv (key h) (IPExpiryHeapM.Len h) j ->
  exists h', heap.up fuel h j = Ret h' /\
    idx_ok h' /\ same_data h h' /\
    IPExpiryHeapM.Len h' = IPExpiryHeapM.Len h /\
    (forall l, l ∈ slice h' <-> l ∈ slice h) /\
    ordered (key h') (IPExpiryHeapM.Len h').
Proof.
  induction fuel as [|fuel IH]; intros h j Hok Hj Hfuel Hinv; [lia|].
  cbn [heap.up]. cbv zeta. change (Z.quot (j - 1) 2) with (parent j).
  assert (Hstop : (0 < j -> key h (parent j) <= key h j) ->
    exists h', Ret h = Ret h' /\
    idx_ok h' /\ same_data h h' /\
    IPExpiryHeapM.Len h' = IPExpiryHeapM.Len h /\
    (forall l, l ∈ slice h' <-> l ∈ slice h) /\
    ordered (key h') (IPExpiryHeapM.Len h')).
  { intros Hp. exists h. split; [reflexivity|]. split; [exact Hok|].
    split; [apply same_data_refl|]. split; [reflexivity|].
    split; [tauto|]. eapply up_inv_stop; eauto. }
  destruct (Z.eqb_spec (parent j) j) as [Epj|Npj].
  { apply Hstop. intros H0. apply parent_fixpoint in Epj; lia. }
  assert (H0 : 0 < j).
  { destruct (Z.eq_dec j 0) as [->|]; [|lia]. rewrite parent_root in Npj.
    congruence. }
  pose proof (parent_bounds j H0) as Hpb.
  rewrite Less_spec by (try assumption; lia). cbn [bind].
  destruct (Z.ltb_spec (key h j) (key h (parent j))) as [Hlt|Hge];
    cbn [negb].
  2:{ apply Hstop. intros _. exact Hge. }
  destruct (Swap_spec h (parent j) j Hok ltac:(lia) ltac:(lia))
    as (h1 & Esw & Hok1 & Hsd1 & Hlen1 & Hpos1).
  rewrite Esw. cbn [bind].
  pose proof (pos_swap_keys _ _ _ _ Hsd1 Hpos1) as Hkeys.
  destruct (IH h1 (parent j) Hok1 ltac:(lia) ltac:(lia))
    as (h' & Eup & Hok' & Hsd' & Hlen' & Hel' & Hord').
  { rewrite Hlen1.
    apply (up_inv_step (key h) (key h1) _ (parent j) j);
      [lia|reflexivity|exact Hkeys|exact Hlt|exact Hinv]. }
  exists h'. split; [exact Eup|]. split; [exact Hok'|].
  split; [eapply same_data_trans; eassumption|].
  split; [lia|].
  split; [|exact Hord'].
  intros l. rewrite Hel'. apply (pos_swap_elems _ _ (parent j) j).
  - destruct (pos_get_in_range (slice h) (parent j)) as [x Hx];
      [unfold IPExpiryHeapM.Len in *; lia|]. rewrite Hx. eauto.
  - destruct (pos_get_in_range (slice h) j) as [x Hx];
      [unfold IPExpiryHeapM.Len in *; lia|]. rewrite Hx. eauto.
  - exact Hpos1.
Qed.

(** ** container/heap: Pop, Push, Fix *)

Lemma pos_get_take (s : list loc) (n k : Z) :
  0 <= n ->
  pos_get (take (Z.to_nat n) s) k = if k <? n then pos_get s k else None.
Proof.
  intros Hn. unfold pos_get.
  destruct (Z.ltb_spec k 0) as [Hk|Hk].
  - destruct (k <? n); reflexivity.
  - destruct (Z.ltb_spec k n) as [Hkn|Hkn].
    + apply lookup_take_lt. lia.
    + apply lookup_take_ge. lia.
Qed.

Lemma pos_get_snoc (s : list loc) (x : loc) (k : Z) :
  pos_get (s ++ [x]) k =
  if k =? Z.of_nat (length s) then Some x else pos_get s k.
Proof.
  unfold pos_get. destruct (Z.ltb_spec k 0) as [Hk|Hk].
  - destruct (Z.eqb_spec k (Z.of_nat (length s))); [lia|reflexivity].
  - destruct (Z.eqb_spec k (Z.of_nat (length s))) as [->|Hne].
    + rewrite Nat2Z.id. apply list_lookup_middle. reflexivity.
    + destruct (Z.ltb_spec k (Z.of_nat (length s))).
      * apply lookup_app_l. lia.
      * rewrite !lookup_ge_None_2; [reflexivity|lia|].
        rewrite length_app. simpl. lia.
Qed.

Lemma key_expiry (h : IPExpiryHeap) (k : Z) (l : loc) :
  pos_get (slice h) k = Some l -> key h k = expiry_of h l.
Proof. intros H. unfold key. rewrite H. reflexivity. Qed.

(** [heap.Pop] on a well-formed, non-empty heap returns the root pointer,
    whose expiry is the least of the heap, and leaves a well-formed heap
    with the other pointers. *)
Lemma heap_Pop_spec (h : IPExpiryHeap) :
  heap_wf h -> 0 < IPExpiryHeapM.Len h ->
  exists l h', heap.Pop h = Ret (l, h') /\
    pos_get (slice h) 0 = Some l /\
    heap_wf h' /\ same_data h h' /\
    IPExpiryHeapM.Len h' = IPExpiryHeapM.Len h - 1 /\
    (forall x, x ∈ slice h <-> x = l \/ x ∈ slice h') /\
    (l ∉ slice h') /\
    (forall x, x ∈ slice h -> expiry_of h l <= expiry_of h x).
Proof.
  intros [Hok Hord] Hlen.
  set (n := IPExpiryHeapM.Len h - 1).
  destruct (pos_get_in_range (slice h) 0) as [l Hl];
    [unfold IPExpiryHeapM.Len in *; lia|].
  destruct (pos_get_in_range (slice h) n) as [ln Hln];
    [unfold IPExpiryHeapM.Len in *; lia|].
  destruct (Swap_spec h 0 n Hok ltac:(lia) ltac:(lia))
    as (h1 & Esw & Hok1 & Hsd1 & Hlen1 & Hpos1).
  pose proof (pos_swap_keys _ _ _ _ Hsd1 Hpos1) as Hkeys.
  assert (Hinv : down_inv (key h1) n 0 0).
  { split.
    - intros c Hc Hpc _. pose proof (parent_bounds c ltac:(lia)).
      rewrite (Hkeys (parent c)), (Hkeys c).
      destruct (Z.eqb_spec (parent c) n); [lia|].
      destruct (Z.eqb_spec (parent c) 0); [lia|].
      destruct (Z.eqb_spec c n); [lia|].
      destruct (Z.eqb_spec c 0); [lia|].
      apply Hord. lia.
    - intros; lia. }
  destruct (down_loop_spec (heap.budget h1) h1 0 n 0 Hok1 ltac:(lia)
              ltac:(lia)) as (h2 & i' & Edl & Hok2 & Hsd2 & Hlen2 & Hel2 &
                              Hpos2 & Hle2 & _ & Hord2);
    [unfold heap.budget, IPExpiryHeapM.Len in *; lia|left; reflexivity|
     exact Hinv|].
  assert (Hl2 : pos_get (slice h2) n = Some l).
  { rewrite Hpos2 by lia. rewrite Hpos1, Z.eqb_refl. exact Hl. }
  destruct Hok2 as [Hnd2 Hidx2].
  destruct (Hidx2 _ _ Hl2) as (itl & Hitl & Hil).
  unfold heap.Pop. fold n. rewrite Esw. cbn [bind].
  unfold heap.down. rewrite Edl. cbn [bind].
  unfold IPExpiryHeapM.Pop. rewrite Hlen2, Hlen1. fold n.
  rewrite slice_get_pos, Hl2. cbn [bind].
  unfold set_index, deref. rewrite Hitl. cbn [bind].
  eexists _, _. split; [reflexivity|]. split; [exact Hl|].
  set (o' := <[l := mkItem (ip itl) (expiresAt itl) (-1)]> (objs h2)).
  set (s' := take (Z.to_nat n) (slice h2)).
  assert (Hs2 : slice h2 = s' ++ [l]).
  { assert (Hlk : slice h2 !! Z.to_nat n = Some l).
    { unfold pos_get in Hl2. destruct (Z.ltb_spec n 0); [lia|]. exact Hl2. }
    pose proof (take_drop_middle (slice h2) (Z.to_nat n) l Hlk) as E.
    rewrite drop_ge in E by (unfold IPExpiryHeapM.Len in *; lia).
    symmetry. exact E. }
  assert (Hnd' : NoDup s' /\ l ∉ s').
  { pose proof Hnd2 as Hnd2'. rewrite Hs2 in Hnd2'.
    apply NoDup_app in Hnd2' as (Hn1 & Hn2 & _).
    split; [exact Hn1|]. intros Hin. apply (Hn2 l Hin).
    apply list_elem_of_singleton. reflexivity. }
  destruct Hnd' as [Hnd' Hnotin].
  assert (Hpos' : forall k, k < n -> pos_get s' k = pos_get (slice h2) k).
  { intros k Hk. unfold s'. rewrite pos_get_take by lia.
    destruct (Z.ltb_spec k n); [reflexivity|lia]. }
  assert (Hsd' : same_data h2 (mkHeap s' o')).
  { intros x. simpl. unfold o'. destruct (decide (x = l)) as [->|Hx].
    - rewrite lookup_insert_eq, Hitl. reflexivity.
    - rewrite lookup_insert_ne by congruence. reflexivity. }
  assert (Hlen' : IPExpiryHeapM.Len (mkHeap s' o') = n).
  { unfold IPExpiryHeapM.Len. simpl. unfold s'. rewrite length_take.
    unfold IPExpiryHeapM.Len in *. lia. }
  split; [|split; [|split; [|split; [|split]]]].
  - split.
    + split; [exact Hnd'|]. simpl. intros k x Hk.
      pose proof (pos_get_range _ _ _ Hk) as Hr.
      unfold IPExpiryHeapM.Len in Hlen'. simpl in Hlen'.
      rewrite Hpos' in Hk by lia.
      destruct (Hidx2 _ _ Hk) as (it & Hit & Hidx).
      exists it. split; [|exact Hidx]. unfold o'.
      rewrite lookup_insert_ne; [exact Hit|].
      intros ->. pose proof (pos_get_inj _ _ _ _ Hnd2 Hk Hl2). lia.
    + rewrite Hlen'. intros c Hc.
      pose proof (parent_bounds c ltac:(lia)).
      assert (Hk : forall k, 0 <= k < n ->
                     key (mkHeap s' o') k = key h2 k).
      { intros k Hk. unfold key. simpl. rewrite Hpos' by lia.
        destruct (pos_get (slice h2) k); [|reflexivity].
        apply (same_data_expiry h2 (mkHeap s' o')). exact Hsd'. }
      rewrite !Hk by lia. apply Hord2; lia.
  - eapply same_data_trans; [|exact Hsd'].
    eapply same_data_trans; eassumption.
  - rewrite Hlen'. reflexivity.
  - intros x. simpl.
    rewrite <- (pos_swap_elems _ _ 0 n
                  ltac:(rewrite Hl; eauto) ltac:(rewrite Hln; eauto) Hpos1).
    rewrite <- Hel2, Hs2, elem_of_app, list_elem_of_singleton. tauto.
  - exact Hnotin.
  - intros x Hx. apply elem_of_pos_get in Hx as [k Hk].
    pose proof (pos_get_range _ _ _ Hk).
    rewrite <- (key_expiry h 0 l Hl), <- (key_expiry h k x Hk).
    apply ordered_root_min with (n := IPExpiryHeapM.Len h); [exact Hord|].
    unfold IPExpiryHeapM.Len. lia.
Qed.
Lemma same_data_key (h h' : IPExpiryHeap) (k : Z) :
  same_data h h' -> pos_get (slice h') k = pos_get (slice h) k ->
  key h' k = key h k.
Proof.
  intros Hsd Hp. unfold key. rewrite Hp.
  destruct (pos_get (slice h) k); [|reflexivity].
  apply same_data_expiry. exact Hsd.
Qed.

(** [heap.Push] of a pointer that is not yet in the heap. *)
Lemma heap_Push_spec (h : IPExpiryHeap) (x : loc) (it : IPExpiryItem) :
  heap_wf h -> objs h !! x = Some it -> x ∉ slice h ->
  exists h', heap.Push h x = Ret h' /\
    heap_wf h' /\ same_data h h' /\
    IPExpiryHeapM.Len h' = IPExpiryHeapM.Len h + 1 /\
    (forall l, l ∈ slice h' <-> l = x \/ l ∈ slice h).
Proof.
  intros [[Hnd Hidx] Hord] Hit Hx.
  set (n := IPExpiryHeapM.Len h).
  unfold heap.Push, IPExpiryHeapM.Push. unfold set_index, deref.
  rewrite Hit. cbn [bind]. fold n.
  set (h1 := mkHeap (slice h ++ [x])
                    (<[x := mkItem (ip it) (expiresAt it) n]> (objs h))).
  assert (Hlen1 : IPExpiryHeapM.Len h1 = n + 1).
  { unfold IPExpiryHeapM.Len, h1. simpl. rewrite length_app. simpl.
    unfold n, IPExpiryHeapM.Len. lia. }
  assert (Hsd1 : same_data h h1).
  { intros l. simpl. destruct (decide (l = x)) as [->|Hl].
    - rewrite lookup_insert_eq, Hit. reflexivity.
    - rewrite lookup_insert_ne by congruence. reflexivity. }
  assert (Hpos1 : forall k, pos_get (slice h1) k =
                            if k =? n then Some x else pos_get (slice h) k).
  { intros k. simpl. apply pos_get_snoc. }
  assert (Hok1 : idx_ok h1).
  { split.
    - simpl. apply NoDup_app. split; [exact Hnd|]. split.
      + intros l Hl Hl'. apply list_elem_of_singleton in Hl'. congruence.
      + apply NoDup_singleton.
    - intros k l Hk. rewrite Hpos1 in Hk. simpl.
      destruct (Z.eqb_spec k n) as [->|Hkn].
      + inversion Hk; subst l. rewrite lookup_insert_eq.
        eexists; split; reflexivity.
      + rewrite lookup_insert_ne.
        * apply Hidx. exact Hk.
        * intros ->. apply Hx. apply elem_of_pos_get. eauto. }
  assert (Hkeys : forall k, 0 <= k < n -> key h1 k = key h k).
  { intros k Hk. apply same_data_key; [exact Hsd1|]. rewrite Hpos1.
    destruct (Z.eqb_spec k n); [lia|reflexivity]. }
  assert (Hn : 0 <= n) by (unfold n, IPExpiryHeapM.Len; lia).
  destruct (up_spec (heap.budget h1) h1 (IPExpiryHeapM.Len h1 - 1) Hok1)
    as (h' & Eup & Hok' & Hsd' & Hlen' & Hel' & Hord').
  - lia.
  - unfold heap.budget, IPExpiryHeapM.Len. lia.
  - rewrite Hlen1. replace (n + 1 - 1) with n by lia. split.
    + intros c Hc Hcn. pose proof (parent_bounds c ltac:(lia)).
      rewrite !Hkeys by lia. apply Hord. fold n. lia.
    + intros c Hc Hpc Hn0. apply parent_children in Hpc; lia.
  - exists h'. split; [exact Eup|]. split; [split; assumption|].
    split; [eapply same_data_trans; eassumption|]. split; [lia|].
    intros l. rewrite Hel'. simpl.
    rewrite elem_of_app, list_elem_of_singleton. tauto.
Qed.

(** [IPExpiryHeap.Update] of a pointer of the heap: the item gets the new
    expiry, keeps its identity, and the heap is put back in order around
    it; no pointer enters or leaves the slice. *)
Lemma IPExpiryHeap_Update_spec (h : IPExpiryHeap) (x : loc) (t : Time) :
  heap_wf h -> x ∈ slice h ->
  exists h' it it', IPExpiryHeap_Update h x t = Ret h' /\
    heap_wf h' /\
    IPExpiryHeapM.Len h' = IPExpiryHeapM.Len h /\
    (forall l, l ∈ slice h' <-> l ∈ slice h) /\
    (forall l, l <> x ->
       item_data <$> objs h' !! l = item_data <$> objs h !! l) /\
    objs h !! x = Some it /\ objs h' !! x = Some it' /\
    ip it' = ip it /\ expiresAt it' = t.
Proof.
  intros [[Hnd Hidx] Hord] Hx.
  apply elem_of_pos_get in Hx as [p Hp].
  pose proof (pos_get_range _ _ _ Hp) as Hpr.
  destruct (Hidx _ _ Hp) as (it & Hit & Hip).
  set (n := IPExpiryHeapM.Len h).
  set (h0 := mkHeap (slice h) (<[x := mkItem (ip it) t p]> (objs h))).
  assert (Hupd : IPExpiryHeap_Update h x t = heap.Fix h0 p).
  { unfold IPExpiryHeap_Update. unfold set_expiresAt, deref.
    rewrite Hit. cbn [bind]. rewrite lookup_insert_eq. cbn [bind index].
    rewrite Hip. reflexivity. }
  rewrite Hupd.
  assert (Hlen0 : IPExpiryHeapM.Len h0 = n) by reflexivity.
  assert (Hok0 : idx_ok h0).
  { split; [exact Hnd|]. simpl. intros k l Hk.
    destruct (decide (l = x)) as [->|Hl].
    - rewrite lookup_insert_eq. eexists; split; [reflexivity|]. simpl.
      eapply pos_get_inj; eassumption.
    - rewrite lookup_insert_ne by congruence. apply Hidx. exact Hk. }
  assert (Hkeys : forall k, k <> p -> key h0 k = key h k).
  { intros k Hk. unfold key. simpl.
    destruct (pos_get (slice h) k) as [l|] eqn:El; [|reflexivity].
    unfold expiry_of. simpl. rewrite lookup_insert_ne; [reflexivity|].
    intros ->. apply Hk. eapply pos_get_inj; eassumption. }
  assert (Hb : forall c, 0 < c < n -> parent c = p -> 0 < p ->
                         key h0 (parent p) <= key h0 c).
  { intros c Hc Hpc H0. pose proof (parent_bounds p H0).
    pose proof (parent_bounds c ltac:(lia)).
    rewrite !Hkeys by lia.
    pose proof (Hord p ltac:(fold n; unfold IPExpiryHeapM.Len in *; lia)).
    pose proof (Hord c Hc) as Hc'. rewrite Hpc in Hc'. lia. }
  assert (Hrest : forall l, l <> x ->
            item_data <$> objs h0 !! l = item_data <$> objs h !! l).
  { intros l Hl. simpl. rewrite lookup_insert_ne by congruence.
    reflexivity. }
  assert (Hfinal : forall h', idx_ok h' -> same_data h0 h' ->
            IPExpiryHeapM.Len h' = IPExpiryHeapM.Len h0 ->
            (forall l, l ∈ slice h' <-> l ∈ slice h0) ->
            ordered (key h') n ->
            exists h'0 it0 it', Ret h' = Ret h'0 /\
              heap_wf h'0 /\
              IPExpiryHeapM.Len h'0 = IPExpiryHeapM.Len h /\
              (forall l, l ∈ slice h'0 <-> l ∈ slice h) /\
              (forall l, l <> x ->
                 item_data <$> objs h'0 !! l = item_data <$> objs h !! l) /\
              objs h !! x = Some it0 /\ objs h'0 !! x = Some it' /\
              ip it' = ip it0 /\ expiresAt it' = t).
  { intros h' Hok' Hsd' Hlen' Hel' Hord'.
    destruct (same_data_item h0 h' x (mkItem (ip it) t p) Hsd')
      as (it' & Hit' & Hip' & Hexp'); [simpl; apply lookup_insert_eq|].
    exists h', it, it'. split; [reflexivity|].
    split; [split; [exact Hok'|rewrite Hlen'; exact Hord']|].
    split; [rewrite Hlen'; reflexivity|]. split; [exact Hel'|].
    split; [|auto].
    intros l Hl. rewrite Hsd'. apply Hrest. exact Hl. }
  unfold heap.Fix, heap.down.
  destruct (down_loop_spec (heap.budget h0) h0 p (IPExpiryHeapM.Len h0) p
              Hok0 ltac:(lia) ltac:(lia))
    as (h1 & i' & Edl & Hok1 & Hsd1 & Hlen1 & Hel1 & _ & Hle1 & Hsame1 &
        Hord1).
  { unfold heap.budget. simpl. unfold n, IPExpiryHeapM.Len in *. lia. }
  { left; reflexivity. }
  { rewrite Hlen0. split; [|exact Hb].
    intros c Hc Hpc Hcp. pose proof (parent_bounds c ltac:(lia)).
    rewrite !Hkeys by lia. apply Hord. exact Hc. }
  rewrite Edl. cbn [bind].
  destruct (Z.ltb_spec p i') as [Hmoved|Hstay]; cbn [negb].
  - apply Hfinal; try assumption.
    intros c Hc. apply Hord1; [rewrite Hlen0; exact Hc|lia].
  - assert (i' = p) by lia. subst i'. specialize (Hsame1 eq_refl).
    subst h1.
    destruct (up_spec (heap.budget h0) h0 p Hok0)
      as (h2 & Eup & Hok2 & Hsd2 & Hlen2 & Hel2 & Hord2).
    + rewrite Hlen0. unfold n, IPExpiryHeapM.Len. lia.
    + unfold heap.budget. simpl. unfold n, IPExpiryHeapM.Len in *. lia.
    + rewrite Hlen0. split; [|exact Hb].
      intros c Hc Hcp. apply Hord1; [rewrite Hlen0; exact Hc|auto].
    + rewrite Eup. apply Hfinal; try assumption.
      rewrite Hlen2, Hlen0 in Hord2. exact Hord2.
Qed.

(* ===================================================================== *)
(** * The registry invariant is kept by every operation *)
(* ===================================================================== *)

Lemma recorder_wf_ext (r r' : MemoryIPRecorder) :
  blockedIPs r' = blockedIPs r -> expiryItems r' = expiryItems r ->
  expiryHeap r' = expiryHeap r -> capacity r' = capacity r ->
  recorder_wf r -> recorder_wf r'.
Proof.
  destruct r, r'. simpl. intros -> -> -> -> [H1 H2 H3 H4 H5 H6 H7].
  constructor; assumption.
Qed.

Lemma blocked_until_expiry (r : MemoryIPRecorder) (i : string)
      (record : BlockedIPRecord) :
  recorder_wf r -> blockedIPs r !! i = Some record ->
  exists l, expiryItems r !! i = Some l /\ l ∈ slice (expiryHeap r) /\
            expiry_of (expiryHeap r) l = BlockedUntil record.
Proof.
  intros Hwf Hrec.
  destruct (wf_blocked r Hwf i record Hrec) as (l & it & Hl & Hit & Hexp).
  exists l. split; [exact Hl|]. split.
  - apply (wf_items r Hwf i l Hl).
  - unfold expiry_of. rewrite Hit. exact Hexp.
Qed.

(** Popping the root of the heap and deleting its IP from both maps: the
    popped entry expires no later than any entry of the registry, and the
    registry stays well formed. *)
Lemma pop_delete_wf (r : MemoryIPRecorder) :
  recorder_wf r -> 0 < IPExpiryHeapM.Len (expiryHeap r) ->
  exists l h' it it' record,
    heap.Pop (expiryHeap r) = Ret (l, h') /\
    IPExpiryHeapM.Peek (expiryHeap r) = Some l /\
    deref (objs (expiryHeap r)) l = Ret it /\
    deref (objs h') l = Ret it' /\
    ip it' = ip it /\ expiresAt it' = expiresAt it /\
    blockedIPs r !! ip it = Some record /\
    BlockedUntil record = expiresAt it /\
    (forall y record', blockedIPs r !! y = Some record' ->
                       expiresAt it <= BlockedUntil record') /\
    recorder_wf (delete_ip (set_heap h' r) (ip it)).
Proof.
  intros Hwf Hlen.
  destruct (heap_Pop_spec _ (wf_heap r Hwf) Hlen)
    as (l & h' & Epop & Hroot & Hwf' & Hsd & Hlen' & Hel & Hnotin & Hmin).
  assert (Hl : l ∈ slice (expiryHeap r)) by (apply Hel; left; reflexivity).
  destruct (wf_slice r Hwf l Hl) as (it & Hit & Hitem).
  destruct (wf_banned r Hwf _ _ Hitem) as [record Hrec].
  destruct (wf_blocked r Hwf _ _ Hrec) as (l0 & it0 & Hl0 & Hit0 & Hexp0).
  assert (l0 = l) by congruence. subst l0.
  assert (it0 = it) by congruence. subst it0.
  destruct (same_data_item _ _ _ _ Hsd Hit) as (it' & Hit' & Hip' & Hexp').
  exists l, h', it, it', record.
  split; [exact Epop|]. split.
  { unfold IPExpiryHeapM.Peek.
    destruct (Z.eqb_spec (IPExpiryHeapM.Len (expiryHeap r)) 0); [lia|].
    unfold pos_get in Hroot. simpl in Hroot. exact Hroot. }
  split; [unfold deref; rewrite Hit; reflexivity|].
  split; [unfold deref; rewrite Hit'; reflexivity|].
  split; [exact Hip'|]. split; [exact Hexp'|].
  split; [exact Hrec|]. split; [auto|]. split.
  { intros y record' Hy.
    destruct (blocked_until_expiry r y record' Hwf Hy) as (ly & _ & Hly & Ey).
    rewrite <- Ey. specialize (Hmin ly Hly). unfold expiry_of in Hmin at 1.
    rewrite Hit in Hmin. exact Hmin. }
  assert (Hother : forall l2, l2 ∈ slice (expiryHeap r) -> l2 <> l ->
                              l2 ∈ slice h').
  { intros l2 H2 Hne. apply Hel in H2 as [?|?]; [contradiction|assumption]. }
  constructor; simpl.
  - exact Hwf'.
  - intros j l2 Hj. apply lookup_delete_Some in Hj as [Hne Hj].
    destruct (wf_items r Hwf j l2 Hj) as (Hin2 & it2 & Hit2 & Hip2).
    assert (l2 <> l) by (intros ->; congruence).
    split; [apply Hother; assumption|].
    destruct (same_data_item _ _ _ _ Hsd Hit2) as (it2' & Hit2' & Hip2' & _).
    exists it2'. split; [exact Hit2'|congruence].
  - intros l2 H2. assert (l2 <> l) by (intros ->; contradiction).
    assert (Hin2 : l2 ∈ slice (expiryHeap r)) by (apply Hel; right; exact H2).
    destruct (wf_slice r Hwf l2 Hin2) as (it2 & Hit2 & Hitem2).
    destruct (same_data_item _ _ _ _ Hsd Hit2) as (it2' & Hit2' & Hip2' & _).
    exists it2'. split; [exact Hit2'|]. rewrite Hip2'.
    rewrite lookup_delete_ne; [exact Hitem2|].
    intros E. rewrite <- E in Hitem2. congruence.
  - intros j rec2 Hj. apply lookup_delete_Some in Hj as [Hne Hj].
    destruct (wf_blocked r Hwf j rec2 Hj) as (l2 & it2 & Hl2 & Hit2 & Hexp2).
    destruct (same_data_item _ _ _ _ Hsd Hit2) as (it2' & Hit2' & _ & Hexp2').
    exists l2, it2'. rewrite lookup_delete_ne by exact Hne.
    split; [exact Hl2|]. split; [exact Hit2'|congruence].
  - intros j l2 Hj. apply lookup_delete_Some in Hj as [Hne Hj].
    rewrite lookup_delete_ne by exact Hne. eapply wf_banned; eassumption.
  - unfold len_blocked. simpl.
    rewrite map_size_delete_Some by (rewrite Hrec; eauto).
    pose proof (wf_len r Hwf) as HL. unfold len_blocked in HL. lia.
  - pose proof (wf_capacity r Hwf) as [Hc1 Hc2]. split; [exact Hc1|].
    unfold len_blocked in *. simpl.
    rewrite map_size_delete_Some by (rewrite Hrec; eauto). lia.
Qed.
Lemma lookup_del_keys {V : Type} (ks : list string) (m : gmap string V)
      (y : string) (v : V) :
  del_keys ks m !! y = Some v <-> (y ∉ ks) /\ m !! y = Some v.
Proof.
  unfold del_keys. revert m.
  induction ks as [|k ks IH]; intros m; simpl.
  - split; [intros H; split; [apply not_elem_of_nil|exact H]|tauto].
  - rewrite IH, lookup_delete_Some, not_elem_of_cons.
    split; [intros (H1 & H2 & H3)|intros ((H1 & H2) & H3)];
      repeat split; auto.
Qed.

Lemma del_keys_snoc {V : Type} (ks : list string) (k : string)
      (m : gmap string V) :
  del_keys (ks ++ [k]) m = delete k (del_keys ks m).
Proof. unfold del_keys. rewrite fold_left_app. reflexivity. Qed.

Lemma delete_all_fields (ips : list string) (r : MemoryIPRecorder) :
  blockedIPs (delete_all r ips) = del_keys ips (blockedIPs r) /\
  expiryItems (delete_all r ips) = del_keys ips (expiryItems r) /\
  expiryHeap (delete_all r ips) = expiryHeap r /\
  capacity (delete_all r ips) = capacity r /\
  toDelete (delete_all r ips) = toDelete r /\
  logger (delete_all r ips) = logger r.
Proof.
  revert r. induction ips as [|i ips IH]; intros r; simpl.
  - repeat split.
  - destruct (IH (delete_ip r i)) as (H1 & H2 & H3 & H4 & H5 & H6).
    unfold delete_all in *. simpl.
    rewrite H1, H2, H3, H4, H5, H6. repeat split.
Qed.

Lemma earliest_first_nil (m : gmap string BlockedIPRecord) :
  earliest_first m [].
Proof. intros pre x post H. destruct pre; discriminate. Qed.

Lemma earliest_first_snoc (m : gmap string BlockedIPRecord)
      (ks : list string) (k : string) :
  earliest_first m ks -> k ∉ ks -> earliest_outside m ks k ->
  earliest_first m (ks ++ [k]).
Proof.
  intros Hks Hk Hmin pre x post E.
  destruct post as [|z post' _] using rev_ind.
  - apply (app_inj_tail ks pre k x) in E as [-> ->]. split; assumption.
  - change (pre ++ x :: post' ++ [z]) with (pre ++ (x :: post') ++ [z]) in E.
    rewrite app_assoc in E. apply app_inj_tail in E as [-> ->].
    apply (Hks pre x post' eq_refl).
Qed.
(** The pop loop of [cleanupExpired] and [ensureCapacity]: it returns, the
    maps are untouched, the IPs it collected were expired and popped
    earliest-first, and once they are deleted the registry is well formed;
    when the loop stops with its guard still true, nothing that is left
    has expired. *)
Lemma popExpired_spec (guard : MemoryIPRecorder -> bool) (now : Time)
      (r0 : MemoryIPRecorder) :
  guard_ok guard ->
  forall (fuel : nat) (r : MemoryIPRecorder),
  blockedIPs r = blockedIPs r0 -> expiryItems r = expiryItems r0 ->
  capacity r = capacity r0 -> logger r = logger r0 ->
  recorder_wf (delete_all r (toDelete r)) ->
  earliest_first (blockedIPs r0) (toDelete r) ->
  Forall (expired_at now r0) (toDelete r) ->
  (length (slice (expiryHeap r)) < fuel)%nat ->
  exists r', popExpired fuel guard now r = Ret r' /\
    blockedIPs r' = blockedIPs r0 /\ expiryItems r' = expiryItems r0 /\
    capacity r' = capacity r0 /\ logger r' = logger r0 /\
    recorder_wf (delete_all r' (toDelete r')) /\
    earliest_first (blockedIPs r0) (toDelete r') /\
    Forall (expired_at now r0) (toDelete r') /\
    (exists more, toDelete r' = toDelete r ++ more) /\
    (guard r0 = true ->
     forall y record, blockedIPs r0 !! y = Some record ->
                      y ∉ toDelete r' ->
                      Time_After (BlockedUntil record) now = true).
Proof.
  intros Hguard fuel.
  induction fuel as [|fuel IH];
    intros r Hb He Hc Hlg Hwf Hfirst Hexp Hfuel; [lia|].
  destruct (delete_all_fields (toDelete r) r)
    as (Fb & Fe & Fh & Fc & Ft & Fl).
  set (R := delete_all r (toDelete r)) in *.
  assert (Hstop : 
    (guard r0 = true ->
     forall y record, blockedIPs R !! y = Some record ->
                      Time_After (BlockedUntil record) now = true) ->
    exists r', Ret r = Ret r' /\
    blockedIPs r' = blockedIPs r0 /\ expiryItems r' = expiryItems r0 /\
    capacity r' = capacity r0 /\ logger r' = logger r0 /\
    recorder_wf (delete_all r' (toDelete r')) /\
    earliest_first (blockedIPs r0) (toDelete r') /\
    Forall (expired_at now r0) (toDelete r') /\
    (exists more, toDelete r' = toDelete r ++ more) /\
    (guard r0 = true ->
     forall y record, blockedIPs r0 !! y = Some record ->
                      y ∉ toDelete r' ->
                      Time_After (BlockedUntil record) now = true)).
  { intros Hrest. exists r. repeat (split; [assumption || reflexivity|]).
    split; [exists []; rewrite app_nil_r; reflexivity|].
    intros Hg y record Hy Hny. apply (Hrest Hg y record).
    rewrite Fb, Hb. apply lookup_del_keys. split; assumption. }
  cbn [popExpired].
  destruct (Z.ltb_spec 0 (IPExpiryHeapM.Len (expiryHeap r))) as [Hlen|Hlen];
    cbn [andb].
  2:{ apply Hstop. intros _ y record Hy.
      pose proof (wf_len R Hwf) as HL. rewrite Fh in HL.
      assert (Hsz : size (blockedIPs R) = 0%nat).
      { unfold len_blocked, IPExpiryHeapM.Len in *. lia. }
      apply map_size_empty_inv in Hsz. rewrite Hsz in Hy.
      rewrite lookup_empty in Hy. discriminate. }
  destruct (guard r) eqn:Eg.
  2:{ apply Hstop. intros Hg. rewrite (Hguard r r0 Hb Hc) in Eg.
      congruence. }
  destruct (pop_delete_wf R Hwf ltac:(rewrite Fh; exact Hlen))
    as (l & h' & it & it' & record & Epop & Epeek & Eit & Eit' & Hip' &
        Hexp' & Hrec & Huntil & Hmin & Hwf').
  rewrite Fh in Epop, Epeek, Eit. rewrite Epeek, Eit. cbn [bind].
  destruct (Time_After (expiresAt it) now) eqn:Eafter.
  { apply Hstop. intros _ y record' Hy. specialize (Hmin y record' Hy).
    unfold Time_After in *. apply Z.ltb_lt. apply Z.ltb_lt in Eafter. lia. }
  rewrite Epop. cbn [bind]. rewrite Eit'. cbn [bind]. rewrite Hip'.
  set (r2 := set_toDelete (toDelete r ++ [ip it]) (set_heap h' r)).
  assert (Hrec0 : blockedIPs r0 !! ip it = Some record /\
                  ip it ∉ toDelete r).
  { rewrite Fb, Hb in Hrec. apply lookup_del_keys in Hrec. tauto. }
  destruct Hrec0 as [Hrec0 Hnotin].
  destruct (IH r2) as (r' & Erun & Hb' & He' & Hc' & Hlg' & Hwf2 & Hfirst' &
                       Hexp2 & [more Hmore] & Hrest'); try assumption.
  - (* the registry once the collected IPs are deleted *)
    destruct (delete_all_fields (toDelete r2) r2)
      as (Gb & Ge & Gh & Gc & _ & _).
    eapply recorder_wf_ext; [| | | |exact Hwf'].
    + rewrite Gb. unfold r2. simpl. rewrite del_keys_snoc, Fb. reflexivity.
    + rewrite Ge. unfold r2. simpl. rewrite del_keys_snoc, Fe. reflexivity.
    + rewrite Gh. reflexivity.
    + rewrite Gc. simpl. rewrite Fc. reflexivity.
  - unfold r2. simpl. apply earliest_first_snoc; [exact Hfirst|exact Hnotin|].
    exists record. split; [exact Hrec0|].
    intros y record' Hy Hny. rewrite Huntil. apply (Hmin y record').
    rewrite Fb, Hb. apply lookup_del_keys. split; assumption.
  - unfold r2. simpl. apply Forall_app. split; [exact Hexp|].
    constructor; [|constructor]. unfold expired_at, until_of.
    rewrite Hrec0, Huntil. exact Eafter.
  - unfold r2. simpl.
    destruct (heap_Pop_spec _ (wf_heap R Hwf) ltac:(rewrite Fh; exact Hlen))
      as (l1 & h1 & Epop1 & _ & _ & _ & Hlen1 & _).
    rewrite Fh in Epop1, Hlen1. rewrite Epop in Epop1.
    inversion Epop1; subst l1 h1.
    unfold IPExpiryHeapM.Len in *. lia.
  - exists r'. split; [exact Erun|].
    repeat (split; [assumption|]).
    split; [|exact Hrest'].
    exists (ip it :: more). rewrite Hmore. unfold r2. simpl.
    rewrite <- app_assoc. reflexivity.
Qed.
Lemma guard_ok_at_capacity : guard_ok at_capacity.
Proof.
  intros r1 r2 Hb Hc. unfold at_capacity, len_blocked. rewrite Hb, Hc.
  reflexivity.
Qed.

Lemma guard_ok_true : guard_ok (fun _ => true).
Proof. intros r1 r2 _ _. reflexivity. Qed.

Lemma size_del_keys {V : Type} (ks : list string) (m : gmap string V) :
  (size (del_keys ks m) <= size m)%nat.
Proof.
  unfold del_keys. revert m. induction ks as [|k ks IH]; intros m; simpl.
  - lia.
  - etransitivity; [apply IH|]. rewrite map_size_delete.
    destruct (m !! k); simpl; lia.
Qed.

Lemma evicted_ips_snoc (lg : RecorderLog) (e : Level * RecorderMsg) :
  evicted_ips (lg ++ [e]) =
  evicted_ips lg ++ match snd e with
                    | MsgCapacityEvict i _ => [i]
                    | _ => []
                    end.
Proof.
  unfold evicted_ips. rewrite omap_app. simpl.
  destruct (snd e); reflexivity.
Qed.

(** [ensureCapacity] on a full registry. *)
Lemma ensureCapacity_full (now : Time) (r : MemoryIPRecorder) :
  recorder_wf r -> at_capacity r = true ->
  exists r', ensureCapacity now r = Ret r' /\
    recorder_wf r' /\ capacity r' = capacity r /\
    len_blocked r' < capacity r' /\
    blockedIPs r' = del_keys (removed_ips r r') (blockedIPs r) /\
    expiryItems r' = del_keys (removed_ips r r') (expiryItems r) /\
    removed_ips r r' <> [] /\
    earliest_first (blockedIPs r) (removed_ips r r') /\
    Forall (expired_at now r) (toDelete r') /\
    (toDelete r' = [] \/ logger r' = logger r) /\
    ((forall y record, blockedIPs r !! y = Some record ->
                       Time_After (BlockedUntil record) now = true) ->
     toDelete r' = [] /\ exists x, removed_ips r r' = [x]) /\
    (forall y, y ∈ toDelete r' <->
               is_Some (blockedIPs r !! y) /\ expired_at now r y).
Proof.
  intros Hwf Hcap.
  pose proof (wf_capacity r Hwf) as [Hc0 Hc1].
  pose proof (wf_len r Hwf) as HL.
  assert (Hfull : len_blocked r = capacity r).
  { unfold at_capacity in Hcap. apply Z.leb_le in Hcap. lia. }
  unfold ensureCapacity.
  destruct (Z.ltb_spec (len_blocked r) (capacity r)) as [?|_]; [lia|].
  set (ra := set_toDelete [] r).
  destruct (popExpired_spec at_capacity now ra guard_ok_at_capacity
              (pop_budget ra) ra eq_refl eq_refl eq_refl eq_refl)
    as (r1 & Erun & Hb1 & He1 & Hc1' & Hlg1 & Hwf1 & Hfirst1 & Hexp1 &
        [more Hmore] & Hrest1).
  { eapply recorder_wf_ext; [| | | |exact Hwf]; reflexivity. }
  { apply earliest_first_nil. }
  { constructor. }
  { unfold pop_budget. lia. }
  rewrite Erun. cbn [bind]. simpl in Hmore.
  destruct (delete_all_fields (toDelete r1) r1)
    as (Fb & Fe & Fh & Fc & Ft & Fl).
  set (R := delete_all r1 (toDelete r1)) in *.
  simpl in Hb1, He1, Hc1', Hlg1.
  assert (Hall : forall y, y ∈ toDelete r1 <->
                   is_Some (blockedIPs r !! y) /\ expired_at now r y).
  { intros y. split.
    - intros Hy. split.
      + apply list_elem_of_split in Hy as (pre & post & Hy).
        destruct (Hfirst1 pre y post Hy) as [_ (record & Hrec & _)].
        simpl in Hrec. eauto.
      + apply (proj1 (Forall_forall _ _) Hexp1 y Hy).
    - intros [[record Hrec] Hexp].
      destruct (decide (y ∈ toDelete r1)) as [Hin|Hout]; [exact Hin|].
      exfalso. specialize (Hrest1 Hcap y record Hrec Hout).
      unfold expired_at, until_of in Hexp. rewrite Hrec in Hexp.
      congruence. }
  destruct (toDelete r1) as [|d ds] eqn:ED.
  - (* nothing had expired: one forced eviction *)
    assert (HR : R = r1) by reflexivity. rewrite HR in *. clear HR R.
    assert (Hlen1 : 0 < IPExpiryHeapM.Len (expiryHeap r1)).
    { pose proof (wf_len r1 Hwf1) as HL1. unfold len_blocked in *.
      rewrite Hb1 in HL1. lia. }
    destruct (pop_delete_wf r1 Hwf1 Hlen1)
      as (l & h' & it & it' & record & Epop & _ & _ & Eit' & Hip' &
          Hexp' & Hrec & Huntil & Hmin & Hwf').
    assert (Hfuel : exists k, pop_budget r1 = S (S k)).
    { unfold pop_budget, IPExpiryHeapM.Len in *.
      destruct (length (slice (expiryHeap r1))) as [|k]; [lia|eauto]. }
    destruct Hfuel as [k Ek]. rewrite Ek. cbn [evictEarliest].
    assert (Hcap1 : at_capacity r1 = true).
    { rewrite (guard_ok_at_capacity r1 r); assumption. }
    rewrite Hcap1. destruct (Z.ltb_spec 0 (IPExpiryHeapM.Len (expiryHeap r1)));
      [|lia]. cbn [andb]. rewrite Epop. cbn [bind]. rewrite Eit'.
    cbn [bind]. rewrite Hip', Hexp'.
    set (r2 := add_log (LDebug, MsgCapacityEvict (ip it) (expiresAt it))
                       (delete_ip (set_heap h' r1) (ip it))).
    assert (Hlen2 : len_blocked r2 = capacity r - 1).
    { unfold r2, len_blocked. simpl.
      rewrite map_size_delete_Some by (rewrite Hrec; eauto).
      unfold len_blocked in Hfull. rewrite Hb1.
      destruct (size (blockedIPs r)); lia. }
    assert (Hcap2 : at_capacity r2 = false).
    { unfold at_capacity. apply Z.leb_gt. rewrite Hlen2. unfold r2. simpl.
      lia. }
    rewrite Hcap2. cbn [andb].
    assert (Hremoved : removed_ips r r2 = [ip it]).
    { unfold removed_ips, r2. simpl. rewrite ED, Hlg1. simpl.
      rewrite drop_app_length. reflexivity. }
    exists r2. split; [reflexivity|]. rewrite Hremoved.
    split.
    { eapply recorder_wf_ext; [| | | |exact Hwf']; reflexivity. }
    split; [unfold r2; simpl; exact Hc1'|].
    split; [rewrite Hlen2; unfold r2; simpl; lia|].
    split; [unfold r2; simpl; rewrite Hb1; reflexivity|].
    split; [unfold r2; simpl; rewrite He1; reflexivity|].
    split; [discriminate|]. split.
    { intros pre x post E. destruct pre as [|p pre].
      - inversion E; subst. split; [apply not_elem_of_nil|].
        exists record. rewrite <- Hb1. split; [exact Hrec|].
        intros y record' Hy _. rewrite Huntil. apply (Hmin y record').
        exact Hy.
      - inversion E as [[E1 E2]]. destruct pre; discriminate. }
    split; [unfold r2; simpl; rewrite ED; constructor|].
    split; [left; unfold r2; simpl; exact ED|].
    split; [intros _; split; [unfold r2; simpl; exact ED|eauto]|].
    unfold r2. simpl. rewrite ED. exact Hall.
  - (* expired entries were collected: they make room *)
    assert (Hd : exists record, blockedIPs r !! d = Some record).
    { destruct (Hfirst1 [] d ds eq_refl) as [_ (record & Hrec & _)].
      eauto. }
    destruct Hd as [recd Hrecd].
    assert (Hsize : len_blocked R < capacity r).
    { unfold len_blocked. rewrite Fb, Hb1. unfold del_keys. simpl.
      pose proof (size_del_keys ds (delete d (blockedIPs r))) as Hle.
      unfold del_keys in Hle.
      rewrite map_size_delete_Some in Hle by (rewrite Hrecd; eauto).
      unfold len_blocked in Hfull.
      destruct (size (blockedIPs r)); simpl in *; lia. }
    assert (HcapR : at_capacity R = false).
    { unfold at_capacity. apply Z.leb_gt. rewrite Fc, Hc1'. exact Hsize. }
    unfold pop_budget. cbn [evictEarliest]. rewrite HcapR. cbn [andb].
    assert (Hremoved : removed_ips r R = d :: ds).
    { unfold removed_ips. rewrite Ft, Fl, Hlg1.
      rewrite drop_all. simpl. rewrite app_nil_r. reflexivity. }
    exists R. split; [reflexivity|]. rewrite Hremoved.
    split; [exact Hwf1|]. split; [rewrite Fc; exact Hc1'|].
    split; [rewrite Fc, Hc1'; exact Hsize|].
    split; [rewrite Fb, Hb1; reflexivity|].
    split; [rewrite Fe, He1; reflexivity|].
    split; [discriminate|]. split; [exact Hfirst1|].
    split; [rewrite Ft; exact Hexp1|].
    split; [right; rewrite Fl; exact Hlg1|].
    split; [|rewrite Ft; exact Hall].
    intros Hnone. exfalso.
    apply Forall_cons in Hexp1 as [Hd _]. unfold expired_at, until_of in Hd.
    simpl in Hd. rewrite Hrecd in Hd.
    rewrite (Hnone d recd Hrecd) in Hd. discriminate.
Qed.
Lemma NewMemoryIPRecorder_wf (capacity0 : Z) :
  exists r, NewMemoryIPRecorder None capacity0
            = Ret (r, (LInfo, MsgNewInstance)) /\
            recorder_wf r /\ blockedIPs r = ∅ /\
            capacity r = (if capacity0 <=? 0 then 10000 else capacity0).
Proof.
  eexists. split; [reflexivity|]. split; [|split; reflexivity].
  constructor; simpl.
  - split; [split|].
    + simpl. constructor.
    + simpl. intros k l Hk. unfold pos_get in Hk.
      destruct (k <? 0); [discriminate|]. rewrite lookup_nil in Hk.
      discriminate.
    + intros c Hc. unfold IPExpiryHeapM.Len in Hc. simpl in Hc. lia.
  - intros i l H. rewrite lookup_empty in H. discriminate.
  - intros l H. apply elem_of_nil in H. contradiction.
  - intros i record H. rewrite lookup_empty in H. discriminate.
  - intros i l H. rewrite lookup_empty in H. discriminate.
  - reflexivity.
  - unfold len_blocked. simpl. rewrite map_size_empty.
    destruct (Z.leb_spec capacity0 0); lia.
Qed.

(** [cleanupExpired] returns and keeps the registry well formed. *)
Lemma cleanupExpired_wf (now : Time) (r : MemoryIPRecorder) :
  recorder_wf r ->
  exists r', cleanupExpired now r = Ret r' /\ recorder_wf r' /\
    blockedIPs r' = del_keys (toDelete r') (blockedIPs r) /\
    Forall (expired_at now r) (toDelete r') /\
    (forall y record, blockedIPs r' !! y = Some record ->
                      Time_After (BlockedUntil record) now = true).
Proof.
  intros Hwf. unfold cleanupExpired.
  set (ra := set_toDelete [] r).
  destruct (popExpired_spec (fun _ => true) now ra guard_ok_true
              (pop_budget ra) ra eq_refl eq_refl eq_refl eq_refl)
    as (r1 & Erun & Hb1 & He1 & Hc1 & Hlg1 & Hwf1 & Hfirst1 & Hexp1 &
        _ & Hrest1).
  { eapply recorder_wf_ext; [| | | |exact Hwf]; reflexivity. }
  { apply earliest_first_nil. }
  { constructor. }
  { unfold pop_budget. lia. }
  rewrite Erun. cbn [bind].
  destruct (delete_all_fields (toDelete r1) r1)
    as (Fb & Fe & Fh & Fc & Ft & Fl).
  set (R := delete_all r1 (toDelete r1)) in *.
  simpl in Hb1.
  assert (Hgoal : forall r', blockedIPs r' = blockedIPs R ->
            expiryItems r' = expiryItems R -> expiryHeap r' = expiryHeap R ->
            capacity r' = capacity R -> toDelete r' = toDelete R ->
            recorder_wf r' /\
            blockedIPs r' = del_keys (toDelete r') (blockedIPs r) /\
            Forall (expired_at now r) (toDelete r') /\
            (forall y record, blockedIPs r' !! y = Some record ->
                              Time_After (BlockedUntil record) now = true)).
  { intros r' E1 E2 E3 E4 E5.
    split; [eapply recorder_wf_ext; [| | | |exact Hwf1]; assumption|].
    rewrite E5, Ft, E1, Fb, Hb1.
    split; [reflexivity|]. split; [exact Hexp1|].
    intros y record Hy. apply lookup_del_keys in Hy as [Hny Hy].
    apply (Hrest1 eq_refl y record Hy Hny). }
  eexists. split; [reflexivity|].
  destruct (0 <? Z.of_nat (length (toDelete r1))); apply Hgoal; reflexivity.
Qed.

Lemma ensureCapacity_room (now : Time) (r : MemoryIPRecorder) :
  recorder_wf r ->
  exists r1, ensureCapacity now r = Ret r1 /\ recorder_wf r1 /\
    capacity r1 = capacity r /\ len_blocked r1 < capacity r1 /\
    (at_capacity r = false -> r1 = r) /\
    (forall j, expiryItems r !! j = None -> expiryItems r1 !! j = None).
Proof.
  intros Hwf. destruct (at_capacity r) eqn:Ecap.
  - destruct (ensureCapacity_full now r Hwf Ecap)
      as (r1 & E & Hwf1 & Hc & Hlt & _ & He & _).
    exists r1. repeat (split; [assumption|]). split; [discriminate|].
    intros j Hj. rewrite He.
    destruct (del_keys (removed_ips r r1) (expiryItems r) !! j) as [l|] eqn:El;
      [|reflexivity].
    apply lookup_del_keys in El as [_ El]. congruence.
  - exists r. unfold ensureCapacity. unfold at_capacity in Ecap.
    apply Z.leb_gt in Ecap.
    destruct (Z.ltb_spec (len_blocked r) (capacity r)); [|lia].
    split; [reflexivity|]. split; [exact Hwf|]. split; [reflexivity|].
    split; [assumption|]. split; auto.
Qed.
(** Banning an IP that has an item already: the record is replaced, the
    item keeps its pointer and gets the new expiry, the heap is re-ordered
    around it. *)
Lemma RecordBlockedIP_existing (now now' : Time) (r : MemoryIPRecorder)
      (i reason : string) (d : Duration) (l : loc) :
  recorder_wf r -> expiryItems r !! i = Some l ->
  exists r' it',
    RecordBlockedIP now now' r i reason d = Ret (r', None) /\
    recorder_wf r' /\
    blockedIPs r' =
      <[i := mkBlocked i reason now (Time_Add now d)]> (blockedIPs r) /\
    expiryItems r' = expiryItems r /\
    IPExpiryHeapM.Len (expiryHeap r') = IPExpiryHeapM.Len (expiryHeap r) /\
    (forall x, x ∈ slice (expiryHeap r') <-> x ∈ slice (expiryHeap r)) /\
    objs (expiryHeap r') !! l = Some it' /\
    ip it' = i /\ expiresAt it' = Time_Add now d /\
    (forall l2, is_Some (objs (expiryHeap r') !! l2) <->
                is_Some (objs (expiryHeap r) !! l2)) /\
    capacity r' = capacity r /\
    logger r' =
      logger r ++ [(LInfo, MsgBanUpdated i reason (Time_Add now d))].
Proof.
  intros Hwf Hl.
  destruct (wf_items r Hwf i l Hl) as (Hin & it0 & Hit0 & Hip0).
  destruct (IPExpiryHeap_Update_spec (expiryHeap r) l (Time_Add now d)
              (wf_heap r Hwf) Hin)
    as (h' & it & it' & Eupd & Hwf' & Hlen' & Hel' & Hrest & Hit & Hit' &
        Hip' & Hexp').
  assert (it = it0) by congruence. subst it0.
  unfold RecordBlockedIP. rewrite Hl. cbn [expiryHeap].
  rewrite Eupd. cbn [bind].
  eexists _, it'. split; [reflexivity|].
  assert (Hdata : forall l2 it2, objs (expiryHeap r) !! l2 = Some it2 ->
            l2 <> l ->
            exists it2', objs h' !! l2 = Some it2' /\ ip it2' = ip it2 /\
                         expiresAt it2' = expiresAt it2).
  { intros l2 it2 H2 Hne. specialize (Hrest l2 Hne). rewrite H2 in Hrest.
    destruct (objs h' !! l2) as [it2'|]; simpl in Hrest; [|discriminate].
    inversion Hrest. eauto. }
  split; [|simpl; split; [reflexivity|]; split; [reflexivity|];
           split; [exact Hlen'|]; split; [exact Hel'|];
           split; [exact Hit'|]; split; [congruence|];
           split; [exact Hexp'|]; split; [|split; reflexivity]].
  2:{ intros l2. destruct (decide (l2 = l)) as [->|Hne].
      - rewrite Hit, Hit'. split; eauto.
      - specialize (Hrest l2 Hne).
        destruct (objs h' !! l2), (objs (expiryHeap r) !! l2);
          simpl in Hrest; try discriminate; split; eauto. }
  constructor; simpl.
  - exact Hwf'.
  - intros j l2 Hj. destruct (wf_items r Hwf j l2 Hj) as (Hin2 & it2 & H2 & Hp2).
    split; [apply Hel'; exact Hin2|].
    destruct (decide (l2 = l)) as [->|Hne].
    + exists it'. split; [exact Hit'|]. congruence.
    + destruct (Hdata l2 it2 H2 Hne) as (it2' & H2' & Hp2' & _).
      exists it2'. split; [exact H2'|congruence].
  - intros l2 H2. apply Hel' in H2.
    destruct (wf_slice r Hwf l2 H2) as (it2 & Hi2 & Hm2).
    destruct (decide (l2 = l)) as [->|Hne].
    + exists it'. split; [exact Hit'|]. rewrite Hip'. congruence.
    + destruct (Hdata l2 it2 Hi2 Hne) as (it2' & H2' & Hp2' & _).
      exists it2'. split; [exact H2'|]. rewrite Hp2'. exact Hm2.
  - intros j rec2 Hj. apply lookup_insert_Some in Hj as [[<- <-]|[Hne Hj]].
    + exists l, it'. simpl. auto.
    + destruct (wf_blocked r Hwf j rec2 Hj) as (l2 & it2 & Hl2 & Hi2 & He2).
      assert (l2 <> l).
      { intros ->. apply Hne. destruct (wf_items r Hwf j l Hl2)
          as (_ & itj & Hitj & Hipj). congruence. }
      destruct (Hdata l2 it2 Hi2 H) as (it2' & H2' & _ & He2').
      exists l2, it2'. split; [exact Hl2|]. split; [exact H2'|congruence].
  - intros j l2 Hj. destruct (decide (i = j)) as [->|Hne].
    + rewrite lookup_insert_eq. eauto.
    + rewrite lookup_insert_ne by exact Hne. eapply wf_banned; eassumption.
  - unfold len_blocked. simpl.
    rewrite map_size_insert_Some by (eapply wf_banned; eassumption).
    rewrite Hlen'. apply (wf_len r Hwf).
  - pose proof (wf_capacity r Hwf) as [Hc1 Hc2]. split; [exact Hc1|].
    unfold len_blocked in *. simpl.
    rewrite map_size_insert_Some by (eapply wf_banned; eassumption).
    exact Hc2.
Qed.

(** Banning an IP that has no item: room is made first, then the record,
    the item and its heap entry are added. *)
Lemma RecordBlockedIP_new (now now' : Time) (r : MemoryIPRecorder)
      (i reason : string) (d : Duration) :
  recorder_wf r -> expiryItems r !! i = None ->
  exists r1 r',
    ensureCapacity now' r = Ret r1 /\
    RecordBlockedIP now now' r i reason d = Ret (r', None) /\
    recorder_wf r' /\
    blockedIPs r' =
      <[i := mkBlocked i reason now (Time_Add now d)]> (blockedIPs r1) /\
    blockedIPs r1 !! i = None /\
    len_blocked r' = len_blocked r1 + 1 /\
    capacity r' = capacity r.
Proof.
  intros Hwf Hnone.
  destruct (ensureCapacity_room now' r Hwf)
    as (r1 & Eroom & Hwf1 & Hc1 & Hlt1 & _ & Hkeep).
  specialize (Hkeep i Hnone).
  assert (Hb1 : blockedIPs r1 !! i = None).
  { destruct (blockedIPs r1 !! i) as [rec|] eqn:E; [|reflexivity].
    destruct (wf_blocked r1 Hwf1 i rec E) as (l & _ & Hl & _). congruence. }
  unfold RecordBlockedIP. rewrite Hnone, Eroom. cbn [bind].
  set (h1 := expiryHeap r1).
  set (x := new_loc (objs h1)).
  assert (Hx : objs h1 !! x = None).
  { apply not_elem_of_dom. unfold x, new_loc. apply is_fresh. }
  set (o := <[x := mkItem i (Time_Add now d) 0]> (objs h1)).
  set (hp := mkHeap (slice h1) o).
  destruct (wf_heap r1 Hwf1) as [[Hnd Hidx] Hord]. fold h1 in Hnd, Hidx, Hord.
  assert (Hxs : x ∉ slice h1).
  { intros Hin. apply elem_of_pos_get in Hin as [k Hk].
    destruct (Hidx k x Hk) as (it & Hit & _). congruence. }
  assert (Hkeep_obj : forall l2 it2, objs h1 !! l2 = Some it2 ->
                                     o !! l2 = Some it2).
  { intros l2 it2 H2. unfold o. rewrite lookup_insert_ne; [exact H2|].
    intros <-. congruence. }
  assert (Hwfp : heap_wf hp).
  { split; [split|].
    - exact Hnd.
    - simpl. intros k l Hk. destruct (Hidx k l Hk) as (it & Hit & Hix).
      exists it. split; [apply Hkeep_obj; exact Hit|exact Hix].
    - intros c Hc. unfold key. simpl.
      assert (Hk : forall k, match pos_get (slice h1) k with
                             | Some l => expiry_of hp l
                             | None => 0
                             end = key h1 k).
      { intros k. unfold key.
        destruct (pos_get (slice h1) k) as [l|] eqn:El; [|reflexivity].
        destruct (Hidx k l El) as (it & Hit & _).
        unfold expiry_of. simpl. rewrite (Hkeep_obj l it Hit), Hit.
        reflexivity. }
      rewrite !Hk. apply Hord. exact Hc. }
  destruct (heap_Push_spec hp x (mkItem i (Time_Add now d) 0) Hwfp
              ltac:(simpl; apply lookup_insert_eq) Hxs)
    as (h' & Epush & Hwf' & Hsd' & Hlen' & Hel').
  change (mkHeap (slice (expiryHeap r1)) o) with hp.
  rewrite Epush. cbn [bind].
  exists r1. eexists. split; [reflexivity|]. split; [reflexivity|].
  destruct (same_data_item hp h' x _ Hsd' ltac:(simpl; apply lookup_insert_eq))
    as (itx & Hitx & Hipx & Hexpx). simpl in Hipx, Hexpx.
  assert (Hold : forall l2 it2, objs h1 !! l2 = Some it2 ->
            exists it2', objs h' !! l2 = Some it2' /\ ip it2' = ip it2 /\
                         expiresAt it2' = expiresAt it2).
  { intros l2 it2 H2. apply (same_data_item hp h' l2 it2 Hsd').
    simpl. apply Hkeep_obj. exact H2. }
  split; [|simpl; split; [reflexivity|]; split; [exact Hb1|];
           split; [|exact Hc1]].
  - constructor; simpl.
    + exact Hwf'.
    + intros j l2 Hj. apply lookup_insert_Some in Hj as [[<- <-]|[Hne Hj]].
      * split; [apply Hel'; left; reflexivity|]. eauto.
      * destruct (wf_items r1 Hwf1 j l2 Hj) as (Hin2 & it2 & H2 & Hp2).
        split; [apply Hel'; right; exact Hin2|].
        destruct (Hold l2 it2 H2) as (it2' & H2' & Hp2' & _).
        exists it2'. split; [exact H2'|congruence].
    + intros l2 H2. apply Hel' in H2 as [->|H2].
      * exists itx. split; [exact Hitx|]. rewrite Hipx.
        apply lookup_insert_eq.
      * destruct (wf_slice r1 Hwf1 l2 H2) as (it2 & Hi2 & Hm2).
        destruct (Hold l2 it2 Hi2) as (it2' & H2' & Hp2' & _).
        exists it2'. split; [exact H2'|]. rewrite Hp2'.
        rewrite lookup_insert_ne; [exact Hm2|]. intros E.
        rewrite <- E in Hm2. congruence.
    + intros j rec2 Hj. apply lookup_insert_Some in Hj as [[<- <-]|[Hne Hj]].
      * exists x, itx. rewrite lookup_insert_eq. simpl. auto.
      * destruct (wf_blocked r1 Hwf1 j rec2 Hj) as (l2 & it2 & Hl2 & Hi2 & He2).
        destruct (Hold l2 it2 Hi2) as (it2' & H2' & _ & He2').
        exists l2, it2'. rewrite lookup_insert_ne by exact Hne.
        split; [exact Hl2|]. split; [exact H2'|congruence].
    + intros j l2 Hj. apply lookup_insert_Some in Hj as [[<- <-]|[Hne Hj]].
      * rewrite lookup_insert_eq. eauto.
      * rewrite lookup_insert_ne by exact Hne. eapply wf_banned; eassumption.
    + unfold len_blocked. simpl. rewrite map_size_insert_None by exact Hb1.
      rewrite Hlen'. pose proof (wf_len r1 Hwf1) as HL.
      unfold len_blocked in HL. change (IPExpiryHeapM.Len hp)
        with (IPExpiryHeapM.Len (expiryHeap r1)). lia.
    + pose proof (wf_capacity r1 Hwf1) as [Hc1' Hc2]. split; [exact Hc1'|].
      unfold len_blocked in *. simpl.
      rewrite map_size_insert_None by exact Hb1. lia.
  - unfold len_blocked. simpl. rewrite map_size_insert_None by exact Hb1.
    lia.
Qed.
Lemma RecordBlockedIP_wf (now now' : Time) (r : MemoryIPRecorder)
      (i reason : string) (d : Duration) :
  recorder_wf r ->
  exists r', RecordBlockedIP now now' r i reason d = Ret (r', None) /\
             recorder_wf r'.
Proof.
  intros Hwf. destruct (expiryItems r !! i) as [l|] eqn:El.
  - destruct (RecordBlockedIP_existing now now' r i reason d l Hwf El)
      as (r' & _ & E & Hwf' & _). eauto.
  - destruct (RecordBlockedIP_new now now' r i reason d Hwf El)
      as (_ & r' & _ & E & Hwf' & _). eauto.
Qed.

(** Every registry reached from [NewMemoryIPRecorder] by bans and sweeps
    is well formed, and none of these calls panics or exhausts its loop
    budget. *)
Lemma run_ops_wf (ops : list RegistryOp) :
  forall r, recorder_wf r ->
  exists r', run_ops r ops = Ret r' /\ recorder_wf r'.
Proof.
  induction ops as [|op ops IH]; intros r Hwf; simpl; [eauto|].
  destruct op as [now now' i reason d|now]; simpl.
  - destruct (RecordBlockedIP_wf now now' r i reason d Hwf)
      as (r1 & E & Hwf1).
    rewrite E. cbn [bind]. apply IH. exact Hwf1.
  - destruct (cleanupExpired_wf now r Hwf) as (r1 & E & Hwf1 & _).
    rewrite E. cbn [bind]. apply IH. exact Hwf1.
Qed.

Lemma registry_of_wf (capacity0 : Z) (ops : list RegistryOp) :
  exists r, registry_of capacity0 ops = Ret r /\ recorder_wf r.
Proof.
  unfold registry_of.
  destruct (NewMemoryIPRecorder_wf capacity0) as (r0 & E & Hwf & _).
  rewrite E. cbn [bind]. apply run_ops_wf. exact Hwf.
Qed.

Lemma full_registry_wf : recorder_wf full_registry.
Proof.
  unfold full_registry.
  destruct (registry_of_wf 3 sample_bans) as (r & E & Hwf).
  rewrite E. exact Hwf.
Qed.

Example full_registry_contents :
  blockedIPs full_registry !! "198.51.100.4"
    = Some (mkBlocked "198.51.100.4" "scanner" 101 111) /\
  blockedIPs full_registry !! "192.0.2.33"
    = Some (mkBlocked "192.0.2.33" "flood" 102 132) /\
  blockedIPs full_registry !! "203.0.113.7"
    = Some (mkBlocked "203.0.113.7" "bruteforce" 100 150) /\
  len_blocked full_registry = 3 /\ capacity full_registry = 3.
Proof. vm_compute. repeat split; reflexivity. Qed.

(* ===================================================================== *)
(** * The ban registry: the specified properties *)
(* ===================================================================== *)

(** C6. For an IP with a stored ban record, [IsIPBlocked] returns true with
    the stored record (reason and expiry) as long as the clock has not
    passed the stored expiry and that expiry is not the zero time; it
    returns false with no record once the clock has passed the expiry, and
    whenever the stored expiry is the zero time.  The record is in the
    lookup map throughout: the check itself removes nothing. *)
Theorem C6_blocked_until_expiry (now : Time) (r : MemoryIPRecorder)
        (i : string) (record : BlockedIPRecord) :
  blockedIPs r !! i = Some record ->
  (Time_IsZero (BlockedUntil record) = false ->
   now <= BlockedUntil record ->
   IsIPBlocked now r i = (true, Some record)) /\
  (BlockedUntil record < now -> IsIPBlocked now r i = (false, None)) /\
  (Time_IsZero (BlockedUntil record) = true ->
   IsIPBlocked now r i = (false, None)).
Proof.
  intros Hrec. unfold IsIPBlocked. rewrite Hrec.
  unfold Time_After. split; [|split].
  - intros Hz Hle. rewrite Hz.
    destruct (Z.ltb_spec (BlockedUntil record) now); [lia|reflexivity].
  - intros Hlt.
    destruct (Z.ltb_spec (BlockedUntil record) now); [|lia].
    rewrite orb_true_r. reflexivity.
  - intros Hz. rewrite Hz. reflexivity.
Qed.

Lemma C6_blocked_until_expiry_witness :
  IsIPBlocked 120 full_registry "203.0.113.7"
    = (true, Some (mkBlocked "203.0.113.7" "bruteforce" 100 150)) /\
  IsIPBlocked 151 full_registry "203.0.113.7" = (false, None).
Proof.
  assert (Hrec : blockedIPs full_registry !! "203.0.113.7"
                 = Some (mkBlocked "203.0.113.7" "bruteforce" 100 150))
    by (vm_compute; reflexivity).
  split.
  - apply (proj1 (C6_blocked_until_expiry 120 _ _ _ Hrec)).
    + reflexivity.
    + simpl. lia.
  - apply (proj1 (proj2 (C6_blocked_until_expiry 151 _ _ _ Hrec))).
    simpl. lia.
Defined.

(** C7. When a new IP is banned while the registry holds capacity-many
    records, [ensureCapacity] returns and removes at least one entry; the
    entries it removes, in the order it pops them, are each the one with
    the earliest expiry among the entries still present at that moment.
    Expired entries go first: the first pass collects exactly the entries
    that have expired by the clock reading [ensureCapacity] takes (a later
    one than the reading that stamps the new record), and when there is
    such an entry nothing else is removed.  A forced eviction happens only
    when that pass found nothing, and then exactly one entry, the
    earliest-expiring one, is evicted.  The new record is then added to
    what is left. *)
Theorem C7_eviction_earliest_first (now now' : Time) (r : MemoryIPRecorder)
        (i reason : string) (d : Duration) :
  recorder_wf r ->
  blockedIPs r !! i = None ->
  len_blocked r = capacity r ->
  exists r1 r',
    ensureCapacity now' r = Ret r1 /\
    RecordBlockedIP now now' r i reason d = Ret (r', None) /\
    blockedIPs r' =
      <[i := mkBlocked i reason now (Time_Add now d)]>
        (del_keys (removed_ips r r1) (blockedIPs r)) /\
    removed_ips r r1 <> [] /\
    earliest_first (blockedIPs r) (removed_ips r r1) /\
    (forall y, y ∈ toDelete r1 <->
               is_Some (blockedIPs r !! y) /\ expired_at now' r y) /\
    Forall (expired_at now' r) (toDelete r1) /\
    (toDelete r1 = [] \/ logger r1 = logger r) /\
    ((exists y, is_Some (blockedIPs r !! y) /\ expired_at now' r y) ->
     removed_ips r r1 = toDelete r1 /\ logger r1 = logger r) /\
    ((forall y record, blockedIPs r !! y = Some record ->
                       Time_After (BlockedUntil record) now' = true) ->
     toDelete r1 = [] /\ exists x, removed_ips r r1 = [x]).
Proof.
  intros Hwf Hnew Hfull.
  assert (Hitem : expiryItems r !! i = None).
  { destruct (expiryItems r !! i) as [l|] eqn:E; [|reflexivity].
    destruct (wf_banned r Hwf i l E) as [rec Hrec]. congruence. }
  assert (Hcap : at_capacity r = true).
  { unfold at_capacity. apply Z.leb_le. lia. }
  destruct (ensureCapacity_full now' r Hwf Hcap)
    as (r1 & E1 & _ & _ & _ & Hb1 & _ & Hne & Hfirst & Hexp & Hone & Hnone &
        Hall).
  destruct (RecordBlockedIP_new now now' r i reason d Hwf Hitem)
    as (r1' & r' & E1' & E' & _ & Hb' & _).
  assert (r1' = r1) by congruence. subst r1'.
  exists r1, r'. rewrite <- Hb1.
  repeat (split; [assumption|]). split; [|exact Hnone].
  intros (y & Hy). apply Hall in Hy.
  destruct Hone as [Hnil|Hlog]; [rewrite Hnil in Hy; inversion Hy|].
  split; [|exact Hlog].
  unfold removed_ips. rewrite Hlog, drop_all. apply app_nil_r.
Qed.

Lemma C7_eviction_earliest_first_witness :
  exists r1 r',
    ensureCapacity 106 full_registry = Ret r1 /\
    RecordBlockedIP 105 106 full_registry "10.1.1.1" "flood" 60
      = Ret (r', None) /\
    blockedIPs r' =
      <["10.1.1.1" := mkBlocked "10.1.1.1" "flood" 105 (Time_Add 105 60)]>
        (del_keys (removed_ips full_registry r1) (blockedIPs full_registry)) /\
    removed_ips full_registry r1 <> [] /\
    earliest_first (blockedIPs full_registry) (removed_ips full_registry r1) /\
    (forall y, y ∈ toDelete r1 <->
               is_Some (blockedIPs full_registry !! y) /\
               expired_at 106 full_registry y) /\
    Forall (expired_at 106 full_registry) (toDelete r1) /\
    (toDelete r1 = [] \/ logger r1 = logger full_registry) /\
    ((exists y, is_Some (blockedIPs full_registry !! y) /\
                expired_at 106 full_registry y) ->
     removed_ips full_registry r1 = toDelete r1 /\
     logger r1 = logger full_registry) /\
    ((forall y record, blockedIPs full_registry !! y = Some record ->
                       Time_After (BlockedUntil record) 106 = true) ->
     toDelete r1 = [] /\ exists x, removed_ips full_registry r1 = [x]).
Proof.
  apply (C7_eviction_earliest_first 105 106 full_registry "10.1.1.1" "flood"
           60).
  - exact full_registry_wf.
  - vm_compute. reflexivity.
  - vm_compute. reflexivity.
Defined.

(** The record is stamped with the first clock reading; what has expired
    is decided by the second: at 110 nothing has expired, at 112 the ban
    that ends at 111 has. *)
Example ensureCapacity_second_reading :
  (let* (r', _) := RecordBlockedIP 110 112 full_registry "10.1.1.1" "flood"
                     60 in
   Ret (toDelete r', blockedIPs r' !! "10.1.1.1"))
  = Ret (["198.51.100.4"], Some (mkBlocked "10.1.1.1" "flood" 110 170)).
Proof. vm_compute. reflexivity. Qed.

Example ensureCapacity_forced_eviction :
  (r1 <- ensureCapacity 105 full_registry ;;
   Ret (removed_ips full_registry r1, toDelete r1))
  = Ret (["198.51.100.4"], []).
Proof. vm_compute. reflexivity. Qed.

Example ensureCapacity_expired_first :
  (r1 <- ensureCapacity 140 full_registry ;;
   Ret (removed_ips full_registry r1, toDelete r1))
  = Ret (["198.51.100.4"; "192.0.2.33"], ["198.51.100.4"; "192.0.2.33"]).
Proof. vm_compute. reflexivity. Qed.

(** C8. Banning an IP that already has a record replaces the stored record
    and repositions the IP's existing heap entry in place: the same item,
    behind the same pointer, gets the new expiry and the heap is put back
    in order around it; no item is allocated, and the record count, the
    heap length and the [expiryItems] map are unchanged.  The registry
    stays well formed, so every IP has at most one heap entry. *)
Theorem C8_reban_in_place (now now' : Time) (r : MemoryIPRecorder)
        (i reason : string) (d : Duration) (old : BlockedIPRecord) :
  recorder_wf r ->
  blockedIPs r !! i = Some old ->
  exists r' l it',
    RecordBlockedIP now now' r i reason d = Ret (r', None) /\
    blockedIPs r' =
      <[i := mkBlocked i reason now (Time_Add now d)]> (blockedIPs r) /\
    size (blockedIPs r') = size (blockedIPs r) /\
    length (slice (expiryHeap r')) = length (slice (expiryHeap r)) /\
    expiryItems r' = expiryItems r /\
    size (expiryItems r') = size (expiryItems r) /\
    expiryItems r !! i = Some l /\
    l ∈ slice (expiryHeap r') /\
    objs (expiryHeap r') !! l = Some it' /\
    ip it' = i /\ expiresAt it' = Time_Add now d /\
    (forall x, x ∈ slice (expiryHeap r') <-> x ∈ slice (expiryHeap r)) /\
    (forall l2, is_Some (objs (expiryHeap r') !! l2) <->
                is_Some (objs (expiryHeap r) !! l2)) /\
    heap_wf (expiryHeap r') /\
    recorder_wf r' /\
    (forall l1 l2 it1 it2,
        l1 ∈ slice (expiryHeap r') -> l2 ∈ slice (expiryHeap r') ->
        objs (expiryHeap r') !! l1 = Some it1 ->
        objs (expiryHeap r') !! l2 = Some it2 ->
        ip it1 = ip it2 -> l1 = l2).
Proof.
  intros Hwf Hold.
  destruct (wf_blocked r Hwf i old Hold) as (l & it & Hl & Hit & _).
  destruct (RecordBlockedIP_existing now now' r i reason d l Hwf Hl)
    as (r' & it' & E & Hwf' & Hb & He & Hlen & Hel & Hit' & Hip & Hexp &
        Hdom & _ & _).
  exists r', l, it'. split; [exact E|]. split; [exact Hb|].
  split; [rewrite Hb; apply map_size_insert_Some; rewrite Hold; eauto|].
  split; [unfold IPExpiryHeapM.Len in Hlen; lia|].
  split; [exact He|]. split; [rewrite He; reflexivity|].
  split; [exact Hl|].
  split; [apply Hel; apply (wf_items r Hwf i l Hl)|].
  split; [exact Hit'|]. split; [exact Hip|]. split; [exact Hexp|].
  split; [exact Hel|]. split; [exact Hdom|].
  split; [apply (wf_heap r' Hwf')|]. split; [exact Hwf'|].
  intros l1 l2 it1 it2 H1 H2 Ho1 Ho2 Hsame.
  destruct (wf_slice r' Hwf' l1 H1) as (a & Ha & Hma).
  destruct (wf_slice r' Hwf' l2 H2) as (b & Hb' & Hmb).
  assert (a = it1) by congruence. assert (b = it2) by congruence.
  subst a b. rewrite Hsame in Hma. congruence.
Qed.

Lemma C8_reban_in_place_witness :
  exists r' l it',
    RecordBlockedIP 103 104 full_registry "198.51.100.4" "repeat" 500
      = Ret (r', None) /\
    blockedIPs r' =
      <["198.51.100.4" :=
          mkBlocked "198.51.100.4" "repeat" 103 (Time_Add 103 500)]>
        (blockedIPs full_registry) /\
    size (blockedIPs r') = size (blockedIPs full_registry) /\
    length (slice (expiryHeap r'))
      = length (slice (expiryHeap full_registry)) /\
    expiryItems r' = expiryItems full_registry /\
    size (expiryItems r') = size (expiryItems full_registry) /\
    expiryItems full_registry !! "198.51.100.4" = Some l /\
    l ∈ slice (expiryHeap r') /\
    objs (expiryHeap r') !! l = Some it' /\
    ip it' = "198.51.100.4" /\ expiresAt it' = Time_Add 103 500 /\
    (forall x, x ∈ slice (expiryHeap r')
               <-> x ∈ slice (expiryHeap full_registry)) /\
    (forall l2, is_Some (objs (expiryHeap r') !! l2) <->
                is_Some (objs (expiryHeap full_registry) !! l2)) /\
    heap_wf (expiryHeap r') /\
    recorder_wf r' /\
    (forall l1 l2 it1 it2,
        l1 ∈ slice (expiryHeap r') -> l2 ∈ slice (expiryHeap r') ->
        objs (expiryHeap r') !! l1 = Some it1 ->
        objs (expiryHeap r') !! l2 = Some it2 ->
        ip it1 = ip it2 -> l1 = l2).
Proof.
  apply (C8_reban_in_place 103 104 full_registry "198.51.100.4" "repeat" 500
           (mkBlocked "198.51.100.4" "scanner" 101 111)).
  - exact full_registry_wf.
  - vm_compute. reflexivity.
Defined.

Example reban_moves_entry :
  (let* (r', _) :=
     RecordBlockedIP 103 104 full_registry "198.51.100.4" "repeat" 500 in
   Ret (slice (expiryHeap full_registry), slice (expiryHeap r'),
        key (expiryHeap r') <$> [0; 1; 2]))
  = Ret ([1%nat; 0%nat; 2%nat], [2%nat; 0%nat; 1%nat], [132; 150; 603]).
Proof. vm_compute. reflexivity. Qed.

(* ===================================================================== *)
(** * The write-behind persisters: pushing never blocks *)
(* ===================================================================== *)

Lemma select_send_full {A : Type} (c : chan A) (v : A) :
  chan_closed c = false -> chan_full c = true ->
  select_send c v = Ret (c, false).
Proof. intros Hopen Hfull. unfold select_send. rewrite Hopen, Hfull. reflexivity. Qed.

Lemma select_send_open {A : Type} (c : chan A) (v : A) :
  chan_closed c = false ->
  exists c' sent, select_send c v = Ret (c', sent) /\
    chan_buf c' = (if sent then chan_buf c ++ [v] else chan_buf c) /\
    sent = negb (chan_full c).
Proof.
  intros Hopen. unfold select_send. rewrite Hopen.
  destruct (chan_full c); eexists _, _; split; reflexivity || (split; reflexivity).
Qed.

Lemma MongoLogStore_Store_returns (s : MongoLogStore) (log : WAFLog) :
  chan_closed (logChan s) = false ->
  exists s', MongoLogStore_Store s log = Ret (s', None).
Proof.
  intros Hopen. unfold MongoLogStore_Store, select_send. rewrite Hopen.
  destruct (chan_full (logChan s)); cbn [bind]; eauto.
Qed.

(** C10. Pushing to a persister whose inbox is full returns at once and
    reports success: the incoming record is dropped (the queue is left as
    it was), a warning is logged, and no error is returned.  This holds
    for the security-log store and for the ban registry's durability push,
    where the registry holds exactly what the in-memory recorder alone
    would have recorded.  A push to a running store always reports
    success. *)
Theorem C10_full_inbox_drops_newest :
  (forall s log,
      chan_closed (logChan s) = false -> chan_full (logChan s) = true ->
      MongoLogStore_Store s log =
      Ret (mkLogStore (logChan s)
                      (store_logger s ++ [(LWarn, MsgLogChannelFull)])
                      (processStarted s), None)) /\
  (forall s log,
      chan_closed (logChan s) = false ->
      exists s', MongoLogStore_Store s log = Ret (s', None)) /\
  (forall now now1 now' r i reason d,
      recorder_wf (memory r) ->
      chan_closed (writeQueue r) = false -> chan_full (writeQueue r) = true ->
      exists m,
        RecordBlockedIP now now1 (memory r) i reason d = Ret (m, None) /\
        MongoIPRecorder_RecordBlockedIP now now1 now' r i reason d =
        Ret (mkMongoRecorder m (writeQueue r)
               (mongo_logger r ++ [(LWarn, MsgWriteQueueFull i)]), None)).
Proof.
  split; [|split].
  - intros s log Hopen Hfull. unfold MongoLogStore_Store.
    rewrite (select_send_full _ _ Hopen Hfull). reflexivity.
  - exact MongoLogStore_Store_returns.
  - intros now now1 now' r i reason d Hwf Hopen Hfull.
    destruct (RecordBlockedIP_wf now now1 (memory r) i reason d Hwf)
      as (m & E & _).
    exists m. split; [exact E|].
    unfold MongoIPRecorder_RecordBlockedIP. rewrite E. cbn [bind].
    rewrite (select_send_full _ _ Hopen Hfull). reflexivity.
Qed.

Lemma C10_full_inbox_drops_newest_witness :
  MongoLogStore_Store full_log_store (sample_log "CCCC") =
    Ret (mkLogStore (logChan full_log_store) [(LWarn, MsgLogChannelFull)]
                    true, None) /\
  exists m,
    RecordBlockedIP 103 103 (memory full_ban_persister) "198.51.100.4"
                    "repeat" 500 = Ret (m, None) /\
    MongoIPRecorder_RecordBlockedIP 103 103 104 full_ban_persister
      "198.51.100.4" "repeat" 500 =
    Ret (mkMongoRecorder m (writeQueue full_ban_persister)
           (mongo_logger full_ban_persister
              ++ [(LWarn, MsgWriteQueueFull "198.51.100.4")]), None).
Proof.
  destruct C10_full_inbox_drops_newest as (Hstore & _ & Hban).
  split.
  - apply (Hstore full_log_store (sample_log "CCCC")); reflexivity.
  - apply (Hban 103 103 104 full_ban_persister "198.51.100.4" "repeat" 500).
    + exact full_registry_wf.
    + reflexivity.
    + reflexivity.
Defined.

(* ===================================================================== *)
(** * The request and response handlers *)
(* ===================================================================== *)

Lemma contains_middle (pre sub post : string) :
  contains (pre +:+ sub +:+ post) sub.
Proof. exists pre, post. reflexivity. Qed.

Lemma string_app_cons (c : ascii) (s t : string) :
  String c s +:+ t = String c (s +:+ t).
Proof. reflexivity. Qed.

Lemma string_app_assoc (s1 s2 s3 : string) :
  (s1 +:+ s2) +:+ s3 = s1 +:+ s2 +:+ s3.
Proof.
  induction s1 as [|c s1 IH]; [reflexivity|].
  rewrite !string_app_cons, IH. reflexivity.
Qed.

Lemma string_app_nil_r (s : string) : s +:+ EmptyString = s.
Proof.
  induction s as [|c s IH]; [reflexivity|].
  rewrite string_app_cons, IH. reflexivity.
Qed.

Lemma blockedMessage_contains (env : Env) (record : BlockedIPRecord) :
  contains (blockedMessage env record) (Reason record) /\
  contains (blockedMessage env record)
           (env_RFC3339 env (BlockedUntil record)).
Proof.
  unfold blockedMessage. split.
  - exists ("IP has been blocked until "
              +:+ env_RFC3339 env (BlockedUntil record) +:+ " due to "),
           EmptyString.
    rewrite string_app_nil_r, !string_app_assoc. reflexivity.
  - apply contains_middle.
Qed.

(** C3. A request-phase message whose derived client IP has a ban record
    with its expiry in the future is denied with status 403; the message of
    the denial holds the ban reason and the RFC3339 form of the expiry.
    Nothing else happens: the state after the call differs from the state
    before only by one entry in the agent's log; no call reaches the
    flow-control gate, the rule engine or the matching engine, no
    transaction is opened or cached, and nothing is written to the
    response metadata. *)
Theorem C3_banned_ip_denied (env : Env) (a : Application)
        (message : applicationRequest) (recorder : MongoIPRecorder)
        (record : BlockedIPRecord) :
  let req := ensure_ID env message in
  let realIP := getRealClientIP (Some req) in
  ipRecorder a = Some recorder ->
  blockedIPs (memory recorder) !! realIP = Some record ->
  0 <= env_now env ->
  env_now env < BlockedUntil record ->
  exists a',
    HandleRequest env a message =
      Ret (a', [],
           Some (ErrInterrupted
                   (mkInterruption 0 "deny" 403
                      ("IP has been blocked until "
                         +:+ env_RFC3339 env (BlockedUntil record)
                         +:+ " due to " +:+ Reason record)))) /\
    contains ("IP has been blocked until "
                +:+ env_RFC3339 env (BlockedUntil record)
                +:+ " due to " +:+ Reason record) (Reason record) /\
    contains ("IP has been blocked until "
                +:+ env_RFC3339 env (BlockedUntil record)
                +:+ " due to " +:+ Reason record)
             (env_RFC3339 env (BlockedUntil record)) /\
    a' = app_log (LInfo, MsgRequestFromBlockedIP realIP (Reason record)
                           (BlockedUntil record)) a /\
    calls a' = calls a /\ cache a' = cache a /\ txs a' = txs a /\
    next_handle a' = next_handle a /\ logStore a' = logStore a /\
    ipRecorder a' = ipRecorder a.
Proof.
  intros req realIP Hrec Hban Hnow Hfuture.
  eexists. split; [|split; [|split; [|split; [reflexivity|]]]].
  - unfold HandleRequest. fold req. unfold requestGates. fold realIP.
    rewrite Hrec. unfold MongoIPRecorder_IsIPBlocked, IsIPBlocked.
    rewrite Hban. unfold Time_IsZero, Time_After.
    destruct (Z.eqb_spec (BlockedUntil record) 0) as [?|_]; [lia|].
    destruct (Z.ltb_spec (BlockedUntil record) (env_now env)) as [?|_];
      [lia|].
    cbn [orb bind]. reflexivity.
  - apply (blockedMessage_contains env record).
  - apply (blockedMessage_contains env record).
  - simpl. repeat split; reflexivity.
Qed.

Lemma C3_banned_ip_denied_witness :
  exists a',
    HandleRequest sample_env sample_app banned_request =
      Ret (a', [],
           Some (ErrInterrupted
                   (mkInterruption 0 "deny" 403
                      "IP has been blocked until 2025-06-15T15:50:00Z due to bruteforce"))) /\
    calls a' = [] /\ cache a' = ∅ /\ txs a' = ∅.
Proof.
  destruct (C3_banned_ip_denied sample_env sample_app banned_request
              sample_recorder
              (mkBlocked "203.0.113.7" "bruteforce" (unix 1749999000)
                         (Time_Add (unix 1749999000) (seconds 3600))))
    as (a' & E & _ & _ & _ & Hc & Hk & Ht & _).
  - reflexivity.
  - vm_compute. reflexivity.
  - vm_compute. discriminate.
  - vm_compute. reflexivity.
  - exists a'. split; [|auto].
    rewrite E. vm_compute. reflexivity.
Defined.

(** C9. A response-phase message whose transaction id has no entry in the
    transaction cache makes [HandleResponse] return no error; the miss is
    logged (one entry in the agent's log) and nothing else changes. *)
Theorem C9_cache_miss_is_success (env : Env) (a : Application)
        (res : applicationResponse) :
  ResponseCheck a = true ->
  is_empty (res_ID res) = false ->
  cache a !! res_ID res = None ->
  HandleResponse env a res =
    Ret (app_log (LError, MsgTransactionNotFound (res_ID res)) a, None).
Proof.
  intros Hcheck Hid Hmiss. unfold HandleResponse, responseLookup.
  rewrite Hcheck, Hid, Hmiss. reflexivity.
Qed.

Lemma C9_cache_miss_is_success_witness :
  HandleResponse sample_env sample_app (sample_response "TXUNKNOWN0000001") =
    Ret (app_log (LError, MsgTransactionNotFound "TXUNKNOWN0000001")
                 sample_app, None).
Proof.
  apply (C9_cache_miss_is_success sample_env sample_app
           (sample_response "TXUNKNOWN0000001")); reflexivity.
Defined.

(** C2, as the code has it.  When the cache entry of the transaction id is
    found but the finalization guard is already held, the response handler
    takes the entry out of the cache and returns the error "transaction is
    already being deleted"; it touches nothing else: no call on the
    transaction, no finalization, and no entry in the agent's log. *)
Theorem C2_lost_race_returns_error (env : Env) (a : Application) (p : nat)
        (res : applicationResponse) (t : transaction) :
  txs a !! p = Some t -> m t = true ->
  responseFound env a p res =
    Ret (responseRemove a res, Some (ErrAlreadyBeingDeleted (res_ID res))) /\
  (ResponseCheck a = true -> is_empty (res_ID res) = false ->
   cache a !! res_ID res = Some p ->
   HandleResponse env a res =
     Ret (responseRemove a res, Some (ErrAlreadyBeingDeleted (res_ID res)))) /\
  Logger (responseRemove a res) = Logger a /\
  calls (responseRemove a res) = calls a /\
  txs (responseRemove a res) = txs a.
Proof.
  intros Ht Hm.
  assert (Hfound : responseFound env a p res =
    Ret (responseRemove a res, Some (ErrAlreadyBeingDeleted (res_ID res)))).
  { unfold responseFound, TryLock. simpl. rewrite Ht, Hm. reflexivity. }
  split; [exact Hfound|]. split; [|repeat split].
  intros Hcheck Hid Hhit. unfold HandleResponse, responseLookup.
  rewrite Hcheck, Hid, Hhit. exact Hfound.
Qed.

Lemma C2_lost_race_returns_error_witness :
  HandleResponse sample_env contended_app (sample_response "TXPLAIN000000001")
  = Ret (responseRemove contended_app (sample_response "TXPLAIN000000001"),
         Some (ErrAlreadyBeingDeleted "TXPLAIN000000001")).
Proof.
  apply (C2_lost_race_returns_error sample_env contended_app 0%nat
           (sample_response "TXPLAIN000000001")
           (mkTransaction (mkTx 0 "TXPLAIN000000001" pass_script None)
                          true (Some plain_request)));
    reflexivity.
Defined.

(** The claim fails as stated: on losing the race the handler returns an
    error to its caller, and it logs nothing. *)
Lemma C2_counterexample :
  exists a' e,
    HandleResponse sample_env contended_app
                   (sample_response "TXPLAIN000000001") = Ret (a', Some e) /\
    Logger a' = Logger contended_app.
Proof. eexists _, _. split; reflexivity. Qed.
(** ** What the handlers leave alone *)

Lemma steps_to_refl (a : Application) : steps_to a a [].
Proof. unfold steps_to. rewrite app_nil_r. repeat split; auto. Qed.

Lemma steps_to_trans (a b c : Application) (cs ds : list Call) :
  steps_to a b cs -> steps_to b c ds -> steps_to a c (cs ++ ds).
Proof.
  unfold steps_to.
  intros (A1 & A2 & A3 & A4 & A5 & A6 & A7 & A8 & A9 & A10 & A11)
         (B1 & B2 & B3 & B4 & B5 & B6 & B7 & B8 & B9 & B10 & B11).
  repeat split; try congruence; [auto|].
  rewrite B11, A11, app_assoc. reflexivity.
Qed.

Lemma app_log_steps (e : Level * AppMsg) (a : Application) :
  steps_to a (app_log e a) [].
Proof. unfold steps_to. simpl. rewrite app_nil_r. repeat split; auto. Qed.

Lemma app_call_steps (c : Call) (a : Application) :
  steps_to a (app_call c a) [c].
Proof. unfold steps_to. simpl. repeat split; auto. Qed.

Lemma app_calls_steps (cs : list Call) (a : Application) :
  steps_to a (app_calls cs a) cs.
Proof.
  revert a. induction cs as [|c cs IH]; intros a.
  - apply steps_to_refl.
  - change (c :: cs) with ([c] ++ cs).
    eapply steps_to_trans; [apply app_call_steps|apply IH].
Qed.

Lemma recordAttack_steps (a : Application) (i : string) :
  exists cs, steps_to a (recordAttack a i) cs /\ quiet cs.
Proof.
  unfold recordAttack. destruct (flowController a).
  - exists [CallRecordAttack i]. split; [apply app_call_steps|].
    repeat constructor.
  - exists []. split; [apply steps_to_refl|constructor].
Qed.

Lemma recordError_steps (a : Application) (i : string) :
  exists cs, steps_to a (recordError a i) cs /\ quiet cs.
Proof.
  unfold recordError. destruct (flowController a).
  - exists [CallRecordError i]. split; [apply app_call_steps|].
    repeat constructor.
  - exists []. split; [apply steps_to_refl|constructor].
Qed.

Lemma quiet_app (cs ds : list Call) : quiet cs -> quiet ds -> quiet (cs ++ ds).
Proof. unfold quiet. intros. apply Forall_app. split; assumption. Qed.

Lemma closes_app (h : nat) (cs ds : list Call) :
  closes h (cs ++ ds) = (closes h cs + closes h ds)%nat.
Proof. unfold closes. rewrite List.filter_app, length_app. reflexivity. Qed.

Lemma loggings_app (h : nat) (cs ds : list Call) :
  loggings h (cs ++ ds) = (loggings h cs + loggings h ds)%nat.
Proof. unfold loggings. rewrite List.filter_app, length_app. reflexivity. Qed.

Lemma quiet_counts (h : nat) (cs : list Call) :
  quiet cs -> closes h cs = 0%nat /\ loggings h cs = 0%nat.
Proof.
  unfold closes, loggings. induction 1 as [|x cs Hx _ IH]; [split; reflexivity|].
  destruct (Hx h) as [H1 H2]. simpl. rewrite H1, H2. exact IH.
Qed.

Lemma logStore_Store_steps (a a' : Application) (lg : WAFLog) (err : error) :
  logStore_Store a lg = Ret (a', err) -> steps_to a a' [] /\ err = None.
Proof.
  unfold logStore_Store, MongoLogStore_Store, select_send.
  destruct (logStore a) as [s|] eqn:Es; [|discriminate].
  destruct (chan_closed (logChan s)) eqn:Ec; [discriminate|].
  assert (Hgen : forall s', chan_closed (logChan s') = false ->
            steps_to a (set_logStore (Some s') a) []).
  { intros s' Hs'. unfold steps_to. simpl. rewrite Es, app_nil_r.
    repeat split; auto. intros _ s0 E0. inversion E0; subst. exact Hs'. }
  destruct (chan_full (logChan s)); cbn [bind]; intros E;
    inversion E; subst;
    (split; [apply Hgen; simpl; first [exact Ec|reflexivity]|reflexivity]).
Qed.

Lemma logStore_Store_returns (a : Application) (lg : WAFLog) :
  store_running a -> isNil (logStore a) = false ->
  exists a', logStore_Store a lg = Ret (a', None).
Proof.
  intros Hrun Hnil. unfold logStore_Store.
  destruct (logStore a) as [s|] eqn:Es; [|discriminate].
  destruct (MongoLogStore_Store_returns s lg (Hrun s Es)) as [s' E].
  rewrite E. cbn [bind]. eauto.
Qed.

(** The deferred finalization: it returns when the log store is running,
    and it calls the logging hook and the release of its transaction
    exactly once each, and of no other transaction. *)
Lemma finalize_steps (env : Env) (a a' : Application) (t : Tx)
      (realIP : string) (req : option applicationRequest) :
  finalize env a t realIP req = Ret a' ->
  exists cs, steps_to a a' cs /\
    forall h, closes h cs = (if (tx_handle t =? h)%nat then 1 else 0)%nat /\
              loggings h cs = (if (tx_handle t =? h)%nat then 1 else 0)%nat.
Proof.
  unfold finalize. intros E.
  set (pre := if tx_IsInterrupted t && negb (isNil (logStore a)) then _
              else _) in E.
  assert (Hpre : forall a1, pre = Ret a1 ->
                   exists cs, steps_to a a1 cs /\ quiet cs).
  { unfold pre. intros a1 E1.
    destruct (tx_IsInterrupted t && negb (isNil (logStore a))).
    2:{ inversion E1; subst. exists []. split; [apply steps_to_refl|constructor]. }
    destruct (recordAttack_steps a realIP) as (cs & Hcs & Hq).
    destruct (tx_interruption t) as [it|];
      [|inversion E1; subst; eauto].
    destruct (es_MatchedRules (tx_script t)) as [|mr mrs];
      [inversion E1; subst; eauto|].
    destruct req as [rq|]; [|inversion E1; subst; eauto].
    destruct (saveFirewallLog env (recordAttack a realIP) (mr :: mrs) it rq
                (Headers rq)) as [[a2 err]| |] eqn:Es;
      cbn [bind] in E1; try discriminate.
    unfold saveFirewallLog in Es. apply logStore_Store_steps in Es as [Hs ->].
    inversion E1; subst. exists (cs ++ []). split; [|apply quiet_app; [exact Hq|constructor]].
    eapply steps_to_trans; eassumption. }
  destruct pre as [a1| |]; cbn [bind] in E; try discriminate.
  destruct (Hpre a1 eq_refl) as (cs & Hcs & Hq).
  set (fin := [CallTx (tx_handle t) ProcessLogging; CallTx (tx_handle t) Close]).
  assert (Hfin : steps_to a a' (cs ++ fin)).
  { eapply steps_to_trans; [exact Hcs|].
    change fin with ([CallTx (tx_handle t) ProcessLogging]
                       ++ [CallTx (tx_handle t) Close]).
    destruct (es_Close (tx_script t)); inversion E; subst.
    - replace ([CallTx (tx_handle t) ProcessLogging] ++ [CallTx (tx_handle t) Close])
        with (([CallTx (tx_handle t) ProcessLogging] ++ [CallTx (tx_handle t) Close]) ++ [])
        by apply app_nil_r.
      eapply steps_to_trans; [|apply app_log_steps].
      eapply steps_to_trans; apply app_call_steps.
    - eapply steps_to_trans; apply app_call_steps. }
  exists (cs ++ fin). split; [exact Hfin|].
  intros h. rewrite closes_app, loggings_app.
  destruct (quiet_counts h cs Hq) as [-> ->].
  unfold closes, loggings, fin. simpl.
  destruct (tx_handle t =? h)%nat; split; reflexivity.
Qed.

Lemma finalize_returns (env : Env) (a : Application) (t : Tx)
      (realIP : string) (req : option applicationRequest) :
  store_running a -> exists a', finalize env a t realIP req = Ret a'.
Proof.
  intros Hrun. unfold finalize.
  set (pre := if tx_IsInterrupted t && negb (isNil (logStore a)) then _
              else _).
  assert (Hpre : exists a1, pre = Ret a1).
  { unfold pre. destruct (tx_IsInterrupted t); cbn [andb]; [|eauto].
    destruct (isNil (logStore a)) eqn:Enil; cbn [negb]; [eauto|].
    destruct (tx_interruption t) as [it|]; [|eauto].
    destruct (es_MatchedRules (tx_script t)) as [|mr mrs]; [eauto|].
    destruct req as [rq|]; [|eauto].
    unfold saveFirewallLog.
    destruct (recordAttack_steps a realIP)
      as (cs & (_ & _ & _ & _ & _ & _ & _ & _ & Hn & Hr & _) & _).
    destruct (logStore_Store_returns (recordAttack a realIP)
                (fold_left (addMatchedRule it) (mr :: mrs)
                   (mkWAFLog (env_now env)
                      (buildRequestString rq (Headers rq)) EmptyString
                      (getHostFromRequest rq) (getRealClientIP (Some rq))
                      (Addr_String (DstIp rq)) (SrcPort rq) (DstPort rq)
                      (ID rq) 0 EmptyString 0 0 EmptyString 0 EmptyString
                      EmptyString EmptyString EmptyString EmptyString [])))
      as [a2 E2]; [auto|congruence|].
    rewrite E2. cbn [bind]. eauto. }
  destruct Hpre as [a1 ->]. cbn [bind]. eauto.
Qed.
Lemma app_calls_eq (cs : list Call) (a : Application) :
  app_calls cs a =
  mkApp (ResponseCheck a) (TransactionTTL a) (cache a) (txs a)
        (next_handle a) (logStore a) (ruleEngine a) (flowController a)
        (ipRecorder a) (Logger a) (calls a ++ cs).
Proof.
  revert a. induction cs as [|c cs IH]; intros a.
  - simpl. rewrite app_nil_r. destruct a; reflexivity.
  - unfold app_calls in *. simpl. rewrite IH. simpl.
    rewrite <- app_assoc. reflexivity.
Qed.

Lemma quiet_request_headers (h : nat) (kvs : list (string * string)) :
  quiet (List.map (fun kv => CallTx h (AddRequestHeader (fst kv) (snd kv)))
                  kvs).
Proof. induction kvs; constructor; [split; reflexivity|assumption]. Qed.

Lemma quiet_response_headers (h : nat) (kvs : list (string * string)) :
  quiet (List.map (fun kv => CallTx h (AddResponseHeader (fst kv) (snd kv)))
                  kvs).
Proof. induction kvs; constructor; [split; reflexivity|assumption]. Qed.

Ltac solve_quiet :=
  repeat (apply quiet_app);
  first [ apply quiet_request_headers | apply quiet_response_headers
        | repeat constructor ].

Ltac solve_steps :=
  eexists; split;
  [ unfold steps_to; simpl; repeat split; auto;
    rewrite <- ?app_assoc; reflexivity
  | split; [solve_quiet | simpl; repeat split; try reflexivity; try congruence] ].

(** The processing of a request inside the matching engine: only
    processing calls on the transaction, never its finalization; the id is
    in the response metadata whenever the write succeeded. *)
Lemma requestProcessing_steps (env : Env) (a : Application) (t : Tx)
      (req : applicationRequest) :
  forall a' t' w err, requestProcessing env a t req = (a', t', w, err) ->
  exists cs, steps_to a a' cs /\ quiet cs /\
    tx_handle t' = tx_handle t /\ tx_ID t' = tx_ID t /\
    tx_script t' = tx_script t /\
    (env_SetString env = None -> w = [("id", tx_ID t)]).
Proof.
  intros a' t' w err. unfold requestProcessing, tx_process.
  destruct (env_SetString env) as [e|].
  { intros E; inversion E; subst. exists []. split; [apply steps_to_refl|].
    split; [constructor|]. repeat split; congruence. }
  destruct (es_RuleEngineOff (tx_script t)).
  { intros E; inversion E; subst. exists []. split; [apply app_log_steps|].
    split; [constructor|]. repeat split; reflexivity. }
  destruct (readHeaders (Headers req)) as [kvs bad].
  rewrite app_calls_eq.
  destruct bad as [line|].
  { intros E; inversion E; subst. solve_steps. }
  simpl.
  destruct (es_ProcessRequestHeaders (tx_script t)) as [it|] eqn:E1;
    simpl; rewrite ?E1; simpl.
  { intros E; inversion E; subst. solve_steps. }
  destruct (es_WriteRequestBody (tx_script t)) as [it1 err1] eqn:E2;
    simpl; rewrite ?E2; simpl.
  destruct err1 as [e1|];
    [destruct it1; simpl; intros E; inversion E; subst; solve_steps|].
  destruct it1 as [i1|]; simpl;
    [intros E; inversion E; subst; solve_steps|].
  destruct (es_ProcessRequestBody (tx_script t)) as [it2 err2] eqn:E3;
    simpl; rewrite ?E3; simpl.
  destruct err2 as [e2|];
    [destruct it2; simpl; intros E; inversion E; subst; solve_steps|].
  destruct it2 as [i2|]; simpl; intros E; inversion E; subst; solve_steps.
Qed.

Lemma responseProcessing_steps (a : Application) (t : Tx)
      (res : applicationResponse) :
  forall a' t' err, responseProcessing a t res = (a', t', err) ->
  exists cs, steps_to a a' cs /\ quiet cs /\
    tx_handle t' = tx_handle t /\ tx_ID t' = tx_ID t /\
    tx_script t' = tx_script t.
Proof.
  intros a' t' err. unfold responseProcessing, tx_process.
  destruct (es_RuleEngineOff (tx_script t)).
  { intros E; inversion E; subst. exists []. split; [apply steps_to_refl|].
    split; [constructor|]. repeat split; reflexivity. }
  destruct (readHeaders (res_Headers res)) as [kvs bad].
  rewrite app_calls_eq.
  destruct bad as [line|].
  { intros E; inversion E; subst. solve_steps. }
  simpl.
  destruct (es_ProcessResponseHeaders (tx_script t)) as [it|] eqn:E1;
    simpl; rewrite ?E1; simpl.
  { intros E; inversion E; subst. solve_steps. }
  destruct (es_WriteResponseBody (tx_script t)) as [it1 err1] eqn:E2;
    simpl; rewrite ?E2; simpl.
  destruct err1 as [e1|];
    [destruct it1; simpl; intros E; inversion E; subst; solve_steps|].
  destruct it1 as [i1|]; simpl;
    [intros E; inversion E; subst; solve_steps|].
  destruct (es_ProcessResponseBody (tx_script t)) as [it2 err2] eqn:E3;
    simpl; rewrite ?E3; simpl.
  destruct err2 as [e2|];
    [destruct it2; simpl; intros E; inversion E; subst; solve_steps|].
  destruct it2 as [i2|]; simpl; intros E; inversion E; subst; solve_steps.
Qed.

(** The checks before the matching engine make no call on any
    transaction. *)
Lemma requestGates_steps (env : Env) (a a' : Application)
      (req : applicationRequest) (early : option HandlerError) :
  requestGates env a req = Ret (a', early) ->
  exists cs, steps_to a a' cs /\ quiet cs.
Proof.
  unfold requestGates.
  set (realIP := getRealClientIP (Some req)).
  destruct (match ipRecorder a with
            | Some rec =>
                match MongoIPRecorder_IsIPBlocked (env_now env) rec realIP with
                | (true, r) => Some r
                | (false, _) => None
                end
            | None => None
            end) as [[record|]|].
  { intros E; inversion E; subst. exists []. split; [apply app_log_steps|constructor]. }
  { discriminate. }
  set (gate := if flowController a then _ else _).
  assert (Hgate : exists cs, steps_to a (fst gate) cs /\ quiet cs).
  { unfold gate. destruct (flowController a); [|exists []; split; [apply steps_to_refl|constructor]].
    destruct (env_CheckVisit env realIP) as [allowed [e|]]; simpl.
    - exists ([CallCheckVisit realIP] ++ []). split; [|repeat constructor].
      eapply steps_to_trans; [apply app_call_steps|apply app_log_steps].
    - exists [CallCheckVisit realIP]. split; [apply app_call_steps|repeat constructor]. }
  destruct gate as [a1 limited]. simpl in Hgate.
  destruct Hgate as (cs1 & Hs1 & Hq1).
  destruct limited.
  { intros E; inversion E; subst. eauto. }
  destruct (ruleEngine a1); [|intros E; inversion E; subst; eauto].
  set (url := match Query req with
              | Some q => if (0 <? String.length q)%nat
                          then Path req +:+ "?" +:+ q else Path req
              | None => Path req
              end).
  destruct (env_MatchRequest env realIP url (Path req)) as [[shouldBlock rule] err].
  set (a2 := match err with
             | Some e => app_log (LError, MsgMatchFailed url realIP e)
                           (app_call (CallMatchRequest realIP url (Path req)) a1)
             | None => app_call (CallMatchRequest realIP url (Path req)) a1
             end).
  assert (Hs2 : steps_to a a2 (cs1 ++ [CallMatchRequest realIP url (Path req)])).
  { eapply steps_to_trans; [exact Hs1|]. unfold a2. destruct err.
    - replace [CallMatchRequest realIP url (Path req)]
        with ([CallMatchRequest realIP url (Path req)] ++ []) by apply app_nil_r.
      eapply steps_to_trans; [apply app_call_steps|apply app_log_steps].
    - apply app_call_steps. }
  assert (Hq2 : quiet (cs1 ++ [CallMatchRequest realIP url (Path req)])).
  { apply quiet_app; [exact Hq1|repeat constructor]. }
  destruct (shouldBlock && isNil err); [|intros E; inversion E; subst; eauto].
  destruct (recordAttack_steps a2 realIP) as (cs3 & Hs3 & Hq3).
  match goal with
  | |- context [saveMicroEngineLog env ?x rule req (Headers req)] =>
      assert (Hs4 : steps_to a x ((cs1 ++ [CallMatchRequest realIP url (Path req)]) ++ cs3 ++ []));
      [eapply steps_to_trans; [exact Hs2|];
       eapply steps_to_trans; [exact Hs3|apply app_log_steps]|];
      destruct (saveMicroEngineLog env x rule req (Headers req))
        as [[a5 serr]| |] eqn:Es; cbn [bind]; try discriminate
  end.
  unfold saveMicroEngineLog in Es. apply logStore_Store_steps in Es as [Hs5 ->].
  intros E; inversion E; subst.
  eexists. split; [eapply steps_to_trans; [exact Hs4|exact Hs5]|].
  apply quiet_app; [|constructor].
  apply quiet_app; [exact Hq2|]. apply quiet_app; [exact Hq3|constructor].
Qed.
Lemma HandleRequest_early (env : Env) (a a1 : Application)
      (message : applicationRequest) (e : HandlerError) :
  requestGates env a (ensure_ID env message) = Ret (a1, Some e) ->
  HandleRequest env a message = Ret (a1, [], Some e).
Proof. intros E. unfold HandleRequest. rewrite E. reflexivity. Qed.

Lemma NewTransactionWithID_steps (env : Env) (a : Application) (id : string) :
  let '(a', t) := NewTransactionWithID env a id in
  store_running a -> store_running a'.
Proof. simpl. intros H s Hs. apply (H s Hs). Qed.

(** A request that reaches the matching engine: the handler returns, and
    the response metadata holds the id whenever the write succeeded. *)
Lemma HandleRequest_engine (env : Env) (a : Application)
      (message : applicationRequest) :
  passes_gates env a (ensure_ID env message) ->
  store_running a ->
  exists a' w err,
    HandleRequest env a message = Ret (a', w, err) /\
    (env_SetString env = None -> w = [("id", ID (ensure_ID env message))]).
Proof.
  intros [a1 Egate] Hrun. unfold HandleRequest. rewrite Egate. cbn [bind].
  destruct (requestGates_steps _ _ _ _ _ Egate)
    as (cs & (_ & _ & _ & _ & _ & _ & _ & _ & _ & Hrun1 & _) & _).
  specialize (Hrun1 Hrun).
  destruct (NewTransactionWithID env a1 (ID (ensure_ID env message)))
    as [a2 t] eqn:Enew.
  assert (Hrun2 : store_running a2).
  { unfold NewTransactionWithID in Enew. inversion Enew; subst.
    intros s Hs. apply (Hrun1 s Hs). }
  assert (Hid : tx_ID t = ID (ensure_ID env message)).
  { unfold NewTransactionWithID in Enew. inversion Enew; subst. reflexivity. }
  destruct (requestProcessing env a2 t (ensure_ID env message))
    as [[[a3 t3] w] err] eqn:Eproc.
  destruct (requestProcessing_steps _ _ _ _ _ _ _ _ Eproc)
    as (cs3 & (_ & _ & _ & _ & _ & _ & _ & _ & _ & Hrun3 & _) & _ & _ & _ & _ &
        Hw).
  specialize (Hrun3 Hrun2). rewrite Hid in Hw.
  destruct (isNil err && ResponseCheck a3).
  - eexists _, w, err. split; [reflexivity|exact Hw].
  - destruct (finalize_returns env a3 t3
                (getRealClientIP (Some (ensure_ID env message)))
                (Some (ensure_ID env message)) Hrun3) as [a4 E4].
    rewrite E4. cbn [bind]. eexists _, w, err. split; [reflexivity|exact Hw].
Qed.

(** C4, as the code has it.  The transaction id is written into the
    response metadata when the request reaches the matching engine, that
    is, once it got past the ban registry, the flow-control gate and the
    lightweight rule engine, and it is there whatever the matching engine
    then decides (the write itself having succeeded).  When one of the
    three earlier checks denies the request, the handler returns that
    denial with nothing written to the response metadata. *)
Theorem C4_id_written_once_engine_reached (env : Env) (a : Application)
        (message : applicationRequest) :
  (passes_gates env a (ensure_ID env message) ->
   store_running a ->
   env_SetString env = None ->
   exists a' err,
     HandleRequest env a message =
       Ret (a', [("id", ID (ensure_ID env message))], err)) /\
  (forall a1 e,
     requestGates env a (ensure_ID env message) = Ret (a1, Some e) ->
     HandleRequest env a message = Ret (a1, [], Some e)).
Proof.
  split.
  - intros Hpass Hrun Hset.
    destruct (HandleRequest_engine env a message Hpass Hrun)
      as (a' & w & err & E & Hw).
    rewrite (Hw Hset) in E. eauto.
  - intros a1 e. apply HandleRequest_early.
Qed.

Lemma sample_app_running : store_running sample_app.
Proof. intros s Hs. inversion Hs; subst. reflexivity. Qed.

Lemma C4_id_written_once_engine_reached_witness :
  (exists a' err,
     HandleRequest deny_env sample_app plain_request =
       Ret (a', [("id", "TXPLAIN000000001")], err)) /\
  (exists a1,
     HandleRequest sample_env sample_app banned_request =
       Ret (a1, [],
            Some (deny 403 "IP has been blocked until 2025-06-15T15:50:00Z due to bruteforce"))).
Proof.
  split.
  - apply (proj1 (C4_id_written_once_engine_reached deny_env sample_app
                    plain_request)).
    + eexists. vm_compute. reflexivity.
    + exact sample_app_running.
    + reflexivity.
  - eexists.
    apply (proj2 (C4_id_written_once_engine_reached sample_env sample_app
                    banned_request)).
    vm_compute. reflexivity.
Defined.

(** The claim fails as stated: a request denied by the ban registry gets
    no transaction id in its response metadata. *)
Lemma C4_counterexample :
  exists a' w e,
    HandleRequest sample_env sample_app banned_request = Ret (a', w, Some e) /\
    ~ id_written w (ID banned_request).
Proof.
  eexists _, _, _. split; [vm_compute; reflexivity|].
  unfold id_written. simpl. tauto.
Qed.

Example matching_engine_denial_keeps_id :
  (let* (a', w, err) := HandleRequest deny_env sample_app plain_request in
   Ret (w, err, closes 0 (calls a'), map_to_list (cache a')))
  = Ret ([("id", "TXPLAIN000000001")],
         Some (ErrInterrupted (mkInterruption 942100 "deny" 403 EmptyString)),
         1%nat, []).
Proof. vm_compute. reflexivity. Qed.

Lemma quiet_one (c : Call) :
  (forall h, is_call Close h c = false /\ is_call ProcessLogging h c = false) ->
  quiet [c].
Proof. intros H. constructor; [exact H|constructor]. Qed.

(** What a request handler leaves behind: nothing but quiet calls when the
    request is denied before the matching engine; otherwise one new
    transaction, either cached with its guard free and not finalized, or
    finalized once and not cached. *)
Lemma HandleRequest_frame (env : Env) (a a' : Application)
      (message : applicationRequest) (w : Writer) (err : option HandlerError) :
  HandleRequest env a message = Ret (a', w, err) ->
  (exists cs, steps_to a a' cs /\ quiet cs) \/
  (exists cs,
     calls a' = calls a ++ cs /\ next_handle a' = S (next_handle a) /\
     (store_running a -> store_running a') /\
     ((quiet cs /\
       exists t req, tx_handle t = next_handle a /\
         cache a' = <[tx_ID t := next_handle a]> (cache a) /\
         txs a' = <[next_handle a := mkTransaction t false (Some req)]>
                    (txs a)) \/
      (cache a' = cache a /\ txs a' = txs a /\
       forall h,
         closes h cs = (if (next_handle a =? h)%nat then 1 else 0)%nat /\
         loggings h cs = (if (next_handle a =? h)%nat then 1 else 0)%nat))).
Proof.
  unfold HandleRequest. intros E.
  destruct (requestGates env a (ensure_ID env message))
    as [[a1 early]| |] eqn:Egate; cbn [bind] in E; try discriminate.
  destruct (requestGates_steps _ _ _ _ _ Egate)
    as (cs1 & (HRC & HTTL & Hcache & Htxs & Hnh & Hre & Hfc & Hip & Hnil &
               Hrun & Hcalls) & Hq1).
  destruct early as [e|].
  { inversion E; subst. left. exists cs1.
    split; [unfold steps_to; auto 12|exact Hq1]. }
  right.
  destruct (NewTransactionWithID env a1 (ID (ensure_ID env message)))
    as [a2 t] eqn:Enew.
  unfold NewTransactionWithID in Enew. inversion Enew as [[Ea2 Et]].
  clear Enew.
  destruct (requestProcessing env a2 t (ensure_ID env message))
    as [[[a3 t3] w3] err3] eqn:Eproc.
  destruct (requestProcessing_steps _ _ _ _ _ _ _ _ Eproc)
    as (cs3 & (HRC3 & HTTL3 & Hcache3 & Htxs3 & Hnh3 & Hre3 & Hfc3 & Hip3 &
               Hnil3 & Hrun3 & Hcalls3) & Hq3 & Hh3 & Hid3 & _).
  assert (Hht : tx_handle t = next_handle a).
  { rewrite <- Et. simpl. exact Hnh. }
  assert (Hcalls2 : calls a2 =
            calls a ++ cs1 ++
              [CallNewTransaction (next_handle a1)
                 (ID (ensure_ID env message))]).
  { rewrite <- Ea2. simpl. rewrite Hcalls, <- app_assoc. reflexivity. }
  assert (Hnh2 : next_handle a2 = S (next_handle a)).
  { rewrite <- Ea2. simpl. rewrite Hnh. reflexivity. }
  assert (Hc2 : cache a2 = cache a /\ txs a2 = txs a).
  { rewrite <- Ea2. simpl. split; assumption. }
  assert (Hrun2 : store_running a -> store_running a2).
  { intros H. specialize (Hrun H). rewrite <- Ea2. intros s Hs.
    apply (Hrun s Hs). }
  assert (Hqn : quiet [CallNewTransaction (next_handle a1)
                         (ID (ensure_ID env message))]).
  { apply quiet_one. intros h. split; reflexivity. }
  destruct Hc2 as [Hc2 Ht2].
  destruct (isNil err3 && ResponseCheck a3).
  - inversion E; subst a' w err. clear E.
    eexists. split; [|split; [|split]].
    + unfold cacheTransaction. simpl. rewrite Hcalls3, Hcalls2.
      rewrite <- !app_assoc. reflexivity.
    + unfold cacheTransaction. simpl. rewrite Hnh3. exact Hnh2.
    + intros H s. unfold cacheTransaction. simpl.
      apply (Hrun3 (Hrun2 H) s).
    + left. split.
      * apply quiet_app; [exact Hq1|]. apply quiet_app; [exact Hqn|].
        apply quiet_app; [exact Hq3|]. apply quiet_one.
        intros h. split; reflexivity.
      * exists t3, (ensure_ID env message).
        rewrite Hh3, Hht. split; [reflexivity|].
        unfold cacheTransaction. simpl. rewrite Hh3, Hht, Hcache3, Htxs3, Hc2, Ht2.
        split; reflexivity.
  - destruct (finalize env a3 t3 (getRealClientIP (Some (ensure_ID env message)))
                (Some (ensure_ID env message))) as [a4| |] eqn:Efin;
      cbn [bind] in E; try discriminate.
    inversion E; subst a' w err. clear E.
    destruct (finalize_steps _ _ _ _ _ _ Efin)
      as (cs4 & (HRC4 & HTTL4 & Hcache4 & Htxs4 & Hnh4 & Hre4 & Hfc4 & Hip4 &
                 Hnil4 & Hrun4 & Hcalls4) & Hcount).
    eexists. split; [|split; [|split]].
    + rewrite Hcalls4, Hcalls3, Hcalls2. rewrite <- !app_assoc. reflexivity.
    + rewrite Hnh4, Hnh3. exact Hnh2.
    + intros H. apply Hrun4, Hrun3, Hrun2, H.
    + right. split; [congruence|]. split; [congruence|].
      intros h. rewrite !closes_app, !loggings_app.
      destruct (quiet_counts h cs1 Hq1) as [-> ->].
      destruct (quiet_counts h _ Hqn) as [-> ->].
      destruct (quiet_counts h cs3 Hq3) as [-> ->].
      destruct (Hcount h) as [-> ->]. rewrite Hh3, Hht. simpl.
      split; reflexivity.
Qed.

Section Race.
Local Open Scope nat_scope.

Lemma holders_snoc (h : nat) (gs : list Goroutine) (g : Goroutine) :
  holders h (gs ++ [g]) = holders h gs + holds h g.
Proof.
  unfold holders. induction gs as [|g0 gs IH]; simpl; [lia|].
  rewrite IH. lia.
Qed.

Lemma holders_insert (h : nat) (gs : list Goroutine) (i : nat)
      (g g' : Goroutine) :
  gs !! i = Some g ->
  holders h (<[i := g']> gs) + holds h g = holders h gs + holds h g'.
Proof.
  unfold holders. revert i. induction gs as [|g0 gs IH]; intros i Hi.
  - discriminate.
  - destruct i as [|i]; simpl in *.
    + inversion Hi; subst. lia.
    + specialize (IH i Hi). lia.
Qed.

Lemma holders_lookup (h : nat) (gs : list Goroutine) (i : nat)
      (g : Goroutine) :
  gs !! i = Some g -> holds h g <= holders h gs.
Proof.
  unfold holders. revert i. induction gs as [|g0 gs IH]; intros i Hi.
  - discriminate.
  - destruct i as [|i]; simpl in *.
    + inversion Hi; subst. lia.
    + specialize (IH i Hi). lia.
Qed.

Lemma TryLock_spec (a a' : Application) (p : nat) (locked : bool) :
  TryLock a p = Ret (a', locked) ->
  exists t, txs a !! p = Some t /\ locked = negb (m t) /\
    a' = if m t then a
         else set_txs (<[p := mkTransaction (tx t) true (request t)]> (txs a))
                      a.
Proof.
  unfold TryLock. destruct (txs a !! p) as [t|]; [|discriminate].
  intros E. exists t. split; [reflexivity|].
  destruct (m t); inversion E; subst; split; reflexivity.
Qed.

Lemma responseLocked_frame (env : Env) (a a' : Application) (p : nat)
      (res : applicationResponse) (err : option HandlerError) :
  responseLocked env a p res = Ret (a', err) ->
  exists t t' cs,
    txs a !! p = Some t /\ tx_handle t' = tx_handle (tx t) /\
    txs a' = <[p := mkTransaction t' (m t) (request t)]> (txs a) /\
    cache a' = cache a /\ next_handle a' = next_handle a /\
    calls a' = calls a ++ cs /\ (store_running a -> store_running a') /\
    forall h,
      closes h cs = (if tx_handle (tx t) =? h then 1 else 0) /\
      loggings h cs = (if tx_handle (tx t) =? h then 1 else 0).
Proof.
  unfold responseLocked. destruct (txs a !! p) as [t|] eqn:Et; [|discriminate].
  intros E.
  set (a1 := if (400 <=? res_Status res)%Z
             then recordError a (getRealClientIP (request t)) else a) in E.
  assert (H1 : exists cs, steps_to a a1 cs /\ quiet cs).
  { unfold a1. destruct (400 <=? res_Status res)%Z.
    - apply recordError_steps.
    - exists []. split; [apply steps_to_refl|constructor]. }
  destruct H1 as (cs1 & (HRC & HTTL & Hcache & Htxs & Hnh & Hre & Hfc & Hip &
                         Hnil & Hrun & Hcalls) & Hq1).
  destruct (responseProcessing a1 (tx t) res) as [[a2 t'] err2] eqn:Eproc.
  destruct (responseProcessing_steps _ _ _ _ _ _ Eproc)
    as (cs2 & (HRC2 & HTTL2 & Hcache2 & Htxs2 & Hnh2 & Hre2 & Hfc2 & Hip2 &
               Hnil2 & Hrun2 & Hcalls2) & Hq2 & Hh2 & _).
  match type of E with
  | context [finalize env ?x _ _ _] => set (a3 := x) in E
  end.
  destruct (finalize env a3 t' (getRealClientIP (request t)) (request t))
    as [a4| |] eqn:Efin; cbn [bind] in E; try discriminate.
  inversion E; subst a' err. clear E.
  destruct (finalize_steps _ _ _ _ _ _ Efin)
    as (cs4 & (HRC4 & HTTL4 & Hcache4 & Htxs4 & Hnh4 & Hre4 & Hfc4 & Hip4 &
               Hnil4 & Hrun4 & Hcalls4) & Hcount).
  exists t, t', (cs1 ++ cs2 ++ cs4).
  split; [reflexivity|]. split; [exact Hh2|].
  split; [rewrite Htxs4; unfold a3; simpl; rewrite Htxs2, Htxs; reflexivity|].
  split; [rewrite Hcache4; unfold a3; simpl; congruence|].
  split; [rewrite Hnh4; unfold a3; simpl; congruence|].
  split.
  { rewrite Hcalls4. unfold a3. simpl. rewrite Hcalls2, Hcalls.
    rewrite <- !app_assoc. reflexivity. }
  split.
  { intros H. apply Hrun4. intros s Hs. unfold a3 in Hs. simpl in Hs.
    apply (Hrun2 (Hrun H) s Hs). }
  intros h. rewrite !closes_app, !loggings_app.
  destruct (quiet_counts h cs1 Hq1) as [-> ->].
  destruct (quiet_counts h cs2 Hq2) as [-> ->].
  destruct (Hcount h) as [-> ->]. rewrite Hh2. simpl. split; reflexivity.
Qed.

Lemma evictionLocked_frame (a a' : Application) (p : nat) :
  evictionLocked a p = Ret a' ->
  exists t cs, txs a !! p = Some t /\ steps_to a a' cs /\
    forall h,
      closes h cs = (if tx_handle (tx t) =? h then 1 else 0) /\
      loggings h cs = (if tx_handle (tx t) =? h then 1 else 0).
Proof.
  unfold evictionLocked. destruct (txs a !! p) as [t|]; [|discriminate].
  intros E. inversion E as [Ea]. clear E.
  exists t, [CallTx (tx_handle (tx t)) ProcessLogging;
             CallTx (tx_handle (tx t)) Close].
  split; [reflexivity|]. split.
  - destruct (es_Close (tx_script (tx t)));
      unfold steps_to; simpl; rewrite <- ?app_assoc; repeat split; auto.
  - intros h. unfold closes, loggings. simpl.
    destruct (tx_handle (tx t) =? h); split; reflexivity.
Qed.

Lemma race_inv_go (a : Application) (gs : list Goroutine) (g : Goroutine) :
  race_inv a gs -> starting g = true -> race_inv a (gs ++ [g]).
Proof.
  intros [Hh Hc Hheld Honce Hfresh Hun] Hs.
  assert (H0 : forall h, holds h g = 0).
  { intros h. destruct g; try discriminate; reflexivity. }
  assert (Hp : pointer_of g = None).
  { destruct g; try discriminate; reflexivity. }
  constructor; try assumption.
  - intros i g0 p Hi Hg0. apply lookup_snoc_Some in Hi as [[_ Hi]|[_ <-]].
    + eapply Hheld; eassumption.
    + congruence.
  - intros h. rewrite holders_snoc, H0, Nat.add_0_r. apply Honce.
  - intros h Hle. rewrite holders_snoc, H0, Nat.add_0_r. apply Hfresh, Hle.
  - intros h t Ht Hm. rewrite holders_snoc, H0, Nat.add_0_r.
    eapply Hun; eassumption.
Qed.

Lemma holders_insert_same (h : nat) (gs : list Goroutine) (i : nat)
      (g g' : Goroutine) :
  gs !! i = Some g -> holds h g' = holds h g ->
  holders h (<[i := g']> gs) = holders h gs.
Proof. intros Hi E. pose proof (holders_insert h gs i g g' Hi). lia. Qed.

(** A step that finalizes nothing and leaves the transaction objects and
    the guards alone. *)
Lemma race_inv_quiet (a a' : Application) (gs : list Goroutine) (i : nat)
      (g g' : Goroutine) (cs : list Call) :
  race_inv a gs -> gs !! i = Some g ->
  txs a' = txs a -> next_handle a' = next_handle a ->
  (forall id p, cache a' !! id = Some p -> is_Some (txs a !! p)) ->
  calls a' = calls a ++ cs -> quiet cs ->
  (forall h, holds h g' = holds h g) ->
  (forall p, pointer_of g' = Some p -> is_Some (txs a !! p)) ->
  race_inv a' (<[i := g']> gs).
Proof.
  intros [Hh Hc Hheld Honce Hfresh Hun] Hi Htxs Hnh Hcache Hcalls Hq Hsame Hp.
  assert (Hcl : forall h, closes h (calls a') = closes h (calls a) /\
                          loggings h (calls a') = loggings h (calls a)).
  { intros h. rewrite Hcalls, closes_app, loggings_app.
    destruct (quiet_counts h cs Hq) as [-> ->]. lia. }
  assert (Hho : forall h, holders h (<[i := g']> gs) = holders h gs).
  { intros h. eapply holders_insert_same; [exact Hi|apply Hsame]. }
  constructor.
  - intros p t. rewrite Htxs, Hnh. apply Hh.
  - intros id p Hl. rewrite Htxs. eapply Hcache, Hl.
  - intros j g0 p Hj Hg0. rewrite Htxs.
    apply list_lookup_insert_Some in Hj as [(_ & <- & _)|[_ Hj]].
    + apply Hp, Hg0.
    + eapply Hheld; eassumption.
  - intros h. destruct (Hcl h) as [-> ->]. rewrite Hho. apply Honce.
  - intros h. destruct (Hcl h) as [-> ->]. rewrite Hho, Hnh. apply Hfresh.
  - intros h t. destruct (Hcl h) as [-> ->]. rewrite Hho, Htxs. apply Hun.
Qed.

(** A successful [TryLock]. *)
Lemma race_inv_lock (a : Application) (gs : list Goroutine) (i : nat)
      (g g' : Goroutine) (p : nat) (t : transaction) :
  race_inv a gs -> gs !! i = Some g ->
  txs a !! p = Some t -> m t = false ->
  (forall h, holds h g = 0) ->
  (forall h, holds h g' = if p =? h then 1 else 0) ->
  pointer_of g' = Some p ->
  race_inv (set_txs (<[p := mkTransaction (tx t) true (request t)]> (txs a)) a)
           (<[i := g']> gs).
Proof.
  intros [Hh Hc Hheld Honce Hfresh Hun] Hi Ht Hm Hg Hg' Hp.
  assert (Hho : forall h, holders h (<[i := g']> gs) =
                          holders h gs + if p =? h then 1 else 0).
  { intros h. pose proof (holders_insert h gs i g g' Hi) as E.
    rewrite Hg, Hg' in E. lia. }
  destruct (Hun p t Ht Hm) as (Hc0 & Hl0 & Hh0).
  constructor; simpl.
  - intros q t0 Hq. destruct (decide (p = q)) as [<-|Hne].
    + rewrite lookup_insert_eq in Hq. inversion Hq; subst; simpl.
      apply (Hh p t Ht).
    + rewrite lookup_insert_ne in Hq by exact Hne. apply (Hh q t0 Hq).
  - intros id q Hq. destruct (decide (p = q)) as [<-|Hne].
    + rewrite lookup_insert_eq. eauto.
    + rewrite lookup_insert_ne by exact Hne. eapply Hc, Hq.
  - intros j g0 q Hj Hg0.
    assert (Hin : is_Some (txs a !! q)).
    { apply list_lookup_insert_Some in Hj as [(_ & <- & _)|[_ Hj]].
      - rewrite Hp in Hg0. inversion Hg0; subst. eauto.
      - eapply Hheld; eassumption. }
    destruct (decide (p = q)) as [<-|Hne].
    + rewrite lookup_insert_eq. eauto.
    + rewrite lookup_insert_ne by exact Hne. exact Hin.
  - intros h. rewrite Hho. destruct (Nat.eqb_spec p h) as [<-|Hne].
    + rewrite Hc0, Hl0, Hh0. lia.
    + rewrite Nat.add_0_r. apply Honce.
  - intros h Hle. rewrite Hho. destruct (Nat.eqb_spec p h) as [<-|Hne].
    + destruct (Hh p t Ht) as [_ Hlt]. lia.
    + rewrite Nat.add_0_r. apply Hfresh, Hle.
  - intros h t0 Hq Hm0. rewrite Hho. destruct (Nat.eqb_spec p h) as [<-|Hne].
    + rewrite lookup_insert_eq in Hq. inversion Hq; subst. discriminate.
    + rewrite lookup_insert_ne in Hq by exact Hne. rewrite Nat.add_0_r.
      eapply Hun; eassumption.
Qed.

(** The holder of the guard finalizes. *)
Lemma race_inv_finalize (a a' : Application) (gs : list Goroutine) (i : nat)
      (g : Goroutine) (p : nat) (t : transaction) (t' : Tx)
      (cs : list Call) (e : option HandlerError) :
  race_inv a gs -> gs !! i = Some g ->
  (forall h, holds h g = if p =? h then 1 else 0) ->
  txs a !! p = Some t -> tx_handle t' = tx_handle (tx t) ->
  txs a' = <[p := mkTransaction t' (m t) (request t)]> (txs a) ->
  cache a' = cache a -> next_handle a' = next_handle a ->
  calls a' = calls a ++ cs ->
  (forall h, closes h cs = (if tx_handle (tx t) =? h then 1 else 0) /\
             loggings h cs = (if tx_handle (tx t) =? h then 1 else 0)) ->
  race_inv a' (<[i := GoDone e]> gs).
Proof.
  intros [Hh Hc Hheld Honce Hfresh Hun] Hi Hg Ht Hh' Htxs Hcache Hnh Hcalls
         Hcount.
  destruct (Hh p t Ht) as [Hpt Hlt]. rewrite Hpt in Hcount.
  assert (Hho : forall h, holders h (<[i := GoDone e]> gs)
                          + (if p =? h then 1 else 0) = holders h gs).
  { intros h. pose proof (holders_insert h gs i g (GoDone e) Hi) as E.
    rewrite Hg in E. simpl in E. lia. }
  assert (Hcl : forall h,
            closes h (calls a') =
              closes h (calls a) + (if p =? h then 1 else 0) /\
            loggings h (calls a') =
              loggings h (calls a) + (if p =? h then 1 else 0)).
  { intros h. rewrite Hcalls, closes_app, loggings_app.
    destruct (Hcount h) as [-> ->]. split; reflexivity. }
  assert (Hmt : m t = true).
  { destruct (m t) eqn:Em; [reflexivity|].
    destruct (Hun p t Ht Em) as (_ & _ & H0).
    specialize (Hho p). rewrite Nat.eqb_refl in Hho. lia. }
  constructor.
  - intros q t0. rewrite Htxs, Hnh. intros Hq.
    destruct (decide (p = q)) as [<-|Hne].
    + rewrite lookup_insert_eq in Hq. inversion Hq; subst; simpl.
      split; [congruence|exact Hlt].
    + rewrite lookup_insert_ne in Hq by exact Hne. apply (Hh q t0 Hq).
  - intros id q. rewrite Hcache, Htxs. intros Hq.
    destruct (decide (p = q)) as [<-|Hne].
    + rewrite lookup_insert_eq. eauto.
    + rewrite lookup_insert_ne by exact Hne. eapply Hc, Hq.
  - intros j g0 q Hj Hg0. rewrite Htxs.
    apply list_lookup_insert_Some in Hj as [(_ & <- & _)|[_ Hj]];
      [discriminate|].
    destruct (decide (p = q)) as [<-|Hne].
    + rewrite lookup_insert_eq. eauto.
    + rewrite lookup_insert_ne by exact Hne. eapply Hheld; eassumption.
  - intros h. destruct (Hcl h) as [-> ->]. specialize (Hho h).
    destruct (Honce h). lia.
  - intros h. rewrite Hnh. intros Hle. destruct (Hcl h) as [-> ->].
    specialize (Hho h). destruct (Hfresh h Hle) as (? & ? & ?).
    destruct (Nat.eqb_spec p h); lia.
  - intros h t0. rewrite Htxs. intros Hq Hm0.
    destruct (Hcl h) as [-> ->]. specialize (Hho h).
    destruct (Nat.eqb_spec p h) as [Eph|Hne].
    + rewrite Eph, lookup_insert_eq in Hq. inversion Hq as [Et0].
      rewrite <- Et0 in Hm0. simpl in Hm0. congruence.
    + rewrite lookup_insert_ne in Hq by exact Hne.
      destruct (Hun h t0 Hq Hm0) as (? & ? & ?). lia.
Qed.

Lemma is_Some_insert (mp : gmap nat transaction) (n q : nat)
      (v : transaction) :
  is_Some (mp !! q) -> is_Some (<[n := v]> mp !! q).
Proof.
  intros H. destruct (decide (n = q)) as [<-|Hne].
  - rewrite lookup_insert_eq. eauto.
  - rewrite lookup_insert_ne by exact Hne. exact H.
Qed.

(** The request handler caches its transaction. *)
Lemma race_inv_cached (a a' : Application) (gs : list Goroutine) (i : nat)
      (g : Goroutine) (t : Tx) (req : option applicationRequest)
      (id : string) (cs : list Call) (e : option HandlerError) :
  race_inv a gs -> gs !! i = Some g -> (forall h, holds h g = 0) ->
  tx_handle t = next_handle a ->
  cache a' = <[id := next_handle a]> (cache a) ->
  txs a' = <[next_handle a := mkTransaction t false req]> (txs a) ->
  next_handle a' = S (next_handle a) ->
  calls a' = calls a ++ cs -> quiet cs ->
  race_inv a' (<[i := GoDone e]> gs).
Proof.
  intros [Hh Hc Hheld Honce Hfresh Hun] Hi Hg Ht Hcache Htxs Hnh Hcalls Hq.
  assert (Hcl : forall h, closes h (calls a') = closes h (calls a) /\
                          loggings h (calls a') = loggings h (calls a)).
  { intros h. rewrite Hcalls, closes_app, loggings_app.
    destruct (quiet_counts h cs Hq) as [-> ->]. lia. }
  assert (Hho : forall h, holders h (<[i := GoDone e]> gs) = holders h gs).
  { intros h. eapply holders_insert_same; [exact Hi|]. rewrite Hg.
    reflexivity. }
  constructor.
  - intros q t0. rewrite Htxs, Hnh. intros Hq0.
    destruct (decide (next_handle a = q)) as [Eq|Hne].
    + rewrite Eq, lookup_insert_eq in Hq0. inversion Hq0; subst; simpl.
      split; [congruence|lia].
    + rewrite lookup_insert_ne in Hq0 by exact Hne.
      destruct (Hh q t0 Hq0). split; [assumption|lia].
  - intros id0 q. rewrite Hcache, Htxs. intros Hq0.
    destruct (decide (id = id0)) as [Eq|Hne].
    + rewrite Eq, lookup_insert_eq in Hq0. inversion Hq0; subst.
      rewrite lookup_insert_eq. eauto.
    + rewrite lookup_insert_ne in Hq0 by exact Hne.
      apply is_Some_insert. eapply Hc, Hq0.
  - intros j g0 q Hj Hg0. rewrite Htxs. apply is_Some_insert.
    apply list_lookup_insert_Some in Hj as [(_ & <- & _)|[_ Hj]];
      [discriminate|].
    eapply Hheld; eassumption.
  - intros h. destruct (Hcl h) as [-> ->]. rewrite Hho. apply Honce.
  - intros h. destruct (Hcl h) as [-> ->]. rewrite Hho, Hnh. intros Hle.
    apply Hfresh. lia.
  - intros h t0. destruct (Hcl h) as [-> ->]. rewrite Hho, Htxs.
    intros Hq0 Hm0. destruct (decide (next_handle a = h)) as [Eq|Hne].
    + apply Hfresh. lia.
    + rewrite lookup_insert_ne in Hq0 by exact Hne. eapply Hun; eassumption.
Qed.

(** The request handler finalizes its transaction itself. *)
Lemma race_inv_direct (a a' : Application) (gs : list Goroutine) (i : nat)
      (g : Goroutine) (cs : list Call) (e : option HandlerError) :
  race_inv a gs -> gs !! i = Some g -> (forall h, holds h g = 0) ->
  cache a' = cache a -> txs a' = txs a ->
  next_handle a' = S (next_handle a) ->
  calls a' = calls a ++ cs ->
  (forall h, closes h cs = (if next_handle a =? h then 1 else 0) /\
             loggings h cs = (if next_handle a =? h then 1 else 0)) ->
  race_inv a' (<[i := GoDone e]> gs).
Proof.
  intros [Hh Hc Hheld Honce Hfresh Hun] Hi Hg Hcache Htxs Hnh Hcalls Hcount.
  assert (Hcl : forall h,
            closes h (calls a') =
              closes h (calls a) + (if next_handle a =? h then 1 else 0) /\
            loggings h (calls a') =
              loggings h (calls a) + (if next_handle a =? h then 1 else 0)).
  { intros h. rewrite Hcalls, closes_app, loggings_app.
    destruct (Hcount h) as [-> ->]. split; reflexivity. }
  assert (Hho : forall h, holders h (<[i := GoDone e]> gs) = holders h gs).
  { intros h. eapply holders_insert_same; [exact Hi|]. rewrite Hg.
    reflexivity. }
  constructor.
  - intros q t0. rewrite Htxs, Hnh. intros Hq0.
    destruct (Hh q t0 Hq0). split; [assumption|lia].
  - intros id0 q. rewrite Hcache, Htxs. apply Hc.
  - intros j g0 q Hj Hg0. rewrite Htxs.
    apply list_lookup_insert_Some in Hj as [(_ & <- & _)|[_ Hj]];
      [discriminate|].
    eapply Hheld; eassumption.
  - intros h. destruct (Hcl h) as [-> ->]. rewrite Hho.
    destruct (Nat.eqb_spec (next_handle a) h) as [Eq|Hne].
    + destruct (Hfresh h) as (-> & -> & ->); [lia|]. lia.
    + rewrite !Nat.add_0_r. apply Honce.
  - intros h. destruct (Hcl h) as [-> ->]. rewrite Hho, Hnh. intros Hle.
    destruct (Nat.eqb_spec (next_handle a) h) as [Eq|Hne]; [lia|].
    rewrite !Nat.add_0_r. apply Hfresh. lia.
  - intros h t0. destruct (Hcl h) as [-> ->]. rewrite Hho, Htxs.
    intros Hq0 Hm0. destruct (Hh h t0 Hq0) as [_ Hlt].
    destruct (Nat.eqb_spec (next_handle a) h) as [Eq|Hne]; [lia|].
    rewrite !Nat.add_0_r. eapply Hun; eassumption.
Qed.

Lemma initial_inv (a : Application) : initial a -> race_inv a [].
Proof.
  intros (Hc & Ht & Hcalls). constructor.
  - intros p t. rewrite Ht, lookup_empty. discriminate.
  - intros id p. rewrite Hc, lookup_empty. discriminate.
  - intros i g p. rewrite lookup_nil. discriminate.
  - intros h. rewrite Hcalls. simpl. lia.
  - intros h _. rewrite Hcalls. repeat split; reflexivity.
  - intros h t. rewrite Ht, lookup_empty. discriminate.
Qed.

(** A step that calls nothing. *)
Lemma race_inv_silent (a a' : Application) (gs : list Goroutine) (i : nat)
      (g g' : Goroutine) :
  race_inv a gs -> gs !! i = Some g ->
  txs a' = txs a -> next_handle a' = next_handle a ->
  (forall id p, cache a' !! id = Some p -> cache a !! id = Some p) ->
  calls a' = calls a ->
  (forall h, holds h g' = holds h g) ->
  (forall p, pointer_of g' = Some p -> is_Some (txs a !! p)) ->
  race_inv a' (<[i := g']> gs).
Proof.
  intros Hinv Hi Htxs Hnh Hcache Hcalls Hsame Hp.
  apply (race_inv_quiet a a' gs i g g' []); try assumption.
  - intros id p Hl. eapply (inv_cache _ _ Hinv), Hcache, Hl.
  - rewrite app_nil_r. exact Hcalls.
  - constructor.
Qed.

Ltac silent Hinv Hi :=
  eapply race_inv_silent;
  [exact Hinv|exact Hi|reflexivity|reflexivity| | reflexivity
   |intros; reflexivity| ].

Lemma race_inv_step (env : Env) (a a' : Application) (gs : list Goroutine)
      (i : nat) (g g' : Goroutine) :
  race_inv a gs -> gs !! i = Some g -> go_step env a g = Ret (a', g') ->
  race_inv a' (<[i := g']> gs).
Proof.
  intros Hinv Hi E. destruct g as [message|res|res p|res p|res p|id|p|p|e];
    cbn [go_step] in E.
  - (* the request handler *)
    destruct (HandleRequest env a message) as [[[a1 w] err]| |] eqn:EH;
      cbn [bind] in E; try discriminate.
    inversion E; subst a' g'. clear E.
    destruct (HandleRequest_frame _ _ _ _ _ _ EH)
      as [(cs & Hst & Hq)
         |(cs & Hcalls & Hnh & _ &
           [(Hq & t & req & Ht & Hc & Htx)|(Hc & Htx & Hcount)])].
    + destruct Hst as (_ & _ & Hcache & Htxs & Hnh & _ & _ & _ & _ & _ &
                       Hcalls).
      eapply race_inv_quiet; try eassumption.
      * intros id p. rewrite Hcache. apply (inv_cache _ _ Hinv).
      * intros h. reflexivity.
      * discriminate.
    + eapply race_inv_cached; try eassumption. intros h. reflexivity.
    + eapply race_inv_direct; try eassumption. intros h. reflexivity.
  - (* the response handler looks the entry up *)
    destruct (negb (ResponseCheck a)).
    { inversion E; subst. silent Hinv Hi; [auto|discriminate]. }
    destruct (is_empty (res_ID res)).
    { inversion E; subst. silent Hinv Hi; [auto|discriminate]. }
    unfold responseLookup in E.
    destruct (cache a !! res_ID res) as [p|] eqn:Ec; inversion E; subst.
    + silent Hinv Hi; [auto|].
      intros q Hq. inversion Hq; subst. eapply (inv_cache _ _ Hinv), Ec.
    + silent Hinv Hi; [auto|discriminate].
  - (* ... removes it *)
    inversion E; subst. silent Hinv Hi.
    + intros id q Hq. simpl in Hq. apply lookup_delete_Some in Hq as [_ Hq].
      exact Hq.
    + intros q Hq. inversion Hq; subst.
      apply (inv_held _ _ Hinv i _ _ Hi eq_refl).
  - (* ... tries the guard *)
    destruct (TryLock a p) as [[a1 locked]| |] eqn:EL; cbn [bind] in E;
      try discriminate.
    apply TryLock_spec in EL as (t & Ht & -> & ->).
    destruct (m t) eqn:Em; cbn [negb] in E; inversion E; subst.
    + silent Hinv Hi; [auto|discriminate].
    + eapply race_inv_lock; try eassumption; intros; reflexivity.
  - (* ... and finalizes *)
    destruct (responseLocked env a p res) as [[a1 err]| |] eqn:ER;
      cbn [bind] in E; try discriminate.
    inversion E; subst a' g'. clear E.
    apply responseLocked_frame in ER
      as (t & t' & cs & Ht & Hh & Htxs & Hcache & Hnh & Hcalls & _ & Hcount).
    eapply race_inv_finalize; try eassumption. intros h. reflexivity.
  - (* the sweep takes the entry out *)
    unfold evictTake in E.
    destruct (cache a !! id) as [p|] eqn:Ec; inversion E; subst.
    + silent Hinv Hi.
      * intros id0 q Hq. simpl in Hq.
        apply lookup_delete_Some in Hq as [_ Hq]. exact Hq.
      * intros q Hq. inversion Hq; subst. eapply (inv_cache _ _ Hinv), Ec.
    + silent Hinv Hi; [auto|discriminate].
  - (* the callback tries the guard *)
    destruct (txs a !! p) as [t0|] eqn:Et0; [|discriminate].
    destruct (TryLock a p) as [[a1 locked]| |] eqn:EL; cbn [bind] in E;
      try discriminate.
    apply TryLock_spec in EL as (t & Ht & -> & ->).
    destruct (m t) eqn:Em; cbn [negb] in E; inversion E; subst.
    + silent Hinv Hi; [auto|discriminate].
    + eapply race_inv_lock; try eassumption; intros; reflexivity.
  - (* ... and finalizes *)
    destruct (evictionLocked a p) as [a1| |] eqn:EE; cbn [bind] in E;
      try discriminate.
    inversion E; subst a' g'. clear E.
    apply evictionLocked_frame in EE as (t & cs & Ht & Hst & Hcount).
    destruct Hst as (_ & _ & Hcache & Htxs & Hnh & _ & _ & _ & _ & _ & Hcalls).
    eapply (race_inv_finalize a a1 gs i _ p t (tx t)); try eassumption.
    + intros h. reflexivity.
    + reflexivity.
    + rewrite Htxs. destruct t as [tt mt rt]. simpl.
      symmetry. apply insert_id. exact Ht.
  - inversion E; subst. silent Hinv Hi; [auto|discriminate].
Qed.

Lemma reachable_inv (a0 : Application) (s : System) :
  initial a0 -> reachable a0 s -> race_inv (fst s) (snd s).
Proof.
  intros H0 Hr. induction Hr as [|s s' Hr IH Hstep].
  - apply initial_inv, H0.
  - destruct Hstep as [a gs g Hs|env a a' gs i g g' Hi E]; simpl in *.
    + apply race_inv_go; assumption.
    + eapply race_inv_step; eassumption.
Qed.

Lemma schedule_reachable (env : Env) (a0 : Application) (xs : list Action) :
  forall s s', reachable a0 s -> schedule env s xs = Some s' ->
               reachable a0 s'.
Proof.
  induction xs as [|x xs IH]; intros s s' Hr E; simpl in E.
  - inversion E; subst. exact Hr.
  - destruct (sched_step env s x) as [s1|] eqn:E1; [|discriminate].
    apply (IH s1 s'); [|exact E].
    apply (reach_step a0 s s1 Hr).
    destruct s as [a gs]. destruct x as [g|i]; simpl in E1.
    + destruct (starting g) eqn:Es; inversion E1; subst.
      apply step_go, Es.
    + destruct (gs !! i) as [g|] eqn:Ei; [|discriminate].
      destruct (go_step env a g) as [[a' g']| |] eqn:Eg; inversion E1; subst.
      eapply step_run; eassumption.
Qed.

End Race.

(** Run with nobody in between, the steps of a goroutine make up the
    handler they were cut from. *)
Lemma HandleResponse_alone (env : Env) (a : Application)
      (res : applicationResponse) :
  run_alone env 4 a (GoResponse res) = HandleResponse env a res.
Proof.
  unfold HandleResponse. cbn [run_alone go_step].
  destruct (negb (ResponseCheck a)); [reflexivity|].
  destruct (is_empty (res_ID res)); [reflexivity|].
  destruct (responseLookup a res) as [a1 [p|]]; [|reflexivity].
  cbn [bind run_alone go_step]. unfold responseFound.
  destruct (TryLock (responseRemove a1 res) p) as [[a2 locked]| |];
    [|reflexivity|reflexivity].
  cbn [bind]. destruct locked; cbn [negb bind run_alone go_step];
    [|reflexivity].
  destruct (responseLocked env a2 p res) as [[a3 err]| |]; reflexivity.
Qed.

Lemma evictEntry_alone (env : Env) (a : Application) (id : string) :
  run_alone env 3 a (GoEvict id) = (a' <- evictEntry a id ;; Ret (a', None)).
Proof.
  unfold evictEntry. cbn [run_alone go_step].
  destruct (evictTake a id) as [a1 [p|]]; [|reflexivity].
  cbn [bind run_alone go_step]. unfold evictionCallback.
  destruct (txs a1 !! p) as [t|]; [|reflexivity].
  destruct (TryLock a1 p) as [[a2 locked]| |]; [|reflexivity|reflexivity].
  cbn [bind]. destruct locked; cbn [negb bind run_alone go_step];
    [|reflexivity].
  destruct (evictionLocked a2 p) as [a3| |]; reflexivity.
Qed.

Lemma HandleRequest_alone (env : Env) (a : Application)
      (message : applicationRequest) :
  run_alone env 1 a (GoRequest message) =
  (let* (a', _, err) := HandleRequest env a message in Ret (a', err)).
Proof.
  cbn [run_alone go_step].
  destruct (HandleRequest env a message) as [[[a1 w] err]| |]; reflexivity.
Qed.

(** C1.  From the application as it is created, however the request
    handlers, the response handlers and the sweep of the cache interleave:
    the logging hook and the release of a transaction are each called at
    most once; at most one goroutine holds the finalization guard of a
    transaction, and none does once the transaction is finalized; and a
    cached transaction whose guard is free has not been finalized. *)
Theorem C1_finalized_at_most_once (a0 : Application) (s : System) :
  initial a0 -> reachable a0 s ->
  (forall h, (closes h (calls (fst s)) <= 1)%nat /\
             (loggings h (calls (fst s)) <= 1)%nat) /\
  (forall h, (closes h (calls (fst s)) + holders h (snd s) <= 1)%nat /\
             (loggings h (calls (fst s)) + holders h (snd s) <= 1)%nat) /\
  (forall h t, txs (fst s) !! h = Some t -> m t = false ->
               closes h (calls (fst s)) = 0%nat /\
               loggings h (calls (fst s)) = 0%nat /\
               holders h (snd s) = 0%nat).
Proof.
  intros H0 Hr. pose proof (reachable_inv a0 s H0 Hr) as Hinv.
  split; [|split].
  - intros h. destruct (inv_once _ _ Hinv h). split; lia.
  - apply (inv_once _ _ Hinv).
  - apply (inv_unlocked _ _ Hinv).
Qed.

Lemma sample_app_initial : initial sample_app.
Proof. repeat split. Qed.

Lemma race_end_reachable : reachable sample_app race_end.
Proof.
  apply (schedule_reachable sample_env sample_app race_schedule
           (sample_app, [])).
  - apply reach_initial.
  - vm_compute. reflexivity.
Qed.

Lemma C1_finalized_at_most_once_witness :
  initial sample_app /\ reachable sample_app race_end /\
  (forall h, (closes h (calls (fst race_end)) <= 1)%nat /\
             (loggings h (calls (fst race_end)) <= 1)%nat).
Proof.
  split; [exact sample_app_initial|]. split; [exact race_end_reachable|].
  exact (proj1 (C1_finalized_at_most_once sample_app race_end
                  sample_app_initial race_end_reachable)).
Defined.

(** The race of the witness: the sweep finalizes the transaction, once;
    the response handler, which found the entry first, loses the guard. *)
Example race_end_outcome :
  closes 0 (calls (fst race_end)) = 1%nat /\
  loggings 0 (calls (fst race_end)) = 1%nat /\
  snd race_end =
    [GoDone None;
     GoDone (Some (ErrAlreadyBeingDeleted "TXPLAIN000000001"));
     GoDone None] /\
  map_to_list (cache (fst race_end)) = [].
Proof. vm_compute. repeat split. Qed.

(* ===================================================================== *)
(** * The ban registry: further properties *)
(* ===================================================================== *)

Lemma popExpired_capacity (guard : MemoryIPRecorder -> bool) (now : Time) :
  forall (fuel : nat) (r r' : MemoryIPRecorder),
  popExpired fuel guard now r = Ret r' -> capacity r' = capacity r.
Proof.
  induction fuel as [|fuel IH]; intros r r' E; simpl in E; [discriminate|].
  destruct ((0 <? IPExpiryHeapM.Len (expiryHeap r)) && guard r);
    [|inversion E; reflexivity].
  destruct (IPExpiryHeapM.Peek (expiryHeap r)) as [item|]; [|discriminate].
  destruct (deref (objs (expiryHeap r)) item) as [it| |]; cbn [bind] in E;
    try discriminate.
  destruct (Time_After (expiresAt it) now); [inversion E; reflexivity|].
  destruct (heap.Pop (expiryHeap r)) as [[l h']| |]; cbn [bind] in E;
    try discriminate.
  destruct (deref (objs h') item) as [it'| |]; cbn [bind] in E;
    try discriminate.
  apply IH in E. exact E.
Qed.

Lemma cleanupExpired_capacity (now : Time) (r r' : MemoryIPRecorder) :
  cleanupExpired now r = Ret r' -> capacity r' = capacity r.
Proof.
  unfold cleanupExpired. intros E.
  destruct (popExpired (pop_budget (set_toDelete [] r)) (fun _ => true) now
              (set_toDelete [] r)) as [r1| |] eqn:Ep; cbn [bind] in E;
    try discriminate.
  apply popExpired_capacity in Ep. simpl in Ep.
  destruct (delete_all_fields (toDelete r1) r1) as (_ & _ & _ & Fc & _).
  destruct (0 <? Z.of_nat (length (toDelete r1))); inversion E; subst; simpl;
    congruence.
Qed.

Lemma RecordBlockedIP_capacity (now now1 : Time) (r r' : MemoryIPRecorder)
      (i reason : string) (d : Duration) (err : error) :
  recorder_wf r -> RecordBlockedIP now now1 r i reason d = Ret (r', err) ->
  capacity r' = capacity r.
Proof.
  intros Hwf E. destruct (expiryItems r !! i) as [l|] eqn:El.
  - destruct (RecordBlockedIP_existing now now1 r i reason d l Hwf El)
      as (r2 & it2 & E2 & _ & _ & _ & _ & _ & _ & _ & _ & _ & Hc & _).
    rewrite E2 in E. inversion E; subst. exact Hc.
  - destruct (RecordBlockedIP_new now now1 r i reason d Hwf El)
      as (r1 & r2 & _ & E2 & _ & _ & _ & _ & Hc).
    rewrite E2 in E. inversion E; subst. exact Hc.
Qed.

Lemma apply_op_capacity (op : RegistryOp) (r : MemoryIPRecorder) :
  recorder_wf r ->
  exists r', apply_op r op = Ret r' /\ recorder_wf r' /\
             capacity r' = capacity r.
Proof.
  intros Hwf. destruct op as [now now1 i reason d|now]; simpl.
  - destruct (RecordBlockedIP_wf now now1 r i reason d Hwf)
      as (r1 & E & Hwf1).
    pose proof (RecordBlockedIP_capacity _ _ _ _ _ _ _ _ Hwf E) as Hc.
    rewrite E. cbn [bind]. eauto.
  - destruct (cleanupExpired_wf now r Hwf) as (r1 & E & Hwf1 & _).
    pose proof (cleanupExpired_capacity _ _ _ E) as Hc. eauto.
Qed.

Lemma run_ops_capacity (ops : list RegistryOp) :
  forall r, recorder_wf r ->
  exists r', run_ops r ops = Ret r' /\ recorder_wf r' /\
             capacity r' = capacity r.
Proof.
  induction ops as [|op ops IH]; intros r Hwf; simpl; [eauto|].
  destruct (apply_op_capacity op r Hwf) as (r1 & E & Hwf1 & Hc).
  rewrite E. cbn [bind].
  destruct (IH r1 Hwf1) as (r' & E' & Hwf' & Hc').
  exists r'. split; [exact E'|]. split; [exact Hwf'|congruence].
Qed.




(** A second constructor call asking for another capacity changes
    nothing: the registry keeps capacity 3 and the ban made before. *)
Example second_constructor_call :
  (st <- process_run None
           [PNew 3; POp (OpBan 100 100 "203.0.113.7" "bruteforce" 50);
            PNew 50000] ;;
   Ret (match st with
        | Some r => Some (capacity r, blockedIPs r !! "203.0.113.7")
        | None => None
        end))
  = Ret (Some (3, Some (mkBlocked "203.0.113.7" "bruteforce" 100 150))).
Proof. vm_compute. reflexivity. Qed.

(** X2. A ban can be looked up: after [RecordBlockedIP] of an IP, whether
    the IP was already banned or not and whatever had to be evicted,
    [IsIPBlocked] answers with the new record (reason, time of the ban and
    expiry) up to and including the expiry, and with "not blocked" after
    it. *)
Theorem X2_ban_then_blocked (now now1 : Time) (r : MemoryIPRecorder)
        (i reason : string) (d : Duration) :
  recorder_wf r -> 0 < now + d ->
  exists r',
    RecordBlockedIP now now1 r i reason d = Ret (r', None) /\
    (forall now', now' <= now + d ->
       IsIPBlocked now' r' i =
         (true, Some (mkBlocked i reason now (now + d)))) /\
    (forall now', now + d < now' -> IsIPBlocked now' r' i = (false, None)).
Proof.
  intros Hwf Hpos.
  assert (H : exists r',
                RecordBlockedIP now now1 r i reason d = Ret (r', None) /\
                blockedIPs r' !! i = Some (mkBlocked i reason now (now + d))).
  { destruct (expiryItems r !! i) as [l|] eqn:El.
    - destruct (RecordBlockedIP_existing now now1 r i reason d l Hwf El)
        as (r' & it' & E & _ & Hb & _).
      exists r'. split; [exact E|]. rewrite Hb. apply lookup_insert_eq.
    - destruct (RecordBlockedIP_new now now1 r i reason d Hwf El)
        as (r1 & r' & _ & E & _ & Hb & _).
      exists r'. split; [exact E|]. rewrite Hb. apply lookup_insert_eq. }
  destruct H as (r' & E & Hrec). exists r'. split; [exact E|].
  unfold IsIPBlocked, Time_IsZero, Time_After. rewrite Hrec. simpl.
  split; intros now' Hn.
  - destruct (Z.eqb_spec (now + d) 0); [lia|].
    destruct (Z.ltb_spec (now + d) now'); [lia|reflexivity].
  - destruct (Z.ltb_spec (now + d) now'); [|lia].
    rewrite orb_true_r. reflexivity.
Qed.

Lemma X2_ban_then_blocked_witness :
  exists r',
    RecordBlockedIP 110 111 full_registry "192.0.2.33" "again" 40
      = Ret (r', None) /\
    IsIPBlocked 150 r' "192.0.2.33"
      = (true, Some (mkBlocked "192.0.2.33" "again" 110 150)) /\
    IsIPBlocked 151 r' "192.0.2.33" = (false, None).
Proof.
  destruct (X2_ban_then_blocked 110 111 full_registry "192.0.2.33" "again" 40
              full_registry_wf ltac:(lia)) as (r' & E & Hin & Hout).
  exists r'. split; [exact E|]. split.
  - apply Hin. lia.
  - apply Hout. lia.
Defined.

(** X3. [cleanupExpired] removes exactly the records that have expired: a
    record is kept, unchanged, when its expiry is after the clock reading
    of the sweep, and removed otherwise (a record expiring at that very
    instant is removed). *)
Theorem X3_cleanup_removes_exactly_expired (now : Time)
        (r : MemoryIPRecorder) :
  recorder_wf r ->
  exists r', cleanupExpired now r = Ret r' /\ recorder_wf r' /\
    forall y, blockedIPs r' !! y =
      match blockedIPs r !! y with
      | Some record =>
          if Time_After (BlockedUntil record) now then Some record else None
      | None => None
      end.
Proof.
  intros Hwf.
  destruct (cleanupExpired_wf now r Hwf)
    as (r' & E & Hwf' & Hb & Hexp & Hrest).
  exists r'. split; [exact E|]. split; [exact Hwf'|].
  intros y. destruct (blockedIPs r' !! y) as [rec'|] eqn:Ey.
  - pose proof Ey as Ey'. rewrite Hb in Ey'.
    apply lookup_del_keys in Ey' as [_ Hy]. rewrite Hy.
    rewrite (Hrest y rec' Ey). reflexivity.
  - destruct (blockedIPs r !! y) as [record|] eqn:Hy; [|reflexivity].
    destruct (Time_After (BlockedUntil record) now) eqn:Ea; [|reflexivity].
    assert (Hny : y ∉ toDelete r').
    { intros Hin. rewrite Forall_forall in Hexp.
      specialize (Hexp y Hin).
      unfold expired_at, until_of in Hexp. rewrite Hy in Hexp. congruence. }
    assert (H : del_keys (toDelete r') (blockedIPs r) !! y = Some record)
      by (apply lookup_del_keys; split; assumption).
    rewrite <- Hb in H. congruence.
Qed.

Lemma X3_cleanup_removes_exactly_expired_witness :
  exists r', cleanupExpired 132 full_registry = Ret r' /\
    blockedIPs r' !! "203.0.113.7"
      = Some (mkBlocked "203.0.113.7" "bruteforce" 100 150) /\
    blockedIPs r' !! "192.0.2.33" = None /\
    blockedIPs r' !! "198.51.100.4" = None.
Proof.
  destruct (X3_cleanup_removes_exactly_expired 132 full_registry
              full_registry_wf) as (r' & E & _ & H).
  exists r'. split; [exact E|].
  split; [|split]; rewrite H; vm_compute; reflexivity.
Defined.
(** X4. Banning an IP that has no record, in a registry with room, adds
    the record and nothing else: every other record is as before, the
    count grows by one, and one entry is written to the log. *)
Theorem X4_new_ban_with_room (now now1 : Time) (r : MemoryIPRecorder)
        (i reason : string) (d : Duration) :
  recorder_wf r -> blockedIPs r !! i = None -> len_blocked r < capacity r ->
  exists r',
    RecordBlockedIP now now1 r i reason d = Ret (r', None) /\
    blockedIPs r' = <[i := mkBlocked i reason now (now + d)]> (blockedIPs r) /\
    len_blocked r' = len_blocked r + 1 /\
    logger r' = logger r ++ [(LInfo, MsgBanned i reason (now + d))].
Proof.
  intros Hwf Hnew Hroom.
  assert (El : expiryItems r !! i = None).
  { destruct (expiryItems r !! i) as [l|] eqn:El; [|reflexivity].
    destruct (wf_banned r Hwf i l El) as [record Hrec]. congruence. }
  assert (Ecap : ensureCapacity now1 r = Ret r).
  { unfold ensureCapacity.
    destruct (Z.ltb_spec (len_blocked r) (capacity r)); [reflexivity|lia]. }
  destruct (RecordBlockedIP_new now now1 r i reason d Hwf El)
    as (r1 & r' & E1 & E & _ & Hb & _ & Hlen & _).
  rewrite Ecap in E1. inversion E1; subst r1.
  exists r'. split; [exact E|]. split; [exact Hb|]. split; [exact Hlen|].
  unfold RecordBlockedIP in E. rewrite El, Ecap in E. cbn [bind] in E.
  destruct (heap.Push _ _) as [h| |]; cbn [bind] in E; try discriminate.
  inversion E; subst r'. reflexivity.
Qed.

Lemma X4_new_ban_with_room_witness :
  exists r',
    RecordBlockedIP 100 101 empty_registry "203.0.113.7" "bruteforce" 50
      = Ret (r', None) /\
    blockedIPs r' =
      <[ "203.0.113.7" := mkBlocked "203.0.113.7" "bruteforce" 100 150 ]>
        (blockedIPs empty_registry) /\
    len_blocked r' = len_blocked empty_registry + 1 /\
    logger r' = logger empty_registry
                  ++ [(LInfo, MsgBanned "203.0.113.7" "bruteforce" 150)].
Proof.
  apply (X4_new_ban_with_room 100 101 empty_registry "203.0.113.7"
           "bruteforce" 50).
  - destruct (registry_of_wf 3 []) as (r & E & Hwf).
    vm_compute in E. inversion E; subst. exact Hwf.
  - reflexivity.
  - vm_compute. reflexivity.
Defined.

(** X5. [GetBlockedIPs] returns, without an error, exactly the records
    whose expiry is strictly after the clock.  At the instant of its expiry
    a record is therefore still reported as blocked by [IsIPBlocked] while
    [GetBlockedIPs] no longer lists it. *)
Theorem X5_listed_iff_unexpired (now : Time) (r : MemoryIPRecorder) :
  snd (GetBlockedIPs now r) = None /\
  (forall record,
     record ∈ fst (GetBlockedIPs now r) <->
     exists i, blockedIPs r !! i = Some record /\ now < BlockedUntil record) /\
  (forall i record,
     blockedIPs r !! i = Some record -> BlockedUntil record = now ->
     now <> 0 ->
     IsIPBlocked now r i = (true, Some record) /\
     record ∉ fst (GetBlockedIPs now r)).
Proof.
  assert (Hin : forall record,
     record ∈ fst (GetBlockedIPs now r) <->
     exists i, blockedIPs r !! i = Some record /\ now < BlockedUntil record).
  { intros record. unfold GetBlockedIPs, Time_Before. simpl.
    rewrite list_elem_of_In, List.filter_In, <- list_elem_of_In,
      list_elem_of_fmap.
    split.
    - intros [[[i rec] [-> Hi]] Hlt]. simpl in *.
      apply elem_of_map_to_list in Hi. exists i. split; [exact Hi|lia].
    - intros (i & Hi & Hlt). split.
      + exists (i, record). split; [reflexivity|].
        apply elem_of_map_to_list. exact Hi.
      + lia. }
  split; [reflexivity|]. split; [exact Hin|].
  intros i record Hrec Hnow Hnz. split.
  - unfold IsIPBlocked, Time_IsZero, Time_After. rewrite Hrec, Hnow.
    destruct (Z.eqb_spec now 0); [contradiction|].
    rewrite Z.ltb_irrefl. reflexivity.
  - rewrite Hin. intros (j & _ & Hlt). lia.
Qed.

Lemma X5_listed_iff_unexpired_witness :
  IsIPBlocked 150 full_registry "203.0.113.7"
    = (true, Some (mkBlocked "203.0.113.7" "bruteforce" 100 150)) /\
  mkBlocked "203.0.113.7" "bruteforce" 100 150
    ∉ fst (GetBlockedIPs 150 full_registry).
Proof.
  apply (proj2 (proj2 (X5_listed_iff_unexpired 150 full_registry))
           "203.0.113.7").
  - vm_compute. reflexivity.
  - reflexivity.
  - discriminate.
Defined.

(* ===================================================================== *)
(** * The expiry heap: further properties *)
(* ===================================================================== *)

(** X6. On a well-formed, non-empty heap [heap.Pop] returns the item that
    [Peek] shows, and no item of the heap expires before it; what is left
    is a well-formed heap (min-heap order on the expiry, every item
    recording its own position) holding the other items, with their IPs
    and expiries untouched. *)
Theorem X6_heap_pop_earliest (h : IPExpiryHeap) :
  heap_wf h -> 0 < IPExpiryHeapM.Len h ->
  exists l h', heap.Pop h = Ret (l, h') /\
    IPExpiryHeapM.Peek h = Some l /\
    (forall x, x ∈ slice h -> expiry_of h l <= expiry_of h x) /\
    heap_wf h' /\ same_data h h' /\
    IPExpiryHeapM.Len h' = IPExpiryHeapM.Len h - 1 /\
    (l ∉ slice h') /\
    (forall x, x ∈ slice h <-> x = l \/ x ∈ slice h').
Proof.
  intros Hwf Hlen.
  destruct (heap_Pop_spec h Hwf Hlen)
    as (l & h' & E & Hroot & Hwf' & Hsd & Hlen' & Hel & Hnot & Hmin).
  exists l, h'. split; [exact E|]. split.
  - unfold IPExpiryHeapM.Peek.
    destruct (Z.eqb_spec (IPExpiryHeapM.Len h) 0); [lia|]. exact Hroot.
  - auto 10.
Qed.

Lemma X6_heap_pop_earliest_witness :
  exists l h', heap.Pop (expiryHeap full_registry) = Ret (l, h') /\
    IPExpiryHeapM.Peek (expiryHeap full_registry) = Some l /\
    (forall x, x ∈ slice (expiryHeap full_registry) ->
       expiry_of (expiryHeap full_registry) l
       <= expiry_of (expiryHeap full_registry) x) /\
    heap_wf h'.
Proof.
  destruct (X6_heap_pop_earliest (expiryHeap full_registry))
    as (l & h' & E & Hp & Hmin & Hwf & _).
  - apply (wf_heap _ full_registry_wf).
  - vm_compute. reflexivity.
  - exists l, h'. auto.
Defined.

Example heap_pop_sample :
  (let* (l, h') := heap.Pop (expiryHeap full_registry) in
   Ret (l, slice h', snd <$> map_to_list (objs h')))
  = Ret (1%nat, [2%nat; 0%nat],
         [mkItem "192.0.2.33" 132 0; mkItem "198.51.100.4" 111 (-1);
          mkItem "203.0.113.7" 150 1]).
Proof. vm_compute. reflexivity. Qed.

(** X7. [heap.Push] of a new item and [IPExpiryHeap.Update] of an item of
    the heap keep the heap well formed (min-heap order on the expiry,
    every item recording its own position, no pointer twice).  Push adds
    the new pointer and nothing else; Update keeps the pointers, gives the
    item its new expiry and leaves the IP and expiry of every other item
    alone. *)
Theorem X7_heap_push_update_keep_order (h : IPExpiryHeap) (x : loc) :
  heap_wf h ->
  (forall it, objs h !! x = Some it -> x ∉ slice h ->
     exists h', heap.Push h x = Ret h' /\ heap_wf h' /\ same_data h h' /\
       IPExpiryHeapM.Len h' = IPExpiryHeapM.Len h + 1 /\
       (forall l, l ∈ slice h' <-> l = x \/ l ∈ slice h)) /\
  (forall t, x ∈ slice h ->
     exists h', IPExpiryHeap_Update h x t = Ret h' /\ heap_wf h' /\
       IPExpiryHeapM.Len h' = IPExpiryHeapM.Len h /\
       (forall l, l ∈ slice h' <-> l ∈ slice h) /\
       expiry_of h' x = t /\
       (forall l, l <> x ->
          item_data <$> objs h' !! l = item_data <$> objs h !! l)).
Proof.
  intros Hwf. split.
  - intros it Hit Hx. apply (heap_Push_spec h x it Hwf Hit Hx).
  - intros t Hx.
    destruct (IPExpiryHeap_Update_spec h x t Hwf Hx)
      as (h' & it & it' & E & Hwf' & Hlen & Hel & Hrest & _ & Hit' & _ & Ht).
    exists h'. split; [exact E|]. split; [exact Hwf'|].
    split; [exact Hlen|]. split; [exact Hel|]. split; [|exact Hrest].
    unfold expiry_of. rewrite Hit'. exact Ht.
Qed.

Lemma heap_wf_no_items (o : gmap loc IPExpiryItem) : heap_wf (mkHeap [] o).
Proof.
  split; [split|].
  - constructor.
  - simpl. intros k l Hk. unfold pos_get in Hk.
    destruct (k <? 0); [discriminate|]. rewrite lookup_nil in Hk.
    discriminate.
  - intros c Hc. unfold IPExpiryHeapM.Len in Hc. simpl in Hc. lia.
Qed.

Lemma X7_heap_push_update_keep_order_witness :
  (exists h', heap.Push (mkHeap [] {[ 0%nat := mkItem "192.0.2.33" 132 0 ]})
                        0%nat = Ret h' /\ heap_wf h' /\
     forall l, l ∈ slice h' <-> l = 0%nat \/ l ∈ []) /\
  (exists h', IPExpiryHeap_Update (expiryHeap full_registry) 1%nat 200
              = Ret h' /\ heap_wf h' /\ expiry_of h' 1%nat = 200).
Proof.
  split.
  - destruct (proj1 (X7_heap_push_update_keep_order
                       (mkHeap [] {[ 0%nat := mkItem "192.0.2.33" 132 0 ]})
                       0%nat (heap_wf_no_items _))
                (mkItem "192.0.2.33" 132 0) (lookup_singleton_eq _ _)
                (not_elem_of_nil _))
      as (h' & E & Hwf & _ & _ & Hel).
    exists h'. auto.
  - destruct (proj2 (X7_heap_push_update_keep_order
                       (expiryHeap full_registry) 1%nat
                       (wf_heap _ full_registry_wf)) 200)
      as (h' & E & Hwf & _ & _ & Ht & _).
    + assert (Es : slice (expiryHeap full_registry) = [1%nat; 0%nat; 2%nat])
        by (vm_compute; reflexivity).
      rewrite Es. constructor.
    + exists h'. auto.
Defined.

(* ===================================================================== *)
(** * The request handler: the gates before the matching engine *)
(* ===================================================================== *)

Lemma not_banned_gate (env : Env) (a : Application) (clientIP : string) :
  not_banned env a clientIP ->
  match ipRecorder a with
  | Some rec =>
      match MongoIPRecorder_IsIPBlocked (env_now env) rec clientIP with
      | (true, r) => Some r
      | (false, _) => None
      end
  | None => None
  end = None.
Proof.
  unfold not_banned. destruct (ipRecorder a) as [rec|]; [|reflexivity].
  destruct (MongoIPRecorder_IsIPBlocked (env_now env) rec clientIP)
    as [[|] r]; simpl; [discriminate|reflexivity].
Qed.

(** X8. A request whose client IP is not banned and that the flow
    controller refuses is denied with status 429 and the message "Too many
    requests".  The only thing the handler did is ask the flow controller:
    the rule engine and the matching engine are not consulted, no
    transaction is opened, nothing is logged and nothing is written to the
    response metadata. *)
Theorem X8_flow_limit_denies_429 (env : Env) (a : Application)
        (message : applicationRequest) :
  let req := ensure_ID env message in
  let realIP := getRealClientIP (Some req) in
  not_banned env a realIP ->
  flowController a = true ->
  env_CheckVisit env realIP = (false, None) ->
  HandleRequest env a message =
    Ret (app_call (CallCheckVisit realIP) a, [],
         Some (ErrInterrupted
                 (mkInterruption 0 "deny" 429 "Too many requests"))).
Proof.
  intros req realIP Hban Hflow Hvisit.
  unfold HandleRequest, requestGates. fold req. fold realIP.
  rewrite (not_banned_gate env a realIP Hban), Hflow, Hvisit. reflexivity.
Qed.

Lemma X8_flow_limit_denies_429_witness :
  HandleRequest limit_env sample_app plain_request =
    Ret (app_call (CallCheckVisit "198.51.100.9") sample_app, [],
         Some (ErrInterrupted
                 (mkInterruption 0 "deny" 429 "Too many requests"))).
Proof.
  apply (X8_flow_limit_denies_429 limit_env sample_app plain_request).
  - vm_compute. reflexivity.
  - reflexivity.
  - reflexivity.
Defined.

(** X9. The gates fail open: when the flow controller answers with an
    error the request is not rate limited, whatever the flag it returned,
    and when the rule engine answers with an error the request is not
    blocked by it, even if it said "block".  Such a request goes on to the
    matching engine. *)
Theorem X9_gate_errors_fail_open (env : Env) (a : Application)
        (req : applicationRequest) :
  let realIP := getRealClientIP (Some req) in
  not_banned env a realIP ->
  (flowController a = true ->
   exists allowed e, env_CheckVisit env realIP = (allowed, Some e)) ->
  (ruleEngine a = true ->
   exists shouldBlock rule e,
     env_MatchRequest env realIP (gate_url req) (Path req)
       = (shouldBlock, rule, Some e)) ->
  passes_gates env a req.
Proof.
  intros realIP Hban Hflow Hrule. unfold passes_gates, requestGates.
  fold realIP. rewrite (not_banned_gate env a realIP Hban).
  change (match Query req with
          | Some q => if (0 <? String.length q)%nat
                      then Path req +:+ "?" +:+ q else Path req
          | None => Path req
          end) with (gate_url req).
  assert (Hgate : forall a0 : Application, ruleEngine a0 = ruleEngine a ->
    exists a1,
      (if ruleEngine a0 then
         let a2 := app_call (CallMatchRequest realIP (gate_url req) (Path req))
                            a0 in
         let '(shouldBlock, rule, err) :=
           env_MatchRequest env realIP (gate_url req) (Path req) in
         let a3 := match err with
                   | Some e => app_log (LError, MsgMatchFailed (gate_url req)
                                                  realIP e) a2
                   | None => a2
                   end in
         let ruleName := match rule with
                         | Some r => rule_Name r
                         | None => "whitelist block"
                         end in
         let ruleId := match rule with
                       | Some r => rule_ID r
                       | None => "none"
                       end in
         if shouldBlock && isNil err then
           let a4 := recordAttack a3 realIP in
           let a5 := app_log (LInfo, MsgBlockedByMicroEngine ruleName ruleId
                                       (gate_url req) realIP) a4 in
           let* (a6, serr) := saveMicroEngineLog env a5 rule req (Headers req)
           in
           let a7 := match serr with
                     | Some e =>
                         app_log (LError, MsgSaveMicroEngineLogFailed ruleName
                                            ruleId (gate_url req) realIP e) a6
                     | None => a6
                     end in
           Ret (a7, Some (deny 403 EmptyString))
         else Ret (a3, None)
       else Ret (a0, None)) = Ret (a1, None)).
  { intros a0 Ha0. rewrite Ha0. destruct (ruleEngine a) eqn:Er; [|eauto].
    destruct (Hrule eq_refl) as (sb & rule & e' & ->).
    cbn [isNil]. rewrite andb_false_r. eauto. }
  destruct (flowController a) eqn:Ef.
  - destruct (Hflow eq_refl) as (allowed & e & ->). apply Hgate. reflexivity.
  - apply Hgate. reflexivity.
Qed.

Lemma X9_gate_errors_fail_open_witness :
  passes_gates failing_env sample_app plain_request.
Proof.
  apply (X9_gate_errors_fail_open failing_env sample_app plain_request).
  - vm_compute. reflexivity.
  - intros _. exists false, "flow store unreachable". reflexivity.
  - intros _. exists true, None, "rule store unreachable". reflexivity.
Defined.

(** X10. A request that the lightweight rule engine blocks (the ban
    registry and the flow controller having let it through) is denied with
    status 403 and an empty message.  The attack is reported to the flow
    controller, one entry is written to the agent's log, and the security
    log entry naming the rule is pushed to the log store (dropped with a
    warning when the inbox is full); the matching engine is not consulted
    and no transaction is opened.  The log store is called without a nil
    check: when none is configured the handler panics. *)
Theorem X10_rule_engine_block (env : Env) (a : Application)
        (message : applicationRequest) (rule : option Rule) :
  let req := ensure_ID env message in
  let realIP := getRealClientIP (Some req) in
  not_banned env a realIP ->
  (flowController a = true -> env_CheckVisit env realIP = (true, None)) ->
  ruleEngine a = true ->
  env_MatchRequest env realIP (gate_url req) (Path req) = (true, rule, None) ->
  (forall s, logStore a = Some s -> chan_closed (logChan s) = false ->
     exists a' s',
       HandleRequest env a message =
         Ret (a', [], Some (ErrInterrupted
                              (mkInterruption 0 "deny" 403 EmptyString))) /\
       calls a' =
         calls a ++ (if flowController a then [CallCheckVisit realIP] else [])
                 ++ [CallMatchRequest realIP (gate_url req) (Path req)]
                 ++ (if flowController a then [CallRecordAttack realIP]
                     else []) /\
       cache a' = cache a /\ txs a' = txs a /\
       next_handle a' = next_handle a /\
       logStore a' = Some s' /\
       chan_buf (logChan s') =
         (if chan_full (logChan s) then chan_buf (logChan s)
          else chan_buf (logChan s) ++ [microEngineLog env rule req])) /\
  (logStore a = None -> HandleRequest env a message = Panic).
Proof.
  intros req realIP Hban Hflow Hrule Hmatch.
  unfold HandleRequest, requestGates. fold req. fold realIP.
  rewrite (not_banned_gate env a realIP Hban).
  change (match Query req with
          | Some q => if (0 <? String.length q)%nat
                      then Path req +:+ "?" +:+ q else Path req
          | None => Path req
          end) with (gate_url req).
  split.
  - intros s Hs Hopen.
    assert (Hstore : forall a0 : Application, logStore a0 = Some s ->
      exists a1 s1,
        saveMicroEngineLog env a0 rule req (Headers req) = Ret (a1, None) /\
        a1 = set_logStore (Some s1) a0 /\
        chan_buf (logChan s1) =
          (if chan_full (logChan s) then chan_buf (logChan s)
           else chan_buf (logChan s) ++ [microEngineLog env rule req])).
    { intros a0 Ha0. unfold saveMicroEngineLog, logStore_Store.
      rewrite Ha0. unfold MongoLogStore_Store, select_send. rewrite Hopen.
      destruct (chan_full (logChan s)); cbn [bind];
        eexists _, _; (split; [reflexivity|]); split; reflexivity. }
    destruct (flowController a) eqn:Ef.
    + rewrite (Hflow eq_refl). cbn [negb]. simpl ruleEngine.
      rewrite Hrule, Hmatch.
      cbn [andb isNil]. unfold recordAttack. simpl flowController.
      rewrite Ef.
      match goal with
      | |- context [saveMicroEngineLog env ?x rule req (Headers req)] =>
          destruct (Hstore x) as (a1 & s1 & E & -> & Hbuf); [exact Hs|]
      end.
      rewrite E. cbn [bind]. eexists _, s1. split; [reflexivity|].
      simpl. rewrite <- ?app_assoc. simpl. repeat split; try reflexivity.
      exact Hbuf.
    + rewrite Hrule, Hmatch. cbn [andb isNil]. unfold recordAttack.
      simpl flowController. rewrite Ef.
      match goal with
      | |- context [saveMicroEngineLog env ?x rule req (Headers req)] =>
          destruct (Hstore x) as (a1 & s1 & E & -> & Hbuf); [exact Hs|]
      end.
      rewrite E. cbn [bind]. eexists _, s1. split; [reflexivity|].
      simpl. rewrite <- ?app_assoc. simpl. repeat split; try reflexivity.
      exact Hbuf.
  - intros Hnone.
    assert (Hstore : forall a0 : Application, logStore a0 = None ->
              saveMicroEngineLog env a0 rule req (Headers req) = Panic).
    { intros a0 Ha0. unfold saveMicroEngineLog, logStore_Store.
      rewrite Ha0. reflexivity. }
    destruct (flowController a) eqn:Ef.
    + rewrite (Hflow eq_refl). cbn [negb]. simpl ruleEngine.
      rewrite Hrule, Hmatch.
      cbn [andb isNil]. rewrite Hstore; [reflexivity|].
      unfold recordAttack. simpl. rewrite Ef. simpl. exact Hnone.
    + rewrite Hrule, Hmatch. cbn [andb isNil].
      rewrite Hstore; [reflexivity|].
      unfold recordAttack. simpl. rewrite Ef. simpl. exact Hnone.
Qed.

Lemma X10_rule_engine_block_witness :
  (exists a' s',
     HandleRequest block_env sample_app plain_request =
       Ret (a', [], Some (ErrInterrupted
                            (mkInterruption 0 "deny" 403 EmptyString))) /\
     calls a' = [CallCheckVisit "198.51.100.9";
                 CallMatchRequest "198.51.100.9" "/index.html" "/index.html";
                 CallRecordAttack "198.51.100.9"] /\
     logStore a' = Some s' /\
     chan_buf (logChan s') =
       [microEngineLog block_env (Some (mkRule "admin paths" "6650a1f2"))
                       plain_request]) /\
  HandleRequest block_env storeless_app plain_request = Panic.
Proof.
  destruct (X10_rule_engine_block block_env sample_app plain_request
              (Some (mkRule "admin paths" "6650a1f2")))
    as [Hstore _];
    [vm_compute; reflexivity|reflexivity|reflexivity|reflexivity|].
  destruct (Hstore NewMongoLogStore eq_refl eq_refl)
    as (a' & s' & E & Hcalls & _ & _ & _ & Hs' & Hbuf).
  split.
  - exists a', s'. split; [exact E|]. split; [exact Hcalls|].
    split; [exact Hs'|exact Hbuf].
  - apply (proj2 (X10_rule_engine_block block_env storeless_app plain_request
                    (Some (mkRule "admin paths" "6650a1f2"))
                    ltac:(vm_compute; reflexivity) ltac:(reflexivity)
                    ltac:(reflexivity) ltac:(reflexivity))).
    reflexivity.
Defined.

(* ===================================================================== *)
(** * The handlers and the life of a transaction *)
(* ===================================================================== *)

Lemma steps_to_store (a a' : Application) (cs : list Call) :
  steps_to a a' cs ->
  isNil (logStore a') = isNil (logStore a) /\
  (store_running a -> store_running a').
Proof. intros (_ & _ & _ & _ & _ & _ & _ & _ & Hn & Hr & _). auto. Qed.

(** What a call of the request handler that returns has done. *)
Lemma HandleRequest_cases (env : Env) (a a' : Application)
      (message : applicationRequest) (w : Writer) (err : option HandlerError) :
  let req := ensure_ID env message in
  let h := next_handle a in
  HandleRequest env a message = Ret (a', w, err) ->
  isNil (logStore a') = isNil (logStore a) /\
  (store_running a -> store_running a') /\
  ((exists cs, steps_to a a' cs /\ quiet cs /\
               requestGates env a req = Ret (a', err) /\ err <> None) \/
   (passes_gates env a req /\ next_handle a' = S h /\
    exists cs t, calls a' = calls a ++ cs /\
      tx_handle t = h /\ tx_ID t = ID req /\
      if isNil err && ResponseCheck a
      then quiet cs /\ cache a' = <[ID req := h]> (cache a) /\
           txs a' = <[h := mkTransaction t false (Some req)]> (txs a)
      else cache a' = cache a /\ txs a' = txs a /\
           forall h',
             closes h' cs = (if (h =? h')%nat then 1 else 0)%nat /\
             loggings h' cs = (if (h =? h')%nat then 1 else 0)%nat)).
Proof.
  intros req h. unfold HandleRequest. fold req. intros E.
  destruct (requestGates env a req) as [[a1 early]| |] eqn:Egate;
    cbn [bind] in E; try discriminate.
  destruct (requestGates_steps _ _ _ _ _ Egate) as (cs1 & Hst1 & Hq1).
  pose proof Hst1 as (HRC & HTTL & Hcache & Htxs & Hnh & Hre & Hfc & Hip &
                      Hnil & Hrun & Hcalls).
  destruct early as [e|].
  { inversion E; subst. split; [exact Hnil|]. split; [exact Hrun|].
    left. exists cs1. split; [exact Hst1|]. split; [exact Hq1|].
    split; [reflexivity|discriminate]. }
  destruct (NewTransactionWithID env a1 (ID req)) as [a2 t] eqn:Enew.
  unfold NewTransactionWithID in Enew. inversion Enew as [[Ea2 Et]].
  clear Enew.
  destruct (requestProcessing env a2 t req) as [[[a3 t3] w3] err3] eqn:Eproc.
  destruct (requestProcessing_steps _ _ _ _ _ _ _ _ Eproc)
    as (cs3 & (HRC3 & HTTL3 & Hcache3 & Htxs3 & Hnh3 & Hre3 & Hfc3 & Hip3 &
               Hnil3 & Hrun3 & Hcalls3) & Hq3 & Hh3 & Hid3 & _).
  assert (Hht : tx_handle t = h) by (rewrite <- Et; simpl; exact Hnh).
  assert (Hidt : tx_ID t = ID req) by (rewrite <- Et; reflexivity).
  assert (Hcalls2 : calls a2 =
            calls a ++ cs1 ++ [CallNewTransaction (next_handle a1) (ID req)]).
  { rewrite <- Ea2. simpl. rewrite Hcalls, <- app_assoc. reflexivity. }
  assert (Hnh2 : next_handle a2 = S h)
    by (rewrite <- Ea2; simpl; rewrite Hnh; reflexivity).
  assert (Hc2 : cache a2 = cache a /\ txs a2 = txs a)
    by (rewrite <- Ea2; simpl; split; assumption).
  assert (Hrun2 : store_running a -> store_running a2).
  { intros H. specialize (Hrun H). rewrite <- Ea2. intros s Hs.
    apply (Hrun s Hs). }
  assert (Hnil2 : isNil (logStore a2) = isNil (logStore a))
    by (rewrite <- Ea2; simpl; exact Hnil).
  assert (HRC2 : ResponseCheck a3 = ResponseCheck a)
    by (rewrite HRC3, <- Ea2; simpl; exact HRC).
  assert (Hqn : quiet [CallNewTransaction (next_handle a1) (ID req)]).
  { apply quiet_one. intros h'. split; reflexivity. }
  destruct Hc2 as [Hc2 Ht2]. rewrite HRC2 in E.
  destruct (isNil err3 && ResponseCheck a) eqn:Ebr.
  - inversion E; subst a' w err. clear E. rewrite Ebr.
    split; [unfold cacheTransaction; simpl; congruence|].
    split; [intros H s; unfold cacheTransaction; simpl;
            apply (Hrun3 (Hrun2 H) s)|].
    right. split; [exists a1; exact Egate|].
    split; [unfold cacheTransaction; simpl; congruence|].
    eexists _, t3. split.
    { unfold cacheTransaction. simpl. rewrite Hcalls3, Hcalls2.
      rewrite <- !app_assoc. reflexivity. }
    split; [congruence|]. split; [congruence|]. split.
    { apply quiet_app; [exact Hq1|]. apply quiet_app; [exact Hqn|].
      apply quiet_app; [exact Hq3|]. apply quiet_one.
      intros h'. split; reflexivity. }
    unfold cacheTransaction. simpl.
    rewrite Hh3, Hht, Hid3, Hidt, Hcache3, Htxs3, Hc2, Ht2.
    split; reflexivity.
  - destruct (finalize env a3 t3 (getRealClientIP (Some req)) (Some req))
      as [a4| |] eqn:Efin; cbn [bind] in E; try discriminate.
    inversion E; subst a' w err. clear E. rewrite Ebr.
    destruct (finalize_steps _ _ _ _ _ _ Efin)
      as (cs4 & (HRC4 & HTTL4 & Hcache4 & Htxs4 & Hnh4 & Hre4 & Hfc4 & Hip4 &
                 Hnil4 & Hrun4 & Hcalls4) & Hcount).
    split; [congruence|]. split; [intros H; apply Hrun4, Hrun3, Hrun2, H|].
    right. split; [exists a1; exact Egate|]. split; [congruence|].
    eexists _, t3. split.
    { rewrite Hcalls4, Hcalls3, Hcalls2. rewrite <- !app_assoc. reflexivity. }
    split; [congruence|]. split; [congruence|].
    split; [congruence|]. split; [congruence|].
    intros h'. rewrite !closes_app, !loggings_app.
    destruct (quiet_counts h' cs1 Hq1) as [-> ->].
    destruct (quiet_counts h' _ Hqn) as [-> ->].
    destruct (quiet_counts h' cs3 Hq3) as [-> ->].
    destruct (Hcount h') as [-> ->]. rewrite Hh3, Hht. simpl.
    split; reflexivity.
Qed.

(** X11. A request that reaches the matching engine opens exactly one
    transaction, and when the handler returns that transaction is either
    in the cache or finalized, never both and never neither: with response
    checking on and no error it is cached under the request id, its guard
    free, with no call of the logging hook or of Close; in every other case
    (an interruption, an error, response checking off) it is not cached and
    the logging hook and Close were each called exactly once.  The handler
    returns whenever the log store is running. *)
Theorem X11_request_caches_or_finalizes (env : Env) (a : Application)
        (message : applicationRequest) :
  let req := ensure_ID env message in
  let h := next_handle a in
  passes_gates env a req -> store_running a ->
  exists a' w err,
    HandleRequest env a message = Ret (a', w, err) /\
    next_handle a' = S h /\
    if isNil err && ResponseCheck a
    then cache a' = <[ID req := h]> (cache a) /\
         (exists t, tx_handle t = h /\ tx_ID t = ID req /\
            txs a' = <[h := mkTransaction t false (Some req)]> (txs a)) /\
         closes h (calls a') = closes h (calls a) /\
         loggings h (calls a') = loggings h (calls a)
    else cache a' = cache a /\ txs a' = txs a /\
         closes h (calls a') = S (closes h (calls a)) /\
         loggings h (calls a') = S (loggings h (calls a)).
Proof.
  intros req h Hpass Hrun.
  destruct (HandleRequest_engine env a message Hpass Hrun)
    as (a' & w & err & E & _).
  exists a', w, err. split; [exact E|].
  destruct (HandleRequest_cases env a a' message w err E)
    as (_ & _ & [(cs & _ & _ & Eg & Hne)|(_ & Hnh & cs & t & Hcalls & Ht &
                                           Hid & Hbr)]).
  { destruct Hpass as [a1 Ea1]. fold req in Eg. rewrite Ea1 in Eg.
    congruence. }
  split; [exact Hnh|]. fold req h in Hbr.
  destruct (isNil err && ResponseCheck a).
  - destruct Hbr as (Hq & Hc & Htx). split; [exact Hc|].
    split; [exists t; auto|].
    rewrite Hcalls, closes_app, loggings_app.
    destruct (quiet_counts h cs Hq) as [-> ->]. split; lia.
  - destruct Hbr as (Hc & Htx & Hcount). split; [exact Hc|].
    split; [exact Htx|].
    rewrite Hcalls, closes_app, loggings_app.
    destruct (Hcount h) as [-> ->]. rewrite Nat.eqb_refl. split; lia.
Qed.

Lemma X11_request_caches_or_finalizes_witness :
  (exists a' w,
     HandleRequest sample_env sample_app plain_request = Ret (a', w, None) /\
     cache a' = <[ "TXPLAIN000000001" := 0%nat ]> (cache sample_app) /\
     closes 0 (calls a') = 0%nat) /\
  (exists a' w e,
     HandleRequest deny_env sample_app plain_request = Ret (a', w, Some e) /\
     cache a' = cache sample_app /\ closes 0 (calls a') = 1%nat).
Proof.
  split.
  - destruct (X11_request_caches_or_finalizes sample_env sample_app
                plain_request) as (a' & w & err & E & _ & H).
    + eexists. vm_compute. reflexivity.
    + exact sample_app_running.
    + assert (Herr : err = None).
      { assert (E' : exists a0 w0,
                  HandleRequest sample_env sample_app plain_request
                  = Ret (a0, w0, None))
          by (eexists _, _; vm_compute; reflexivity).
        destruct E' as (a0 & w0 & E'). rewrite E' in E. congruence. }
      subst err. destruct H as (Hc & _ & Hcl & _).
      exists a', w. split; [exact E|]. split; [exact Hc|exact Hcl].
  - destruct (X11_request_caches_or_finalizes deny_env sample_app
                plain_request) as (a' & w & err & E & _ & H).
    + eexists. vm_compute. reflexivity.
    + exact sample_app_running.
    + assert (Herr : exists e, err = Some e).
      { assert (E' : exists a0 w0 e,
                  HandleRequest deny_env sample_app plain_request
                  = Ret (a0, w0, Some e))
          by (eexists _, _, _; vm_compute; reflexivity).
        destruct E' as (a0 & w0 & e & E'). rewrite E' in E.
        exists e. congruence. }
      destruct Herr as [e ->]. destruct H as (Hc & _ & Hcl & _).
      exists a', w, e. split; [exact E|]. split; [exact Hc|exact Hcl].
Defined.

Lemma responseLocked_returns (env : Env) (a : Application) (p : nat)
      (res : applicationResponse) (t : transaction) :
  txs a !! p = Some t -> store_running a ->
  exists r, responseLocked env a p res = Ret r.
Proof.
  intros Ht Hrun. unfold responseLocked. rewrite Ht.
  set (a1 := if 400 <=? res_Status res
             then recordError a (getRealClientIP (request t)) else a).
  assert (H1 : store_running a1).
  { unfold a1. destruct (400 <=? res_Status res); [|exact Hrun].
    destruct (recordError_steps a (getRealClientIP (request t)))
      as (cs & Hst & _). apply (steps_to_store _ _ _ Hst), Hrun. }
  destruct (responseProcessing a1 (tx t) res) as [[a2 t'] err] eqn:Eproc.
  destruct (responseProcessing_steps _ _ _ _ _ _ Eproc) as (cs2 & Hst2 & _).
  apply (steps_to_store _ _ _ Hst2) in H1.
  match goal with
  | |- context [finalize env ?x ?y ?z ?u] =>
      destruct (finalize_returns env x y z u) as [a4 E4]
  end.
  { intros s Hs. simpl in Hs. apply (H1 s Hs). }
  rewrite E4. cbn [bind]. eauto.
Qed.

(** A response for a cached transaction whose guard is free. *)
Lemma HandleResponse_free_guard (env : Env) (a : Application)
      (res : applicationResponse) (p : nat) (t : transaction) :
  ResponseCheck a = true -> is_empty (res_ID res) = false ->
  cache a !! res_ID res = Some p ->
  txs a !! p = Some t -> m t = false ->
  store_running a ->
  exists a' err t',
    HandleResponse env a res = Ret (a', err) /\
    cache a' = delete (res_ID res) (cache a) /\
    txs a' = <[p := mkTransaction t' true (request t)]> (txs a) /\
    tx_handle t' = tx_handle (tx t) /\
    forall h,
      closes h (calls a') =
        (closes h (calls a) + if (tx_handle (tx t) =? h)%nat then 1 else 0)%nat
      /\
      loggings h (calls a') =
        (loggings h (calls a)
         + if (tx_handle (tx t) =? h)%nat then 1 else 0)%nat.
Proof.
  intros Hcheck Hid Hhit Ht Hm Hrun.
  unfold HandleResponse, responseLookup. rewrite Hcheck, Hid, Hhit.
  cbn [negb]. unfold responseFound, TryLock. simpl txs. rewrite Ht, Hm.
  cbn [bind negb].
  set (a2 := set_txs _ (responseRemove a res)).
  assert (Ht2 : txs a2 !! p = Some (mkTransaction (tx t) true (request t)))
    by (unfold a2; simpl; apply lookup_insert_eq).
  assert (Hrun2 : store_running a2)
    by (intros s Hs; apply (Hrun s Hs)).
  destruct (responseLocked_returns env a2 p res _ Ht2 Hrun2) as [[a' err] E].
  rewrite E. exists a', err.
  apply responseLocked_frame in E
    as (t2 & t' & cs & Ht2' & Hh & Htxs & Hcache & _ & Hcalls & _ & Hcount).
  rewrite Ht2 in Ht2'. inversion Ht2'; subst t2. simpl in *.
  exists t'. split; [reflexivity|]. split; [exact Hcache|].
  split; [rewrite Htxs; unfold a2; simpl; apply insert_insert_eq|].
  split; [exact Hh|].
  intros h. rewrite Hcalls, closes_app, loggings_app.
  destruct (Hcount h) as [-> ->]. split; reflexivity.
Qed.

(** X12. A response for a cached transaction whose guard is free is
    handled to the end: the handler takes the entry out of the cache, takes
    the guard (which it never gives back), and, whatever the matching
    engine answers on the response, calls the logging hook and Close of
    that transaction exactly once each, and of no other transaction.  It
    returns whenever the log store is running. *)
Theorem X12_response_finalizes_once (env : Env) (a : Application)
        (res : applicationResponse) (p : nat) (t : transaction) :
  ResponseCheck a = true -> is_empty (res_ID res) = false ->
  cache a !! res_ID res = Some p ->
  txs a !! p = Some t -> m t = false ->
  store_running a ->
  exists a' err t',
    HandleResponse env a res = Ret (a', err) /\
    cache a' = delete (res_ID res) (cache a) /\
    txs a' = <[p := mkTransaction t' true (request t)]> (txs a) /\
    tx_handle t' = tx_handle (tx t) /\
    forall h,
      closes h (calls a') =
        (closes h (calls a) + if (tx_handle (tx t) =? h)%nat then 1 else 0)%nat
      /\
      loggings h (calls a') =
        (loggings h (calls a)
         + if (tx_handle (tx t) =? h)%nat then 1 else 0)%nat.
Proof. exact (HandleResponse_free_guard env a res p t). Qed.

Lemma X12_response_finalizes_once_witness :
  exists a0 a' err,
    cache a0 !! "TXPLAIN000000001" = Some 0%nat /\
    HandleResponse sample_env a0 (sample_response "TXPLAIN000000001")
      = Ret (a', err) /\
    cache a' = delete "TXPLAIN000000001" (cache a0) /\
    closes 0 (calls a') = (closes 0 (calls a0) + 1)%nat.
Proof.
  set (a0 := mkApp true (seconds 10) {[ "TXPLAIN000000001" := 0%nat ]}
               {[ 0%nat := mkTransaction
                             (mkTx 0 "TXPLAIN000000001" pass_script None)
                             false (Some plain_request) ]}
               1 (Some NewMongoLogStore) true true (Some sample_recorder)
               [] []).
  destruct (X12_response_finalizes_once sample_env a0
              (sample_response "TXPLAIN000000001") 0%nat
              (mkTransaction (mkTx 0 "TXPLAIN000000001" pass_script None)
                             false (Some plain_request)))
    as (a' & err & t' & E & Hc & _ & _ & Hcount);
    try reflexivity.
  - intros s Hs. inversion Hs; subst. reflexivity.
  - exists a0, a', err. split; [reflexivity|]. split; [exact E|].
    split; [exact Hc|]. apply (Hcount 0%nat).
Defined.

(** X13. The eviction callback on a transaction whose guard is free takes
    the guard and calls the logging hook, then Close, and nothing else:
    even when the transaction was interrupted it reports no attack to the
    flow controller and pushes nothing to the log store.  On a transaction
    whose guard is held it writes one line to the log and touches
    nothing. *)
Theorem X13_eviction_only_releases (a : Application) (p : nat)
        (t : transaction) :
  txs a !! p = Some t ->
  (m t = false ->
   exists a', evictionCallback a p = Ret a' /\
     calls a' = calls a ++ [CallTx (tx_handle (tx t)) ProcessLogging;
                            CallTx (tx_handle (tx t)) Close] /\
     txs a' = <[p := mkTransaction (tx t) true (request t)]> (txs a) /\
     cache a' = cache a /\ logStore a' = logStore a) /\
  (m t = true ->
   evictionCallback a p =
     Ret (app_log (LInfo, MsgEvictionOnUsedTransaction (tx_ID (tx t))) a)).
Proof.
  intros Ht. unfold evictionCallback, TryLock. rewrite Ht. split; intros Hm;
    rewrite Hm; cbn [bind negb]; [|reflexivity].
  unfold evictionLocked. simpl txs. rewrite lookup_insert_eq. simpl tx.
  eexists. split; [reflexivity|].
  destruct (es_Close (tx_script (tx t))); simpl; rewrite <- app_assoc;
    repeat split; reflexivity.
Qed.

Lemma X13_eviction_only_releases_witness :
  (exists a',
     evictionCallback
       (mkApp true (seconds 10) ∅
          {[ 0%nat := mkTransaction
                        (mkTx 0 "TXPLAIN000000001" deny_script
                           (Some (mkInterruption 942100 "deny" 403
                                                 EmptyString)))
                        false (Some plain_request) ]}
          1 (Some NewMongoLogStore) true true None [] []) 0%nat = Ret a' /\
     calls a' = [CallTx 0 ProcessLogging; CallTx 0 Close] /\
     logStore a' = Some NewMongoLogStore) /\
  evictionCallback contended_app 0%nat =
    Ret (app_log (LInfo, MsgEvictionOnUsedTransaction "TXPLAIN000000001")
                 contended_app).
Proof.
  split.
  - destruct (proj1 (X13_eviction_only_releases
               (mkApp true (seconds 10) ∅
                  {[ 0%nat := mkTransaction
                                (mkTx 0 "TXPLAIN000000001" deny_script
                                   (Some (mkInterruption 942100 "deny" 403
                                                         EmptyString)))
                                false (Some plain_request) ]}
                  1 (Some NewMongoLogStore) true true None [] []) 0%nat _
               (lookup_singleton_eq _ _)) eq_refl)
      as (a' & E & Hc & _ & _ & Hs).
    exists a'. split; [exact E|]. split; [exact Hc|exact Hs].
  - apply (proj2 (X13_eviction_only_releases contended_app 0%nat
                    (mkTransaction
                       (mkTx 0 "TXPLAIN000000001" pass_script None)
                       true (Some plain_request))
                    (lookup_singleton_eq _ _))).
    reflexivity.
Defined.

(* ===================================================================== *)
(** * No step of a goroutine panics *)
(* ===================================================================== *)

(** The rule-engine stage of [requestGates] returns once a log store is
    configured and running. *)
Lemma rule_gate_returns (env : Env) (req : applicationRequest)
      (realIP : string) (a0 : Application) :
  isNil (logStore a0) = false -> store_running a0 ->
  exists r,
    (if ruleEngine a0 then
       let a2 := app_call (CallMatchRequest realIP (gate_url req) (Path req))
                          a0 in
       let '(shouldBlock, rule, err) :=
         env_MatchRequest env realIP (gate_url req) (Path req) in
       let a3 := match err with
                 | Some e => app_log (LError, MsgMatchFailed (gate_url req)
                                                realIP e) a2
                 | None => a2
                 end in
       let ruleName := match rule with
                       | Some r => rule_Name r
                       | None => "whitelist block"
                       end in
       let ruleId := match rule with
                     | Some r => rule_ID r
                     | None => "none"
                     end in
       if shouldBlock && isNil err then
         let a4 := recordAttack a3 realIP in
         let a5 := app_log (LInfo, MsgBlockedByMicroEngine ruleName ruleId
                                     (gate_url req) realIP) a4 in
         let* (a6, serr) := saveMicroEngineLog env a5 rule req (Headers req)
         in
         let a7 := match serr with
                   | Some e =>
                       app_log (LError, MsgSaveMicroEngineLogFailed ruleName
                                          ruleId (gate_url req) realIP e) a6
                   | None => a6
                   end in
         Ret (a7, Some (deny 403 EmptyString))
       else Ret (a3, None)
     else Ret (a0, None)) = Ret r.
Proof.
  intros Hnil Hrun. destruct (ruleEngine a0); [|eauto].
  destruct (env_MatchRequest env realIP (gate_url req) (Path req))
    as [[shouldBlock rule] err].
  destruct (shouldBlock && isNil err); [|eauto]. cbv zeta.
  match goal with
  | |- context [saveMicroEngineLog env ?x rule req (Headers req)] =>
      assert (Hx : isNil (logStore x) = false /\ store_running x)
  end.
  { unfold recordAttack. simpl. destruct (flowController _), err; simpl;
      (split; [exact Hnil|intros st Hst; apply (Hrun st Hst)]). }
  destruct Hx as [Hn Hr]. unfold saveMicroEngineLog.
  match goal with
  | |- context [logStore_Store ?x ?l] =>
      destruct (logStore_Store_returns x l Hr Hn) as [a1 E1]
  end.
  rewrite E1. cbn [bind]. eauto.
Qed.

Lemma requestGates_returns (env : Env) (a : Application)
      (req : applicationRequest) :
  isNil (logStore a) = false -> store_running a ->
  exists r, requestGates env a req = Ret r.
Proof.
  intros Hnil Hrun. unfold requestGates.
  set (realIP := getRealClientIP (Some req)).
  change (match Query req with
          | Some q => if (0 <? String.length q)%nat
                      then Path req +:+ "?" +:+ q else Path req
          | None => Path req
          end) with (gate_url req).
  assert (Hrest : exists r,
    (let '(a0, limited) :=
       if flowController a then
         let a0 := app_call (CallCheckVisit realIP) a in
         match env_CheckVisit env realIP with
         | (_, Some e) =>
             (app_log (LError, MsgFlowCheckFailed realIP e) a0, false)
         | (allowed, None) => (a0, negb allowed)
         end
       else (a, false) in
     if limited then Ret (a0, Some (deny 429 "Too many requests"))
     else
       if ruleEngine a0 then
         let a2 := app_call (CallMatchRequest realIP (gate_url req) (Path req))
                            a0 in
         let '(shouldBlock, rule, err) :=
           env_MatchRequest env realIP (gate_url req) (Path req) in
         let a3 := match err with
                   | Some e => app_log (LError, MsgMatchFailed (gate_url req)
                                                  realIP e) a2
                   | None => a2
                   end in
         let ruleName := match rule with
                         | Some r => rule_Name r
                         | None => "whitelist block"
                         end in
         let ruleId := match rule with
                       | Some r => rule_ID r
                       | None => "none"
                       end in
         if shouldBlock && isNil err then
           let a4 := recordAttack a3 realIP in
           let a5 := app_log (LInfo, MsgBlockedByMicroEngine ruleName ruleId
                                       (gate_url req) realIP) a4 in
           let* (a6, serr) := saveMicroEngineLog env a5 rule req (Headers req)
           in
           let a7 := match serr with
                     | Some e =>
                         app_log (LError, MsgSaveMicroEngineLogFailed ruleName
                                            ruleId (gate_url req) realIP e) a6
                     | None => a6
                     end in
           Ret (a7, Some (deny 403 EmptyString))
         else Ret (a3, None)
       else Ret (a0, None)) = Ret r).
  { destruct (flowController a).
    - destruct (env_CheckVisit env realIP) as [allowed [e|]].
      + apply rule_gate_returns; [exact Hnil|].
        intros s Hs. apply (Hrun s Hs).
      + destruct allowed; cbn [negb]; [|eauto].
        apply rule_gate_returns; [exact Hnil|].
        intros s Hs. apply (Hrun s Hs).
    - apply rule_gate_returns; assumption. }
  destruct (ipRecorder a) as [rec|]; [|exact Hrest].
  unfold MongoIPRecorder_IsIPBlocked, IsIPBlocked.
  destruct (blockedIPs (memory rec) !! realIP) as [record|]; [|exact Hrest].
  destruct (Time_IsZero (BlockedUntil record)
            || Time_After (env_now env) (BlockedUntil record));
    [exact Hrest|eauto].
Qed.

Lemma HandleRequest_returns (env : Env) (a : Application)
      (message : applicationRequest) :
  isNil (logStore a) = false -> store_running a ->
  exists r, HandleRequest env a message = Ret r.
Proof.
  intros Hnil Hrun.
  destruct (requestGates_returns env a (ensure_ID env message) Hnil Hrun)
    as [[a1 [e|]] E].
  - rewrite (HandleRequest_early _ _ _ _ _ E). eauto.
  - destruct (HandleRequest_engine env a message (ex_intro _ a1 E) Hrun)
      as (a' & w & err & E' & _).
    rewrite E'. eauto.
Qed.

(** A step keeps the log store configured and running. *)
Lemma go_step_store (env : Env) (a a' : Application) (g g' : Goroutine) :
  go_step env a g = Ret (a', g') ->
  isNil (logStore a') = isNil (logStore a) /\
  (store_running a -> store_running a').
Proof.
  intros E. destruct g as [message|res|res p|res p|res p|id|p|p|e];
    cbn [go_step] in E.
  - destruct (HandleRequest env a message) as [[[a1 w] err]| |] eqn:EH;
      cbn [bind] in E; try discriminate.
    inversion E; subst a' g'.
    destruct (HandleRequest_cases _ _ _ _ _ _ EH) as (H1 & H2 & _). auto.
  - destruct (negb (ResponseCheck a)); [inversion E; subst; auto|].
    destruct (is_empty (res_ID res)); [inversion E; subst; auto|].
    unfold responseLookup in E.
    destruct (cache a !! res_ID res); inversion E; subst; auto.
  - inversion E; subst. auto.
  - destruct (TryLock a p) as [[a1 locked]| |] eqn:EL; cbn [bind] in E;
      try discriminate.
    apply TryLock_spec in EL as (t & Ht & -> & ->).
    destruct (m t); cbn [negb] in E; inversion E; subst; auto.
  - destruct (responseLocked env a p res) as [[a1 err]| |] eqn:ER;
      cbn [bind] in E; try discriminate.
    inversion E; subst a' g'. unfold responseLocked in ER.
    destruct (txs a !! p) as [t|]; [|discriminate].
    set (a1' := if 400 <=? res_Status res
                then recordError a (getRealClientIP (request t)) else a)
      in ER.
    assert (H1 : isNil (logStore a1') = isNil (logStore a) /\
                 (store_running a -> store_running a1')).
    { unfold a1'. destruct (400 <=? res_Status res); [|auto].
      destruct (recordError_steps a (getRealClientIP (request t)))
        as (cs & Hst & _). apply (steps_to_store _ _ _ Hst). }
    destruct (responseProcessing a1' (tx t) res) as [[a2 t'] err2] eqn:Eproc.
    destruct (responseProcessing_steps _ _ _ _ _ _ Eproc)
      as (cs2 & Hst2 & _).
    apply steps_to_store in Hst2 as [Hn2 Hr2].
    match type of ER with
    | context [finalize env ?x _ _ _] => set (a3 := x) in ER
    end.
    destruct (finalize env a3 t' (getRealClientIP (request t)) (request t))
      as [a4| |] eqn:Efin; cbn [bind] in ER; try discriminate.
    inversion ER; subst a1 err.
    destruct (finalize_steps _ _ _ _ _ _ Efin) as (cs4 & Hst4 & _).
    apply steps_to_store in Hst4 as [Hn4 Hr4].
    destruct H1 as [Hn1 Hr1]. split.
    + rewrite Hn4. unfold a3. simpl. congruence.
    + intros H. apply Hr4. intros s Hs. unfold a3 in Hs. simpl in Hs.
      apply (Hr2 (Hr1 H) s Hs).
  - unfold evictTake in E.
    destruct (cache a !! id); inversion E; subst; auto.
  - destruct (txs a !! p) as [t0|]; [|discriminate].
    destruct (TryLock a p) as [[a1 locked]| |] eqn:EL; cbn [bind] in E;
      try discriminate.
    apply TryLock_spec in EL as (t & Ht & -> & ->).
    destruct (m t); cbn [negb] in E; inversion E; subst; auto.
  - destruct (evictionLocked a p) as [a1| |] eqn:EE; cbn [bind] in E;
      try discriminate.
    inversion E; subst a' g'.
    apply evictionLocked_frame in EE as (t & cs & _ & Hst & _).
    apply (steps_to_store _ _ _ Hst).
  - inversion E; subst. auto.
Qed.

Lemma reachable_store (a0 : Application) (s : System) :
  reachable a0 s ->
  isNil (logStore (fst s)) = isNil (logStore a0) /\
  (store_running a0 -> store_running (fst s)).
Proof.
  intros Hr. induction Hr as [|s s' Hr [IH1 IH2] Hstep]; [auto|].
  destruct Hstep as [a gs g Hs|env a a' gs i g g' Hi E]; simpl in *; [auto|].
  destruct (go_step_store _ _ _ _ _ E) as [H1 H2].
  split; [congruence|auto].
Qed.

Lemma steps_to_ipRecorder (a a' : Application) (cs : list Call) :
  steps_to a a' cs -> ipRecorder a' = ipRecorder a.
Proof. intros (_ & _ & _ & _ & _ & _ & _ & H & _). exact H. Qed.

Lemma HandleRequest_ipRecorder (env : Env) (a a' : Application)
      (message : applicationRequest) (w : Writer) (err : option HandlerError) :
  HandleRequest env a message = Ret (a', w, err) ->
  ipRecorder a' = ipRecorder a.
Proof.
  unfold HandleRequest. intros E.
  destruct (requestGates env a (ensure_ID env message))
    as [[a1 early]| |] eqn:Egate; cbn [bind] in E; try discriminate.
  destruct (requestGates_steps _ _ _ _ _ Egate) as (cs1 & Hst1 & _).
  apply steps_to_ipRecorder in Hst1.
  destruct early as [e|]; [inversion E; subst; exact Hst1|].
  destruct (NewTransactionWithID env a1 (ID (ensure_ID env message)))
    as [a2 t] eqn:Enew.
  unfold NewTransactionWithID in Enew. inversion Enew as [[Ea2 Et]].
  clear Enew.
  destruct (requestProcessing env a2 t (ensure_ID env message))
    as [[[a3 t3] w3] err3] eqn:Eproc.
  destruct (requestProcessing_steps _ _ _ _ _ _ _ _ Eproc)
    as (cs3 & Hst3 & _).
  apply steps_to_ipRecorder in Hst3.
  assert (H3 : ipRecorder a3 = ipRecorder a)
    by (rewrite Hst3, <- Ea2; simpl; exact Hst1).
  destruct (isNil err3 && ResponseCheck a3).
  - inversion E; subst a' w err. unfold cacheTransaction. simpl. exact H3.
  - destruct (finalize env a3 t3 _ _) as [a4| |] eqn:Efin;
      cbn [bind] in E; try discriminate.
    inversion E; subst a' w err.
    destruct (finalize_steps _ _ _ _ _ _ Efin) as (cs4 & Hst4 & _).
    apply steps_to_ipRecorder in Hst4. congruence.
Qed.

(** No step configures a ban registry. *)
Lemma go_step_ipRecorder (env : Env) (a a' : Application)
      (g g' : Goroutine) :
  go_step env a g = Ret (a', g') -> ipRecorder a' = ipRecorder a.
Proof.
  intros E. destruct g as [message|res|res p|res p|res p|id|p|p|e];
    cbn [go_step] in E.
  - destruct (HandleRequest env a message) as [[[a1 w] err]| |] eqn:EH;
      cbn [bind] in E; try discriminate.
    inversion E; subst a' g'.
    apply (HandleRequest_ipRecorder _ _ _ _ _ _ EH).
  - destruct (negb (ResponseCheck a)); [inversion E; subst; auto|].
    destruct (is_empty (res_ID res)); [inversion E; subst; auto|].
    unfold responseLookup in E.
    destruct (cache a !! res_ID res); inversion E; subst; auto.
  - inversion E; subst. auto.
  - destruct (TryLock a p) as [[a1 locked]| |] eqn:EL; cbn [bind] in E;
      try discriminate.
    apply TryLock_spec in EL as (t & Ht & -> & ->).
    destruct (m t); cbn [negb] in E; inversion E; subst; auto.
  - destruct (responseLocked env a p res) as [[a1 err]| |] eqn:ER;
      cbn [bind] in E; try discriminate.
    inversion E; subst a' g'. unfold responseLocked in ER.
    destruct (txs a !! p) as [t|]; [|discriminate].
    set (a1' := if 400 <=? res_Status res
                then recordError a (getRealClientIP (request t)) else a)
      in ER.
    assert (H1 : ipRecorder a1' = ipRecorder a).
    { unfold a1'. destruct (400 <=? res_Status res); [|auto].
      destruct (recordError_steps a (getRealClientIP (request t)))
        as (cs & Hst & _). apply (steps_to_ipRecorder _ _ _ Hst). }
    destruct (responseProcessing a1' (tx t) res) as [[a2 t'] err2] eqn:Eproc.
    destruct (responseProcessing_steps _ _ _ _ _ _ Eproc)
      as (cs2 & Hst2 & _).
    apply steps_to_ipRecorder in Hst2.
    match type of ER with
    | context [finalize env ?x _ _ _] => set (a3 := x) in ER
    end.
    destruct (finalize env a3 t' (getRealClientIP (request t)) (request t))
      as [a4| |] eqn:Efin; cbn [bind] in ER; try discriminate.
    inversion ER; subst a1 err.
    destruct (finalize_steps _ _ _ _ _ _ Efin) as (cs4 & Hst4 & _).
    apply steps_to_ipRecorder in Hst4.
    rewrite Hst4. unfold a3. simpl. congruence.
  - unfold evictTake in E.
    destruct (cache a !! id); inversion E; subst; auto.
  - destruct (txs a !! p) as [t0|]; [|discriminate].
    destruct (TryLock a p) as [[a1 locked]| |] eqn:EL; cbn [bind] in E;
      try discriminate.
    apply TryLock_spec in EL as (t & Ht & -> & ->).
    destruct (m t); cbn [negb] in E; inversion E; subst; auto.
  - destruct (evictionLocked a p) as [a1| |] eqn:EE; cbn [bind] in E;
      try discriminate.
    inversion E; subst a' g'.
    apply evictionLocked_frame in EE as (t & cs & _ & Hst & _).
    apply (steps_to_ipRecorder _ _ _ Hst).
  - inversion E; subst. auto.
Qed.

Lemma reachable_ipRecorder (a0 : Application) (s : System) :
  reachable a0 s -> ipRecorder (fst s) = ipRecorder a0.
Proof.
  intros Hr. induction Hr as [|s s' Hr IH Hstep]; [reflexivity|].
  destruct Hstep as [a gs g Hs|env a a' gs i g g' Hi E]; simpl in *; [auto|].
  rewrite (go_step_ipRecorder _ _ _ _ _ E). exact IH.
Qed.

(** X14. With no ban registry configured and a log store configured and
    running, no step of any goroutine panics, whatever the interleaving of
    request handlers, response handlers and cache sweeps that led to the
    current state: the pointers held by goroutines always reach a
    transaction object, every step returns, and no step comes to read a
    ban registry.  (With a registry configured the request handler reads
    the registry's map without the lock under which the cleaner goroutine
    and [RecordBlockedIP] write it; the steps of the system model do not
    cover that read, which is why the statement leaves such an agent
    out.) *)
Theorem X14_no_step_panics (a0 : Application) (s : System) (env : Env)
        (i : nat) (g : Goroutine) :
  initial a0 -> ipRecorder a0 = None ->
  isNil (logStore a0) = false -> store_running a0 ->
  reachable a0 s -> snd s !! i = Some g ->
  ipRecorder (fst s) = None /\
  exists a' g', go_step env (fst s) g = Ret (a', g') /\
                ipRecorder a' = None.
Proof.
  intros H0 Hrec0 Hnil0 Hrun0 Hr Hi.
  pose proof (reachable_inv a0 s H0 Hr) as Hinv.
  destruct (reachable_store a0 s Hr) as [Hnil Hrun].
  pose proof (reachable_ipRecorder a0 s Hr) as Hrec. rewrite Hrec0 in Hrec.
  rewrite Hnil0 in Hnil. specialize (Hrun Hrun0).
  split; [exact Hrec|].
  assert (Hret : exists a' g', go_step env (fst s) g = Ret (a', g')).
  { destruct s as [a gs]. simpl in *.
    assert (Hptr : forall p, pointer_of g = Some p -> is_Some (txs a !! p))
      by (intros p; apply (inv_held _ _ Hinv i g p Hi)).
    destruct g as [message|res|res p|res p|res p|id|p|p|e]; cbn [go_step].
    - destruct (HandleRequest_returns env a message Hnil Hrun)
        as [[[a1 w] err] E].
      rewrite E. cbn [bind]. eauto.
    - destruct (negb (ResponseCheck a)); [eauto|].
      destruct (is_empty (res_ID res)); [eauto|].
      destruct (responseLookup a res) as [a1 [p|]]; eauto.
    - eauto.
    - destruct (Hptr p eq_refl) as [t Ht]. unfold TryLock. rewrite Ht.
      destruct (m t); cbn [bind negb]; eauto.
    - destruct (Hptr p eq_refl) as [t Ht].
      destruct (responseLocked_returns env a p res t Ht Hrun) as [[a1 err] E].
      rewrite E. cbn [bind]. eauto.
    - destruct (evictTake a id) as [a1 [p|]]; eauto.
    - destruct (Hptr p eq_refl) as [t Ht]. unfold TryLock. rewrite Ht.
      destruct (m t); cbn [bind negb]; eauto.
    - destruct (Hptr p eq_refl) as [t Ht]. unfold evictionLocked. rewrite Ht.
      cbn [bind]. eauto.
    - eauto. }
  destruct Hret as (a' & g' & E). exists a', g'. split; [exact E|].
  rewrite (go_step_ipRecorder _ _ _ _ _ E). exact Hrec.
Qed.

Lemma unregistered_app_running : store_running unregistered_app.
Proof. intros s Hs. inversion Hs; subst. reflexivity. Qed.

Lemma X14_no_step_panics_witness :
  exists a' g',
    go_step sample_env unregistered_app
            (GoResponse (sample_response "TXPLAIN000000001"))
    = Ret (a', g') /\ ipRecorder a' = None.
Proof.
  apply (X14_no_step_panics unregistered_app
           (unregistered_app,
            [] ++ [GoResponse (sample_response "TXPLAIN000000001")])
           sample_env 0%nat
           (GoResponse (sample_response "TXPLAIN000000001"))).
  - repeat split.
  - reflexivity.
  - reflexivity.
  - exact unregistered_app_running.
  - apply (reach_step unregistered_app (unregistered_app, []));
      [apply reach_initial|].
    apply step_go. reflexivity.
  - reflexivity.
Defined.

(* ===================================================================== *)
(** * Request ids, client addresses and header scanning *)
(* ===================================================================== *)

(** X15. The request id the handler works with is never empty: an id
    that came with the message is kept as it is, and a message without
    one gets sixteen capital letters; nothing else of the request
    changes. *)
Theorem X15_request_id_never_empty (env : Env) (req : applicationRequest) :
  (String.length (ID req) <> 0%nat -> ensure_ID env req = req) /\
  (String.length (ID req) = 0%nat ->
   ensure_ID env req = with_ID req (ID (ensure_ID env req)) /\
   String.length (ID (ensure_ID env req)) = 16%nat /\
   Forall (fun c => (65 <= nat_of_ascii c <= 90)%nat)
          (list_ascii_of_string (ID (ensure_ID env req)))).
Proof.
  unfold ensure_ID. split; intros H.
  - destruct (Nat.eqb_spec (String.length (ID req)) 0); [contradiction|].
    reflexivity.
  - rewrite H. simpl Nat.eqb. cbv iota. cbn [ID with_ID].
    split; [reflexivity|]. split; [reflexivity|].
    unfold randomID. rewrite list_ascii_of_string_of_list_ascii.
    apply Forall_forall. intros c Hc.
    apply list_elem_of_fmap in Hc as (k & -> & _).
    assert (Hlt : (env_rand env k mod 26 < 26)%nat)
      by (apply Nat.mod_upper_bound; discriminate).
    rewrite nat_ascii_embedding by lia. lia.
Qed.

Lemma X15_request_id_never_empty_witness :
  ensure_ID sample_env plain_request = plain_request /\
  ID (ensure_ID sample_env (with_ID plain_request EmptyString))
    = "ABCDEFGHIJKLMNOP".
Proof.
  split.
  - apply (proj1 (X15_request_id_never_empty sample_env plain_request)).
    discriminate.
  - destruct (proj2 (X15_request_id_never_empty sample_env
                       (with_ID plain_request EmptyString)) eq_refl)
      as (_ & _ & _).
    reflexivity.
Defined.

Lemma forwardedFor_nonempty (parts : list string) (ip : string) :
  forwardedFor parts = Some ip -> is_empty ip = false.
Proof.
  induction parts as [|part rest IH]; simpl; [discriminate|].
  destruct (SplitN_2 part "=") as [|k [|v [|x xs]]]; try exact IH.
  destruct (String.eqb (TrimSpace k) "for"); [|exact IH].
  match goal with
  | |- context [negb (is_empty ?x)] => destruct (is_empty x) eqn:E
  end; cbn [negb]; [exact IH|].
  intros H. inversion H; subst. exact E.
Qed.

Lemma clientIPFromHeader_nonempty (header value ip : string) :
  clientIPFromHeader header value = Some ip -> is_empty ip = false.
Proof.
  unfold clientIPFromHeader.
  destruct (String.eqb header "x-forwarded-for"
            || String.eqb header "x-original-forwarded-for").
  - destruct (Split value ",") as [|first rest]; [discriminate|].
    destruct (is_empty (TrimSpace first)) eqn:E; cbn [negb];
      [discriminate|].
    intros H. inversion H; subst. exact E.
  - destruct (String.eqb header "forwarded").
    + apply forwardedFor_nonempty.
    + destruct (is_empty (TrimSpace value)) eqn:E; cbn [negb];
        [discriminate|].
      intros H. inversion H; subst. exact E.
Qed.

Lemma getRealClientIP_headers_nonempty (hs : list string)
      (headers ip : string) :
  getRealClientIP_headers hs headers = Some ip -> is_empty ip = false.
Proof.
  induction hs as [|h hs IH]; cbn [getRealClientIP_headers]; [discriminate|].
  destruct (getHeaderValue headers h) as [value [e|]]; [exact IH|].
  destruct (is_empty value); cbn [negb]; [exact IH|].
  destruct (clientIPFromHeader h value) as [ip'|] eqn:E; [|exact IH].
  intros H. inversion H; subst. eapply clientIPFromHeader_nonempty, E.
Qed.

(** X16. The client IP derived from a request is empty only when no
    forwarding header yields an address and the message carried no valid
    source address: an address taken from a header is never empty (empty
    list elements and empty [for=] values are passed over), and without one
    the source address is used. *)
Theorem X16_client_ip_empty_only_without_source (req : applicationRequest) :
  (forall ip, getRealClientIP_headers realIPHeaders (Headers req) = Some ip ->
     getRealClientIP (Some req) = ip /\ is_empty ip = false) /\
  (getRealClientIP_headers realIPHeaders (Headers req) = None ->
   getRealClientIP (Some req) =
     if Addr_IsValid (SrcIp req) then Addr_String (SrcIp req)
     else EmptyString) /\
  (forall text, SrcIp req = AddrOf text -> is_empty text = false ->
     is_empty (getRealClientIP (Some req)) = false).
Proof.
  unfold getRealClientIP. split; [|split].
  - intros ip H. rewrite H. split; [reflexivity|].
    eapply getRealClientIP_headers_nonempty, H.
  - intros H. rewrite H. reflexivity.
  - intros text Hsrc Htext.
    destruct (getRealClientIP_headers realIPHeaders (Headers req)) as [ip|]
      eqn:E.
    + eapply getRealClientIP_headers_nonempty, E.
    + rewrite Hsrc. exact Htext.
Qed.

Lemma X16_client_ip_empty_only_without_source_witness :
  is_empty (getRealClientIP
              (Some (sample_request (lines_of ["X-Forwarded-For: , "]))))
  = false.
Proof.
  apply (proj2 (proj2 (X16_client_ip_empty_only_without_source
                         (sample_request (lines_of ["X-Forwarded-For: , "]))))
           "198.51.100.9"); reflexivity.
Defined.

Example getRealClientIP_empty_forwarded_element :
  getRealClientIP
    (Some (sample_request (lines_of ["X-Forwarded-For: , 10.0.0.1";
                                     "X-Real-IP: 203.0.113.7"])))
  = "203.0.113.7".
Proof. vm_compute. reflexivity. Qed.

Lemma Cut_before_none (s : string) (sep : ascii) :
  match Cut s sep with
  | Some (a, _) => Cut a sep = None
  | None => True
  end.
Proof.
  induction s as [|c s IH]; simpl; [exact I|].
  destruct (Ascii.eqb c sep) eqn:Ec; [reflexivity|].
  destruct (Cut s sep) as [[a b]|]; [|exact I].
  simpl. rewrite Ec, IH. reflexivity.
Qed.

Lemma before_colon_no_colon (s : string) : Cut (before_colon s) ":" = None.
Proof.
  unfold before_colon. pose proof (Cut_before_none s ":") as H.
  destruct (Cut s ":") as [[a b]|] eqn:E; [exact H|exact E].
Qed.

(** X17. The host recorded in a security log entry never holds a colon:
    the Host header, or without one the destination address, is cut at its
    first colon.  A port is dropped that way, and so is everything after
    the first group of an IPv6 address. *)
Theorem X17_log_host_cut_at_colon (req : applicationRequest) :
  Cut (getHostFromRequest req) ":" = None /\
  (forall host,
     getHeaderValue (Headers req) "host" = (host, None) ->
     is_empty host = false ->
     getHostFromRequest req = before_colon host) /\
  (fst (getHeaderValue (Headers req) "host") = EmptyString ->
   getHostFromRequest req = before_colon (Addr_String (DstIp req))).
Proof.
  unfold getHostFromRequest. split; [|split].
  - destruct (getHeaderValue (Headers req) "host") as [host [e|]];
      [apply before_colon_no_colon|].
    destruct (is_empty host); apply before_colon_no_colon.
  - intros host -> ->. reflexivity.
  - destruct (getHeaderValue (Headers req) "host") as [host [e|]];
      simpl; intros ->; reflexivity.
Qed.

Lemma X17_log_host_cut_at_colon_witness :
  getHostFromRequest
    (sample_request (lines_of ["Host: example.com:8443"]))
  = before_colon "example.com:8443".
Proof.
  apply (proj1 (proj2 (X17_log_host_cut_at_colon
                         (sample_request
                            (lines_of ["Host: example.com:8443"]))))).
  - vm_compute. reflexivity.
  - reflexivity.
Defined.

Example getHostFromRequest_samples :
  getHostFromRequest (sample_request (lines_of ["Host: example.com:8443"]))
    = "example.com" /\
  getHostFromRequest (sample_request (lines_of ["Host: [2001:db8::1]:443"]))
    = "[2001" /\
  getHostFromRequest
    (mkRequest (AddrOf "198.51.100.9") 51000 (AddrOf "2001:db8::5") 443
               "GET" "ABCDEFGHIJKLMNOP" "/" None "1.1" EmptyString
               EmptyString)
    = "2001".
Proof. vm_compute. repeat split; reflexivity. Qed.
Ltac split_tests :=
  repeat (match goal with
          | |- context [N.eqb ?x ?y] => destruct (N.eqb_spec x y)
          | |- context [N.ltb ?x ?y] => destruct (N.ltb_spec x y)
          | |- context [N.leb ?x ?y] => destruct (N.leb_spec x y)
          end; try (exfalso; lia); cbn [andb orb negb]).

Lemma fold_class_cases (r : N) :
  ((65 <= r <= 90)%N /\ fold_class r = (r + 32)%N) \/
  (r = 8490%N /\ fold_class r = 107%N) \/
  (r = 383%N /\ fold_class r = 115%N) \/
  (~ (65 <= r <= 90)%N /\ r <> 8490%N /\ r <> 383%N /\ fold_class r = r).
Proof.
  unfold fold_class.
  destruct (N.leb_spec 65 r); destruct (N.leb_spec r 90); cbn [andb];
    [left; split; [lia|reflexivity]| | |];
    (destruct (N.eqb_spec r 8490) as [->|];
     [right; left; split; reflexivity|];
     destruct (N.eqb_spec r 383) as [->|];
     [right; right; left; split; reflexivity|];
     right; right; right; repeat split; try assumption; lia).
Qed.

Lemma rune_EqualFold_class (a b : N) :
  rune_EqualFold a b = (fold_class a =? fold_class b)%N.
Proof.
  unfold rune_EqualFold, SimpleFold_reaches, RuneSelf.
  destruct (N.eqb_spec b a) as [->|Hne]; [rewrite N.eqb_refl; reflexivity|].
  destruct (fold_class_cases a) as [[Ha ->]|[[Ha ->]|[[Ha ->]|(Ha1 & Ha2 & Ha3 & ->)]]];
    destruct (fold_class_cases b) as [[Hb ->]|[[Hb ->]|[[Hb ->]|(Hb1 & Hb2 & Hb3 & ->)]]];
    (destruct (N.le_gt_cases a b) as [Hle|Hgt];
     [rewrite (N.min_l a b), (N.max_r a b) by lia
     |rewrite (N.min_r a b), (N.max_l a b) by lia]);
    split_tests; reflexivity.
Qed.

Lemma rune_EqualFold_trans (a b c : N) :
  rune_EqualFold b c = true -> rune_EqualFold a b = rune_EqualFold a c.
Proof.
  rewrite !rune_EqualFold_class. intros H. apply N.eqb_eq in H.
  rewrite H. reflexivity.
Qed.

Lemma EqualFold_runes_target (k t t' : list N) :
  EqualFold_runes t t' = true -> EqualFold_runes k t = EqualFold_runes k t'.
Proof.
  revert t t'. induction k as [|a k IH]; intros [|b t] [|c t'] H; simpl in *;
    try reflexivity; try discriminate.
  apply andb_true_iff in H as [H1 H2].
  rewrite (rune_EqualFold_trans a b c H1), (IH t t' H2). reflexivity.
Qed.

Lemma EqualFold_target (k t t' : string) :
  EqualFold t t' = true -> EqualFold k t = EqualFold k t'.
Proof. unfold EqualFold. apply EqualFold_runes_target. Qed.

(** X18. Header names are matched without regard to the case of ASCII
    letters: looking a header up under two names that differ only in case
    gives the same value, and the name as it is written in the header
    block matters as little. *)
Theorem X18_header_lookup_ignores_case (headers target target' : string) :
  EqualFold target target' = true ->
  getHeaderValue headers target = getHeaderValue headers target'.
Proof.
  intros H. unfold getHeaderValue. f_equal.
  induction (ScanLines headers) as [|l ls IH]; simpl; [reflexivity|].
  unfold headerLine.
  destruct (String.length (TrimSpace l) =? 0)%nat; [exact IH|].
  destruct (SplitN_2 (TrimSpace l) ":") as [|k [|v [|x xs]]]; try exact IH.
  rewrite (EqualFold_target (TrimSpace k) target target' H).
  destruct (EqualFold (TrimSpace k) target'); [reflexivity|exact IH].
Qed.

Lemma X18_header_lookup_ignores_case_witness :
  getHeaderValue (lines_of ["HOST: example.com"; "x-real-ip: 203.0.113.7"])
                 "X-Real-IP"
  = getHeaderValue (lines_of ["HOST: example.com"; "x-real-ip: 203.0.113.7"])
                   "x-real-ip".
Proof.
  apply (X18_header_lookup_ignores_case
           (lines_of ["HOST: example.com"; "x-real-ip: 203.0.113.7"])
           "X-Real-IP" "x-real-ip").
  reflexivity.
Defined.

Lemma scans_agree (target : string) (ls : list string) :
  forall kvs, readHeaders_scan ls = (kvs, None) ->
  getHeaderValue_scan ls target =
    match List.find (fun kv => EqualFold (fst kv) target) kvs with
    | Some kv => snd kv
    | None => EmptyString
    end.
Proof.
  induction ls as [|l ls IH]; intros kvs E; simpl in *.
  - inversion E; subst. reflexivity.
  - unfold headerLine.
    destruct (String.length (TrimSpace l) =? 0)%nat; [apply IH, E|].
    destruct (SplitN_2 (TrimSpace l) ":") as [|k [|v [|x xs]]];
      try discriminate.
    destruct (readHeaders_scan ls) as [kvs' err] eqn:Er.
    inversion E; subst. simpl.
    destruct (EqualFold (TrimSpace k) target); [reflexivity|].
    apply IH. reflexivity.
Qed.

(** X19. The two header scanners agree: when [readHeaders] accepts a
    header block, the value [getHeaderValue] finds for a name of ASCII
    bytes (as every name the program looks up is) is the value of the
    first pair handed to the matching engine whose name equals it under
    [strings.EqualFold], and the empty string when there is no such pair.
    A name written with U+017F for s or U+212A for k counts. *)
Theorem X19_header_scanners_agree (headers target : string)
        (kvs : list (string * string)) :
  ascii_only target = true ->
  readHeaders headers = (kvs, None) ->
  getHeaderValue headers target =
    (match List.find (fun kv => EqualFold (fst kv) target) kvs with
     | Some kv => snd kv
     | None => EmptyString
     end, None).
Proof.
  unfold readHeaders, getHeaderValue. intros _ E.
  rewrite (scans_agree target _ kvs E). reflexivity.
Qed.

Lemma X19_header_scanners_agree_witness :
  getHeaderValue
    (lines_of ["Host: example.com"; "Accept : */*"; "host: other"]) "HOST"
  = ("example.com", None) /\
  getHeaderValue (lines_of [long_s_host_line; "Host: good.example"]) "host"
  = ("evil.example", None).
Proof.
  split.
  - apply (X19_header_scanners_agree
             (lines_of ["Host: example.com"; "Accept : */*"; "host: other"])
             "HOST"
             [("Host", "example.com"); ("Accept", "*/*"); ("host", "other")]);
      vm_compute; reflexivity.
  - apply (X19_header_scanners_agree
             (lines_of [long_s_host_line; "Host: good.example"]) "host"
             [(long_s_host, "evil.example"); ("Host", "good.example")]);
      vm_compute; reflexivity.
Defined.

Lemma readHeaders_scan_app (pre : list string) (kvs : list (string * string))
      (rest : list string) :
  readHeaders_scan pre = (kvs, None) ->
  readHeaders_scan (pre ++ rest) =
    (kvs ++ fst (readHeaders_scan rest), snd (readHeaders_scan rest)).
Proof.
  revert kvs. induction pre as [|l pre IH]; intros kvs E; simpl in *.
  - inversion E; subst. destruct (readHeaders_scan rest). reflexivity.
  - destruct (String.length (TrimSpace l) =? 0)%nat; [apply IH, E|].
    destruct (SplitN_2 (TrimSpace l) ":") as [|k [|v [|x xs]]];
      try discriminate.
    destruct (readHeaders_scan pre) as [kvs' err] eqn:Er.
    inversion E; subst. rewrite (IH kvs' eq_refl). reflexivity.
Qed.

Lemma getHeaderValue_scan_drop (pre : list string) (l : string)
      (post : list string) (target : string) :
  headerLine l target = None ->
  getHeaderValue_scan (pre ++ l :: post) target =
  getHeaderValue_scan (pre ++ post) target.
Proof.
  intros Hl. induction pre as [|x pre IH]; simpl.
  - rewrite Hl. reflexivity.
  - destruct (headerLine x target); [reflexivity|exact IH].
Qed.

(** X20. [readHeaders] stops at the first line that is not blank and has
    no colon: it returns the error naming that line, the headers before it
    have been handed over, in order, and nothing after it is looked at.
    ([getHeaderValue] passes over such a line instead.)  Blank is what
    [bytes.TrimSpace] leaves empty, so a line of Unicode white space is
    blank and does not stop the scan. *)
Theorem X20_readHeaders_stops_at_malformed_line (headers bad : string)
        (pre post : list string) (kvs : list (string * string)) :
  ScanLines headers = pre ++ bad :: post ->
  readHeaders_scan pre = (kvs, None) ->
  is_empty (TrimSpace bad) = false ->
  Cut (TrimSpace bad) ":" = None ->
  readHeaders headers = (kvs, Some bad) /\
  forall target,
    ascii_only target = true ->
    getHeaderValue headers target =
      (getHeaderValue_scan (pre ++ post) target, None).
Proof.
  intros Hscan Hpre Hne Hcut. unfold readHeaders, getHeaderValue.
  rewrite Hscan. split.
  - rewrite (readHeaders_scan_app pre kvs _ Hpre). simpl.
    destruct (TrimSpace bad) as [|c s] eqn:Eb; [discriminate|].
    simpl String.length. simpl Nat.eqb. cbv iota.
    unfold SplitN_2. rewrite Hcut. simpl. rewrite app_nil_r. reflexivity.
  - intros target _. f_equal. apply getHeaderValue_scan_drop.
    unfold headerLine.
    destruct (TrimSpace bad) as [|c s] eqn:Eb; [discriminate|].
    simpl String.length. simpl Nat.eqb. cbv iota.
    unfold SplitN_2. rewrite Hcut. reflexivity.
Qed.

Lemma X20_readHeaders_stops_at_malformed_line_witness :
  readHeaders (lines_of ["Host: example.com"; "garbage"; "Accept: */*"])
  = ([("Host", "example.com")], Some "garbage") /\
  forall target,
    ascii_only target = true ->
    getHeaderValue
      (lines_of ["Host: example.com"; "garbage"; "Accept: */*"]) target
    = (getHeaderValue_scan (["Host: example.com"] ++ ["Accept: */*"]) target,
       None).
Proof.
  apply (X20_readHeaders_stops_at_malformed_line
           (lines_of ["Host: example.com"; "garbage"; "Accept: */*"])
           "garbage" ["Host: example.com"] ["Accept: */*"]
           [("Host", "example.com")]);
    vm_compute; reflexivity.
Defined.

Example readHeaders_skips_unicode_blank_line :
  readHeaders (lines_of ["Host: example.com"; nbsp; "Accept: */*"])
  = ([("Host", "example.com"); ("Accept", "*/*")], None).
Proof. vm_compute. reflexivity. Qed.

(* ===================================================================== *)
(** * The log store: from [Store] to [InsertMany] *)
(* ===================================================================== *)

Section LogPipeline.
Local Open Scope nat_scope.

Variable insertMany : list WAFLog -> error.

Local Arguments Nat.leb : simpl never.

Lemma flushBatch_flight (c : LogConsumer) :
  concat (lc_inserted (flushBatch insertMany c))
    ++ lc_batch (flushBatch insertMany c)
  = concat (lc_inserted c) ++ lc_batch c.
Proof.
  unfold flushBatch. destruct (lc_batch c) as [|x b] eqn:E; [rewrite E; auto|].
  simpl. rewrite concat_app. simpl. rewrite !app_nil_r. reflexivity.
Qed.

Lemma flushBatch_fields (c : LogConsumer) :
  lc_batch (flushBatch insertMany c) = [] /\
  lc_exited (flushBatch insertMany c) = lc_exited c.
Proof.
  unfold flushBatch. destruct (lc_batch c) as [|x b] eqn:E; simpl; auto.
Qed.

Lemma flushBatch_ok (c : LogConsumer) :
  length (lc_batch c) <= batchSize ->
  Forall (fun b => 1 <= length b <= batchSize) (lc_inserted c) ->
  batches_ok (flushBatch insertMany c).
Proof.
  intros Hlen Hall. unfold flushBatch, batches_ok.
  destruct (lc_batch c) as [|x b] eqn:E; simpl.
  - rewrite E. simpl. split; [unfold batchSize; lia|exact Hall].
  - split; [unfold batchSize; lia|].
    apply Forall_app. split; [exact Hall|].
    constructor; [|constructor]. simpl in *. lia.
Qed.

Lemma store_step_spec (st st' : MongoLogStore * LogConsumer)
      (x : StoreAction) :
  store_step insertMany false st x = Some st' ->
  batches_ok (snd st) -> drained st ->
  batches_ok (snd st') /\ drained st' /\
  exists first, in_flight st' = in_flight st ++ first /\
    first `sublist_of` stored_logs [x].
Proof.
  destruct st as [s c]. unfold store_step, in_flight, drained. simpl.
  intros E [Hb Hall] Hdr. destruct x as [log|sel].
  - (* Store *)
    unfold MongoLogStore_Store, select_send in E.
    destruct (chan_closed (logChan s)) eqn:Ec; [discriminate|].
    assert (Hne : lc_exited c = false).
    { destruct (lc_exited c); [|reflexivity].
      destruct (Hdr eq_refl) as (_ & _ & H). congruence. }
    destruct (chan_full (logChan s)); cbn [bind] in E; inversion E; subst;
      simpl.
    + split; [split; assumption|]. split; [rewrite Hne; discriminate|].
      exists []. rewrite !app_nil_r. split; [reflexivity|].
      apply sublist_nil_l.
    + split; [split; assumption|]. split; [rewrite Hne; discriminate|].
      exists [log]. rewrite <- !app_assoc. split; reflexivity.
  - (* an iteration of the consumer *)
    unfold processLogs_step in E.
    destruct (lc_exited c) eqn:Eex; [discriminate|].
    destruct sel.
    + unfold chan_recv in E.
      destruct (chan_buf (logChan s)) as [|v rest] eqn:Ebuf.
      * destruct (chan_closed (logChan s)) eqn:Ec; [|discriminate].
        inversion E; subst; simpl.
        destruct (flushBatch_fields c) as [Hfb Hfe].
        split; [apply flushBatch_ok; [lia|exact Hall]|].
        split; [intros _; rewrite Hfb, Ebuf, Ec; auto|].
        exists []. split; [|apply sublist_nil_l].
        rewrite Ebuf, ?app_nil_r. apply flushBatch_flight.
      * inversion E; subst; clear E. cbn [fst snd logChan chan_buf].
        set (c1 := mkLogConsumer (lc_batch c ++ [v]) (lc_inserted c)
                                 (lc_log c) false).
        assert (Hlen1 : length (lc_batch c1) <= batchSize)
          by (simpl; rewrite length_app; simpl; lia).
        destruct (Nat.leb_spec batchSize (length (lc_batch c ++ [v])))
          as [Hf|Hf]; fold c1.
        -- destruct (flushBatch_fields c1) as [Hfb Hfe].
           split; [apply flushBatch_ok; assumption|].
           split; [rewrite Hfe; discriminate|].
           exists []. split; [|apply sublist_nil_l].
           rewrite app_nil_r, (cons_middle v).
           rewrite !app_assoc, flushBatch_flight. simpl.
           rewrite <- !app_assoc. reflexivity.
        -- split; [split; [exact Hf|exact Hall]|].
           split; [discriminate|].
           exists []. split; [|apply sublist_nil_l].
           rewrite app_nil_r. simpl. rewrite <- !app_assoc. reflexivity.
    + inversion E; subst; simpl. destruct (flushBatch_fields c) as [Hfb Hfe].
      split; [apply flushBatch_ok; [lia|exact Hall]|].
      split; [rewrite Hfe, Eex; discriminate|].
      exists []. rewrite app_nil_r. split; [|apply sublist_nil_l].
      rewrite !app_assoc, flushBatch_flight. reflexivity.
    + discriminate.
Qed.

Lemma stored_logs_cons (x : StoreAction) (xs : list StoreAction) :
  stored_logs (x :: xs) = stored_logs [x] ++ stored_logs xs.
Proof. unfold stored_logs. destruct x; reflexivity. Qed.

Lemma store_run_spec (xs : list StoreAction) :
  forall st st', store_run insertMany false st xs = Some st' ->
  batches_ok (snd st) -> drained st ->
  batches_ok (snd st') /\ drained st' /\
  exists accepted, in_flight st' = in_flight st ++ accepted /\
    accepted `sublist_of` stored_logs xs.
Proof.
  induction xs as [|x xs IH]; intros st st' E Hok Hdr; simpl in E.
  - inversion E; subst. split; [exact Hok|]. split; [exact Hdr|].
    exists []. rewrite app_nil_r. split; [reflexivity|apply sublist_nil_l].
  - destruct (store_step insertMany false st x) as [st1|] eqn:E1;
      [|discriminate].
    destruct (store_step_spec st st1 x E1 Hok Hdr)
      as (Hok1 & Hdr1 & first & Hf1 & Hs1).
    destruct (IH st1 st' E Hok1 Hdr1) as (Hok' & Hdr' & acc & Hf & Hs).
    split; [exact Hok'|]. split; [exact Hdr'|].
    exists (first ++ acc). split.
    + rewrite Hf, Hf1, <- app_assoc. reflexivity.
    + rewrite stored_logs_cons. apply sublist_app; assumption.
Qed.

End LogPipeline.

(** X21. Nothing is lost, duplicated or reordered between [Store]
    accepting a log and [InsertMany] receiving it: however the calls of
    [Store] and the iterations of [processLogs] interleave, the logs handed
    to the database, then those in the batch of the consumer, then those
    queued are, in this order, what was there before followed by the logs
    accepted since.  Every batch handed over has between 1 and 100
    entries, and when the consumer returns (the queue was closed and
    drained) every accepted log has been handed over, whether or not the
    database took it. *)
Theorem X21_log_pipeline_keeps_order (insertMany : list WAFLog -> error)
        (st st' : MongoLogStore * LogConsumer) (xs : list StoreAction) :
  store_run insertMany false st xs = Some st' ->
  batches_ok (snd st) -> lc_exited (snd st) = false ->
  batches_ok (snd st') /\
  (exists accepted,
     accepted `sublist_of` stored_logs xs /\
     in_flight st' = in_flight st ++ accepted /\
     (lc_exited (snd st') = true ->
      concat (lc_inserted (snd st')) = in_flight st ++ accepted)).
Proof.
  intros E Hok Hex.
  destruct (store_run_spec insertMany xs st st' E Hok)
    as (Hok' & Hdr' & acc & Hf & Hs).
  { intros H. congruence. }
  split; [exact Hok'|]. exists acc. split; [exact Hs|].
  split; [exact Hf|]. intros Hexit.
  destruct (Hdr' Hexit) as (Hb & Hq & _). rewrite <- Hf.
  unfold in_flight. rewrite Hb, Hq, !app_nil_r. reflexivity.
Qed.

Lemma X21_log_pipeline_keeps_order_witness :
  exists st',
    store_run (fun _ => Some "no connection") false
              (queued_store, NewLogConsumer) sample_store_run = Some st' /\
    in_flight st' =
      [sample_log "AAAA"; sample_log "BBBB"; sample_log "CCCC";
       sample_log "DDDD"] /\
    lc_inserted (snd st') = [[sample_log "AAAA"; sample_log "BBBB"]].
Proof.
  assert (E : exists st',
            store_run (fun _ => Some "no connection") false
                      (queued_store, NewLogConsumer) sample_store_run
            = Some st')
    by (eexists; vm_compute; reflexivity).
  destruct E as [st' E]. exists st'. split; [exact E|].
  destruct (X21_log_pipeline_keeps_order _ _ _ _ E) as (_ & acc & _ & Hf & _).
  - split; [vm_compute; lia|constructor].
  - reflexivity.
  - vm_compute in E. inversion E; subst. split; reflexivity.
Defined.
(** X22. A burst of [Store] calls keeps the first arrivals: the queue
    takes the logs in the order they come until it holds its capacity, and
    every later log is dropped with one warning each; no call fails or
    waits. *)
Theorem X22_store_keeps_first_arrivals (insertMany : list WAFLog -> error)
        (ctx_done : bool) (c : LogConsumer) (ls : list WAFLog) :
  forall s : MongoLogStore,
  chan_closed (logChan s) = false ->
  (length (chan_buf (logChan s)) <= chan_cap (logChan s))%nat ->
  exists s',
    store_run insertMany ctx_done (s, c) (DoStore <$> ls) = Some (s', c) /\
    chan_buf (logChan s') =
      take (chan_cap (logChan s)) (chan_buf (logChan s) ++ ls) /\
    store_logger s' =
      store_logger s
        ++ replicate (length (chan_buf (logChan s) ++ ls)
                      - chan_cap (logChan s))%nat
                     (LWarn, MsgLogChannelFull).
Proof.
  induction ls as [|l ls IH]; intros s Hopen Hcap.
  - exists s. split; [reflexivity|]. rewrite !app_nil_r.
    rewrite take_ge by lia.
    replace (length (chan_buf (logChan s)) - chan_cap (logChan s))%nat
      with 0%nat by lia.
    simpl. rewrite app_nil_r. split; reflexivity.
  - cbn [fmap list_fmap store_run store_step].
    unfold MongoLogStore_Store, select_send, chan_full. rewrite Hopen.
    destruct (Nat.leb_spec (chan_cap (logChan s))
                           (length (chan_buf (logChan s)))) as [Hfull|Hroom];
      cbn [bind].
    + match goal with
      | |- context [store_run _ _ (?s1, c) _] =>
          destruct (IH s1) as (s' & E & Hbuf & Hlog); [exact Hopen|exact Hcap|]
      end.
      exists s'. split; [exact E|]. simpl in Hbuf, Hlog. split.
      * rewrite Hbuf. rewrite !take_app_le by lia. reflexivity.
      * rewrite Hlog, <- app_assoc. f_equal. rewrite !length_app. simpl.
        replace (length (chan_buf (logChan s)) + S (length ls)
                 - chan_cap (logChan s))%nat
          with (S (length (chan_buf (logChan s)) + length ls
                   - chan_cap (logChan s)))%nat by lia.
        reflexivity.
    + match goal with
      | |- context [store_run _ _ (?s1, c) _] =>
          destruct (IH s1) as (s' & E & Hbuf & Hlog);
            [reflexivity|simpl; rewrite length_app; simpl; lia|]
      end.
      exists s'. split; [exact E|]. simpl in Hbuf, Hlog. split.
      * rewrite Hbuf, <- app_assoc. reflexivity.
      * rewrite Hlog. f_equal. f_equal. rewrite !length_app. simpl. lia.
Qed.

Lemma X22_store_keeps_first_arrivals_witness :
  exists s',
    store_run (fun _ => None) false
      (mkLogStore (mkChan [sample_log "AAAA"] 2 false) [] true, NewLogConsumer)
      (DoStore <$> [sample_log "BBBB"; sample_log "CCCC"; sample_log "DDDD"])
    = Some (s', NewLogConsumer) /\
    chan_buf (logChan s') = [sample_log "AAAA"; sample_log "BBBB"] /\
    store_logger s' = [(LWarn, MsgLogChannelFull); (LWarn, MsgLogChannelFull)].
Proof.
  apply (X22_store_keeps_first_arrivals (fun _ => None) false NewLogConsumer
           [sample_log "BBBB"; sample_log "CCCC"; sample_log "DDDD"]
           (mkLogStore (mkChan [sample_log "AAAA"] 2 false) [] true)).
  - reflexivity.
  - simpl. lia.
Defined.

(* ===================================================================== *)
(** * The ban persister: from the queue to the bulk write *)
(* ===================================================================== *)

Section BanPipeline.
Local Open Scope nat_scope.
Local Arguments Nat.leb : simpl never.
Local Arguments Nat.ltb : simpl never.

Variable bulkWrite : list BlockedIPRecord -> error.

Lemma flushBatch_written (w : BanWriter) (batch : list BlockedIPRecord) :
  concat (bw_written (MongoIPRecorder_flushBatch bulkWrite w batch))
  = concat (bw_written w) ++ batch /\
  bw_batch (MongoIPRecorder_flushBatch bulkWrite w batch) = bw_batch w /\
  bw_exited (MongoIPRecorder_flushBatch bulkWrite w batch) = bw_exited w.
Proof.
  unfold MongoIPRecorder_flushBatch. destruct batch as [|x b]; simpl.
  - rewrite app_nil_r. auto.
  - rewrite concat_app. simpl. rewrite app_nil_r. auto.
Qed.

Lemma flushBatch_written_ok (w : BanWriter) (batch : list BlockedIPRecord) :
  1 <= length batch <= 100 ->
  Forall (fun b => 1 <= length b <= 100) (bw_written w) ->
  Forall (fun b => 1 <= length b <= 100)
         (bw_written (MongoIPRecorder_flushBatch bulkWrite w batch)).
Proof.
  intros Hlen Hall. unfold MongoIPRecorder_flushBatch.
  destruct batch as [|x b]; simpl; [exact Hall|].
  apply Forall_app. split; [exact Hall|]. constructor; [exact Hlen|constructor].
Qed.

Lemma batchWriteLoop_step_spec (stopped : bool) (q q' : chan BlockedIPRecord)
      (w w' : BanWriter) (sel : BanSelect) :
  batchWriteLoop_step bulkWrite stopped q w sel = Some (q', w') ->
  chan_closed q = false -> ban_batches_ok w ->
  chan_closed q' = false /\ ban_batches_ok w' /\
  ban_in_flight q' w' = ban_in_flight q w.
Proof.
  unfold batchWriteLoop_step, ban_in_flight, ban_batches_ok.
  intros E Hopen [Hb Hall].
  destruct (bw_exited w) eqn:Eex; [discriminate|].
  destruct sel.
  - unfold chan_recv in E. rewrite Hopen in E.
    destruct (chan_buf q) as [|v rest] eqn:Ebuf; [discriminate|].
    destruct (Nat.leb_spec 100 (length (bw_batch w ++ [v]))) as [Hf|Hf];
      inversion E; subst; clear E; cbn [chan_closed chan_buf].
    + destruct (flushBatch_written w (bw_batch w ++ [v])) as (Hc & Hbt & He).
      cbn [set_bw_batch bw_written bw_batch bw_exited].
      rewrite He, Eex, Hc. rewrite length_app in Hf. simpl in Hf.
      split; [reflexivity|]. split.
      * split; [simpl; lia|].
        apply flushBatch_written_ok; [|exact Hall].
        rewrite length_app. simpl. lia.
      * simpl. rewrite <- !app_assoc. reflexivity.
    + cbn [set_bw_batch bw_written bw_batch bw_exited]. rewrite Eex.
      split; [reflexivity|]. split; [split; assumption|].
      rewrite <- !app_assoc. reflexivity.
  - destruct (Nat.ltb_spec 0 (length (bw_batch w))) as [Hn|Hn];
      inversion E; subst; clear E.
    + destruct (flushBatch_written w (bw_batch w)) as (Hc & Hbt & He).
      cbn [set_bw_batch bw_written bw_batch bw_exited].
      rewrite He, Eex, Hc.
      split; [exact Hopen|]. split.
      * split; [simpl; lia|].
        apply flushBatch_written_ok; [lia|exact Hall].
      * simpl. rewrite <- !app_assoc. reflexivity.
    + rewrite Eex. split; [exact Hopen|]. split; [split; assumption|].
      reflexivity.
  - destruct stopped; [|discriminate].
    destruct (Nat.ltb_spec 0 (length (bw_batch w))) as [Hn|Hn];
      inversion E; subst; clear E; cbn [bw_written bw_batch bw_exited].
    + destruct (flushBatch_written w (bw_batch w)) as (Hc & Hbt & He).
      rewrite Hc, Hbt. split; [exact Hopen|]. split.
      * split; [exact Hb|].
        apply flushBatch_written_ok; [lia|exact Hall].
      * simpl. rewrite <- !app_assoc. reflexivity.
    + split; [exact Hopen|]. split; [split; assumption|].
      destruct (bw_batch w); [reflexivity|simpl in Hn; lia].
Qed.

Lemma batchWriteLoop_run_spec (stopped : bool) (sels : list BanSelect) :
  forall q w q' w',
  batchWriteLoop_run bulkWrite stopped q w sels = Some (q', w') ->
  chan_closed q = false -> ban_batches_ok w ->
  ban_batches_ok w' /\ ban_in_flight q' w' = ban_in_flight q w.
Proof.
  induction sels as [|sel sels IH]; intros q w q' w' E Hopen Hok; simpl in E.
  - inversion E; subst. auto.
  - destruct (batchWriteLoop_step bulkWrite stopped q w sel)
      as [[q1 w1]|] eqn:E1; [|discriminate].
    destruct (batchWriteLoop_step_spec _ _ _ _ _ _ E1 Hopen Hok)
      as (Hopen1 & Hok1 & Hf1).
    destruct (IH q1 w1 q' w' E Hopen1 Hok1) as (Hok' & Hf').
    split; [exact Hok'|congruence].
Qed.

End BanPipeline.

(** X23. While the write queue is open, [batchWriteLoop] neither loses,
    duplicates nor reorders a record: the records handed to the bulk
    write, then the batch, then the queue are, in this order, the same
    sequence after any number of iterations.  Every bulk write gets between
    1 and 100 records.  On the stop signal the loop writes its batch and
    returns; what is still queued then is never written.  The loop does not
    check whether the queue was closed: reading the closed, drained queue
    puts an empty record into the batch. *)
Theorem X23_ban_writer_keeps_order
        (bulkWrite : list BlockedIPRecord -> error) (stopped : bool)
        (q : chan BlockedIPRecord) (w : BanWriter) :
  (forall sels q' w',
     batchWriteLoop_run bulkWrite stopped q w sels = Some (q', w') ->
     chan_closed q = false -> ban_batches_ok w -> bw_exited w = false ->
     ban_batches_ok w' /\
     concat (bw_written w') ++ (if bw_exited w' then [] else bw_batch w')
       ++ chan_buf q'
     = concat (bw_written w) ++ bw_batch w ++ chan_buf q) /\
  (forall sel, bw_exited w = true ->
     batchWriteLoop_step bulkWrite stopped q w sel = None) /\
  (chan_closed q = true -> chan_buf q = [] -> bw_exited w = false ->
   (length (bw_batch w) < 99)%nat ->
   batchWriteLoop_step bulkWrite stopped q w SelRecord =
     Some (q, set_bw_batch (bw_batch w ++ [zeroRecord]) w)).
Proof.
  split; [|split].
  - intros sels q' w' E Hopen Hok Hex.
    destruct (batchWriteLoop_run_spec bulkWrite stopped sels q w q' w' E Hopen
                Hok) as [Hok' Hf].
    split; [exact Hok'|]. unfold ban_in_flight in Hf. rewrite Hex in Hf.
    exact Hf.
  - intros sel Hex. unfold batchWriteLoop_step. rewrite Hex. reflexivity.
  - intros Hclosed Hbuf Hex Hlen. unfold batchWriteLoop_step, chan_recv.
    rewrite Hex, Hbuf, Hclosed.
    destruct (Nat.leb_spec 100 (length (bw_batch w ++ [zeroRecord])))
      as [Hf|Hf]; [|reflexivity].
    rewrite length_app in Hf. simpl in Hf. lia.
Qed.

Lemma X23_ban_writer_keeps_order_witness :
  exists q' w',
    batchWriteLoop_run (fun _ => None) true
      (mkChan [mkBlocked "203.0.113.7" "bruteforce" 100 150;
               mkBlocked "198.51.100.4" "scanner" 101 111;
               mkBlocked "192.0.2.33" "flood" 102 132] 1000 false)
      NewBanWriter [SelRecord; SelRecord; SelStop] = Some (q', w') /\
    bw_written w' = [[mkBlocked "203.0.113.7" "bruteforce" 100 150;
                      mkBlocked "198.51.100.4" "scanner" 101 111]] /\
    bw_exited w' = true /\
    chan_buf q' = [mkBlocked "192.0.2.33" "flood" 102 132].
Proof.
  assert (E : exists q' w',
    batchWriteLoop_run (fun _ => None) true
      (mkChan [mkBlocked "203.0.113.7" "bruteforce" 100 150;
               mkBlocked "198.51.100.4" "scanner" 101 111;
               mkBlocked "192.0.2.33" "flood" 102 132] 1000 false)
      NewBanWriter [SelRecord; SelRecord; SelStop] = Some (q', w'))
    by (eexists _, _; vm_compute; reflexivity).
  destruct E as (q' & w' & E). exists q', w'. split; [exact E|].
  destruct (proj1 (X23_ban_writer_keeps_order (fun _ => None) true _ _)
              _ _ _ E) as [_ Hf].
  - reflexivity.
  - split; [vm_compute; lia|constructor].
  - reflexivity.
  - vm_compute in E. inversion E; subst. repeat split.
Defined.

(* ===================================================================== *)
(** * The log store: Start and Close *)
(* ===================================================================== *)

Lemma stored_logs_selects (n : nat) (sel : LogSelect) :
  stored_logs (replicate n (DoSelect sel)) = [].
Proof. induction n as [|n IH]; [reflexivity|exact IH]. Qed.

Lemma store_run_cons (insertMany : list WAFLog -> error) (ctx_done : bool)
      (st st1 : MongoLogStore * LogConsumer) (x : StoreAction)
      (xs : list StoreAction) :
  store_step insertMany ctx_done st x = Some st1 ->
  store_run insertMany ctx_done st (x :: xs)
  = store_run insertMany ctx_done st1 xs.
Proof. intros E. simpl. rewrite E. reflexivity. Qed.

(** Left alone with a closed queue, the consumer takes what is queued and
    returns. *)
Lemma drain_runs (insertMany : list WAFLog -> error) (n : nat) :
  forall s c,
  chan_closed (logChan s) = true -> length (chan_buf (logChan s)) = n ->
  lc_exited c = false ->
  exists s2 c2,
    store_run insertMany false (s, c) (replicate (S n) (DoSelect SelLog))
    = Some (s2, c2) /\ lc_exited c2 = true /\ processStarted s2 = false.
Proof.
  induction n as [|n IH]; intros s c Hclosed Hlen Hex.
  - cbn [replicate store_run store_step]. unfold processLogs_step, chan_recv.
    rewrite Hex, Hclosed.
    destruct (chan_buf (logChan s)); [|discriminate].
    eexists _, _. split; [reflexivity|]. split; reflexivity.
  - destruct (chan_buf (logChan s)) as [|v rest] eqn:Ebuf; [discriminate|].
    assert (E1 : exists c1,
      store_step insertMany false (s, c) (DoSelect SelLog)
      = Some (mkLogStore (mkChan rest (chan_cap (logChan s)) true)
                         (store_logger s) (processStarted s), c1) /\
      lc_exited c1 = false).
    { cbn [store_step]. unfold processLogs_step, chan_recv.
      rewrite Hex, Ebuf, Hclosed. cbv zeta. eexists. split; [reflexivity|].
      match goal with
      | |- lc_exited (if ?b then _ else _) = false => destruct b
      end; [|reflexivity].
      rewrite (proj2 (flushBatch_fields _ _)). reflexivity. }
    destruct E1 as (c1 & E1 & Hex1).
    change (replicate (S (S n)) (DoSelect SelLog))
      with (DoSelect SelLog :: replicate (S n) (DoSelect SelLog)).
    rewrite (store_run_cons _ _ _ _ _ _ E1).
    apply IH; [reflexivity|simpl in *; lia|exact Hex1].
Qed.

(** X24. The life cycle of the log store.  [Start] is idempotent: a
    second call starts no second consumer.  [Close] on a store that was not
    started does nothing (the queue stays open).  [Close] on a started
    store closes the queue; after that a second [Close] does nothing, a
    [Store] panics (it sends on the closed queue), and the consumer hands
    every log still queued to the database, in order, and returns.  A
    [Close] that finds the store marked as started while its queue is
    already closed (the store was started again after a [Close]) panics. *)
Theorem X24_log_store_life_cycle (insertMany : list WAFLog -> error)
        (s : MongoLogStore) :
  (MongoLogStore_Start (fst (fst (MongoLogStore_Start s)))
   = (fst (fst (MongoLogStore_Start s)), [(LDebug, MsgAlreadyStarted)], false)
   /\ snd (MongoLogStore_Start s) = negb (processStarted s)) /\
  (processStarted s = false -> MongoLogStore_Close s = Ret (s, [])) /\
  (processStarted s = true -> chan_closed (logChan s) = false ->
   exists s1,
     MongoLogStore_Close s = Ret (s1, [(LInfo, MsgClosing)]) /\
     chan_buf (logChan s1) = chan_buf (logChan s) /\
     MongoLogStore_Close s1 = Ret (s1, []) /\
     (forall log, MongoLogStore_Store s1 log = Panic) /\
     (forall c, batches_ok c -> lc_exited c = false ->
        exists s2 c2,
          store_run insertMany false (s1, c)
            (replicate (S (length (chan_buf (logChan s)))) (DoSelect SelLog))
          = Some (s2, c2) /\
          lc_exited c2 = true /\ processStarted s2 = false /\
          concat (lc_inserted c2) =
            concat (lc_inserted c) ++ lc_batch c ++ chan_buf (logChan s))) /\
  (processStarted s = true -> chan_closed (logChan s) = true ->
   MongoLogStore_Close s = Panic).
Proof.
  split; [|split; [|split]].
  - unfold MongoLogStore_Start.
    destruct (processStarted s) eqn:Ep; simpl; [rewrite Ep|]; auto.
  - intros Hp. unfold MongoLogStore_Close. rewrite Hp. reflexivity.
  - intros Hp Hopen. unfold MongoLogStore_Close, chan_close.
    rewrite Hp, Hopen. cbn [bind]. eexists. split; [reflexivity|].
    split; [reflexivity|]. split; [reflexivity|]. split; [reflexivity|].
    intros c Hok Hex.
    match goal with
    | |- context [store_run _ _ (?x, c) _] => set (s1 := x)
    end.
    destruct (drain_runs insertMany (length (chan_buf (logChan s))) s1 c
                eq_refl eq_refl Hex) as (s2 & c2 & E & Hex2 & Hp2).
    exists s2, c2. split; [exact E|]. split; [exact Hex2|].
    split; [exact Hp2|].
    destruct (store_run_spec insertMany _ (s1, c) (s2, c2) E Hok)
      as (_ & Hdr & acc & Hf & Hs).
    { intros H. simpl in H. congruence. }
    rewrite stored_logs_selects in Hs. apply sublist_nil_r in Hs. subst acc.
    destruct (Hdr Hex2) as (Hb & Hq & _).
    unfold in_flight in Hf. simpl in Hf, Hb, Hq.
    rewrite Hb, Hq, !app_nil_r in Hf. exact Hf.
  - intros Hp Hclosed. unfold MongoLogStore_Close, chan_close.
    rewrite Hp, Hclosed. reflexivity.
Qed.

Lemma X24_log_store_life_cycle_witness :
  exists s1 s2 c2,
    MongoLogStore_Close queued_store = Ret (s1, [(LInfo, MsgClosing)]) /\
    store_run (fun _ => None) false (s1, NewLogConsumer)
              (replicate 4 (DoSelect SelLog)) = Some (s2, c2) /\
    lc_exited c2 = true /\
    concat (lc_inserted c2) =
      [sample_log "AAAA"; sample_log "BBBB"; sample_log "CCCC"] /\
    MongoLogStore_Store s1 (sample_log "DDDD") = Panic /\
    MongoLogStore_Close (fst (fst (MongoLogStore_Start s1))) = Panic.
Proof.
  destruct (proj1 (proj2 (proj2 (X24_log_store_life_cycle (fun _ => None)
                                   queued_store))) eq_refl eq_refl)
    as (s1 & E1 & Hbuf & _ & Hstore & Hdrain).
  destruct (Hdrain NewLogConsumer) as (s2 & c2 & E2 & Hex2 & _ & Hins).
  - split; [vm_compute; lia|constructor].
  - reflexivity.
  - exists s1, s2, c2. split; [exact E1|]. split; [exact E2|].
    split; [exact Hex2|]. split; [exact Hins|]. split; [apply Hstore|].
    apply (proj2 (proj2 (proj2 (X24_log_store_life_cycle (fun _ => None)
                                  (fst (fst (MongoLogStore_Start s1))))))).
    + vm_compute in E1. inversion E1; subst. reflexivity.
    + vm_compute in E1. inversion E1; subst. reflexivity.
Defined.

(* ===================================================================== *)
(** * The ban persister on top of the registry *)
(* ===================================================================== *)

Lemma RecordBlockedIP_lookup (now now1 : Time) (r : MemoryIPRecorder)
      (i reason : string) (d : Duration) :
  recorder_wf r ->
  exists r', RecordBlockedIP now now1 r i reason d = Ret (r', None) /\
    recorder_wf r' /\
    blockedIPs r' !! i = Some (mkBlocked i reason now (now + d)).
Proof.
  intros Hwf. destruct (expiryItems r !! i) as [l|] eqn:El.
  - destruct (RecordBlockedIP_existing now now1 r i reason d l Hwf El)
      as (r' & it' & E & Hwf' & Hb & _).
    exists r'. split; [exact E|]. split; [exact Hwf'|].
    rewrite Hb. apply lookup_insert_eq.
  - destruct (RecordBlockedIP_new now now1 r i reason d Hwf El)
      as (r1 & r' & _ & E & Hwf' & Hb & _).
    exists r'. split; [exact E|]. split; [exact Hwf'|].
    rewrite Hb. apply lookup_insert_eq.
Qed.

(** X25. A ban through the persister takes effect in memory at once and is
    queued for the database as a copy of its own: [IsIPBlocked] of the
    persister answers from the in-memory registry with the record stamped
    by the first clock reading, while the copy appended to the write queue
    (when there is room) is stamped by a later reading of its own, so its
    BlockedAt and BlockedUntil can differ from the record in memory.  The
    registry stays well formed and no error is returned.  ([now1] is the
    reading [ensureCapacity] takes in between.) *)
Theorem X25_persisted_ban_has_own_timestamps (now now1 now' : Time)
        (r : MongoIPRecorder) (i reason : string) (d : Duration) :
  recorder_wf (memory r) -> chan_closed (writeQueue r) = false ->
  0 < now + d ->
  exists r',
    MongoIPRecorder_RecordBlockedIP now now1 now' r i reason d
      = Ret (r', None) /\
    recorder_wf (memory r') /\
    (forall t, t <= now + d ->
       MongoIPRecorder_IsIPBlocked t r' i =
         (true, Some (mkBlocked i reason now (now + d)))) /\
    chan_buf (writeQueue r') =
      (if chan_full (writeQueue r) then chan_buf (writeQueue r)
       else chan_buf (writeQueue r)
              ++ [mkBlocked i reason now' (now' + d)]).
Proof.
  intros Hwf Hopen Hpos.
  destruct (RecordBlockedIP_lookup now now1 (memory r) i reason d Hwf)
    as (m' & E & Hwf' & Hrec).
  unfold MongoIPRecorder_RecordBlockedIP, select_send.
  rewrite E, Hopen. cbn [bind].
  assert (Hblk : forall c lg t, t <= now + d ->
            MongoIPRecorder_IsIPBlocked t (mkMongoRecorder m' c lg) i =
              (true, Some (mkBlocked i reason now (now + d)))).
  { intros c lg t Ht.
    unfold MongoIPRecorder_IsIPBlocked, IsIPBlocked, Time_IsZero, Time_After.
    simpl. rewrite Hrec. simpl.
    destruct (Z.eqb_spec (now + d) 0); [lia|].
    destruct (Z.ltb_spec (now + d) t); [lia|reflexivity]. }
  destruct (chan_full (writeQueue r)); cbn [bind];
    eexists; (split; [reflexivity|]); (split; [exact Hwf'|]);
    (split; [apply Hblk|reflexivity]).
Qed.

Lemma X25_persisted_ban_has_own_timestamps_witness :
  exists r',
    MongoIPRecorder_RecordBlockedIP 200 202 205
      (mkMongoRecorder full_registry (mkChan [] 1000 false) [])
      "192.0.2.33" "again" 40 = Ret (r', None) /\
    MongoIPRecorder_IsIPBlocked 240 r' "192.0.2.33" =
      (true, Some (mkBlocked "192.0.2.33" "again" 200 240)) /\
    chan_buf (writeQueue r') = [mkBlocked "192.0.2.33" "again" 205 245].
Proof.
  destruct (X25_persisted_ban_has_own_timestamps 200 202 205
              (mkMongoRecorder full_registry (mkChan [] 1000 false) [])
              "192.0.2.33" "again" 40 full_registry_wf eq_refl ltac:(lia))
    as (r' & E & _ & Hblk & Hq).
  exists r'. split; [exact E|]. split; [apply Hblk; lia|exact Hq].
Defined.

(* ===================================================================== *)
(** * The security log entry of an interrupted transaction *)
(* ===================================================================== *)

Lemma addMatchedRule_fold (it : Interruption) (rules : list MatchedRule) :
  forall w,
  let w' := fold_left (addMatchedRule it) rules w in
  Logs w' = Logs w ++ (log_of <$> List.filter (contributes it) rules) /\
  CreatedAt w' = CreatedAt w /\ Request w' = Request w /\
  Domain w' = Domain w /\ SrcIP w' = SrcIP w /\ DstIP w' = DstIP w /\
  RequestID w' = RequestID w /\
  (Forall (fun mr => contributes it mr = false) rules -> w' = w).
Proof.
  induction rules as [|mr rules IH]; intros w; simpl.
  - rewrite app_nil_r. repeat split; reflexivity.
  - destruct (IH (addMatchedRule it w mr))
      as (H1 & H2 & H3 & H4 & H5 & H6 & H7 & H8).
    unfold addMatchedRule in *. fold (contributes it mr) in *.
    destruct (contributes it mr) eqn:Ec; simpl in *.
    + rewrite H1, H2, H3, H4, H5, H6, H7, <- app_assoc.
      repeat split; try reflexivity.
      intros HF. inversion HF; subst. congruence.
    + rewrite H1, H2, H3, H4, H5, H6, H7. repeat split; try reflexivity.
      intros HF. inversion HF; subst. auto.
Qed.

(** X26. The security log entry of an interrupted transaction lists
    exactly the matched rules that are the interrupting rule or carry
    data, in the order the engine reports them; the request part of the
    entry (time, request text, host, client and destination address,
    request id) does not depend on the rules.  When no rule qualifies the
    entry is pushed all the same, with no rule, message or payload; the
    rule id of the entry is that of the last listed rule when it is not
    zero. *)
Theorem X26_firewall_log_lists_contributing_rules (env : Env)
        (a : Application) (rules : list MatchedRule) (it : Interruption)
        (req : applicationRequest) (headers : string) :
  let lg := firewallLog env rules it req headers in
  saveFirewallLog env a rules it req headers = logStore_Store a lg /\
  Logs lg = log_of <$> List.filter (contributes it) rules /\
  CreatedAt lg = env_now env /\
  Request lg = buildRequestString req headers /\
  Domain lg = getHostFromRequest req /\
  SrcIP lg = getRealClientIP (Some req) /\
  RequestID lg = ID req /\
  (Forall (fun mr => contributes it mr = false) rules ->
   RuleID lg = 0 /\ Message lg = EmptyString /\ Payload lg = EmptyString) /\
  (forall pre mr, rules = pre ++ [mr] -> contributes it mr = true ->
     mr_ID mr <> 0 -> RuleID lg = mr_ID mr).
Proof.
  intros lg. split; [reflexivity|]. unfold lg, firewallLog.
  match goal with
  | |- context [fold_left (addMatchedRule it) rules ?w0] =>
      destruct (addMatchedRule_fold it rules w0)
        as (H1 & H2 & H3 & H4 & H5 & _ & H7 & H8)
  end.
  cbv zeta in *. simpl in H1, H2, H3, H4, H5, H7.
  split; [exact H1|]. split; [exact H2|]. split; [exact H3|].
  split; [exact H4|]. split; [exact H5|]. split; [exact H7|]. split.
  - intros HF. rewrite (H8 HF). repeat split.
  - intros pre mr -> Hc Hid. rewrite fold_left_app. simpl.
    unfold addMatchedRule at 1. fold (contributes it mr). rewrite Hc. simpl.
    unfold keep_Z. destruct (Z.eqb_spec (mr_ID mr) 0); [contradiction|].
    reflexivity.
Qed.

Lemma X26_firewall_log_lists_contributing_rules_witness :
  Log_RuleID
    <$> Logs (firewallLog sample_env sample_rules
                (mkInterruption 949110 "deny" 403 EmptyString)
                plain_request (Headers plain_request))
  = [949110; 942100] /\
  RuleID (firewallLog sample_env sample_rules
            (mkInterruption 949110 "deny" 403 EmptyString)
            plain_request (Headers plain_request)) = 942100 /\
  RuleID (firewallLog sample_env
            [mkMatchedRule "Correlation" EmptyString "/index.html"
                           "198.51.100.9" "192.0.2.1" "[id 980130]" 980130
                           0 5 EmptyString 0 "SecRule TX:BLOCKING"]
            (mkInterruption 949110 "deny" 403 EmptyString)
            plain_request (Headers plain_request)) = 0.
Proof.
  split; [|split].
  - rewrite (proj1 (proj2 (X26_firewall_log_lists_contributing_rules
                             sample_env sample_app sample_rules
                             (mkInterruption 949110 "deny" 403 EmptyString)
                             plain_request (Headers plain_request)))).
    reflexivity.
  - vm_compute. reflexivity.
  - apply (proj1 (proj2 (proj2 (proj2 (proj2 (proj2 (proj2 (proj2
             (X26_firewall_log_lists_contributing_rules
                sample_env sample_app _
                (mkInterruption 949110 "deny" 403 EmptyString)
                plain_request (Headers plain_request)))))))))).
    constructor; [reflexivity|constructor].
Defined.

(* ===================================================================== *)
(** * Scanning the lines of a header block *)
(* ===================================================================== *)

Lemma string_app_length (s t : string) :
  String.length (s +:+ t) = (String.length s + String.length t)%nat.
Proof.
  induction s as [|c s IH]; [reflexivity|].
  rewrite string_app_cons. simpl. rewrite IH. reflexivity.
Qed.

Lemma Cut_app_sep (s t : string) (sep : ascii) :
  Cut s sep = None -> Cut (s +:+ String sep t) sep = Some (s, t).
Proof.
  induction s as [|c s IH]; intros H.
  - change (EmptyString +:+ String sep t) with (String sep t).
    simpl. rewrite Ascii.eqb_refl. reflexivity.
  - rewrite string_app_cons. simpl in *.
    destruct (Ascii.eqb c sep); [discriminate|].
    destruct (Cut s sep) as [[a b]|]; [discriminate|].
    rewrite (IH eq_refl). reflexivity.
Qed.

Lemma Cut_app_none (s t : string) (sep : ascii) :
  Cut s sep = None -> Cut t sep = None -> Cut (s +:+ t) sep = None.
Proof.
  induction s as [|c s IH]; intros Hs Ht; [exact Ht|].
  rewrite string_app_cons. simpl in *.
  destruct (Ascii.eqb c sep); [discriminate|].
  destruct (Cut s sep) as [[a b]|]; [discriminate|].
  rewrite (IH eq_refl Ht). reflexivity.
Qed.

Lemma Split_app_sep (s t : string) (sep : ascii) :
  Cut s sep = None -> Split (s +:+ String sep t) sep = s :: Split t sep.
Proof.
  induction s as [|c s IH]; intros H.
  - change (EmptyString +:+ String sep t) with (String sep t).
    simpl. rewrite Ascii.eqb_refl. reflexivity.
  - rewrite string_app_cons. simpl in *.
    destruct (Ascii.eqb c sep); [discriminate|].
    destruct (Cut s sep) as [[a b]|]; [discriminate|].
    rewrite (IH eq_refl). reflexivity.
Qed.

Lemma dropCR_snoc (l : string) : dropCR (l +:+ String CR EmptyString) = l.
Proof.
  induction l as [|c l IH]; [reflexivity|].
  destruct l as [|d l]; [reflexivity|].
  rewrite !string_app_cons in *.
  change (dropCR (String c (String d (l +:+ String CR EmptyString))))
    with (String c (dropCR (String d (l +:+ String CR EmptyString)))).
  rewrite IH. reflexivity.
Qed.

Lemma Split_lines_of (ls : list string) :
  Forall (fun l => Cut l LF = None) ls ->
  Split (lines_of ls) LF =
    ((fun l => l +:+ String CR EmptyString) <$> ls) ++ [EmptyString].
Proof.
  induction 1 as [|l ls Hl _ IH]; [reflexivity|].
  cbn [lines_of fold_right fmap list_fmap app].
  change (fold_right (fun l0 acc => l0 +:+ String CR (String LF acc))
                     EmptyString ls) with (lines_of ls).
  replace (l +:+ String CR (String LF (lines_of ls)))
    with ((l +:+ String CR EmptyString) +:+ String LF (lines_of ls)).
  - rewrite Split_app_sep, IH; [reflexivity|].
    apply Cut_app_none; [exact Hl|reflexivity].
  - rewrite string_app_assoc. reflexivity.
Qed.

Lemma rawLines_lines_of (ls : list string) :
  Forall (fun l => Cut l LF = None) ls ->
  rawLines (lines_of ls) = (fun l => l +:+ String CR EmptyString) <$> ls.
Proof.
  intros H. unfold rawLines. rewrite (Split_lines_of ls H).
  rewrite List.last_last. simpl is_empty. cbv iota.
  apply List.removelast_last.
Qed.

Lemma scanTokens_overlong (pre : list string) (long : string)
      (post : list string) :
  Forall (fun l => (N.of_nat (String.length l) <? MaxScanTokenSize)%N = true)
         pre ->
  (N.of_nat (String.length long) <? MaxScanTokenSize)%N = false ->
  scanTokens (pre ++ long :: post) = dropCR <$> pre.
Proof.
  intros Hpre Hlong. induction Hpre as [|l pre Hl _ IH]; simpl.
  - rewrite Hlong. reflexivity.
  - rewrite Hl, IH. reflexivity.
Qed.

(** X27. A header line that does not fit the token buffer of the scanner
    (65536 bytes, line feed included) ends the scan without a word:
    neither [readHeaders] nor [getHeaderValue] sees that line or anything
    after it, and [readHeaders] reports no error for it. *)
Theorem X27_overlong_line_ends_scan_silently (headers long : string)
        (pre post : list string) :
  rawLines headers = pre ++ long :: post ->
  Forall (fun l => (N.of_nat (String.length l) <? MaxScanTokenSize)%N = true)
         pre ->
  (N.of_nat (String.length long) <? MaxScanTokenSize)%N = false ->
  ScanLines headers = dropCR <$> pre /\
  readHeaders headers = readHeaders_scan (dropCR <$> pre) /\
  forall target,
    getHeaderValue headers target =
      (getHeaderValue_scan (dropCR <$> pre) target, None).
Proof.
  intros Hraw Hpre Hlong.
  assert (Hs : ScanLines headers = dropCR <$> pre).
  { unfold ScanLines. rewrite Hraw.
    apply scanTokens_overlong; assumption. }
  split; [exact Hs|]. unfold readHeaders, getHeaderValue. rewrite Hs.
  split; [reflexivity|]. intros target. reflexivity.
Qed.

Lemma Cut_repeat (c sep : ascii) (n : nat) :
  Ascii.eqb c sep = false ->
  Cut (string_of_list_ascii (repeat c n)) sep = None.
Proof.
  intros H. induction n as [|n IH]; [reflexivity|].
  simpl. rewrite H, IH. reflexivity.
Qed.

Lemma length_repeat_string (c : ascii) (n : nat) :
  String.length (string_of_list_ascii (repeat c n)) = n.
Proof. induction n as [|n IH]; [reflexivity|]. simpl. rewrite IH. reflexivity. Qed.

Lemma X27_overlong_line_ends_scan_silently_witness :
  readHeaders (lines_of ["Host: example.com"; long_line;
                         "X-Real-IP: 203.0.113.7"])
  = ([("Host", "example.com")], None) /\
  getHeaderValue (lines_of ["Host: example.com"; long_line;
                            "X-Real-IP: 203.0.113.7"]) "x-real-ip"
  = (EmptyString, None).
Proof.
  destruct (X27_overlong_line_ends_scan_silently
              (lines_of ["Host: example.com"; long_line;
                         "X-Real-IP: 203.0.113.7"])
              (long_line +:+ String CR EmptyString)
              ["Host: example.com" +:+ String CR EmptyString]
              ["X-Real-IP: 203.0.113.7" +:+ String CR EmptyString])
    as (_ & Hread & Hget).
  - apply rawLines_lines_of.
    constructor; [reflexivity|]. constructor; [|constructor; [reflexivity|constructor]].
    apply Cut_repeat. reflexivity.
  - constructor; [reflexivity|constructor].
  - rewrite string_app_length. unfold long_line.
    rewrite length_repeat_string. apply N.ltb_ge.
    rewrite Nat2N.inj_add, N2Nat.id. simpl String.length.
    apply N.le_add_r.
  - split; [rewrite Hread; reflexivity|rewrite Hget; reflexivity].
Defined.
Lemma scanTokens_snoc_CR (ls : list string) :
  Forall (fun l => (N.of_nat (String.length l) + 1 <? MaxScanTokenSize)%N
                   = true) ls ->
  scanTokens ((fun l => l +:+ String CR EmptyString) <$> ls) = ls.
Proof.
  induction 1 as [|l ls Hl _ IH]; [reflexivity|].
  cbn [fmap list_fmap scanTokens].
  change (list_fmap string string (fun l0 => l0 +:+ String CR EmptyString) ls)
    with ((fun l0 => l0 +:+ String CR EmptyString) <$> ls).
  rewrite string_app_length. simpl String.length.
  rewrite Nat2N.inj_add. change (N.of_nat 1) with 1%N.
  rewrite Hl, dropCR_snoc, IH. reflexivity.
Qed.

Lemma ScanLines_lines_of (ls : list string) :
  Forall (fun l => Cut l LF = None) ls ->
  Forall (fun l => (N.of_nat (String.length l) + 1 <? MaxScanTokenSize)%N
                   = true) ls ->
  ScanLines (lines_of ls) = ls.
Proof.
  intros Hlf Hlen. unfold ScanLines.
  rewrite (rawLines_lines_of ls Hlf). apply scanTokens_snoc_CR. exact Hlen.
Qed.

Lemma dropBytes_length (n : nat) (s : string) :
  (String.length (dropBytes n s) <= String.length s)%nat.
Proof.
  revert s. induction n as [|n IH]; intros [|c s]; simpl; try lia.
  specialize (IH s). lia.
Qed.

Lemma TrimLeftFunc_loop_length (fuel : nat) (f : N -> bool) (s : string) :
  (String.length (TrimLeftFunc_loop fuel f s) <= String.length s)%nat.
Proof.
  revert s. induction fuel as [|fuel IH]; intros s; [destruct s; simpl; lia|].
  destruct s as [|c s]; [simpl; lia|].
  cbn [TrimLeftFunc_loop].
  destruct (DecodeRune (String c s)) as [r wid].
  destruct (f r); [|lia].
  pose proof (IH (dropBytes wid (String c s))) as H1.
  pose proof (dropBytes_length wid (String c s)) as H2. lia.
Qed.

Lemma TrimRightFunc_loop_length (fuel : nat) (f : N -> bool)
      (rs : list ascii) :
  (length (TrimRightFunc_loop fuel f rs) <= length rs)%nat.
Proof.
  revert rs. induction fuel as [|fuel IH]; intros rs;
    [destruct rs; simpl; lia|].
  destruct rs as [|c rs]; [simpl; lia|].
  cbn [TrimRightFunc_loop].
  destruct (DecodeLastRune_rev (c :: rs)) as [r size].
  destruct (f r); [|lia].
  pose proof (IH (drop size (c :: rs))) as H1.
  rewrite length_drop in H1. lia.
Qed.

Lemma length_string_of_list_ascii (l : list ascii) :
  String.length (string_of_list_ascii l) = length l.
Proof. induction l as [|c l IH]; simpl; [reflexivity|]. rewrite IH. reflexivity. Qed.

Lemma length_list_ascii_of_string (s : string) :
  length (list_ascii_of_string s) = String.length s.
Proof. induction s as [|c s IH]; simpl; [reflexivity|]. rewrite IH. reflexivity. Qed.

Lemma TrimRightFunc_length (f : N -> bool) (s : string) :
  (String.length (TrimRightFunc f s) <= String.length s)%nat.
Proof.
  unfold TrimRightFunc.
  rewrite length_string_of_list_ascii, length_rev.
  pose proof (TrimRightFunc_loop_length (String.length s) f
                (rev (list_ascii_of_string s))) as H.
  rewrite length_rev, length_list_ascii_of_string in H. exact H.
Qed.

(** A first byte below 0x80 that [f] does not hold of stops the trimming
    from the left, and so does such a last byte from the right. *)
Lemma TrimLeftFunc_head (f : N -> bool) (c : ascii) (s : string) :
  (N_of_ascii c <? RuneSelf)%N = true -> f (N_of_ascii c) = false ->
  TrimLeftFunc f (String c s) = String c s.
Proof.
  intros Hc Hf. unfold TrimLeftFunc. simpl String.length.
  cbn [TrimLeftFunc_loop DecodeRune]. rewrite Hc, Hf. reflexivity.
Qed.

Lemma TrimLeftFunc_skip (f : N -> bool) (c : ascii) (s : string) :
  (N_of_ascii c <? RuneSelf)%N = true -> f (N_of_ascii c) = true ->
  TrimLeftFunc f (String c s) = TrimLeftFunc f s.
Proof.
  intros Hc Hf. unfold TrimLeftFunc. simpl String.length.
  cbn [TrimLeftFunc_loop DecodeRune]. rewrite Hc, Hf. reflexivity.
Qed.

Lemma TrimRightFunc_last (f : N -> bool) (s : string) (c : ascii)
      (rs : list ascii) :
  rev (list_ascii_of_string s) = c :: rs ->
  (N_of_ascii c <? RuneSelf)%N = true -> f (N_of_ascii c) = false ->
  TrimRightFunc f s = s.
Proof.
  intros Hrev Hc Hf. unfold TrimRightFunc. rewrite Hrev.
  assert (Hlen : String.length s = S (length rs)).
  { rewrite <- length_list_ascii_of_string, <- length_rev, Hrev.
    reflexivity. }
  rewrite Hlen. cbn [TrimRightFunc_loop DecodeLastRune_rev].
  rewrite Hc, Hf, <- Hrev, rev_involutive.
  apply string_of_list_ascii_of_string.
Qed.

Lemma TrimRightFunc_drop_last (f : N -> bool) (s : string) (c : ascii)
      (rs : list ascii) :
  rev (list_ascii_of_string s) = c :: rs ->
  (N_of_ascii c <? RuneSelf)%N = true -> f (N_of_ascii c) = true ->
  (String.length (TrimRightFunc f s) < String.length s)%nat.
Proof.
  intros Hrev Hc Hf. unfold TrimRightFunc. rewrite Hrev.
  assert (Hlen : String.length s = S (length rs)).
  { rewrite <- length_list_ascii_of_string, <- length_rev, Hrev.
    reflexivity. }
  rewrite Hlen. cbn [TrimRightFunc_loop DecodeLastRune_rev].
  rewrite Hc, Hf. rewrite length_string_of_list_ascii, length_rev.
  change (drop 1 (c :: rs)) with rs.
  pose proof (TrimRightFunc_loop_length (length rs) f rs). lia.
Qed.

Lemma ascii_only_app (s t : string) :
  ascii_only (s +:+ t) = ascii_only s && ascii_only t.
Proof.
  induction s as [|c s IH]; [reflexivity|].
  rewrite string_app_cons. simpl. rewrite IH, andb_assoc. reflexivity.
Qed.

Lemma ascii_only_Forall (s : string) :
  ascii_only s = true ->
  Forall (fun c => (N_of_ascii c <? RuneSelf)%N = true)
         (list_ascii_of_string s).
Proof.
  induction s as [|c s IH]; simpl; intros H; [constructor|].
  apply andb_prop in H as [H1 H2]. constructor; [exact H1|apply IH, H2].
Qed.

Lemma list_ascii_of_string_app (s t : string) :
  list_ascii_of_string (s +:+ t) =
  list_ascii_of_string s ++ list_ascii_of_string t.
Proof.
  induction s as [|c s IH]; [reflexivity|].
  rewrite string_app_cons. simpl. rewrite IH. reflexivity.
Qed.

(** The last byte of a string that is not empty. *)
Lemma last_byte (s : string) :
  s <> EmptyString ->
  exists c rs, rev (list_ascii_of_string s) = c :: rs.
Proof.
  intros Hne. destruct (rev (list_ascii_of_string s)) as [|c rs] eqn:E;
    [|eauto].
  exfalso. apply Hne. apply (f_equal (@length ascii)) in E.
  rewrite length_rev, length_list_ascii_of_string in E.
  destruct s; [reflexivity|discriminate].
Qed.

(** What [TrimSpace] leaves alone, among the strings of bytes below 0x80,
    starts and ends with a byte that is no white space. *)
Lemma TrimSpace_fixed (c : ascii) (s : string) :
  ascii_only (String c s) = true ->
  TrimSpace (String c s) = String c s ->
  IsSpace (N_of_ascii c) = false /\
  exists d rs, rev (list_ascii_of_string (String c s)) = d :: rs /\
               (N_of_ascii d <? RuneSelf)%N = true /\
               IsSpace (N_of_ascii d) = false.
Proof.
  intros Hascii H.
  assert (Hc : (N_of_ascii c <? RuneSelf)%N = true)
    by (simpl in Hascii; apply andb_prop in Hascii as [Hc _]; exact Hc).
  assert (Hsp : IsSpace (N_of_ascii c) = false).
  { destruct (IsSpace (N_of_ascii c)) eqn:Ec; [|reflexivity]. exfalso.
    unfold TrimSpace in H. rewrite (TrimLeftFunc_skip _ _ _ Hc Ec) in H.
    pose proof (TrimRightFunc_length IsSpace (TrimLeftFunc IsSpace s)) as H1.
    pose proof (TrimLeftFunc_loop_length (String.length s) IsSpace s) as H2.
    fold (TrimLeftFunc IsSpace s) in H2.
    rewrite H in H1. simpl in H1. lia. }
  split; [exact Hsp|].
  destruct (last_byte (String c s)) as (d & rs & Hrev); [discriminate|].
  exists d, rs. split; [exact Hrev|].
  assert (Hd : (N_of_ascii d <? RuneSelf)%N = true).
  { pose proof (ascii_only_Forall _ Hascii) as HF.
    apply Forall_rev in HF. rewrite Hrev in HF.
    inversion HF; assumption. }
  split; [exact Hd|].
  destruct (IsSpace (N_of_ascii d)) eqn:Ed; [|reflexivity]. exfalso.
  unfold TrimSpace in H. rewrite (TrimLeftFunc_head _ _ _ Hc Hsp) in H.
  pose proof (TrimRightFunc_drop_last _ _ _ _ Hrev Hd Ed) as Hlt.
  rewrite H in Hlt. lia.
Qed.

Lemma clean_header_line (k v : string) :
  clean_header (k, v) = true ->
  TrimSpace (header_line (k, v)) = header_line (k, v) /\
  header_line (k, v) <> EmptyString /\
  SplitN_2 (header_line (k, v)) ":" = [k; String " " v] /\
  TrimSpace k = k /\ TrimSpace (String " " v) = v.
Proof.
  unfold clean_header, header_line. cbn [fst snd]. intros H.
  repeat (apply andb_prop in H; destruct H as [H ?]).
  destruct k as [|c k]; [discriminate|]. destruct v as [|d v]; [discriminate|].
  rewrite !ascii_only_app in H.
  apply andb_prop in H as [Hak Hav]. apply andb_prop in Hav as [_ Hav].
  match goal with Hk : String.eqb (TrimSpace (String c k)) _ = true |- _ =>
    apply String.eqb_eq in Hk;
    destruct (TrimSpace_fixed _ _ Hak Hk) as [Hc _]; pose proof Hk as Hktrim
  end.
  match goal with Hv : String.eqb (TrimSpace (String d v)) _ = true |- _ =>
    apply String.eqb_eq in Hv;
    destruct (TrimSpace_fixed _ _ Hav Hv) as (Hd & e & rs & Hrev & He & Hesp);
    pose proof Hv as Hvtrim
  end.
  match goal with Hcut : isNil (Cut (String c k) ":") = true |- _ =>
    destruct (Cut (String c k) ":") as [p|] eqn:Ecut; [discriminate|] end.
  assert (Hck : (N_of_ascii c <? RuneSelf)%N = true)
    by (simpl in Hak; apply andb_prop in Hak as [Hck _]; exact Hck).
  assert (Hcd : (N_of_ascii d <? RuneSelf)%N = true)
    by (simpl in Hav; apply andb_prop in Hav as [Hcd _]; exact Hcd).
  split; [|split; [|split; [|split]]].
  - unfold TrimSpace. rewrite string_app_cons.
    rewrite (TrimLeftFunc_head _ _ _ Hck Hc).
    apply (TrimRightFunc_last _ _ e
             (rs ++ rev (list_ascii_of_string (String c k +:+ ": ")))
           ); [|exact He|exact Hesp].
    rewrite <- string_app_cons.
    replace (String c k +:+ ": " +:+ String d v)
      with ((String c k +:+ ": ") +:+ String d v)
      by (rewrite <- string_app_assoc; reflexivity).
    rewrite list_ascii_of_string_app, rev_app_distr, Hrev. reflexivity.
  - rewrite string_app_cons. discriminate.
  - unfold SplitN_2.
    change (": " +:+ String d v) with (String ":" (String " " (String d v))).
    rewrite (Cut_app_sep _ _ _ Ecut). reflexivity.
  - exact Hktrim.
  - unfold TrimSpace.
    rewrite (TrimLeftFunc_skip IsSpace " " (String d v)) by reflexivity.
    exact Hvtrim.
Qed.
Lemma clean_header_scan (kv : string * string) :
  clean_header kv = true ->
  Cut (header_line kv) LF = None /\
  (N.of_nat (String.length (header_line kv)) + 1 <? MaxScanTokenSize)%N = true.
Proof.
  unfold clean_header. intros H.
  repeat (apply andb_prop in H; destruct H as [H ?]).
  split; [|assumption].
  destruct (Cut (header_line kv) LF); [discriminate|reflexivity].
Qed.

Lemma readHeaders_scan_clean (kvs : list (string * string)) :
  Forall (fun kv => clean_header kv = true) kvs ->
  readHeaders_scan (header_line <$> kvs) = (kvs, None).
Proof.
  induction 1 as [|[k v] kvs Hkv _ IH]; [reflexivity|].
  destruct (clean_header_line k v Hkv) as (Ht & Hne & Hsplit & Hk & Hv).
  cbn [fmap list_fmap readHeaders_scan].
  change (list_fmap _ _ header_line kvs) with (header_line <$> kvs).
  rewrite Ht, Hsplit, IH, Hk, Hv.
  destruct (header_line (k, v)); [contradiction|reflexivity].
Qed.

(** X28. A block of well-formed headers reads back as written:
    [readHeaders] hands the callback exactly the names and values the
    lines were made of, in their order, and reports no error. *)
Theorem X28_readHeaders_reads_back (kvs : list (string * string)) :
  Forall (fun kv => clean_header kv = true) kvs ->
  readHeaders (lines_of (header_line <$> kvs)) = (kvs, None).
Proof.
  intros H. unfold readHeaders.
  rewrite ScanLines_lines_of.
  - apply readHeaders_scan_clean. exact H.
  - apply Forall_fmap. eapply List.Forall_impl; [|exact H].
    intros kv Hkv. apply (clean_header_scan kv Hkv).
  - apply Forall_fmap. eapply List.Forall_impl; [|exact H].
    intros kv Hkv. apply (clean_header_scan kv Hkv).
Qed.

Lemma X28_readHeaders_reads_back_witness :
  readHeaders (lines_of (header_line <$> sample_headers))
  = (sample_headers, None).
Proof.
  apply (X28_readHeaders_reads_back sample_headers).
  repeat constructor.
Defined.

(* ===================================================================== *)
(** * A request and its response *)
(* ===================================================================== *)

Lemma HandleRequest_ResponseCheck (env : Env) (a a' : Application)
      (message : applicationRequest) (w : Writer) (err : option HandlerError) :
  HandleRequest env a message = Ret (a', w, err) ->
  ResponseCheck a' = ResponseCheck a.
Proof.
  unfold HandleRequest. intros E.
  destruct (requestGates env a (ensure_ID env message))
    as [[a1 early]| |] eqn:Egate; cbn [bind] in E; try discriminate.
  destruct (requestGates_steps _ _ _ _ _ Egate) as (cs1 & (HRC & _) & _).
  destruct early as [e|]; [inversion E; subst; exact HRC|].
  destruct (NewTransactionWithID env a1 (ID (ensure_ID env message)))
    as [a2 t] eqn:Enew.
  unfold NewTransactionWithID in Enew. inversion Enew as [[Ea2 Et]].
  clear Enew.
  destruct (requestProcessing env a2 t (ensure_ID env message))
    as [[[a3 t3] w3] err3] eqn:Eproc.
  destruct (requestProcessing_steps _ _ _ _ _ _ _ _ Eproc)
    as (cs3 & (HRC3 & _) & _).
  assert (HRC2 : ResponseCheck a3 = ResponseCheck a)
    by (rewrite HRC3, <- Ea2; simpl; exact HRC).
  destruct (isNil err3 && ResponseCheck a3).
  - inversion E; subst a' w err. unfold cacheTransaction. simpl. exact HRC2.
  - destruct (finalize env a3 t3 _ _) as [a4| |] eqn:Efin;
      cbn [bind] in E; try discriminate.
    inversion E; subst a' w err.
    destruct (finalize_steps _ _ _ _ _ _ Efin) as (cs4 & (HRC4 & _) & _).
    congruence.
Qed.

Lemma ensure_ID_nonempty (env : Env) (message : applicationRequest) :
  is_empty (ID (ensure_ID env message)) = false.
Proof.
  unfold ensure_ID.
  destruct (String.length (ID message) =? 0)%nat eqn:E; [reflexivity|].
  destruct (ID message); [discriminate|reflexivity].
Qed.

(** X29. A request and its response.  With response checking on, a
    request that the handler lets through without an error, followed by
    the response that carries the same id, finalizes the transaction of
    that request exactly once, in the response handler, and no other
    transaction; afterwards the cache holds no entry under that id (an
    older entry of the same id, overwritten by the request, is gone with
    it and was not finalized). *)
Theorem X29_request_then_response (env env' : Env) (a a1 : Application)
        (message : applicationRequest) (w : Writer)
        (res : applicationResponse) :
  let req := ensure_ID env message in
  let h := next_handle a in
  ResponseCheck a = true -> store_running a ->
  HandleRequest env a message = Ret (a1, w, None) ->
  res_ID res = ID req ->
  (forall h', closes h' (calls a1) = closes h' (calls a) /\
              loggings h' (calls a1) = loggings h' (calls a)) /\
  exists a2 err,
    HandleResponse env' a1 res = Ret (a2, err) /\
    cache a2 = delete (ID req) (cache a) /\
    forall h',
      closes h' (calls a2) =
        (closes h' (calls a) + if (h =? h')%nat then 1 else 0)%nat /\
      loggings h' (calls a2) =
        (loggings h' (calls a) + if (h =? h')%nat then 1 else 0)%nat.
Proof.
  intros req h Hcheck Hrun E Hid.
  pose proof (HandleRequest_ResponseCheck _ _ _ _ _ _ E) as HRC.
  destruct (HandleRequest_cases env a a1 message w None E)
    as (_ & Hrun1 & [(cs & _ & _ & _ & Hne)|(_ & Hnh & cs & t & Hcalls & Ht &
                                            Hidt & Hbr)]);
    [congruence|].
  fold req h in Hbr, Ht, Hidt. simpl isNil in Hbr. rewrite Hcheck in Hbr.
  cbn [andb] in Hbr. destruct Hbr as (Hq & Hc & Htx).
  assert (Hquiet : forall h', closes h' (calls a1) = closes h' (calls a) /\
                              loggings h' (calls a1) = loggings h' (calls a)).
  { intros h'. rewrite Hcalls, closes_app, loggings_app.
    destruct (quiet_counts h' cs Hq) as [-> ->]. split; lia. }
  split; [exact Hquiet|].
  destruct (HandleResponse_free_guard env' a1 res h
              (mkTransaction t false (Some req)))
    as (a2 & err & t' & E2 & Hc2 & _ & _ & Hcount).
  - congruence.
  - rewrite Hid. apply ensure_ID_nonempty.
  - rewrite Hid, Hc. apply lookup_insert_eq.
  - rewrite Htx. apply lookup_insert_eq.
  - reflexivity.
  - exact (Hrun1 Hrun).
  - exists a2, err. split; [exact E2|]. split.
    + rewrite Hc2, Hid, Hc. apply delete_insert_eq.
    + intros h'. destruct (Hcount h') as [Hcl Hlg]. simpl tx in Hcl, Hlg.
      rewrite Ht in Hcl, Hlg. destruct (Hquiet h') as [Hq1 Hq2].
      rewrite Hcl, Hlg, Hq1, Hq2. split; reflexivity.
Qed.

Lemma X29_request_then_response_witness :
  exists a1 w a2 err,
    HandleRequest sample_env sample_app plain_request = Ret (a1, w, None) /\
    HandleResponse sample_env a1 (sample_response "TXPLAIN000000001")
      = Ret (a2, err) /\
    cache a2 = delete "TXPLAIN000000001" (cache sample_app) /\
    closes 0 (calls a2) = 1%nat.
Proof.
  assert (E : exists a1 w,
            HandleRequest sample_env sample_app plain_request
            = Ret (a1, w, None))
    by (eexists _, _; vm_compute; reflexivity).
  destruct E as (a1 & w & E).
  destruct (X29_request_then_response sample_env sample_env sample_app a1
              plain_request w (sample_response "TXPLAIN000000001")
              eq_refl sample_app_running E eq_refl)
    as (_ & a2 & err & E2 & Hc & Hcount).
  exists a1, w, a2, err. split; [exact E|]. split; [exact E2|].
  split; [exact Hc|]. apply (Hcount 0%nat).
Defined.

(* ===================================================================== *)
(** * Header blocks with bytes above 0x7F *)
(* ===================================================================== *)

Example TrimSpace_unicode :
  TrimSpace (nbsp +:+ " a b " +:+ nbsp) = "a b" /\
  TrimSpace (String (ascii_of_N 160) "ab") = String (ascii_of_N 160) "ab" /\
  DecodeRune long_s = (383%N, 2%nat) /\
  DecodeRune kelvin = (8490%N, 3%nat) /\
  DecodeLastRune ("ab" +:+ nbsp) = (160%N, 2%nat).
Proof. vm_compute. repeat split; reflexivity. Qed.

Example EqualFold_unicode :
  EqualFold long_s_host "host" = true /\
  EqualFold (kelvin +:+ "eep-alive") "KEEP-ALIVE" = true /\
  EqualFold "host" "hosts" = false /\
  EqualFold (String (ascii_of_N 255) "x") (String (ascii_of_N 254) "X")
    = true.
Proof. vm_compute. repeat split; reflexivity. Qed.

(** A header name followed by U+00A0 is that header, and a name written
    with U+017F for s is that name. *)
Example getRealClientIP_unicode :
  getRealClientIP (Some evade_request) = "192.0.2.250" /\
  getRealClientIP (Some padded_request) = "203.0.113.7" /\
  getRealClientIP
    (Some (sample_request
             (lines_of ["Fa" +:+ long_s +:+ "tly-Client-IP: 192.0.2.66"])))
  = "192.0.2.66".
Proof. vm_compute. repeat split; reflexivity. Qed.

(** The ban follows the derived address: the first request is not taken
    for the banned 203.0.113.7 and passes, the second is denied. *)
Example HandleRequest_unicode_forwarding :
  (exists a' w, HandleRequest sample_env sample_app evade_request
                = Ret (a', w, None)) /\
  (exists a',
     HandleRequest sample_env sample_app padded_request =
       Ret (a', [],
            Some (deny 403 "IP has been blocked until 2025-06-15T15:50:00Z due to bruteforce"))).
Proof. split; [eexists _, _|eexists]; vm_compute; reflexivity. Qed.

